(** * TurboDrift2D: the simulation core of [Games/TurboDrift2D/game.js]

    A shallow embedding of the map loader, the track geometry, the collision
    kernel, the vehicle dynamics and the checkpoint tracker, followed by the
    properties the specification states about them.

    Conventions of the embedding.
    - A JavaScript number that holds a coordinate, a speed, an angle or a
      time is a real number ([R]): IEEE rounding, NaN and the infinities are
      not modelled.  The concrete examples below use small integers, on
      which binary64 arithmetic decides every comparison the same way.
    - A number that the Tiled format declares as an integer (tile sizes, map
      sizes, global tile ids, first gids, ...) is a [Z]; bitwise operators
      act on its 32-bit two's complement value, as in JavaScript.
    - Strings are ASCII: [toLowerCase] and the regular expressions act on
      ASCII letters, digits and white space.
    - Module-level [let] variables are the fields of one record, [Game];
      a function that assigns them takes a [Game] and returns the next one.
    - A thrown exception is a result constructor carrying the [Game] reached
      when it was thrown: assignments made before a throw are kept. *)

From Stdlib Require Import Reals Lra Lia ZArith List Bool String Ascii.
From Stdlib Require Import Zfloor.
Import ListNotations.

Local Open Scope R_scope.

(* ================================================================== *)
(** * Numbers *)
(* ================================================================== *)

Definition Rltb (a b : R) : bool := if Rlt_dec a b then true else false.
Definition Rleb (a b : R) : bool := if Rle_dec a b then true else false.
Definition Reqb (a b : R) : bool := if Req_dec_T a b then true else false.

(** [a || b] on numbers: [b] when [a] is zero. *)
Definition num_or (a b : R) : R := if Req_dec_T a 0 then b else a.

(** [a || b] on integers. *)
Definition int_or (a b : Z) : Z := if (a =? 0)%Z then b else a.

(** [o.f || b] for a numeric field that may be missing. *)
Definition field_or (o : option R) (b : R) : R :=
  match o with Some v => num_or v b | None => b end.

Definition ifield_or (o : option Z) (b : Z) : Z :=
  match o with Some v => int_or v b | None => b end.

Definition clamp (v min max : R) : R := Rmax min (Rmin max v).
Definition lerp (a b t : R) : R := a + (b - a) * t.
Definition degToRad (deg : R) : R := (deg * PI) / 180.

Definition Math_hypot (x y : R) : R := sqrt (x * x + y * y).
Definition Math_floor (x : R) : Z := Zfloor x.
Definition Math_abs (x : R) : R := Rabs x.

(** [Math.atan2 (y, x)], by quadrant; at the origin it is 0. *)
Definition Math_atan2 (y x : R) : R :=
  if Rlt_dec 0 x then atan (y / x)
  else if Rlt_dec x 0 then
         (if Rle_dec 0 y then atan (y / x) + PI else atan (y / x) - PI)
  else if Rlt_dec 0 y then PI / 2
  else if Rlt_dec y 0 then - (PI / 2)
  else 0.

(** 32-bit integer view used by [&], [|] and [~]. *)
Definition toInt32 (z : Z) : Z :=
  ((z + 2147483648) mod 4294967296 - 2147483648)%Z.
Definition bit_and (a b : Z) : Z := Z.land (toInt32 a) (toInt32 b).
Definition bit_or (a b : Z) : Z := Z.lor (toInt32 a) (toInt32 b).
Definition bit_not (a : Z) : Z := Z.lnot (toInt32 a).

Definition FLIP_H : Z := 0x80000000.
Definition FLIP_V : Z := 0x40000000.
Definition FLIP_D : Z := 0x20000000.

(** [arr[i]] for an integer index: [None] is [undefined]. *)
Definition at_index {A : Type} (l : list A) (i : Z) : option A :=
  if (i <? 0)%Z then None else nth_error l (Z.to_nat i).

Definition length_Z {A : Type} (l : list A) : Z := Z.of_nat (List.length l).

(* ================================================================== *)
(** * Strings *)
(* ================================================================== *)

Definition lower_ascii (c : ascii) : ascii :=
  let n := nat_of_ascii c in
  if andb (Nat.leb 65 n) (Nat.leb n 90) then ascii_of_nat (n + 32) else c.

Fixpoint toLowerCase (s : string) : string :=
  match s with
  | EmptyString => EmptyString
  | String c r => String (lower_ascii c) (toLowerCase r)
  end.

(** [s.includes(sub)] for a non-empty [sub]. *)
Definition includes (s sub : string) : bool :=
  match index 0 sub s with Some _ => true | None => false end.

Definition str_or (a : option string) (b : string) : string :=
  match a with
  | Some EmptyString => b
  | Some s => s
  | None => b
  end.

(** [\s]: the ASCII white space characters. *)
Definition is_space (c : ascii) : bool :=
  let n := nat_of_ascii c in
  orb (Nat.eqb n 32) (andb (Nat.leb 9 n) (Nat.leb n 13)).

Definition is_digit (c : ascii) : bool :=
  let n := nat_of_ascii c in andb (Nat.leb 48 n) (Nat.leb n 57).

(** [s.replace(/\s+/g, "")]. *)
Fixpoint remove_spaces (s : string) : string :=
  match s with
  | EmptyString => EmptyString
  | String c r => if is_space c then remove_spaces r
                  else String c (remove_spaces r)
  end.

Fixpoint all_digits (s : string) : bool :=
  match s with
  | EmptyString => true
  | String c r => andb (is_digit c) (all_digits r)
  end.

(** Decimal value of a string of digits, most significant first. *)
Fixpoint digits_value (acc : Z) (s : string) : Z :=
  match s with
  | EmptyString => acc
  | String c r =>
      digits_value (acc * 10 + (Z.of_nat (nat_of_ascii c) - 48))%Z r
  end.

(** [/^checkpoint\d+$/.test(name)] together with
    [parseInt(name.replace("checkpoint", ""), 10)]: the index when the name
    is the word followed by at least one digit and nothing else. *)
Definition checkpoint_number (name : string) : option Z :=
  if prefix "checkpoint" name then
    let rest := substring 10 (String.length name - 10) name in
    match rest with
    | EmptyString => None
    | _ => if all_digits rest then Some (digits_value 0 rest) else None
    end
  else None.

(* ================================================================== *)
(** * Geometry and the collision kernel *)
(* ================================================================== *)

(** An object [{x, y}]. *)
Record Pt : Type := mkPt { px : R; py : R }.

(** An object [{x, y, angle}]. *)
Record Pose : Type := mkPose { pose_x : R; pose_y : R; pose_angle : R }.

Definition circleCircleCollision (a b : Pt) (r : R) : bool :=
  let dx := px a - px b in
  let dy := py a - py b in
  Rltb (dx * dx + dy * dy) (r * r).

Definition resolveCircleCollision (a b : Pt) (r : R) : Pt :=
  let dx := px a - px b in
  let dy := py a - py b in
  let dist := num_or (Math_hypot dx dy) 1 in
  let overlap := r - dist in
  mkPt (dx / dist * overlap) (dy / dist * overlap).

Definition circleRectCollision (cx cy r rx ry rw rh : R) : bool :=
  let nearestX := clamp cx rx (rx + rw) in
  let nearestY := clamp cy ry (ry + rh) in
  let dx := cx - nearestX in
  let dy := cy - nearestY in
  Rltb (dx * dx + dy * dy) (r * r).

Definition resolveCircleRect (cx cy r rx ry rw rh : R) : Pt :=
  let nearestX := clamp cx rx (rx + rw) in
  let nearestY := clamp cy ry (ry + rh) in
  let dx := cx - nearestX in
  let dy := cy - nearestY in
  let dist := num_or (Math_hypot dx dy) 1 in
  let overlap := r - dist in
  mkPt ((dx / dist) * overlap) ((dy / dist) * overlap).

Definition segmentIntersect (x1 y1 x2 y2 x3 y3 x4 y4 : R) : bool :=
  let den := (x1 - x2) * (y3 - y4) - (y1 - y2) * (x3 - x4) in
  if Reqb den 0 then false
  else
    let t := ((x1 - x3) * (y3 - y4) - (y1 - y3) * (x3 - x4)) / den in
    let u := - ((x1 - x2) * (y1 - y3) - (y1 - y2) * (x1 - x3)) / den in
    Rleb 0 t && Rleb t 1 && Rleb 0 u && Rleb u 1.

(* ================================================================== *)
(** * The module-level state *)
(* ================================================================== *)

(** [car = {x, y, angle, speed, radius}]. *)
Record Car : Type := mkCar {
  car_x : R;
  car_y : R;
  car_angle : R;
  car_speed : R;
  car_radius : R
}.

Definition car_pos (c : Car) : Pt := mkPt (car_x c) (car_y c).

(** An element of [obstacles]: [{x, y, w, h, isRect: true}] or
    [{x, y, r}]. *)
Inductive Obstacle : Type :=
| ObsRect (x y w h : R)
| ObsCircle (x y r : R).

(** An element of [checkpoints]: the segment [(x1,y1)-(x2,y2)]. *)
Record Checkpoint : Type := mkCheckpoint {
  cp_x1 : R;
  cp_y1 : R;
  cp_x2 : R;
  cp_y2 : R
}.

(** An element of [aiCars].  The cars created without a spawn point in
    track mode carry no [x], [y] and [angle]. *)
Record AICar : Type := mkAICar {
  ai_x : option R;
  ai_y : option R;
  ai_angle : option R;
  ai_t : R;
  ai_speed : R;
  ai_useTrack : bool;
  ai_radius : R;
  ai_checkpointIndex : Z;
  ai_lap : Z;
  ai_finished : bool
}.

(** An element of [trackSegments]: [{a, b, len, dx, dy}]. *)
Record TrackSegment : Type := mkSeg {
  seg_a : Pt;
  seg_b : Pt;
  seg_len : R;
  seg_dx : R;
  seg_dy : R
}.

(** The value of the [name] of a layer, which the loader reads with
    [name || ""] and lower-cases without a type test: a string, or a value
    of another JSON type (a number, a boolean, an array or an object), on
    which [toLowerCase] is not a function. *)
Inductive NameValue : Type :=
| NameString (s : string)
| NameNumber (v : R)
| NameBool (b : bool)
| NameObject.

Coercion NameString : string >-> NameValue.
Bind Scope string_scope with NameValue.

(** An element of [tiledTileLayers]; its name is [layer.name || ""]. *)
Record TileLayer : Type := mkTileLayer {
  tl_name : NameValue;
  tl_data : list Z;
  tl_width : Z;
  tl_height : Z;
  tl_opacity : R;
  tl_visible : bool
}.

(** An element of [tiledTilesetMeta]. *)
Record TilesetMeta : Type := mkTilesetMeta {
  ts_firstgid : Z;
  ts_name : string;
  ts_image : option string;
  ts_imagewidth : Z;
  ts_imageheight : Z;
  ts_tilewidth : Z;
  ts_tileheight : Z;
  ts_spacing : Z;
  ts_margin : Z;
  ts_columns : Z;
  ts_tilecount : Z
}.

(** A loaded image, named by the path it was loaded from. *)
Definition Img : Type := string.

(** An element of [tiledTrackTiles]: a tile object placed on the map. *)
Record TileSprite : Type := mkTileSprite {
  spr_img : Img;
  spr_sx : Z;
  spr_sy : Z;
  spr_sw : Z;
  spr_sh : Z;
  spr_x : R;
  spr_y : R;
  spr_w : R;
  spr_h : R;
  spr_rotation : R;
  spr_flipH : bool;
  spr_flipV : bool;
  spr_flipD : bool
}.

Record Game : Type := mkGame {
  worldWidth : Z;
  worldHeight : Z;
  tiledTrackTiles : list TileSprite;
  tiledTileLayers : list TileLayer;
  tiledRoadLayers : list TileLayer;
  tiledGroundLayers : list TileLayer;
  tiledTilesetMeta : list TilesetMeta;
  tiledTilesetImages : list (Z * Img);
  tiledMapTileWidth : Z;
  tiledMapTileHeight : Z;
  tiledMapWidth : Z;
  tiledMapHeight : Z;
  hasMapObjects : bool;
  car : Car;
  obstacles : list Obstacle;
  trackWidth : R;
  trackPath : list Pt;
  checkpoints : list Checkpoint;
  hasMapObstacles : bool;
  hasMapCheckpoints : bool;
  startSpawn : Pose;
  aiSpawnPoints : list Pose;
  aiCars : list AICar;
  aiCheckpoints : list Pt;
  raceLaps : Z;
  trackSegments : list TrackSegment;
  trackLength : R;
  currentCheckpoint : Z;
  lastCheckpointIndex : Z;
  lap : Z;
  lastX : R;
  lastY : R;
  countdownActive : bool;
  started : bool
}.

(** Assignment to one module-level variable. *)
Definition set_worldWidth (v : Z) (g : Game) : Game :=
  mkGame v (worldHeight g) (tiledTrackTiles g) (tiledTileLayers g)
    (tiledRoadLayers g) (tiledGroundLayers g) (tiledTilesetMeta g)
    (tiledTilesetImages g) (tiledMapTileWidth g) (tiledMapTileHeight g)
    (tiledMapWidth g) (tiledMapHeight g) (hasMapObjects g) (car g)
    (obstacles g) (trackWidth g) (trackPath g) (checkpoints g)
    (hasMapObstacles g) (hasMapCheckpoints g) (startSpawn g)
    (aiSpawnPoints g) (aiCars g) (aiCheckpoints g) (raceLaps g)
    (trackSegments g) (trackLength g) (currentCheckpoint g)
    (lastCheckpointIndex g) (lap g) (lastX g) (lastY g) (countdownActive g)
    (started g).

Definition set_worldHeight (v : Z) (g : Game) : Game :=
  mkGame (worldWidth g) v (tiledTrackTiles g) (tiledTileLayers g)
    (tiledRoadLayers g) (tiledGroundLayers g) (tiledTilesetMeta g)
    (tiledTilesetImages g) (tiledMapTileWidth g) (tiledMapTileHeight g)
    (tiledMapWidth g) (tiledMapHeight g) (hasMapObjects g) (car g)
    (obstacles g) (trackWidth g) (trackPath g) (checkpoints g)
    (hasMapObstacles g) (hasMapCheckpoints g) (startSpawn g)
    (aiSpawnPoints g) (aiCars g) (aiCheckpoints g) (raceLaps g)
    (trackSegments g) (trackLength g) (currentCheckpoint g)
    (lastCheckpointIndex g) (lap g) (lastX g) (lastY g) (countdownActive g)
    (started g).

Definition set_tiledTrackTiles (v : list TileSprite) (g : Game) : Game :=
  mkGame (worldWidth g) (worldHeight g) v (tiledTileLayers g)
    (tiledRoadLayers g) (tiledGroundLayers g) (tiledTilesetMeta g)
    (tiledTilesetImages g) (tiledMapTileWidth g) (tiledMapTileHeight g)
    (tiledMapWidth g) (tiledMapHeight g) (hasMapObjects g) (car g)
    (obstacles g) (trackWidth g) (trackPath g) (checkpoints g)
    (hasMapObstacles g) (hasMapCheckpoints g) (startSpawn g)
    (aiSpawnPoints g) (aiCars g) (aiCheckpoints g) (raceLaps g)
    (trackSegments g) (trackLength g) (currentCheckpoint g)
    (lastCheckpointIndex g) (lap g) (lastX g) (lastY g) (countdownActive g)
    (started g).

Definition set_tiledTileLayers (v : list TileLayer) (g : Game) : Game :=
  mkGame (worldWidth g) (worldHeight g) (tiledTrackTiles g) v
    (tiledRoadLayers g) (tiledGroundLayers g) (tiledTilesetMeta g)
    (tiledTilesetImages g) (tiledMapTileWidth g) (tiledMapTileHeight g)
    (tiledMapWidth g) (tiledMapHeight g) (hasMapObjects g) (car g)
    (obstacles g) (trackWidth g) (trackPath g) (checkpoints g)
    (hasMapObstacles g) (hasMapCheckpoints g) (startSpawn g)
    (aiSpawnPoints g) (aiCars g) (aiCheckpoints g) (raceLaps g)
    (trackSegments g) (trackLength g) (currentCheckpoint g)
    (lastCheckpointIndex g) (lap g) (lastX g) (lastY g) (countdownActive g)
    (started g).

Definition set_tiledRoadLayers (v : list TileLayer) (g : Game) : Game :=
  mkGame (worldWidth g) (worldHeight g) (tiledTrackTiles g)
    (tiledTileLayers g) v (tiledGroundLayers g) (tiledTilesetMeta g)
    (tiledTilesetImages g) (tiledMapTileWidth g) (tiledMapTileHeight g)
    (tiledMapWidth g) (tiledMapHeight g) (hasMapObjects g) (car g)
    (obstacles g) (trackWidth g) (trackPath g) (checkpoints g)
    (hasMapObstacles g) (hasMapCheckpoints g) (startSpawn g)
    (aiSpawnPoints g) (aiCars g) (aiCheckpoints g) (raceLaps g)
    (trackSegments g) (trackLength g) (currentCheckpoint g)
    (lastCheckpointIndex g) (lap g) (lastX g) (lastY g) (countdownActive g)
    (started g).

Definition set_tiledGroundLayers (v : list TileLayer) (g : Game) : Game :=
  mkGame (worldWidth g) (worldHeight g) (tiledTrackTiles g)
    (tiledTileLayers g) (tiledRoadLayers g) v (tiledTilesetMeta g)
    (tiledTilesetImages g) (tiledMapTileWidth g) (tiledMapTileHeight g)
    (tiledMapWidth g) (tiledMapHeight g) (hasMapObjects g) (car g)
    (obstacles g) (trackWidth g) (trackPath g) (checkpoints g)
    (hasMapObstacles g) (hasMapCheckpoints g) (startSpawn g)
    (aiSpawnPoints g) (aiCars g) (aiCheckpoints g) (raceLaps g)
    (trackSegments g) (trackLength g) (currentCheckpoint g)
    (lastCheckpointIndex g) (lap g) (lastX g) (lastY g) (countdownActive g)
    (started g).

Definition set_tiledTilesetMeta (v : list TilesetMeta) (g : Game) : Game :=
  mkGame (worldWidth g) (worldHeight g) (tiledTrackTiles g)
    (tiledTileLayers g) (tiledRoadLayers g) (tiledGroundLayers g) v
    (tiledTilesetImages g) (tiledMapTileWidth g) (tiledMapTileHeight g)
    (tiledMapWidth g) (tiledMapHeight g) (hasMapObjects g) (car g)
    (obstacles g) (trackWidth g) (trackPath g) (checkpoints g)
    (hasMapObstacles g) (hasMapCheckpoints g) (startSpawn g)
    (aiSpawnPoints g) (aiCars g) (aiCheckpoints g) (raceLaps g)
    (trackSegments g) (trackLength g) (currentCheckpoint g)
    (lastCheckpointIndex g) (lap g) (lastX g) (lastY g) (countdownActive g)
    (started g).

Definition set_tiledTilesetImages (v : list (Z * Img)) (g : Game) : Game :=
  mkGame (worldWidth g) (worldHeight g) (tiledTrackTiles g)
    (tiledTileLayers g) (tiledRoadLayers g) (tiledGroundLayers g)
    (tiledTilesetMeta g) v (tiledMapTileWidth g) (tiledMapTileHeight g)
    (tiledMapWidth g) (tiledMapHeight g) (hasMapObjects g) (car g)
    (obstacles g) (trackWidth g) (trackPath g) (checkpoints g)
    (hasMapObstacles g) (hasMapCheckpoints g) (startSpawn g)
    (aiSpawnPoints g) (aiCars g) (aiCheckpoints g) (raceLaps g)
    (trackSegments g) (trackLength g) (currentCheckpoint g)
    (lastCheckpointIndex g) (lap g) (lastX g) (lastY g) (countdownActive g)
    (started g).

Definition set_tiledMapTileWidth (v : Z) (g : Game) : Game :=
  mkGame (worldWidth g) (worldHeight g) (tiledTrackTiles g)
    (tiledTileLayers g) (tiledRoadLayers g) (tiledGroundLayers g)
    (tiledTilesetMeta g) (tiledTilesetImages g) v (tiledMapTileHeight g)
    (tiledMapWidth g) (tiledMapHeight g) (hasMapObjects g) (car g)
    (obstacles g) (trackWidth g) (trackPath g) (checkpoints g)
    (hasMapObstacles g) (hasMapCheckpoints g) (startSpawn g)
    (aiSpawnPoints g) (aiCars g) (aiCheckpoints g) (raceLaps g)
    (trackSegments g) (trackLength g) (currentCheckpoint g)
    (lastCheckpointIndex g) (lap g) (lastX g) (lastY g) (countdownActive g)
    (started g).

Definition set_tiledMapTileHeight (v : Z) (g : Game) : Game :=
  mkGame (worldWidth g) (worldHeight g) (tiledTrackTiles g)
    (tiledTileLayers g) (tiledRoadLayers g) (tiledGroundLayers g)
    (tiledTilesetMeta g) (tiledTilesetImages g) (tiledMapTileWidth g) v
    (tiledMapWidth g) (tiledMapHeight g) (hasMapObjects g) (car g)
    (obstacles g) (trackWidth g) (trackPath g) (checkpoints g)
    (hasMapObstacles g) (hasMapCheckpoints g) (startSpawn g)
    (aiSpawnPoints g) (aiCars g) (aiCheckpoints g) (raceLaps g)
    (trackSegments g) (trackLength g) (currentCheckpoint g)
    (lastCheckpointIndex g) (lap g) (lastX g) (lastY g) (countdownActive g)
    (started g).

Definition set_tiledMapWidth (v : Z) (g : Game) : Game :=
  mkGame (worldWidth g) (worldHeight g) (tiledTrackTiles g)
    (tiledTileLayers g) (tiledRoadLayers g) (tiledGroundLayers g)
    (tiledTilesetMeta g) (tiledTilesetImages g) (tiledMapTileWidth g)
    (tiledMapTileHeight g) v (tiledMapHeight g) (hasMapObjects g) (car g)
    (obstacles g) (trackWidth g) (trackPath g) (checkpoints g)
    (hasMapObstacles g) (hasMapCheckpoints g) (startSpawn g)
    (aiSpawnPoints g) (aiCars g) (aiCheckpoints g) (raceLaps g)
    (trackSegments g) (trackLength g) (currentCheckpoint g)
    (lastCheckpointIndex g) (lap g) (lastX g) (lastY g) (countdownActive g)
    (started g).

Definition set_tiledMapHeight (v : Z) (g : Game) : Game :=
  mkGame (worldWidth g) (worldHeight g) (tiledTrackTiles g)
    (tiledTileLayers g) (tiledRoadLayers g) (tiledGroundLayers g)
    (tiledTilesetMeta g) (tiledTilesetImages g) (tiledMapTileWidth g)
    (tiledMapTileHeight g) (tiledMapWidth g) v (hasMapObjects g) (car g)
    (obstacles g) (trackWidth g) (trackPath g) (checkpoints g)
    (hasMapObstacles g) (hasMapCheckpoints g) (startSpawn g)
    (aiSpawnPoints g) (aiCars g) (aiCheckpoints g) (raceLaps g)
    (trackSegments g) (trackLength g) (currentCheckpoint g)
    (lastCheckpointIndex g) (lap g) (lastX g) (lastY g) (countdownActive g)
    (started g).

Definition set_hasMapObjects (v : bool) (g : Game) : Game :=
  mkGame (worldWidth g) (worldHeight g) (tiledTrackTiles g)
    (tiledTileLayers g) (tiledRoadLayers g) (tiledGroundLayers g)
    (tiledTilesetMeta g) (tiledTilesetImages g) (tiledMapTileWidth g)
    (tiledMapTileHeight g) (tiledMapWidth g) (tiledMapHeight g) v (car g)
    (obstacles g) (trackWidth g) (trackPath g) (checkpoints g)
    (hasMapObstacles g) (hasMapCheckpoints g) (startSpawn g)
    (aiSpawnPoints g) (aiCars g) (aiCheckpoints g) (raceLaps g)
    (trackSegments g) (trackLength g) (currentCheckpoint g)
    (lastCheckpointIndex g) (lap g) (lastX g) (lastY g) (countdownActive g)
    (started g).

Definition set_car (v : Car) (g : Game) : Game :=
  mkGame (worldWidth g) (worldHeight g) (tiledTrackTiles g)
    (tiledTileLayers g) (tiledRoadLayers g) (tiledGroundLayers g)
    (tiledTilesetMeta g) (tiledTilesetImages g) (tiledMapTileWidth g)
    (tiledMapTileHeight g) (tiledMapWidth g) (tiledMapHeight g)
    (hasMapObjects g) v (obstacles g) (trackWidth g) (trackPath g)
    (checkpoints g) (hasMapObstacles g) (hasMapCheckpoints g) (startSpawn g)
    (aiSpawnPoints g) (aiCars g) (aiCheckpoints g) (raceLaps g)
    (trackSegments g) (trackLength g) (currentCheckpoint g)
    (lastCheckpointIndex g) (lap g) (lastX g) (lastY g) (countdownActive g)
    (started g).

Definition set_obstacles (v : list Obstacle) (g : Game) : Game :=
  mkGame (worldWidth g) (worldHeight g) (tiledTrackTiles g)
    (tiledTileLayers g) (tiledRoadLayers g) (tiledGroundLayers g)
    (tiledTilesetMeta g) (tiledTilesetImages g) (tiledMapTileWidth g)
    (tiledMapTileHeight g) (tiledMapWidth g) (tiledMapHeight g)
    (hasMapObjects g) (car g) v (trackWidth g) (trackPath g) (checkpoints g)
    (hasMapObstacles g) (hasMapCheckpoints g) (startSpawn g)
    (aiSpawnPoints g) (aiCars g) (aiCheckpoints g) (raceLaps g)
    (trackSegments g) (trackLength g) (currentCheckpoint g)
    (lastCheckpointIndex g) (lap g) (lastX g) (lastY g) (countdownActive g)
    (started g).

Definition set_trackWidth (v : R) (g : Game) : Game :=
  mkGame (worldWidth g) (worldHeight g) (tiledTrackTiles g)
    (tiledTileLayers g) (tiledRoadLayers g) (tiledGroundLayers g)
    (tiledTilesetMeta g) (tiledTilesetImages g) (tiledMapTileWidth g)
    (tiledMapTileHeight g) (tiledMapWidth g) (tiledMapHeight g)
    (hasMapObjects g) (car g) (obstacles g) v (trackPath g) (checkpoints g)
    (hasMapObstacles g) (hasMapCheckpoints g) (startSpawn g)
    (aiSpawnPoints g) (aiCars g) (aiCheckpoints g) (raceLaps g)
    (trackSegments g) (trackLength g) (currentCheckpoint g)
    (lastCheckpointIndex g) (lap g) (lastX g) (lastY g) (countdownActive g)
    (started g).

Definition set_trackPath (v : list Pt) (g : Game) : Game :=
  mkGame (worldWidth g) (worldHeight g) (tiledTrackTiles g)
    (tiledTileLayers g) (tiledRoadLayers g) (tiledGroundLayers g)
    (tiledTilesetMeta g) (tiledTilesetImages g) (tiledMapTileWidth g)
    (tiledMapTileHeight g) (tiledMapWidth g) (tiledMapHeight g)
    (hasMapObjects g) (car g) (obstacles g) (trackWidth g) v (checkpoints g)
    (hasMapObstacles g) (hasMapCheckpoints g) (startSpawn g)
    (aiSpawnPoints g) (aiCars g) (aiCheckpoints g) (raceLaps g)
    (trackSegments g) (trackLength g) (currentCheckpoint g)
    (lastCheckpointIndex g) (lap g) (lastX g) (lastY g) (countdownActive g)
    (started g).

Definition set_checkpoints (v : list Checkpoint) (g : Game) : Game :=
  mkGame (worldWidth g) (worldHeight g) (tiledTrackTiles g)
    (tiledTileLayers g) (tiledRoadLayers g) (tiledGroundLayers g)
    (tiledTilesetMeta g) (tiledTilesetImages g) (tiledMapTileWidth g)
    (tiledMapTileHeight g) (tiledMapWidth g) (tiledMapHeight g)
    (hasMapObjects g) (car g) (obstacles g) (trackWidth g) (trackPath g) v
    (hasMapObstacles g) (hasMapCheckpoints g) (startSpawn g)
    (aiSpawnPoints g) (aiCars g) (aiCheckpoints g) (raceLaps g)
    (trackSegments g) (trackLength g) (currentCheckpoint g)
    (lastCheckpointIndex g) (lap g) (lastX g) (lastY g) (countdownActive g)
    (started g).

Definition set_hasMapObstacles (v : bool) (g : Game) : Game :=
  mkGame (worldWidth g) (worldHeight g) (tiledTrackTiles g)
    (tiledTileLayers g) (tiledRoadLayers g) (tiledGroundLayers g)
    (tiledTilesetMeta g) (tiledTilesetImages g) (tiledMapTileWidth g)
    (tiledMapTileHeight g) (tiledMapWidth g) (tiledMapHeight g)
    (hasMapObjects g) (car g) (obstacles g) (trackWidth g) (trackPath g)
    (checkpoints g) v (hasMapCheckpoints g) (startSpawn g) (aiSpawnPoints g)
    (aiCars g) (aiCheckpoints g) (raceLaps g) (trackSegments g)
    (trackLength g) (currentCheckpoint g) (lastCheckpointIndex g) (lap g)
    (lastX g) (lastY g) (countdownActive g) (started g).

Definition set_hasMapCheckpoints (v : bool) (g : Game) : Game :=
  mkGame (worldWidth g) (worldHeight g) (tiledTrackTiles g)
    (tiledTileLayers g) (tiledRoadLayers g) (tiledGroundLayers g)
    (tiledTilesetMeta g) (tiledTilesetImages g) (tiledMapTileWidth g)
    (tiledMapTileHeight g) (tiledMapWidth g) (tiledMapHeight g)
    (hasMapObjects g) (car g) (obstacles g) (trackWidth g) (trackPath g)
    (checkpoints g) (hasMapObstacles g) v (startSpawn g) (aiSpawnPoints g)
    (aiCars g) (aiCheckpoints g) (raceLaps g) (trackSegments g)
    (trackLength g) (currentCheckpoint g) (lastCheckpointIndex g) (lap g)
    (lastX g) (lastY g) (countdownActive g) (started g).

Definition set_startSpawn (v : Pose) (g : Game) : Game :=
  mkGame (worldWidth g) (worldHeight g) (tiledTrackTiles g)
    (tiledTileLayers g) (tiledRoadLayers g) (tiledGroundLayers g)
    (tiledTilesetMeta g) (tiledTilesetImages g) (tiledMapTileWidth g)
    (tiledMapTileHeight g) (tiledMapWidth g) (tiledMapHeight g)
    (hasMapObjects g) (car g) (obstacles g) (trackWidth g) (trackPath g)
    (checkpoints g) (hasMapObstacles g) (hasMapCheckpoints g) v
    (aiSpawnPoints g) (aiCars g) (aiCheckpoints g) (raceLaps g)
    (trackSegments g) (trackLength g) (currentCheckpoint g)
    (lastCheckpointIndex g) (lap g) (lastX g) (lastY g) (countdownActive g)
    (started g).

Definition set_aiSpawnPoints (v : list Pose) (g : Game) : Game :=
  mkGame (worldWidth g) (worldHeight g) (tiledTrackTiles g)
    (tiledTileLayers g) (tiledRoadLayers g) (tiledGroundLayers g)
    (tiledTilesetMeta g) (tiledTilesetImages g) (tiledMapTileWidth g)
    (tiledMapTileHeight g) (tiledMapWidth g) (tiledMapHeight g)
    (hasMapObjects g) (car g) (obstacles g) (trackWidth g) (trackPath g)
    (checkpoints g) (hasMapObstacles g) (hasMapCheckpoints g) (startSpawn g)
    v (aiCars g) (aiCheckpoints g) (raceLaps g) (trackSegments g)
    (trackLength g) (currentCheckpoint g) (lastCheckpointIndex g) (lap g)
    (lastX g) (lastY g) (countdownActive g) (started g).

Definition set_aiCars (v : list AICar) (g : Game) : Game :=
  mkGame (worldWidth g) (worldHeight g) (tiledTrackTiles g)
    (tiledTileLayers g) (tiledRoadLayers g) (tiledGroundLayers g)
    (tiledTilesetMeta g) (tiledTilesetImages g) (tiledMapTileWidth g)
    (tiledMapTileHeight g) (tiledMapWidth g) (tiledMapHeight g)
    (hasMapObjects g) (car g) (obstacles g) (trackWidth g) (trackPath g)
    (checkpoints g) (hasMapObstacles g) (hasMapCheckpoints g) (startSpawn g)
    (aiSpawnPoints g) v (aiCheckpoints g) (raceLaps g) (trackSegments g)
    (trackLength g) (currentCheckpoint g) (lastCheckpointIndex g) (lap g)
    (lastX g) (lastY g) (countdownActive g) (started g).

Definition set_aiCheckpoints (v : list Pt) (g : Game) : Game :=
  mkGame (worldWidth g) (worldHeight g) (tiledTrackTiles g)
    (tiledTileLayers g) (tiledRoadLayers g) (tiledGroundLayers g)
    (tiledTilesetMeta g) (tiledTilesetImages g) (tiledMapTileWidth g)
    (tiledMapTileHeight g) (tiledMapWidth g) (tiledMapHeight g)
    (hasMapObjects g) (car g) (obstacles g) (trackWidth g) (trackPath g)
    (checkpoints g) (hasMapObstacles g) (hasMapCheckpoints g) (startSpawn g)
    (aiSpawnPoints g) (aiCars g) v (raceLaps g) (trackSegments g)
    (trackLength g) (currentCheckpoint g) (lastCheckpointIndex g) (lap g)
    (lastX g) (lastY g) (countdownActive g) (started g).

Definition set_raceLaps (v : Z) (g : Game) : Game :=
  mkGame (worldWidth g) (worldHeight g) (tiledTrackTiles g)
    (tiledTileLayers g) (tiledRoadLayers g) (tiledGroundLayers g)
    (tiledTilesetMeta g) (tiledTilesetImages g) (tiledMapTileWidth g)
    (tiledMapTileHeight g) (tiledMapWidth g) (tiledMapHeight g)
    (hasMapObjects g) (car g) (obstacles g) (trackWidth g) (trackPath g)
    (checkpoints g) (hasMapObstacles g) (hasMapCheckpoints g) (startSpawn g)
    (aiSpawnPoints g) (aiCars g) (aiCheckpoints g) v (trackSegments g)
    (trackLength g) (currentCheckpoint g) (lastCheckpointIndex g) (lap g)
    (lastX g) (lastY g) (countdownActive g) (started g).

Definition set_trackSegments (v : list TrackSegment) (g : Game) : Game :=
  mkGame (worldWidth g) (worldHeight g) (tiledTrackTiles g)
    (tiledTileLayers g) (tiledRoadLayers g) (tiledGroundLayers g)
    (tiledTilesetMeta g) (tiledTilesetImages g) (tiledMapTileWidth g)
    (tiledMapTileHeight g) (tiledMapWidth g) (tiledMapHeight g)
    (hasMapObjects g) (car g) (obstacles g) (trackWidth g) (trackPath g)
    (checkpoints g) (hasMapObstacles g) (hasMapCheckpoints g) (startSpawn g)
    (aiSpawnPoints g) (aiCars g) (aiCheckpoints g) (raceLaps g) v
    (trackLength g) (currentCheckpoint g) (lastCheckpointIndex g) (lap g)
    (lastX g) (lastY g) (countdownActive g) (started g).

Definition set_trackLength (v : R) (g : Game) : Game :=
  mkGame (worldWidth g) (worldHeight g) (tiledTrackTiles g)
    (tiledTileLayers g) (tiledRoadLayers g) (tiledGroundLayers g)
    (tiledTilesetMeta g) (tiledTilesetImages g) (tiledMapTileWidth g)
    (tiledMapTileHeight g) (tiledMapWidth g) (tiledMapHeight g)
    (hasMapObjects g) (car g) (obstacles g) (trackWidth g) (trackPath g)
    (checkpoints g) (hasMapObstacles g) (hasMapCheckpoints g) (startSpawn g)
    (aiSpawnPoints g) (aiCars g) (aiCheckpoints g) (raceLaps g)
    (trackSegments g) v (currentCheckpoint g) (lastCheckpointIndex g)
    (lap g) (lastX g) (lastY g) (countdownActive g) (started g).

Definition set_currentCheckpoint (v : Z) (g : Game) : Game :=
  mkGame (worldWidth g) (worldHeight g) (tiledTrackTiles g)
    (tiledTileLayers g) (tiledRoadLayers g) (tiledGroundLayers g)
    (tiledTilesetMeta g) (tiledTilesetImages g) (tiledMapTileWidth g)
    (tiledMapTileHeight g) (tiledMapWidth g) (tiledMapHeight g)
    (hasMapObjects g) (car g) (obstacles g) (trackWidth g) (trackPath g)
    (checkpoints g) (hasMapObstacles g) (hasMapCheckpoints g) (startSpawn g)
    (aiSpawnPoints g) (aiCars g) (aiCheckpoints g) (raceLaps g)
    (trackSegments g) (trackLength g) v (lastCheckpointIndex g) (lap g)
    (lastX g) (lastY g) (countdownActive g) (started g).

Definition set_lastCheckpointIndex (v : Z) (g : Game) : Game :=
  mkGame (worldWidth g) (worldHeight g) (tiledTrackTiles g)
    (tiledTileLayers g) (tiledRoadLayers g) (tiledGroundLayers g)
    (tiledTilesetMeta g) (tiledTilesetImages g) (tiledMapTileWidth g)
    (tiledMapTileHeight g) (tiledMapWidth g) (tiledMapHeight g)
    (hasMapObjects g) (car g) (obstacles g) (trackWidth g) (trackPath g)
    (checkpoints g) (hasMapObstacles g) (hasMapCheckpoints g) (startSpawn g)
    (aiSpawnPoints g) (aiCars g) (aiCheckpoints g) (raceLaps g)
    (trackSegments g) (trackLength g) (currentCheckpoint g) v (lap g)
    (lastX g) (lastY g) (countdownActive g) (started g).

Definition set_lap (v : Z) (g : Game) : Game :=
  mkGame (worldWidth g) (worldHeight g) (tiledTrackTiles g)
    (tiledTileLayers g) (tiledRoadLayers g) (tiledGroundLayers g)
    (tiledTilesetMeta g) (tiledTilesetImages g) (tiledMapTileWidth g)
    (tiledMapTileHeight g) (tiledMapWidth g) (tiledMapHeight g)
    (hasMapObjects g) (car g) (obstacles g) (trackWidth g) (trackPath g)
    (checkpoints g) (hasMapObstacles g) (hasMapCheckpoints g) (startSpawn g)
    (aiSpawnPoints g) (aiCars g) (aiCheckpoints g) (raceLaps g)
    (trackSegments g) (trackLength g) (currentCheckpoint g)
    (lastCheckpointIndex g) v (lastX g) (lastY g) (countdownActive g)
    (started g).

Definition set_lastX (v : R) (g : Game) : Game :=
  mkGame (worldWidth g) (worldHeight g) (tiledTrackTiles g)
    (tiledTileLayers g) (tiledRoadLayers g) (tiledGroundLayers g)
    (tiledTilesetMeta g) (tiledTilesetImages g) (tiledMapTileWidth g)
    (tiledMapTileHeight g) (tiledMapWidth g) (tiledMapHeight g)
    (hasMapObjects g) (car g) (obstacles g) (trackWidth g) (trackPath g)
    (checkpoints g) (hasMapObstacles g) (hasMapCheckpoints g) (startSpawn g)
    (aiSpawnPoints g) (aiCars g) (aiCheckpoints g) (raceLaps g)
    (trackSegments g) (trackLength g) (currentCheckpoint g)
    (lastCheckpointIndex g) (lap g) v (lastY g) (countdownActive g)
    (started g).

Definition set_lastY (v : R) (g : Game) : Game :=
  mkGame (worldWidth g) (worldHeight g) (tiledTrackTiles g)
    (tiledTileLayers g) (tiledRoadLayers g) (tiledGroundLayers g)
    (tiledTilesetMeta g) (tiledTilesetImages g) (tiledMapTileWidth g)
    (tiledMapTileHeight g) (tiledMapWidth g) (tiledMapHeight g)
    (hasMapObjects g) (car g) (obstacles g) (trackWidth g) (trackPath g)
    (checkpoints g) (hasMapObstacles g) (hasMapCheckpoints g) (startSpawn g)
    (aiSpawnPoints g) (aiCars g) (aiCheckpoints g) (raceLaps g)
    (trackSegments g) (trackLength g) (currentCheckpoint g)
    (lastCheckpointIndex g) (lap g) (lastX g) v (countdownActive g)
    (started g).

Definition set_countdownActive (v : bool) (g : Game) : Game :=
  mkGame (worldWidth g) (worldHeight g) (tiledTrackTiles g)
    (tiledTileLayers g) (tiledRoadLayers g) (tiledGroundLayers g)
    (tiledTilesetMeta g) (tiledTilesetImages g) (tiledMapTileWidth g)
    (tiledMapTileHeight g) (tiledMapWidth g) (tiledMapHeight g)
    (hasMapObjects g) (car g) (obstacles g) (trackWidth g) (trackPath g)
    (checkpoints g) (hasMapObstacles g) (hasMapCheckpoints g) (startSpawn g)
    (aiSpawnPoints g) (aiCars g) (aiCheckpoints g) (raceLaps g)
    (trackSegments g) (trackLength g) (currentCheckpoint g)
    (lastCheckpointIndex g) (lap g) (lastX g) (lastY g) v (started g).

Definition set_started (v : bool) (g : Game) : Game :=
  mkGame (worldWidth g) (worldHeight g) (tiledTrackTiles g)
    (tiledTileLayers g) (tiledRoadLayers g) (tiledGroundLayers g)
    (tiledTilesetMeta g) (tiledTilesetImages g) (tiledMapTileWidth g)
    (tiledMapTileHeight g) (tiledMapWidth g) (tiledMapHeight g)
    (hasMapObjects g) (car g) (obstacles g) (trackWidth g) (trackPath g)
    (checkpoints g) (hasMapObstacles g) (hasMapCheckpoints g) (startSpawn g)
    (aiSpawnPoints g) (aiCars g) (aiCheckpoints g) (raceLaps g)
    (trackSegments g) (trackLength g) (currentCheckpoint g)
    (lastCheckpointIndex g) (lap g) (lastX g) (lastY g) (countdownActive g)
    v.

(** Assignment to a field of [car]. *)
Definition set_car_x (v : R) (c : Car) : Car :=
  mkCar v (car_y c) (car_angle c) (car_speed c) (car_radius c).
Definition set_car_y (v : R) (c : Car) : Car :=
  mkCar (car_x c) v (car_angle c) (car_speed c) (car_radius c).
Definition set_car_angle (v : R) (c : Car) : Car :=
  mkCar (car_x c) (car_y c) v (car_speed c) (car_radius c).
Definition set_car_speed (v : R) (c : Car) : Car :=
  mkCar (car_x c) (car_y c) (car_angle c) v (car_radius c).

(** The values the module-level variables are declared with. *)
Definition initial_car : Car := mkCar 320 360 (degToRad 0) 0 18.

Definition initial_obstacles : list Obstacle :=
  [ ObsCircle 420 260 18; ObsCircle 880 220 18;
    ObsCircle 960 500 18; ObsCircle 520 520 18 ].

Definition initial_trackPath : list Pt :=
  [ mkPt 180 200; mkPt 980 200; mkPt 980 360; mkPt 760 360; mkPt 760 520;
    mkPt 300 520; mkPt 300 360; mkPt 540 360; mkPt 540 200; mkPt 180 200 ].

Definition initial_checkpoints : list Checkpoint :=
  [ mkCheckpoint 260 260 260 500; mkCheckpoint 980 260 980 480;
    mkCheckpoint 360 200 700 200; mkCheckpoint 360 560 700 560 ].

Definition initial_game : Game :=
  {| worldWidth := 1280; worldHeight := 720;
     tiledTrackTiles := []; tiledTileLayers := [];
     tiledRoadLayers := []; tiledGroundLayers := [];
     tiledTilesetMeta := []; tiledTilesetImages := [];
     tiledMapTileWidth := 32; tiledMapTileHeight := 32;
     tiledMapWidth := 0; tiledMapHeight := 0;
     hasMapObjects := false;
     car := initial_car;
     obstacles := initial_obstacles;
     trackWidth := 110;
     trackPath := initial_trackPath;
     checkpoints := initial_checkpoints;
     hasMapObstacles := false; hasMapCheckpoints := false;
     startSpawn := mkPose (car_x initial_car) (car_y initial_car)
                          (car_angle initial_car);
     aiSpawnPoints := []; aiCars := []; aiCheckpoints := [];
     raceLaps := 3;
     trackSegments := []; trackLength := 0;
     currentCheckpoint := 0; lastCheckpointIndex := -1; lap := 1;
     lastX := car_x initial_car; lastY := car_y initial_car;
     countdownActive := false; started := false |}.

(* ================================================================== *)
(** * Track geometry: [buildTrackSegments], [sampleTrack] *)
(* ================================================================== *)

(** The [for] loop of [buildTrackSegments] over the consecutive pairs of
    [trackPath]: [segs] and [total] are [trackSegments] and [trackLength]
    so far. *)
Fixpoint buildTrackSegments_loop (path : list Pt)
    (segs : list TrackSegment) (total : R) : list TrackSegment * R :=
  match path with
  | a :: ((b :: _) as rest) =>
      let dx := px b - px a in
      let dy := py b - py a in
      let len := Math_hypot dx dy in
      if Rle_dec len 0 then buildTrackSegments_loop rest segs total
      else buildTrackSegments_loop rest
             (segs ++ [mkSeg a b len dx dy]) (total + len)
  | _ => (segs, total)
  end.

Definition buildTrackSegments (g : Game) : Game :=
  let g := set_trackSegments [] g in
  let g := set_trackLength 0 g in
  if (length_Z (trackPath g) <? 2)%Z then g
  else
    let r := buildTrackSegments_loop (trackPath g) [] 0 in
    set_trackLength (snd r) (set_trackSegments (fst r) g).

(** The [for] loop of [sampleTrack]; [None] when no segment is reached. *)
Fixpoint sampleTrack_loop (segs : list TrackSegment) (dist : R)
    : option Pose :=
  match segs with
  | [] => None
  | seg :: rest =>
      if Rle_dec dist (seg_len seg) then
        let r := dist / seg_len seg in
        Some (mkPose (px (seg_a seg) + seg_dx seg * r)
                     (py (seg_a seg) + seg_dy seg * r)
                     (Math_atan2 (seg_dy seg) (seg_dx seg)))
      else sampleTrack_loop rest (dist - seg_len seg)
  end.

(** [sampleTrack(t)]; [None] is [null]. *)
Definition sampleTrack (g : Game) (t : R) : option Pose :=
  match trackSegments g with
  | [] => None
  | first :: _ =>
      if Req_dec_T (trackLength g) 0 then None
      else
        match sampleTrack_loop (trackSegments g) (t * trackLength g) with
        | Some p => Some p
        | None =>
            let last := List.last (trackSegments g) first in
            Some (mkPose (px (seg_b last)) (py (seg_b last))
                         (Math_atan2 (seg_dy last) (seg_dx last)))
        end
  end.

Definition getAIPosition (g : Game) (ai : AICar) : option Pt :=
  if ai_useTrack ai then
    match sampleTrack g (ai_t ai) with
    | None => None
    | Some p => Some (mkPt (pose_x p) (pose_y p))
    end
  else
    match ai_x ai, ai_y ai with
    | Some x, Some y => Some (mkPt x y)
    | _, _ => None
    end.

(* ================================================================== *)
(** * Surfaces: [getTileAt], [getSurfaceAt] *)
(* ================================================================== *)

Inductive Surface : Type := SurfRoad | SurfGround | SurfNone.

(** The downward [for] loop shared by [getTileAt] and
    [getSurfaceAtAnyLayer] visits the layers last to first: it is run on
    the reversed list. *)
Definition rawGidAt (layer : TileLayer) (tx ty : Z) : Z :=
  let idx := (ty * tl_width layer + tx)%Z in
  match at_index (tl_data layer) idx with
  | Some raw => int_or raw 0
  | None => 0%Z
  end.

Fixpoint getTileAt_loop (rev_layers : list TileLayer) (tx ty : Z) : Z :=
  match rev_layers with
  | [] => 0%Z
  | layer :: rest =>
      if negb (tl_visible layer) then getTileAt_loop rest tx ty
      else
        let rawGid := rawGidAt layer tx ty in
        if (rawGid =? 0)%Z then getTileAt_loop rest tx ty else rawGid
  end.

Definition getTileAt (g : Game) (layers : list TileLayer) (x y : R) : Z :=
  match layers with
  | [] => 0%Z
  | layer0 :: _ =>
      if ((tiledMapTileWidth g <=? 0) || (tiledMapTileHeight g <=? 0))%Z
      then 0%Z
      else
        let tx := Math_floor (x / IZR (tiledMapTileWidth g)) in
        let ty := Math_floor (y / IZR (tiledMapTileHeight g)) in
        if ((tx <? 0) || (ty <? 0))%Z then 0%Z
        else
          let mapW := int_or (tiledMapWidth g) (tl_width layer0) in
          let mapH := int_or (tiledMapHeight g) (tl_height layer0) in
          if ((tx >=? mapW) || (ty >=? mapH))%Z then 0%Z
          else getTileAt_loop (rev layers) tx ty
  end.

(** The tileset a global id belongs to: the last one, in the sorted list,
    whose first gid does not exceed it. *)
Fixpoint findTileset (meta : list TilesetMeta) (gid : Z)
    (chosen : option TilesetMeta) : option TilesetMeta :=
  match meta with
  | [] => chosen
  | ts :: rest =>
      if (gid >=? ts_firstgid ts)%Z then findTileset rest gid (Some ts)
      else chosen
  end.

Definition getSurfaceFromGid (g : Game) (rawGid : Z) : Surface :=
  let gid := bit_and rawGid (bit_not (bit_or (bit_or FLIP_H FLIP_V) FLIP_D)) in
  if (gid =? 0)%Z then SurfNone
  else
    match findTileset (tiledTilesetMeta g) gid None with
    | None => SurfNone
    | Some chosen =>
        let name := toLowerCase (ts_name chosen) in
        if includes name "road" || includes name "asphalt" then SurfRoad
        else if includes name "grass" || includes name "land"
                || includes name "dirt" || includes name "sand"
        then SurfGround
        else SurfNone
    end.

Fixpoint getSurfaceAtAnyLayer_loop (g : Game) (rev_layers : list TileLayer)
    (tx ty : Z) (foundGround : bool) : Surface :=
  match rev_layers with
  | [] => if foundGround then SurfGround else SurfNone
  | layer :: rest =>
      if negb (tl_visible layer)
      then getSurfaceAtAnyLayer_loop g rest tx ty foundGround
      else
        let rawGid := rawGidAt layer tx ty in
        if (rawGid =? 0)%Z
        then getSurfaceAtAnyLayer_loop g rest tx ty foundGround
        else
          match getSurfaceFromGid g rawGid with
          | SurfRoad => SurfRoad
          | SurfGround => getSurfaceAtAnyLayer_loop g rest tx ty true
          | SurfNone => getSurfaceAtAnyLayer_loop g rest tx ty foundGround
          end
  end.

Definition getSurfaceAtAnyLayer (g : Game) (x y : R) : Surface :=
  match tiledTileLayers g with
  | [] => SurfNone
  | layer0 :: _ =>
      let tx := Math_floor (x / IZR (tiledMapTileWidth g)) in
      let ty := Math_floor (y / IZR (tiledMapTileHeight g)) in
      if ((tx <? 0) || (ty <? 0))%Z then SurfNone
      else
        let mapW := int_or (tiledMapWidth g) (tl_width layer0) in
        let mapH := int_or (tiledMapHeight g) (tl_height layer0) in
        if ((tx >=? mapW) || (ty >=? mapH))%Z then SurfNone
        else getSurfaceAtAnyLayer_loop g (rev (tiledTileLayers g))
               tx ty false
  end.

Definition getSurfaceAt (g : Game) (x y : R) : Surface :=
  match tiledRoadLayers g with
  | road0 :: _ =>
      let roadHit := getTileAt g (tiledRoadLayers g) x y in
      if negb (roadHit =? 0)%Z then SurfRoad
      else if negb (length_Z (tiledGroundLayers g) =? 0)%Z
              && negb (getTileAt g (tiledGroundLayers g) x y =? 0)%Z
      then SurfGround
      else
        let tx := Math_floor (x / IZR (tiledMapTileWidth g)) in
        let ty := Math_floor (y / IZR (tiledMapTileHeight g)) in
        let mapW := int_or (tiledMapWidth g) (int_or (tl_width road0) 0) in
        let mapH := int_or (tiledMapHeight g) (int_or (tl_height road0) 0) in
        if ((tx >=? 0) && (ty >=? 0) && (tx <? mapW) && (ty <? mapH))%Z
        then SurfGround
        else SurfNone
  | [] => getSurfaceAtAnyLayer g x y
  end.

(* ================================================================== *)
(** * Checkpoints and respawn *)
(* ================================================================== *)

(** [getCheckpointSpawn(index)]; [None] is [null]. *)
Definition getCheckpointSpawn (g : Game) (index : Z) : option Pose :=
  match at_index (checkpoints g) index with
  | None => None
  | Some cp =>
      let mx := (cp_x1 cp + cp_x2 cp) / 2 in
      let my := (cp_y1 cp + cp_y2 cp) / 2 in
      let lineAngle :=
        Math_atan2 (cp_y2 cp - cp_y1 cp) (cp_x2 cp - cp_x1 cp) in
      let trackAngle := lineAngle + PI / 2 in
      let backOffset := 30 in
      Some (mkPose (mx - cos trackAngle * backOffset)
                   (my - sin trackAngle * backOffset)
                   trackAngle)
  end.

(** [respawnToCheckpoint(index)].  [startSpawn] always holds an object, so
    the [if (!target) return] of the source never fires. *)
Definition respawnToCheckpoint (index : Z) (g : Game) : Game :=
  let spawn := if (index >=? 0)%Z then getCheckpointSpawn g index
               else None in
  let target := match spawn with Some p => p | None => startSpawn g end in
  let c := set_car_y (pose_y target) (set_car_x (pose_x target) (car g)) in
  let c :=
    if ((index >=? 0) && negb (length_Z (checkpoints g) =? 0))%Z then
      let nextIndex := Z.rem (index + 1) (length_Z (checkpoints g)) in
      match at_index (checkpoints g) nextIndex with
      | Some next =>
          let nx := (cp_x1 next + cp_x2 next) / 2 in
          let ny := (cp_y1 next + cp_y2 next) / 2 in
          set_car_angle (Math_atan2 (ny - car_y c) (nx - car_x c)) c
      | None => set_car_angle (pose_angle target) c
      end
    else set_car_angle (pose_angle target) c in
  let c := set_car_speed 0 c in
  set_lastY (car_y c) (set_lastX (car_x c) (set_car c g)).

(** The search loop of the checkpoint block of [updatePhysics]: the first
    checkpoint, in index order from [i], that the segment from
    [(lx, ly)] to [(cx, cy)] intersects; [-1] when there is none. *)
Fixpoint crossedIndex_loop (cps : list Checkpoint) (i : Z)
    (lx ly cx cy : R) : Z :=
  match cps with
  | [] => (-1)%Z
  | cp :: rest =>
      if segmentIntersect lx ly cx cy
           (cp_x1 cp) (cp_y1 cp) (cp_x2 cp) (cp_y2 cp)
      then i
      else crossedIndex_loop rest (i + 1)%Z lx ly cx cy
  end.

Definition crossedIndex (g : Game) : Z :=
  crossedIndex_loop (checkpoints g) 0
    (lastX g) (lastY g) (car_x (car g)) (car_y (car g)).

(** What [updatePhysics] does with a crossed index other than [-1]. *)
Definition applyCrossing (crossed : Z) (g : Game) : Game :=
  if (crossed =? currentCheckpoint g)%Z then
    let g := set_lastCheckpointIndex crossed g in
    let g := set_currentCheckpoint (currentCheckpoint g + 1)%Z g in
    if (currentCheckpoint g >=? length_Z (checkpoints g))%Z then
      let g := set_currentCheckpoint 0%Z g in
      set_lap (lap g + 1)%Z g
    else g
  else if (crossed >? currentCheckpoint g)%Z then
    respawnToCheckpoint (lastCheckpointIndex g) g
  else g.

(** The checkpoint block of [updatePhysics]. *)
Definition trackCheckpoints (g : Game) : Game :=
  if negb (length_Z (checkpoints g) =? 0)%Z then
    let crossed := crossedIndex g in
    if negb (crossed =? -1)%Z then applyCrossing crossed g else g
  else g.

(* ================================================================== *)
(** * Vehicle dynamics: [updatePhysics] *)
(* ================================================================== *)

(** The controls read by a tick: [keys], [pedals] and the steering
    stick. *)
Record Input : Type := mkInput {
  key_up : bool;
  key_down : bool;
  key_left : bool;
  key_right : bool;
  pedal_accel : bool;
  pedal_brake : bool;
  stick_valueX : R
}.

Definition accel : R := 260.
Definition maxSpeed : R := 440.
Definition brake : R := 340.
Definition drag : R := 0.98.
Definition groundSlow : R := 0.92.
Definition groundMaxSpeed : R := 0.55.

Definition steeringInput (inp : Input) : R :=
  if key_left inp || key_right inp
  then (if key_left inp then -1 else 1)
  else stick_valueX inp.

Definition throttleInput (inp : Input) : R :=
  (if key_up inp then 1 else 0) + (if key_down inp then -1 else 0)
  + (if pedal_accel inp then 1 else 0) - (if pedal_brake inp then 1 else 0).

Definition maxSurfaceSpeed (surface : Surface) : R :=
  match surface with
  | SurfGround => maxSpeed * groundMaxSpeed
  | _ => maxSpeed
  end.

(** Throttle, drag, surface penalty and the speed clamp. *)
Definition driveSpeed (surface : Surface) (throttle dt speed : R) : R :=
  let speed :=
    if Rlt_dec 0 throttle then speed + accel * throttle * dt
    else if Rlt_dec throttle 0 then speed + brake * throttle * dt
    else speed * drag in
  let speed :=
    match surface with
    | SurfGround => speed * groundSlow
    | _ => speed
    end in
  clamp speed (- maxSurfaceSpeed surface * 0.5) (maxSurfaceSpeed surface).

(** Steering above the dead zone. *)
Definition driveAngle (steering dt speed angle : R) : R :=
  let speedAbs := Math_abs speed in
  let speedFactor := clamp (speedAbs / maxSpeed) 0 1 in
  let steerStrength := lerp 1.6 3.2 speedFactor in
  if Rlt_dec 5 speedAbs
  then angle + steering * steerStrength * dt
               * (if Rle_dec 0 speed then 1 else -1)
  else angle.

(** The first part of [updatePhysics]: speed, heading, then the move,
    remembering the position before it in [lastX], [lastY]. *)
Definition drive (inp : Input) (dt : R) (g : Game) : Game :=
  let throttle := clamp (throttleInput inp) (-1) 1 in
  let c := car g in
  let surface := getSurfaceAt g (car_x c) (car_y c) in
  let c := set_car_speed (driveSpeed surface throttle dt (car_speed c)) c in
  let c := set_car_angle
             (driveAngle (steeringInput inp) dt (car_speed c) (car_angle c))
             c in
  let vx := cos (car_angle c) * car_speed c in
  let vy := sin (car_angle c) * car_speed c in
  let g := set_lastY (car_y c) (set_lastX (car_x c) g) in
  let c := set_car_y (car_y c + vy * dt) (set_car_x (car_x c + vx * dt) c) in
  set_car c g.

(** One obstacle of the collision pass; the flag is [collided]. *)
Definition pushCar (push : Pt) (damping : R) (c : Car) : Car :=
  let c := set_car_x (car_x c + px push) c in
  let c := set_car_y (car_y c + py push) c in
  set_car_speed (car_speed c * damping) c.

Definition collideObstacle (st : Car * bool) (obs : Obstacle) : Car * bool :=
  let c := fst st in
  match obs with
  | ObsRect x y w h =>
      if circleRectCollision (car_x c) (car_y c) (car_radius c) x y w h
      then
        let push :=
          resolveCircleRect (car_x c) (car_y c) (car_radius c) x y w h in
        (pushCar push 0.6 c, true)
      else st
  | ObsCircle x y r =>
      if circleCircleCollision (car_pos c) (mkPt x y) (car_radius c + r)
      then
        let push :=
          resolveCircleCollision (car_pos c) (mkPt x y) (car_radius c + r) in
        (pushCar push 0.6 c, true)
      else st
  end.

(** One AI car of the collision pass. *)
Definition collideAICar (g : Game) (st : Car * bool) (ai : AICar)
    : Car * bool :=
  let c := fst st in
  match getAIPosition g ai with
  | None => st
  | Some pos =>
      let r := car_radius c in
      if circleCircleCollision (car_pos c) pos (car_radius c + r) then
        let push := resolveCircleCollision (car_pos c) pos (car_radius c + r) in
        (pushCar push 0.7 c, true)
      else st
  end.

(** The collision pass.  [collided] only triggers the collision sound,
    which is outside the model. *)
Definition collide (g : Game) : Game :=
  let st := fold_left collideObstacle (obstacles g) (car g, false) in
  let st := fold_left (collideAICar g) (aiCars g) st in
  set_car (fst st) g.

(** [updatePhysics(dt)]: inert before the start and during the
    countdown.  The audio updates are outside the model. *)
Definition updatePhysics (inp : Input) (dt : R) (g : Game) : Game :=
  if negb (started g) || countdownActive g then g
  else trackCheckpoints (collide (drive inp dt g)).

(** A run of ticks. *)
Fixpoint runTicks (ticks : list (Input * R)) (g : Game) : Game :=
  match ticks with
  | [] => g
  | (inp, dt) :: rest => runTicks rest (updatePhysics inp dt g)
  end.

(* ================================================================== *)
(** * The map document *)
(* ================================================================== *)

(** The Tiled JSON document, as the loader reads it.  A field the loader
    guards with [||], [typeof] or [Array.isArray] is optional; a field has
    the type the Tiled format gives it, but for the name of a layer, which
    is any JSON value: the loader publishes the tile layers before it
    lower-cases their names. *)

Inductive PropValue : Type :=
| PNum (v : R)
| PStr (s : string)
| PBool (b : bool).

(** An element of a [properties] array: [{name, value}]. *)
Record Property : Type := mkProperty {
  prop_name : string;
  prop_value : PropValue
}.

(** An element of [objects]. *)
Record MapObject : Type := mkMapObject {
  o_name : option string;
  o_type : option string;
  o_x : option R;
  o_y : option R;
  o_width : option R;
  o_height : option R;
  o_rotation : option R;
  o_gid : option Z;
  o_polyline : option (list Pt);
  o_properties : option (list Property)
}.

(** [layer.data]: missing, an array of tile ids, or an encoded string. *)
Inductive LayerData : Type :=
| DataAbsent
| DataArray (ids : list Z)
| DataString (s : string).

(** An element of [layers]; [l_name] is [None] when the layer has no
    name. *)
Record Layer : Type := mkLayer {
  l_type : string;
  l_name : option NameValue;
  l_data : LayerData;
  l_encoding : option string;
  l_compression : option string;
  l_width : option Z;
  l_height : option Z;
  l_opacity : option R;
  l_visible : option bool;
  l_objects : option (list MapObject)
}.

(** An element of [tilesets]. *)
Record Tileset : Type := mkTileset {
  tj_firstgid : option Z;
  tj_name : option string;
  tj_image : option string;
  tj_imagewidth : option Z;
  tj_imageheight : option Z;
  tj_tilewidth : option Z;
  tj_tileheight : option Z;
  tj_spacing : option Z;
  tj_margin : option Z;
  tj_columns : option Z;
  tj_tilecount : option Z
}.

Record TiledMap : Type := mkTiledMap {
  m_properties : option (list Property);
  m_layers : option (list Layer);
  m_tilesets : option (list Tileset);
  m_tilewidth : option Z;
  m_tileheight : option Z;
  m_width : option Z;
  m_height : option Z
}.

(** What [fetch] followed by [res.json()] can do. *)
Inductive Response : Type :=
| FetchRejected
| ResponseNotOk
| ResponseBadJson
| ResponseJson (map : TiledMap).

(** The browser facilities the loader calls.  [None] from [atob] or
    [decompress] is a thrown exception or a rejected promise; [None] from
    [loadImage] is an image that failed to load. *)
Record Browser : Type := mkBrowser {
  fetch : string -> Response;
  atob : string -> option (list Z);
  hasDecompressionStream : bool;
  decompress : string -> list Z -> option (list Z);
  loadImage : string -> option Img
}.

(** ** [atob]: forgiving base64 decoding *)

Definition base64_digit (c : ascii) : option Z :=
  let n := Z.of_nat (nat_of_ascii c) in
  if ((65 <=? n) && (n <=? 90))%Z then Some (n - 65)%Z
  else if ((97 <=? n) && (n <=? 122))%Z then Some (n - 71)%Z
  else if ((48 <=? n) && (n <=? 57))%Z then Some (n + 4)%Z
  else if (n =? 43)%Z then Some 62%Z
  else if (n =? 47)%Z then Some 63%Z
  else None.

Fixpoint base64_digits (s : string) : option (list Z) :=
  match s with
  | EmptyString => Some []
  | String c r =>
      match base64_digit c, base64_digits r with
      | Some d, Some ds => Some (d :: ds)
      | _, _ => None
      end
  end.

Fixpoint base64_groups (ds : list Z) : list Z :=
  match ds with
  | a :: b :: c :: d :: rest =>
      let n := (a * 262144 + b * 4096 + c * 64 + d)%Z in
      (n / 65536)%Z :: ((n / 256) mod 256)%Z :: (n mod 256)%Z
        :: base64_groups rest
  | [a; b; c] =>
      let n := (a * 4096 + b * 64 + c)%Z in
      [(n / 1024)%Z; ((n / 4) mod 256)%Z]
  | [a; b] => [((a * 64 + b) / 16)%Z]
  | _ => []
  end.

Definition is_base64_space (c : ascii) : bool :=
  let n := nat_of_ascii c in
  Nat.eqb n 9 || Nat.eqb n 10 || Nat.eqb n 12 || Nat.eqb n 13
  || Nat.eqb n 32.

Fixpoint strip_base64_space (s : string) : string :=
  match s with
  | EmptyString => EmptyString
  | String c r => if is_base64_space c then strip_base64_space r
                  else String c (strip_base64_space r)
  end.

Definition ends_with (s suffix : string) : bool :=
  let n := String.length s in
  let k := String.length suffix in
  Nat.leb k n && String.eqb (substring (n - k) k s) suffix.

(** The decoding [atob] performs; [None] is [InvalidCharacterError]. *)
Definition forgiving_base64_decode (s : string) : option (list Z) :=
  let s := strip_base64_space s in
  let n := String.length s in
  let s :=
    if Nat.eqb (n mod 4) 0 then
      if ends_with s "==" then substring 0 (n - 2) s
      else if ends_with s "=" then substring 0 (n - 1) s
      else s
    else s in
  if Nat.eqb (String.length s mod 4) 1 then None
  else
    match base64_digits s with
    | Some ds => Some (base64_groups ds)
    | None => None
    end.

(** ** [decodeLayerData] *)

Definition base64ToBytes (env : Browser) (b64 : string) : option (list Z) :=
  atob env b64.

(** The [DataView] loop: little-endian 32-bit words, a trailing partial
    word dropped. *)
Fixpoint readUint32s (bytes : list Z) : list Z :=
  match bytes with
  | b0 :: b1 :: b2 :: b3 :: rest =>
      (b0 + b1 * 256 + b2 * 65536 + b3 * 16777216)%Z :: readUint32s rest
  | _ => []
  end.

(** The result of an awaited call: a value, or an exception. *)
Inductive Try (A : Type) : Type :=
| Ok (a : A)
| Thrown.
Arguments Ok {A} a.
Arguments Thrown {A}.

Definition is_empty (s : string) : bool :=
  match s with EmptyString => true | _ => false end.

(** [decodeLayerData(layer)]; [Ok None] is [null]. *)
Definition decodeLayerData (env : Browser) (layer : Layer)
    : Try (option (list Z)) :=
  match l_data layer with
  | DataArray ids => Ok (Some ids)
  | DataAbsent => Ok None
  | DataString data =>
      if is_empty data
         || negb (match l_encoding layer with
                  | Some e => String.eqb e "base64"
                  | None => false
                  end)
      then Ok None
      else
        match base64ToBytes env data with
        | None => Thrown
        | Some bytes =>
            match l_compression layer with
            | Some compression =>
                if is_empty compression then Ok (Some (readUint32s bytes))
                else if negb (hasDecompressionStream env) then Ok None
                else
                  let format :=
                    if String.eqb compression "zlib" then "deflate"%string
                    else compression in
                  match decompress env format bytes with
                  | None => Thrown
                  | Some buffer => Ok (Some (readUint32s buffer))
                  end
            | None => Ok (Some (readUint32s bytes))
            end
        end
  end.

(* ================================================================== *)
(** * [loadTiledMap] *)
(* ================================================================== *)

Definition getObjectProperty (properties : option (list Property))
    (key : string) : option PropValue :=
  match properties with
  | None => None
  | Some props =>
      match find (fun p => String.eqb (prop_name p) key) props with
      | Some hit => Some (prop_value hit)
      | None => None
      end
  end.

Definition backslash : ascii := ascii_of_nat 92.

(** [path.replace(/\\\\/g, "/")]: every pair of backslashes becomes a
    slash. *)
Fixpoint replace_backslashes (s : string) : string :=
  match s with
  | String c1 ((String c2 r) as tail) =>
      if Ascii.eqb c1 backslash && Ascii.eqb c2 backslash
      then String "/" (replace_backslashes r)
      else String c1 (replace_backslashes tail)
  | _ => s
  end.

(** [resolveTilesetImagePath(path)]; [None] is [null]. *)
Definition resolveTilesetImagePath (path : option string) : option string :=
  match path with
  | None => None
  | Some p =>
      if is_empty p then None
      else
        let normalized := replace_backslashes p in
        match index 0 "kenney_racing-pack/" normalized with
        | Some i =>
            Some (substring i (String.length normalized - i) normalized)
        | None => Some normalized
        end
  end.

(** [arr.sort((a, b) => key(a) - key(b))]: a stable sort by key. *)
Fixpoint insert_by {A : Type} (key : A -> Z) (x : A) (l : list A) : list A :=
  match l with
  | [] => [x]
  | y :: r => if (key x <=? key y)%Z then x :: y :: r
              else y :: insert_by key x r
  end.

Fixpoint sort_by {A : Type} (key : A -> Z) (l : list A) : list A :=
  match l with
  | [] => []
  | x :: r => insert_by key x (sort_by key r)
  end.

(** The tileset descriptor built from a [tilesets] entry. *)
Definition tilesetMetaOf (map : TiledMap) (ts : Tileset) : TilesetMeta :=
  {| ts_firstgid := ifield_or (tj_firstgid ts) 0;
     ts_name := str_or (tj_name ts) "";
     ts_image := match tj_image ts with
                 | Some EmptyString => None
                 | other => other
                 end;
     ts_imagewidth := ifield_or (tj_imagewidth ts) 0;
     ts_imageheight := ifield_or (tj_imageheight ts) 0;
     ts_tilewidth :=
       ifield_or (tj_tilewidth ts) (ifield_or (m_tilewidth map) 32);
     ts_tileheight :=
       ifield_or (tj_tileheight ts) (ifield_or (m_tileheight map) 32);
     ts_spacing := ifield_or (tj_spacing ts) 0;
     ts_margin := ifield_or (tj_margin ts) 0;
     ts_columns := ifield_or (tj_columns ts) 0;
     ts_tilecount := ifield_or (tj_tilecount ts) 0 |}.

(** [tilesetImages.set(key, img)] and [tilesetImages.get(key)]. *)
Fixpoint map_set (key : Z) (img : Img) (m : list (Z * Img))
    : list (Z * Img) :=
  match m with
  | [] => [(key, img)]
  | (k, v) :: r => if (k =? key)%Z then (k, img) :: r
                   else (k, v) :: map_set key img r
  end.

Fixpoint map_get (key : Z) (m : list (Z * Img)) : option Img :=
  match m with
  | [] => None
  | (k, v) :: r => if (k =? key)%Z then Some v else map_get key r
  end.

(** The loop that loads the tileset images. *)
Fixpoint loadTilesetImages (env : Browser) (meta : list TilesetMeta)
    (images : list (Z * Img)) : list (Z * Img) :=
  match meta with
  | [] => images
  | ts :: rest =>
      match resolveTilesetImagePath (ts_image ts) with
      | None => loadTilesetImages env rest images
      | Some path =>
          match loadImage env path with
          | Some img =>
              loadTilesetImages env rest (map_set (ts_firstgid ts) img images)
          | None => loadTilesetImages env rest images
          end
      end
  end.

(** The loop that widens the map tile size to the largest tileset tile. *)
Definition widenTileSize (g : Game) (ts : TilesetMeta) : Game :=
  let g := if (ts_tilewidth ts >? tiledMapTileWidth g)%Z
           then set_tiledMapTileWidth (ts_tilewidth ts) g else g in
  if (ts_tileheight ts >? tiledMapTileHeight g)%Z
  then set_tiledMapTileHeight (ts_tileheight ts) g else g.

(** The arrays [loadTiledMap] fills before it publishes them. *)
Record Pending : Type := mkPending {
  newTiles : list TileSprite;
  newTileLayers : list TileLayer;
  newAISpawns : list Pose;
  newAICheckpoints : list (Z * Pt);
  newMapCheckpoints : list (Z * Checkpoint)
}.

Definition no_pending : Pending := mkPending [] [] [] [] [].

(** The state of the loop over the objects of one layer. *)
Record ObjectScan : Type := mkObjectScan {
  scan_game : Game;
  scan_pending : Pending;
  newObstacles : list Obstacle;
  foundObjects : bool
}.

Definition rotation_or (rotation : option R) (default : R) : R :=
  match rotation with Some deg => degToRad deg | None => default end.

(** A tile object: pushed on [newTiles] when its tileset and image are
    known, skipped otherwise. *)
Definition scanTileObject (meta : list TilesetMeta)
    (images : list (Z * Img)) (obj : MapObject) (rawGid : Z)
    (st : ObjectScan) : ObjectScan :=
  let flipH := negb (bit_and rawGid FLIP_H =? 0)%Z in
  let flipV := negb (bit_and rawGid FLIP_V =? 0)%Z in
  let flipD := negb (bit_and rawGid FLIP_D =? 0)%Z in
  let gid := bit_and rawGid (bit_not (bit_or (bit_or FLIP_H FLIP_V) FLIP_D)) in
  match findTileset meta gid None with
  | None => st
  | Some ts =>
      match map_get (ts_firstgid ts) images with
      | None => st
      | Some img =>
          let columns :=
            int_or (ts_columns ts)
              (Z.max 1 (ts_imagewidth ts / ts_tilewidth ts)) in
          let tileId := (gid - ts_firstgid ts)%Z in
          let sx := (ts_margin ts
                     + Z.rem tileId columns
                       * (ts_tilewidth ts + ts_spacing ts))%Z in
          let sy := (ts_margin ts
                     + (tileId / columns)
                       * (ts_tileheight ts + ts_spacing ts))%Z in
          let tile :=
            {| spr_img := img; spr_sx := sx; spr_sy := sy;
               spr_sw := ts_tilewidth ts; spr_sh := ts_tileheight ts;
               spr_x := field_or (o_x obj) 0;
               spr_y := field_or (o_y obj) 0;
               spr_w := field_or (o_width obj) (IZR (ts_tilewidth ts));
               spr_h := field_or (o_height obj) (IZR (ts_tileheight ts));
               spr_rotation :=
                 match o_rotation obj with Some deg => deg | None => 0 end;
               spr_flipH := flipH; spr_flipV := flipV;
               spr_flipD := flipD |} in
          let p := scan_pending st in
          mkObjectScan (scan_game st)
            (mkPending (newTiles p ++ [tile]) (newTileLayers p)
               (newAISpawns p) (newAICheckpoints p) (newMapCheckpoints p))
            (newObstacles st) (foundObjects st)
      end
  end.

Definition push_checkpoint (index : Z) (cp : Checkpoint) (p : Pending)
    : Pending :=
  mkPending (newTiles p) (newTileLayers p) (newAISpawns p)
    (newAICheckpoints p) (newMapCheckpoints p ++ [(index, cp)]).

Definition push_aiCheckpoint (index : Z) (pt : Pt) (p : Pending)
    : Pending :=
  mkPending (newTiles p) (newTileLayers p) (newAISpawns p)
    (newAICheckpoints p ++ [(index, pt)]) (newMapCheckpoints p).

Definition push_aiSpawn (sp : Pose) (p : Pending) : Pending :=
  mkPending (newTiles p) (newTileLayers p) (newAISpawns p ++ [sp])
    (newAICheckpoints p) (newMapCheckpoints p).

Definition push_tileLayer (l : TileLayer) (p : Pending) : Pending :=
  mkPending (newTiles p) (newTileLayers p ++ [l]) (newAISpawns p)
    (newAICheckpoints p) (newMapCheckpoints p).

(** [foundObjects = true; hasMapObjects = true]. *)
Definition markFound (g : Game) (p : Pending) (obs : list Obstacle)
    : ObjectScan :=
  mkObjectScan (set_hasMapObjects true g) p obs true.

(** The body of the loop over the objects of an object layer. *)
Definition scanObject (meta : list TilesetMeta) (images : list (Z * Img))
    (st : ObjectScan) (obj : MapObject) : ObjectScan :=
  match o_gid obj with
  | Some rawGid => scanTileObject meta images obj rawGid st
  | None =>
      let g := scan_game st in
      let p := scan_pending st in
      let obs := newObstacles st in
      let name := toLowerCase (str_or (o_name obj) (str_or (o_type obj) "")) in
      let nameCompact := remove_spaces name in
      if String.eqb name "car" then
        let c := car g in
        let c := set_car_x (field_or (o_x obj) (car_x c)) c in
        let c := set_car_y (field_or (o_y obj) (car_y c)) c in
        let c := match o_rotation obj with
                 | Some deg => set_car_angle (degToRad deg) c
                 | None => c
                 end in
        let g := set_car c g in
        let g := set_startSpawn
                   (mkPose (car_x c) (car_y c) (car_angle c)) g in
        markFound g p obs
      else
        match checkpoint_number name with
        | Some idx =>
            let p := push_aiCheckpoint idx
                       (mkPt (field_or (o_x obj) 0
                              + field_or (o_width obj) 0 / 2)
                             (field_or (o_y obj) 0
                              + field_or (o_height obj) 0 / 2)) p in
            let x1 := field_or (o_x obj) 0 in
            let y1 := field_or (o_y obj) 0 in
            let w := field_or (o_width obj) 0 in
            let h := field_or (o_height obj) 0 in
            let x2 := x1 + w in
            let y2 := y1 + h in
            markFound g (push_checkpoint idx (mkCheckpoint x1 y1 x2 y2) p) obs
        | None =>
            if String.eqb nameCompact "tracklimitbox"
               || String.eqb nameCompact "tracklimit"
               || String.eqb nameCompact "tracklimit2"
            then
              let w := field_or (o_width obj) 0 in
              let h := field_or (o_height obj) 0 in
              if Rltb 0 w && Rltb 0 h
              then markFound g p
                     (obs ++ [ObsRect (field_or (o_x obj) 0)
                                      (field_or (o_y obj) 0) w h])
              else markFound g p obs
            else if String.eqb name "ai_spawn" then
              mkObjectScan g
                (push_aiSpawn (mkPose (field_or (o_x obj) 0)
                                      (field_or (o_y obj) 0)
                                      (rotation_or (o_rotation obj) 0)) p)
                obs (foundObjects st)
            else if String.eqb name "obstacle" then
              let r := match getObjectProperty (o_properties obj) "radius" with
                       | Some (PNum v) => v
                       | _ => 18
                       end in
              markFound g p
                (obs ++ [ObsCircle (field_or (o_x obj) 0)
                                   (field_or (o_y obj) 0) r])
            else if String.eqb name "checkpoint" then
              let index := length_Z (newMapCheckpoints p) in
              let baseX := field_or (o_x obj) 0 in
              let baseY := field_or (o_y obj) 0 in
              match o_polyline obj with
              | Some ((p0 :: _ :: _) as line) =>
                  let p1 := List.last line p0 in
                  markFound g
                    (push_checkpoint index
                       (mkCheckpoint (baseX + px p0) (baseY + py p0)
                                     (baseX + px p1) (baseY + py p1)) p)
                    obs
              | _ =>
                  let x2 := baseX + field_or (o_width obj) 0 in
                  let y2 := baseY + field_or (o_height obj) 0 in
                  markFound g
                    (push_checkpoint index
                       (mkCheckpoint baseX baseY x2 y2) p)
                    obs
              end
            else st
        end
  end.

Definition is_some {A : Type} (o : option A) : bool :=
  match o with Some _ => true | None => false end.

(** The start of an object layer: in a layer named "track", the first
    object named "track_path" that has a polyline gives [trackPath] and,
    when it carries the property, [trackWidth]. *)
Definition applyTrackObject (layerName : string) (objects : list MapObject)
    (g : Game) : Game :=
  let trackObj :=
    find (fun o => String.eqb (toLowerCase (str_or (o_name o) ""))
                     "track_path"
                   && is_some (o_polyline o)) objects in
  match trackObj with
  | Some obj =>
      if String.eqb layerName "track" then
        let baseX := field_or (o_x obj) 0 in
        let baseY := field_or (o_y obj) 0 in
        let line := match o_polyline obj with
                    | Some l => l
                    | None => []
                    end in
        let g := set_trackPath
                   (map (fun q => mkPt (baseX + px q) (baseY + py q)) line)
                   g in
        match getObjectProperty (o_properties obj) "trackWidth" with
        | Some (PNum w) => set_trackWidth w g
        | _ => g
        end
      else g
  | None => g
  end.

(** The end of an object layer: when it held a recognised object, its
    obstacles and the checkpoints found so far replace the lists, and the
    checkpoint progress is reset. *)
Definition replaceLayerLists (st : ObjectScan) : Game * Pending :=
  let g := scan_game st in
  let p := scan_pending st in
  if foundObjects st then
    let g := match newObstacles st with
             | [] => g
             | obs => set_hasMapObstacles true (set_obstacles obs g)
             end in
    let g := match newMapCheckpoints p with
             | [] => g
             | cps =>
                 set_hasMapCheckpoints true
                   (set_checkpoints (map snd (sort_by fst cps)) g)
             end in
    (set_lastCheckpointIndex (-1)%Z (set_currentCheckpoint 0%Z g), p)
  else (g, p).

(** [name || ""]: the name when it is truthy. *)
Definition name_or_empty (name : option NameValue) : NameValue :=
  match name with
  | Some (NameString s) => NameString s
  | Some (NameNumber v) => if Reqb v 0 then NameString "" else NameNumber v
  | Some (NameBool b) => if b then NameBool b else NameString ""
  | Some NameObject => NameObject
  | None => NameString ""
  end.

(** [name.toLowerCase()]: a [TypeError] when the name is not a string. *)
Definition lowerCaseName (name : NameValue) : Try string :=
  match name with
  | NameString s => Ok (toLowerCase s)
  | _ => Thrown
  end.

(** An object layer: the track path, then the objects, then the lists the
    layer replaces.  A layer whose name is not a string throws before it
    assigns anything. *)
Definition scanObjectLayer (meta : list TilesetMeta)
    (images : list (Z * Img)) (layer : Layer) (g : Game) (p : Pending)
    : Game * Try Pending :=
  match lowerCaseName (name_or_empty (l_name layer)) with
  | Thrown => (g, Thrown)
  | Ok layerName =>
      let objects :=
        match l_objects layer with Some os => os | None => [] end in
      let g := applyTrackObject layerName objects g in
      let r := replaceLayerLists
                 (fold_left (scanObject meta images) objects
                    (mkObjectScan g p [] false)) in
      (fst r, Ok (snd r))
  end.

(** A tile layer: kept when its payload decodes to a non-empty array. *)
Definition tileLayerOf (layer : Layer) (decoded : list Z) : TileLayer :=
  {| tl_name := name_or_empty (l_name layer);
     tl_data := decoded;
     tl_width := ifield_or (l_width layer) 0;
     tl_height := ifield_or (l_height layer) 0;
     tl_opacity := match l_opacity layer with Some o => o | None => 1 end;
     tl_visible := match l_visible layer with
                   | Some false => false
                   | _ => true
                   end |}.

(** The loop over [layers].  A payload that fails to decode, or an
    object layer whose name is not a string, throws out of the loop: the
    result is then the [Game] reached so far and no pending arrays. *)
Fixpoint loadLayers (env : Browser) (meta : list TilesetMeta)
    (images : list (Z * Img)) (layers : list Layer) (g : Game)
    (p : Pending) : Game * Try Pending :=
  match layers with
  | [] => (g, Ok p)
  | layer :: rest =>
      if String.eqb (l_type layer) "tilelayer" then
        match decodeLayerData env layer with
        | Thrown => (g, Thrown)
        | Ok (Some ((_ :: _) as decoded)) =>
            loadLayers env meta images rest g
              (push_tileLayer (tileLayerOf layer decoded) p)
        | Ok _ => loadLayers env meta images rest g p
        end
      else if negb (String.eqb (l_type layer) "objectgroup") then
        loadLayers env meta images rest g p
      else
        match scanObjectLayer meta images layer g p with
        | (g, Thrown) => (g, Thrown)
        | (g, Ok p) => loadLayers env meta images rest g p
        end
  end.

(** How a call of [loadTiledMap] ended: it ran to its end, it returned at
    [if (!res.ok) return], or its [catch] took an exception. *)
Inductive Completion : Type :=
| Finished
| ReturnedEarly
| Caught.

(** [(l.name || "").toLowerCase().includes(word)]. *)
Definition layer_named (word : string) (l : TileLayer) : Try bool :=
  match lowerCaseName (name_or_empty (Some (tl_name l))) with
  | Thrown => Thrown
  | Ok name => Ok (includes name word)
  end.

(** [layers.filter((l) => ...)] with that test: the first layer whose
    name is not a string throws out of the filter. *)
Fixpoint filter_named (word : string) (layers : list TileLayer)
    : Try (list TileLayer) :=
  match layers with
  | [] => Ok []
  | l :: rest =>
      match layer_named word l with
      | Thrown => Thrown
      | Ok hit =>
          match filter_named word rest with
          | Thrown => Thrown
          | Ok kept => Ok (if hit then l :: kept else kept)
          end
      end
  end.

(** The assignments that follow the loop over the layers, and how they
    end: the filter on the names of the tile layers throws on a name that
    is not a string, after [tiledTrackTiles] and [tiledTileLayers] have
    been assigned. *)
Definition publishPending (p : Pending) (g : Game) : Completion * Game :=
  let g := match newTiles p with
           | [] => g
           | tiles => set_tiledTrackTiles tiles g
           end in
  let g := match newTileLayers p with
           | [] => g
           | ls => set_tiledTileLayers ls g
           end in
  match filter_named "road" (tiledTileLayers g) with
  | Thrown => (Caught, g)
  | Ok road =>
      let g := set_tiledRoadLayers road g in
      match filter_named "ground" (tiledTileLayers g) with
      | Thrown => (Caught, g)
      | Ok ground =>
          let g := set_tiledGroundLayers ground g in
          let g := set_aiSpawnPoints (newAISpawns p) g in
          let g := set_aiCheckpoints
                     (map snd (sort_by fst (newAICheckpoints p))) g in
          if negb (length_Z (tiledTrackTiles g) =? 0)%Z
             && negb (hasMapObjects g)
          then
            let g := set_obstacles [] g in
            let g := set_checkpoints [] g in
            let g := set_hasMapObstacles false g in
            let g := set_hasMapCheckpoints false g in
            (Finished,
             set_lastCheckpointIndex (-1)%Z (set_currentCheckpoint 0%Z g))
          else (Finished, g)
      end
  end.

(** The [laps] property of the map: the first property of that name. *)
Definition lapProp (map : TiledMap) : option Property :=
  let mapProps := match m_properties map with
                  | Some ps => ps
                  | None => []
                  end in
  find (fun p => String.eqb (prop_name p) "laps") mapProps.

Definition applyLaps (map : TiledMap) (g : Game) : Game :=
  match lapProp map with
  | Some prop =>
      match prop_value prop with
      | PNum v => set_raceLaps (Z.max 1 (Math_floor v)) g
      | _ => g
      end
  | None => g
  end.

(** The tileset part: descriptors, images, tile and world size. *)
Definition tilesetMetaList (map : TiledMap) : list TilesetMeta :=
  let tilesets := match m_tilesets map with
                  | Some ts => ts
                  | None => []
                  end in
  sort_by ts_firstgid (List.map (tilesetMetaOf map) tilesets).

Definition applyTilesets (map : TiledMap) (meta : list TilesetMeta)
    (images : list (Z * Img)) (g : Game) : Game :=
  let g := set_tiledTilesetMeta meta g in
  let g := set_tiledTilesetImages images g in
  let g := set_tiledMapTileWidth (ifield_or (m_tilewidth map) 32) g in
  let g := set_tiledMapTileHeight (ifield_or (m_tileheight map) 32) g in
  let g := set_tiledMapWidth (ifield_or (m_width map) 0) g in
  let g := set_tiledMapHeight (ifield_or (m_height map) 0) g in
  let g := fold_left widenTileSize meta g in
  if negb (ifield_or (m_width map) 0 =? 0)%Z
     && negb (ifield_or (m_height map) 0 =? 0)%Z
  then
    let g := set_worldWidth
               (ifield_or (m_width map) 0 * tiledMapTileWidth g)%Z g in
    set_worldHeight (ifield_or (m_height map) 0 * tiledMapTileHeight g)%Z g
  else g.

(** The [try] block of [loadTiledMap], once the document is parsed. *)
Definition loadParsedMap (env : Browser) (map : TiledMap) (g : Game)
    : Completion * Game :=
  let g := applyLaps map g in
  let layers := match m_layers map with Some ls => ls | None => [] end in
  let tilesetMeta := tilesetMetaList map in
  let tilesetImages := loadTilesetImages env tilesetMeta [] in
  let g := applyTilesets map tilesetMeta tilesetImages g in
  match loadLayers env tilesetMeta tilesetImages layers g no_pending with
  | (g, Thrown) => (Caught, g)
  | (g, Ok p) => publishPending p g
  end.

(** [loadTiledMap(mapFile)] with the way it ended. *)
Definition loadTiledMap_run (env : Browser) (mapFile : string) (g : Game)
    : Completion * Game :=
  match fetch env mapFile with
  | FetchRejected => (Caught, g)
  | ResponseNotOk => (ReturnedEarly, g)
  | ResponseBadJson => (Caught, g)
  | ResponseJson map => loadParsedMap env map g
  end.

(** [loadTiledMap(mapFile)]: the promise always resolves. *)
Definition loadTiledMap (env : Browser) (mapFile : string) (g : Game)
    : Game :=
  snd (loadTiledMap_run env mapFile g).

(* ================================================================== *)
(** * Notions used to state the properties *)
(* ================================================================== *)

(** The sum of the lengths of a list of track segments. *)
Definition sum_len (segs : list TrackSegment) : R :=
  fold_right (fun s acc => seg_len s + acc) 0 segs.

(** A segment as [buildTrackSegments] makes it from its two ends. *)
Definition segment_of_ends (s : TrackSegment) : Prop :=
  seg_dx s = px (seg_b s) - px (seg_a s)
  /\ seg_dy s = py (seg_b s) - py (seg_a s)
  /\ seg_len s = Math_hypot (seg_dx s) (seg_dy s)
  /\ 0 < seg_len s.
(** The tile column and row of a position, and the map bounds
    [getSurfaceAt] tests them against when road layers exist. *)
Definition tileColumn (g : Game) (x : R) : Z :=
  Math_floor (x / IZR (tiledMapTileWidth g)).

Definition tileRow (g : Game) (y : R) : Z :=
  Math_floor (y / IZR (tiledMapTileHeight g)).

Definition roadMapWidth (g : Game) : Z :=
  int_or (tiledMapWidth g)
    (match tiledRoadLayers g with
     | l :: _ => int_or (tl_width l) 0
     | [] => 0%Z
     end).

Definition roadMapHeight (g : Game) : Z :=
  int_or (tiledMapHeight g)
    (match tiledRoadLayers g with
     | l :: _ => int_or (tl_height l) 0
     | [] => 0%Z
     end).

Definition insideMap (g : Game) (x y : R) : Prop :=
  (0 <= tileColumn g x < roadMapWidth g)%Z
  /\ (0 <= tileRow g y < roadMapHeight g)%Z.

(** A map document without [width] and [height] whose road layer is one
    tile wide and whose ground layer is two tiles wide. *)
Definition narrow_road_map : TiledMap :=
  {| m_properties := None;
     m_layers :=
       Some [ mkLayer "tilelayer" (Some (NameString "road")) (DataArray [1%Z])
                None None (Some 1%Z) (Some 1%Z) None None None;
              mkLayer "tilelayer" (Some (NameString "ground"))
                (DataArray [5%Z; 5%Z])
                None None (Some 2%Z) (Some 1%Z) None None None ];
     m_tilesets := None;
     m_tilewidth := Some 32%Z; m_tileheight := Some 32%Z;
     m_width := None; m_height := None |}.

(** A browser that serves a given document for every file, has no
    [DecompressionStream], and finds no image. *)
Definition serving (map : TiledMap) : Browser :=
  {| fetch := fun _ => ResponseJson map;
     atob := forgiving_base64_decode;
     hasDecompressionStream := false;
     decompress := fun _ _ => None;
     loadImage := fun _ => None |}.

(** The speed clamp for a top speed [m]. *)
Definition speedWithin (m speed : R) : Prop := - 0.5 * m <= speed <= m.

(** The declared state once the race runs: started, countdown over. *)
Definition running_game : Game := set_started true initial_game.

(** The position a tick leaves the car at, with the position it came
    from: what [lastX], [lastY] and [car.x], [car.y] hold when the
    checkpoint block runs. *)
Record Move : Type := mkMove {
  from_x : R;
  from_y : R;
  to_x : R;
  to_y : R
}.

Definition placeCar (m : Move) (g : Game) : Game :=
  set_lastY (from_y m)
    (set_lastX (from_x m)
       (set_car (set_car_y (to_y m) (set_car_x (to_x m) (car g))) g)).

(** A tick whose movement is [m], seen from the checkpoint block. *)
Definition crossingTick (g : Game) (m : Move) : Game :=
  trackCheckpoints (placeCar m g).

(** Moves across each of the four declared checkpoints. *)
Definition across_checkpoint_0 : Move := mkMove 250 300 270 300.
Definition across_checkpoint_1 : Move := mkMove 970 300 990 300.
Definition across_checkpoint_2 : Move := mkMove 500 190 500 210.
Definition across_checkpoint_3 : Move := mkMove 500 550 500 570.

(** The fields [loadTiledMap] assigns only after the loop over the layers,
    and the lap count, which that loop never assigns. *)
Definition sameUnpublished (g g' : Game) : Prop :=
  tiledTrackTiles g' = tiledTrackTiles g
  /\ tiledTileLayers g' = tiledTileLayers g
  /\ tiledRoadLayers g' = tiledRoadLayers g
  /\ tiledGroundLayers g' = tiledGroundLayers g
  /\ aiSpawnPoints g' = aiSpawnPoints g
  /\ aiCheckpoints g' = aiCheckpoints g
  /\ raceLaps g' = raceLaps g.

(** The lap count a parsed document leaves. *)
Definition lapsOverride (map : TiledMap) (previous : Z) : Z :=
  match lapProp map with
  | Some prop =>
      match prop_value prop with
      | PNum v => Z.max 1 (Math_floor v)
      | _ => previous
      end
  | None => previous
  end.

(** A browser for which the map file cannot be fetched. *)
Definition offline : Browser :=
  {| fetch := fun _ => ResponseNotOk;
     atob := forgiving_base64_decode;
     hasDecompressionStream := false;
     decompress := fun _ _ => None;
     loadImage := fun _ => None |}.

(** A map with five laps and an obstacle, whose tile layer carries a
    payload that is not base64. *)
Definition broken_payload_map : TiledMap :=
  {| m_properties := Some [mkProperty "laps" (PNum 5)];
     m_layers :=
       Some [ mkLayer "objectgroup" (Some (NameString "objects")) DataAbsent
                None None None None None None
                (Some [mkMapObject (Some "obstacle"%string) None
                         (Some 50) (Some 60) None None None None None None]);
              mkLayer "tilelayer" (Some (NameString "road")) (DataString "*")
                (Some "base64"%string) None (Some 1%Z) (Some 1%Z)
                None None None ];
     m_tilesets := None;
     m_tilewidth := Some 32%Z; m_tileheight := Some 32%Z;
     m_width := Some 10%Z; m_height := Some 10%Z |}.

(** [toLowerCase] throws on the name of the tile layer. *)
Definition nameThrows (l : TileLayer) : Prop :=
  lowerCaseName (name_or_empty (Some (tl_name l))) = Thrown.

(** A map whose only layer is a tile layer named by the number 7. *)
Definition numeric_name_map : TiledMap :=
  {| m_properties := None;
     m_layers :=
       Some [ mkLayer "tilelayer" (Some (NameNumber 7)) (DataArray [1%Z])
                None None (Some 1%Z) (Some 1%Z) None None None ];
     m_tilesets := None;
     m_tilewidth := Some 32%Z; m_tileheight := Some 32%Z;
     m_width := Some 1%Z; m_height := Some 1%Z |}.

(** A map whose [laps] property is negative. *)
Definition negative_laps_map : TiledMap :=
  {| m_properties := Some [mkProperty "laps" (PNum (-5))];
     m_layers := None; m_tilesets := None;
     m_tilewidth := None; m_tileheight := None;
     m_width := None; m_height := None |}.

(** A map two tiles wide and one tile high, with a road tile in its left
    cell only and no ground layer. *)
Definition small_road_map : TiledMap :=
  {| m_properties := None;
     m_layers :=
       Some [ mkLayer "tilelayer" (Some (NameString "road"))
                (DataArray [1%Z; 0%Z])
                None None (Some 2%Z) (Some 1%Z) None None None ];
     m_tilesets := None;
     m_tilewidth := Some 32%Z; m_tileheight := Some 32%Z;
     m_width := Some 2%Z; m_height := Some 1%Z |}.
(* ================================================================== *)
(** * Touch and keyboard controls *)
(* ================================================================== *)

(** An instance of [class Joystick].  [js_pointerId] is [None] for
    [null]. *)
Record Joystick : Type := mkJoystick {
  js_anchorX : R;
  js_anchorY : R;
  js_radius : R;
  js_axisLock : string;
  js_pointerId : option Z;
  js_valueX : R;
  js_valueY : R;
  js_activeX : R;
  js_activeY : R
}.

(** [new Joystick(name, anchorX, anchorY, radius, axisLock)]. *)
Definition Joystick_new (anchorX anchorY radius : R) (axisLock : string)
    : Joystick :=
  mkJoystick anchorX anchorY radius axisLock None 0 0 anchorX anchorY.

Definition Joystick_inZone (s : Joystick) (x y : R) : bool :=
  let dx := x - js_anchorX s in
  let dy := y - js_anchorY s in
  Rleb (dx * dx + dy * dy) ((js_radius s * 1.4) * (js_radius s * 1.4)).

Definition Joystick_update (x y : R) (s : Joystick) : Joystick :=
  let dx := x - js_anchorX s in
  let dy := y - js_anchorY s in
  let dist := Math_hypot dx dy in
  let clamped := if Rlt_dec (js_radius s) dist then js_radius s / dist
                 else 1 in
  let vx := dx * clamped in
  let vy := dy * clamped in
  let vy := if String.eqb (js_axisLock s) "x" then 0 else vy in
  let vx := if String.eqb (js_axisLock s) "y" then 0 else vx in
  mkJoystick (js_anchorX s) (js_anchorY s) (js_radius s) (js_axisLock s)
    (js_pointerId s) (vx / js_radius s) (vy / js_radius s)
    (js_anchorX s + vx) (js_anchorY s + vy).

Definition Joystick_start (pointerId : Z) (x y : R) (s : Joystick)
    : Joystick :=
  Joystick_update x y
    (mkJoystick (js_anchorX s) (js_anchorY s) (js_radius s) (js_axisLock s)
       (Some pointerId) (js_valueX s) (js_valueY s) x y).

Definition Joystick_end (s : Joystick) : Joystick :=
  mkJoystick (js_anchorX s) (js_anchorY s) (js_radius s) (js_axisLock s)
    None 0 0 (js_anchorX s) (js_anchorY s).

(** One of [pedals.accel], [pedals.brake]. *)
Record Pedal : Type := mkPedal {
  pd_x : R;
  pd_y : R;
  pd_w : R;
  pd_h : R;
  pd_pressed : bool
}.

Definition set_pd_pressed (v : bool) (p : Pedal) : Pedal :=
  mkPedal (pd_x p) (pd_y p) (pd_w p) (pd_h p) v.

(** A value of [pointerMap]: [{type: "pedal", name}] or the steering
    stick itself. *)
Inductive PedalName : Type := Accel | Brake.

Inductive Held : Type :=
| HeldPedal (name : PedalName)
| HeldStick.

(** [keys]. *)
Record Keys : Type := mkKeys {
  keys_up : bool;
  keys_down : bool;
  keys_left : bool;
  keys_right : bool
}.

(** The control state: [keys], [pedals], [steeringStick], [pointerMap].
    The map keeps its entries in insertion order. *)
Record Controls : Type := mkControls {
  keys : Keys;
  pedals_accel : Pedal;
  pedals_brake : Pedal;
  steeringStick : Joystick;
  pointerMap : list (Z * Held)
}.

Definition set_pedals_accel (v : Pedal) (c : Controls) : Controls :=
  mkControls (keys c) v (pedals_brake c) (steeringStick c) (pointerMap c).
Definition set_pedals_brake (v : Pedal) (c : Controls) : Controls :=
  mkControls (keys c) (pedals_accel c) v (steeringStick c) (pointerMap c).
Definition set_steeringStick (v : Joystick) (c : Controls) : Controls :=
  mkControls (keys c) (pedals_accel c) (pedals_brake c) v (pointerMap c).
Definition set_pointerMap (v : list (Z * Held)) (c : Controls) : Controls :=
  mkControls (keys c) (pedals_accel c) (pedals_brake c) (steeringStick c) v.
Definition set_keys (v : Keys) (c : Controls) : Controls :=
  mkControls v (pedals_accel c) (pedals_brake c) (steeringStick c)
    (pointerMap c).

(** [Map.prototype.set], [get] and [delete] on integer keys. *)
Fixpoint Map_set {V : Type} (key : Z) (v : V) (m : list (Z * V))
    : list (Z * V) :=
  match m with
  | [] => [(key, v)]
  | (k, w) :: rest =>
      if (k =? key)%Z then (k, v) :: rest else (k, w) :: Map_set key v rest
  end.

Fixpoint Map_get {V : Type} (key : Z) (m : list (Z * V)) : option V :=
  match m with
  | [] => None
  | (k, w) :: rest => if (k =? key)%Z then Some w else Map_get key rest
  end.

Fixpoint Map_delete {V : Type} (key : Z) (m : list (Z * V))
    : list (Z * V) :=
  match m with
  | [] => []
  | (k, w) :: rest =>
      if (k =? key)%Z then rest else (k, w) :: Map_delete key rest
  end.

(** The pointer lies on the pedal's rectangle, edges included. *)
Definition onPedal (p : Pedal) (uiX uiY : R) : bool :=
  Rleb (pd_x p) uiX && Rleb uiX (pd_x p + pd_w p)
  && Rleb (pd_y p) uiY && Rleb uiY (pd_y p + pd_h p).

(** [!steeringStick.pointerId]: true for [null] and for the id 0. *)
Definition noPointerId (s : Joystick) : bool :=
  match js_pointerId s with
  | None => true
  | Some id => (id =? 0)%Z
  end.

Definition handlePointerDown (pointerId : Z) (clientX clientY : R)
    (c : Controls) : Controls :=
  let uiX := clientX in
  let uiY := clientY in
  if onPedal (pedals_accel c) uiX uiY then
    set_pointerMap (Map_set pointerId (HeldPedal Accel) (pointerMap c))
      (set_pedals_accel (set_pd_pressed true (pedals_accel c)) c)
  else if onPedal (pedals_brake c) uiX uiY then
    set_pointerMap (Map_set pointerId (HeldPedal Brake) (pointerMap c))
      (set_pedals_brake (set_pd_pressed true (pedals_brake c)) c)
  else if noPointerId (steeringStick c)
          && Joystick_inZone (steeringStick c) uiX uiY then
    set_pointerMap (Map_set pointerId HeldStick (pointerMap c))
      (set_steeringStick
         (Joystick_start pointerId uiX uiY (steeringStick c)) c)
  else c.

Definition handlePointerMove (pointerId : Z) (clientX clientY : R)
    (c : Controls) : Controls :=
  match Map_get pointerId (pointerMap c) with
  | None => c
  | Some (HeldPedal _) => c
  | Some HeldStick =>
      set_steeringStick (Joystick_update clientX clientY (steeringStick c)) c
  end.

Definition handlePointerUp (pointerId : Z) (c : Controls) : Controls :=
  let c :=
    match Map_get pointerId (pointerMap c) with
    | None => c
    | Some (HeldPedal Accel) =>
        set_pedals_accel (set_pd_pressed false (pedals_accel c)) c
    | Some (HeldPedal Brake) =>
        set_pedals_brake (set_pd_pressed false (pedals_brake c)) c
    | Some HeldStick =>
        set_steeringStick (Joystick_end (steeringStick c)) c
    end in
  set_pointerMap (Map_delete pointerId (pointerMap c)) c.

(** The [keydown] and [keyup] listeners. *)
Definition isCode (code a b : string) : bool :=
  String.eqb code a || String.eqb code b.

Definition setKey (v : bool) (code : string) (k : Keys) : Keys :=
  let k := if isCode code "ArrowUp" "KeyW"
           then mkKeys v (keys_down k) (keys_left k) (keys_right k)
           else k in
  let k := if isCode code "ArrowDown" "KeyS"
           then mkKeys (keys_up k) v (keys_left k) (keys_right k)
           else k in
  let k := if isCode code "ArrowLeft" "KeyA"
           then mkKeys (keys_up k) (keys_down k) v (keys_right k)
           else k in
  if isCode code "ArrowRight" "KeyD"
  then mkKeys (keys_up k) (keys_down k) (keys_left k) v
  else k.

Definition keydown (code : string) (c : Controls) : Controls :=
  set_keys (setKey true code (keys c)) c.

Definition keyup (code : string) (c : Controls) : Controls :=
  set_keys (setKey false code (keys c)) c.

(** The events the listeners are registered for.  A [pointercancel] or
    [pointerout] event, and a [touchend] or [touchcancel] touch, is a
    [PointerUp]. *)
Inductive ControlEvent : Type :=
| PointerDown (pointerId : Z) (clientX clientY : R)
| PointerMove (pointerId : Z) (clientX clientY : R)
| PointerUp (pointerId : Z)
| KeyDown (code : string)
| KeyUp (code : string).

Definition handleEvent (c : Controls) (e : ControlEvent) : Controls :=
  match e with
  | PointerDown id x y => handlePointerDown id x y c
  | PointerMove id x y => handlePointerMove id x y c
  | PointerUp id => handlePointerUp id c
  | KeyDown code => keydown code c
  | KeyUp code => keyup code c
  end.

Definition handleEvents (events : list ControlEvent) (c : Controls)
    : Controls :=
  fold_left handleEvent events c.

(** What [updatePhysics] reads from the controls. *)
Definition inputOf (c : Controls) : Input :=
  mkInput (keys_up (keys c)) (keys_down (keys c)) (keys_left (keys c))
    (keys_right (keys c)) (pd_pressed (pedals_accel c))
    (pd_pressed (pedals_brake c)) (js_valueX (steeringStick c)).

(** The controls as the script creates them: the stick of radius 70
    anchored at (120, 600) and locked to the x axis, the pedals 90 by
    140. *)
Definition initial_controls : Controls :=
  {| keys := mkKeys false false false false;
     pedals_accel := mkPedal 0 0 90 140 false;
     pedals_brake := mkPedal 0 0 90 140 false;
     steeringStick := Joystick_new 120 (720 - 120) 70 "x";
     pointerMap := [] |}.

(* ================================================================== *)
(** * The view: [resize], [updateCamera], zoom *)
(* ================================================================== *)

Definition worldToScreen (x y scale offsetX offsetY : R) : Pt :=
  mkPt (x * scale + offsetX) (y * scale + offsetY).

Definition screenToWorld (x y scale offsetX offsetY : R) : Pt :=
  mkPt ((x - offsetX) / scale) ((y - offsetY) / scale).

(** What [resize] reads from [window]. *)
Record Window : Type := mkWindow {
  innerWidth : R;
  innerHeight : R;
  devicePixelRatio : R
}.

(** The size of the canvas and the module-level variables of the view. *)
Record View : Type := mkView {
  canvas_width : Z;
  canvas_height : Z;
  scale : R;
  offsetX : R;
  offsetY : R;
  uiScale : R;
  uiOffsetX : R;
  uiOffsetY : R;
  uiViewportWidth : R;
  uiViewportHeight : R;
  dpr : R;
  cameraZoom : R
}.

Definition set_offsets (ox oy : R) (v : View) : View :=
  mkView (canvas_width v) (canvas_height v) (scale v) ox oy (uiScale v)
    (uiOffsetX v) (uiOffsetY v) (uiViewportWidth v) (uiViewportHeight v)
    (dpr v) (cameraZoom v).

Definition set_cameraZoom (z : R) (v : View) : View :=
  mkView (canvas_width v) (canvas_height v) (scale v) (offsetX v)
    (offsetY v) (uiScale v) (uiOffsetX v) (uiOffsetY v)
    (uiViewportWidth v) (uiViewportHeight v) (dpr v) z.

Definition startZoom : R := 4.
Definition minZoom : R := 0.4.
Definition maxZoom : R := startZoom.
Definition zoomLerpSpeed : R := 5.

Definition setZoom (nextZoom : R) (v : View) : View :=
  set_cameraZoom (Rmax minZoom (Rmin maxZoom nextZoom)) v.

(** The camera point on one axis: the middle of the world when the view
    covers it, the car kept half a view away from the edges otherwise. *)
Definition cameraAxis (view world carPos : R) : R :=
  if Rle_dec world view then world / 2
  else Rmax (view / 2) (Rmin (world - view / 2) carPos).

Definition updateCamera (g : Game) (v : View) : View :=
  let viewW := IZR (canvas_width v) / scale v in
  let viewH := IZR (canvas_height v) / scale v in
  let camX := cameraAxis viewW (IZR (worldWidth g)) (car_x (car g)) in
  let camY := cameraAxis viewH (IZR (worldHeight g)) (car_y (car g)) in
  set_offsets (IZR (canvas_width v) / 2 - camX * scale v)
              (IZR (canvas_height v) / 2 - camY * scale v) v.

(** [resize()], for a window whose sides are not negative.  The rotate
    overlay it refreshes is outside the model. *)
Definition resize (win : Window) (g : Game) (v : View) : View :=
  let dpr := num_or (devicePixelRatio win) 1 in
  let w := innerWidth win in
  let h := innerHeight win in
  let cw := Math_floor (w * dpr) in
  let ch := Math_floor (h * dpr) in
  let scaleX := IZR cw / IZR (worldWidth g) in
  let scaleY := IZR ch / IZR (worldHeight g) in
  updateCamera g
    (mkView cw ch (Rmin scaleX scaleY * cameraZoom v) (offsetX v)
       (offsetY v) dpr 0 0 w h dpr (cameraZoom v)).

Definition updateAutoZoom (win : Window) (dt : R) (g : Game) (v : View)
    : View :=
  if negb (started g) then v
  else
    let speed01 := clamp (Math_abs (car_speed (car g)) / 440) 0 1 in
    let zoomOutAmount := 1.8 in
    let targetZoom :=
      clamp (startZoom - speed01 * zoomOutAmount) minZoom maxZoom in
    let zoom :=
      cameraZoom v
      + (targetZoom - cameraZoom v) * Rmin 1 (dt * zoomLerpSpeed) in
    resize win g (set_cameraZoom zoom v).

(* ================================================================== *)
(** * Computer-driven cars *)
(* ================================================================== *)

Definition normalize (x y : R) : Pt :=
  let len := Math_hypot x y in
  if Req_dec_T len 0 then mkPt 0 0 else mkPt (x / len) (y / len).

(** [x % 1]: the remainder has the sign of [x]. *)
Definition Math_trunc (x : R) : Z :=
  if Rle_dec 0 x then Zfloor x else Zceil x.

Definition mod_one (x : R) : R := x - IZR (Math_trunc x).

(** One obstacle of the first loop of [computeAvoidance]. *)
Definition avoidObstacle (x y : R) (acc : Pt) (obs : Obstacle) : Pt :=
  let avoidRadius := 40 in
  let cx := match obs with
            | ObsRect ox _ w _ => ox + w / 2
            | ObsCircle ox _ _ => ox
            end in
  let cy := match obs with
            | ObsRect _ oy _ h => oy + h / 2
            | ObsCircle _ oy _ => oy
            end in
  let or := match obs with
            | ObsRect _ _ w h => Rmax w h / 2
            | ObsCircle _ _ r => r
            end in
  let dx := x - cx in
  let dy := y - cy in
  let dist := Math_hypot dx dy in
  if Rltb 0 dist && Rltb dist (avoidRadius + or) then
    let strength := 1 - dist / (avoidRadius + or) in
    mkPt (px acc + (dx / dist) * strength) (py acc + (dy / dist) * strength)
  else acc.

(** One car of the second loop.  A car without coordinates gives a
    distance that is not a number, on which both comparisons are false. *)
Definition avoidAICar (g : Game) (x y selfRadius : R) (acc : Pt)
    (other : AICar) : Pt :=
  let avoidRadiusAI := 36 in
  match ai_x other, ai_y other with
  | Some ox, Some oy =>
      let dx := x - ox in
      let dy := y - oy in
      let dist := Math_hypot dx dy in
      let r := selfRadius + num_or (ai_radius other) (car_radius (car g)) in
      if Rltb 0 dist && Rltb dist (avoidRadiusAI + r) then
        let strength := 1 - dist / (avoidRadiusAI + r) in
        mkPt (px acc + (dx / dist) * strength * 0.9)
             (py acc + (dy / dist) * strength * 0.9)
      else acc
  | _, _ => acc
  end.

(** The second loop, from index [i]; [self] is the index in [aiCars] of
    the object passed as [selfAi], which the loop skips. *)
Fixpoint avoidAICars (g : Game) (x y selfRadius : R) (self : option nat)
    (i : nat) (others : list AICar) (acc : Pt) : Pt :=
  match others with
  | [] => acc
  | other :: rest =>
      let isSelf := match self with
                    | Some k => Nat.eqb k i
                    | None => false
                    end in
      avoidAICars g x y selfRadius self (S i) rest
        (if isSelf then acc else avoidAICar g x y selfRadius acc other)
  end.

Definition avoidPlayer (g : Game) (x y : R) (acc : Pt) : Pt :=
  let avoidRadius := 40 in
  let dxp := x - car_x (car g) in
  let dyp := y - car_y (car g) in
  let distp := Math_hypot dxp dyp in
  if Rltb 0 distp && Rltb distp (avoidRadius + car_radius (car g)) then
    let strength := 1 - distp / (avoidRadius + car_radius (car g)) in
    mkPt (px acc + (dxp / distp) * strength * 0.6)
         (py acc + (dyp / distp) * strength * 0.6)
  else acc.

(** [computeAvoidance(x, y, selfAi)]. *)
Definition computeAvoidance (g : Game) (x y : R) (self : option nat) : Pt :=
  let acc := fold_left (avoidObstacle x y) (obstacles g) (mkPt 0 0) in
  let selfRadius :=
    match self with
    | Some k =>
        match nth_error (aiCars g) k with
        | Some s => num_or (ai_radius s) (car_radius (car g))
        | None => car_radius (car g)
        end
    | None => car_radius (car g)
    end in
  let acc := avoidAICars g x y selfRadius self 0 (aiCars g) acc in
  avoidPlayer g x y acc.

(** The loop of [nearestTrackT]; [bestDist] is [None] for
    [Number.POSITIVE_INFINITY]. *)
Fixpoint nearestTrackT_loop (total x y : R) (segs : list TrackSegment)
    (bestDist : option R) (bestT accLen : R) : R :=
  match segs with
  | [] => bestT
  | seg :: rest =>
      let ax := px (seg_a seg) in
      let ay := py (seg_a seg) in
      let bx := px (seg_b seg) in
      let by_ := py (seg_b seg) in
      let vx := bx - ax in
      let vy := by_ - ay in
      let denom := num_or (vx * vx + vy * vy) 1 in
      let tSeg := clamp (((x - ax) * vx + (y - ay) * vy) / denom) 0 1 in
      let qx := ax + vx * tSeg in
      let qy := ay + vy * tSeg in
      let dx := x - qx in
      let dy := y - qy in
      let dist := dx * dx + dy * dy in
      let closer := match bestDist with
                    | None => true
                    | Some best => Rltb dist best
                    end in
      nearestTrackT_loop total x y rest
        (if closer then Some dist else bestDist)
        (if closer then (accLen + seg_len seg * tSeg) / total else bestT)
        (accLen + seg_len seg)
  end.

Definition nearestTrackT (g : Game) (x y : R) : R :=
  if (length_Z (trackSegments g) =? 0)%Z || Rleb (trackLength g) 0 then 0
  else nearestTrackT_loop (trackLength g) x y (trackSegments g) None 0 0.

(** The car [initAICars] creates for index [i], if any. *)
Definition newAICar (g : Game) (mobCount : Z) (i : Z) : option AICar :=
  let useTrack := Rltb 0 (trackLength g) in
  let useCheckpoints := (length_Z (aiCheckpoints g) >? 0)%Z in
  let aiBaseSpeed := 160 in
  let aiStepSpeed := 20 in
  let speed := aiBaseSpeed + IZR i * aiStepSpeed in
  match at_index (aiSpawnPoints g) i with
  | Some spawn =>
      let useTrackFromSpawn := useTrack && negb useCheckpoints in
      let spawnT :=
        if useTrackFromSpawn
        then nearestTrackT g (pose_x spawn) (pose_y spawn) else 0 in
      Some (mkAICar (Some (pose_x spawn)) (Some (pose_y spawn))
              (Some (pose_angle spawn)) spawnT speed useTrackFromSpawn
              (car_radius (car g)) 0 1 false)
  | None =>
      if useTrack then
        Some (mkAICar None None None (IZR i / IZR mobCount) speed true
                (car_radius (car g)) 0 1 false)
      else
        match aiCheckpoints g with
        | first :: _ =>
            Some (mkAICar (Some (px first)) (Some (py first)) (Some 0) 0
                    speed false (car_radius (car g)) 0 1 false)
        | [] => None
        end
  end.

(** The [for] loop of [initAICars]: [n] rounds from index [i]. *)
Fixpoint initAICars_loop (g : Game) (mobCount : Z) (n : nat) (i : Z)
    (cars : list AICar) : list AICar :=
  match n with
  | O => cars
  | S n' =>
      initAICars_loop g mobCount n' (i + 1)
        (match newAICar g mobCount i with
         | Some ai => cars ++ [ai]
         | None => cars
         end)
  end.

(** [initAICars()]; [mobCount] is [gameState.selectedMode.mobs].  The
    images of the cars are outside the model. *)
Definition initAICars (mobCount : Z) (g : Game) : Game :=
  let g := set_aiCars [] g in
  if (mobCount <=? 0)%Z then g
  else set_aiCars (initAICars_loop g mobCount (Z.to_nat mobCount) 0 []) g.

(** How a step on a car ends: normally; with the [TypeError] of reading
    a property of [undefined], the car being as it was; or with an
    arithmetic on a missing coordinate, whose result [NaN] the real
    numbers of this embedding do not hold. *)
Inductive Outcome (A : Type) : Type :=
| Normal (a : A)
| TypeErrorAt (a : A)
| NotANumber.
Arguments Normal {A} a.
Arguments TypeErrorAt {A} a.
Arguments NotANumber {A}.

(** The pushes of the obstacles on a computer-driven car at [pos]. *)
Definition pushAIFromObstacle (radius : R) (pos : Pt) (obs : Obstacle)
    : Pt :=
  match obs with
  | ObsRect ox oy w h =>
      if circleRectCollision (px pos) (py pos) radius ox oy w h then
        let push := resolveCircleRect (px pos) (py pos) radius ox oy w h in
        mkPt (px pos + px push) (py pos + py push)
      else pos
  | ObsCircle ox oy r =>
      if circleCircleCollision pos (mkPt ox oy) (radius + r) then
        let push := resolveCircleCollision pos (mkPt ox oy) (radius + r) in
        mkPt (px pos + px push) (py pos + py push)
      else pos
  end.

Definition pushAIFromPlayer (g : Game) (radius : R) (pos : Pt) : Pt :=
  if circleCircleCollision pos (car_pos (car g))
       (radius + car_radius (car g)) then
    let push := resolveCircleCollision pos (car_pos (car g))
                  (radius + car_radius (car g)) in
    mkPt (px pos + px push) (py pos + py push)
  else pos.

(** The end of the loop body: the checkpoint counter, the lap counter
    and the finish flag of a car that was within 26 of its target. *)
Definition advanceAICheckpoint (g : Game) (targetDist : R) (ai : AICar)
    : AICar :=
  if Rltb targetDist 26 then
    let index := (ai_checkpointIndex ai + 1)%Z in
    if (index >=? length_Z (aiCheckpoints g))%Z then
      let lap := (ai_lap ai + 1)%Z in
      mkAICar (ai_x ai) (ai_y ai) (ai_angle ai) (ai_t ai) (ai_speed ai)
        (ai_useTrack ai) (ai_radius ai) 0 lap
        (if (lap >? raceLaps g)%Z then true else ai_finished ai)
    else
      mkAICar (ai_x ai) (ai_y ai) (ai_angle ai) (ai_t ai) (ai_speed ai)
        (ai_useTrack ai) (ai_radius ai) index (ai_lap ai) (ai_finished ai)
  else ai.

(** The heading after the turn towards [desiredAngle]. *)
Definition turnTowards (desiredAngle dt angle : R) : R :=
  let turnRate := 2.4 in
  let angleDiff := desiredAngle - angle in
  let angleDiff := Math_atan2 (sin angleDiff) (cos angleDiff) in
  angle + clamp angleDiff (- turnRate * dt) (turnRate * dt).

(** The body of the loop of [updateAICars] for the car at index [i] of
    [aiCars]. *)
Definition updateAICar (g : Game) (dt : R) (i : nat) (ai : AICar)
    : Outcome AICar :=
  if ai_finished ai then Normal ai
  else
    let surfacePos :=
      if ai_useTrack ai then
        match sampleTrack g (ai_t ai) with
        | Some p => Some (mkPt (pose_x p) (pose_y p))
        | None => None
        end
      else
        match ai_x ai, ai_y ai with
        | Some x, Some y => Some (mkPt x y)
        | _, _ => None
        end in
    let aiSurface :=
      match surfacePos with
      | Some p => getSurfaceAt g (px p) (py p)
      | None => SurfNone
      end in
    let aiSpeedFactor :=
      match aiSurface with SurfGround => 0.55 | _ => 1 end in
    let stepSpeed := ai_speed ai * aiSpeedFactor in
    if ai_useTrack ai then
      Normal
        (mkAICar (ai_x ai) (ai_y ai) (ai_angle ai)
           (mod_one (ai_t ai + (stepSpeed * dt) / Rmax (trackLength g) 1))
           (ai_speed ai) (ai_useTrack ai) (ai_radius ai)
           (ai_checkpointIndex ai) (ai_lap ai) (ai_finished ai))
    else if (length_Z (aiCheckpoints g) =? 0)%Z then Normal ai
    else
      match at_index (aiCheckpoints g)
              (Z.rem (ai_checkpointIndex ai) (length_Z (aiCheckpoints g)))
      with
      | None => TypeErrorAt ai
      | Some target =>
          match ai_x ai, ai_y ai, ai_angle ai with
          | Some x, Some y, Some angle =>
              let dx := px target - x in
              let dy := py target - y in
              let targetDist := Math_hypot dx dy in
              let avoid := computeAvoidance g x y (Some i) in
              let targetDir := normalize dx dy in
              let avoidDir := normalize (px avoid) (py avoid) in
              let mixX := px targetDir + px avoidDir * 1.0 in
              let mixY := py targetDir + py avoidDir * 1.0 in
              let desiredDir := normalize mixX mixY in
              let desiredAngle :=
                Math_atan2 (py desiredDir) (px desiredDir) in
              let angle := turnTowards desiredAngle dt angle in
              let pos := mkPt (x + cos angle * stepSpeed * dt)
                              (y + sin angle * stepSpeed * dt) in
              let pos := fold_left (pushAIFromObstacle (ai_radius ai))
                           (obstacles g) pos in
              let pos := pushAIFromPlayer g (ai_radius ai) pos in
              Normal
                (advanceAICheckpoint g targetDist
                   (mkAICar (Some (px pos)) (Some (py pos)) (Some angle)
                      (ai_t ai) (ai_speed ai) (ai_useTrack ai)
                      (ai_radius ai) (ai_checkpointIndex ai) (ai_lap ai)
                      (ai_finished ai)))
          | _, _, _ => NotANumber
          end
      end.

(** [aiCars[i] = ai], the list being as long as before. *)
Fixpoint replace_nth {A : Type} (i : nat) (a : A) (l : list A) : list A :=
  match l, i with
  | [], _ => []
  | _ :: rest, O => a :: rest
  | b :: rest, S i' => b :: replace_nth i' a rest
  end.

(** The [for] loop of [updateAICars]: [n] cars from index [i].  Each car
    is updated in place, so the later cars see the earlier ones after
    their step. *)
Fixpoint updateAICars_loop (dt : R) (n i : nat) (g : Game)
    : Outcome Game :=
  match n with
  | O => Normal g
  | S n' =>
      match nth_error (aiCars g) i with
      | None => Normal g
      | Some ai =>
          match updateAICar g dt i ai with
          | Normal ai' =>
              updateAICars_loop dt n' (S i)
                (set_aiCars (replace_nth i ai' (aiCars g)) g)
          | TypeErrorAt _ => TypeErrorAt g
          | NotANumber => NotANumber
          end
      end
  end.

(** [updateAICars(dt)]. *)
Definition updateAICars (dt : R) (g : Game) : Outcome Game :=
  if (length_Z (aiCars g) =? 0)%Z then Normal g
  else if countdownActive g then Normal g
  else updateAICars_loop dt (List.length (aiCars g)) 0 g.

(* ================================================================== *)
(** * The layout of the touch controls *)
(* ================================================================== *)

(** [Math.round]: the nearest integer, halves rounded up. *)
Definition Math_round (x : R) : Z := Zfloor (x + 0.5).

(** [ui]; [uiBase] holds the values of [initial_ui]. *)
Record Ui : Type := mkUi {
  ui_margin : Z;
  ui_stickRadius : Z;
  ui_pedalW : Z;
  ui_pedalH : Z;
  ui_pedalGap : Z;
  ui_stickOffsetY : Z;
  ui_stickOffsetX : Z
}.

Definition uiBase : Ui := mkUi 120 70 90 140 18 120 30.

Definition updateUiLayout (v : View) : Ui :=
  let minDim := Rmin (uiViewportWidth v) (uiViewportHeight v) in
  let uiScaleFactor := clamp (minDim / 720) 0.55 1 in
  mkUi (Math_round (IZR (ui_margin uiBase) * uiScaleFactor))
       (Math_round (IZR (ui_stickRadius uiBase) * uiScaleFactor))
       (Math_round (IZR (ui_pedalW uiBase) * uiScaleFactor))
       (Math_round (IZR (ui_pedalH uiBase) * uiScaleFactor))
       (Math_round (IZR (ui_pedalGap uiBase) * uiScaleFactor))
       (Math_round (IZR (ui_stickOffsetY uiBase) * uiScaleFactor))
       (Math_round (IZR (ui_stickOffsetX uiBase) * uiScaleFactor)).

(** [updateJoystickAnchors()]: the new [ui] and the new controls.  The
    radius of the stick and [pointerMap] are not assigned. *)
Definition updateJoystickAnchors (v : View) (c : Controls)
    : Ui * Controls :=
  let ui := updateUiLayout v in
  let margin := IZR (ui_margin ui) in
  let pedalW := IZR (ui_pedalW ui) in
  let pedalH := IZR (ui_pedalH ui) in
  let pedalGap := IZR (ui_pedalGap ui) in
  let s := steeringStick c in
  let s := mkJoystick (margin + IZR (ui_stickOffsetX ui))
             (uiViewportHeight v - IZR (ui_stickOffsetY ui))
             (js_radius s) (js_axisLock s) (js_pointerId s) (js_valueX s)
             (js_valueY s) (js_activeX s) (js_activeY s) in
  let baseY := uiViewportHeight v - margin - pedalH in
  let stackedTop := baseY - pedalH - pedalGap in
  let place :=
    if Rlt_dec stackedTop margin then
      let totalW := pedalW * 2 + pedalGap in
      let leftX := uiViewportWidth v - margin - totalW in
      (mkPt leftX baseY, mkPt (leftX + pedalW + pedalGap) baseY)
    else
      let rightX := uiViewportWidth v - margin - pedalW in
      (mkPt rightX baseY, mkPt rightX (baseY - pedalH - pedalGap)) in
  let brakeAt := fst place in
  let accelAt := snd place in
  (ui,
   mkControls (keys c)
     (mkPedal (px accelAt) (py accelAt) pedalW pedalH false)
     (mkPedal (px brakeAt) (py brakeAt) pedalW pedalH false)
     (Joystick_end s) (pointerMap c)).

(* ================================================================== *)
(** * The menu, the start of a race and the frame loop *)
(* ================================================================== *)

(** An entry of [MODE_OPTIONS] and of [MAP_OPTIONS]. *)
Record ModeOption : Type := mkModeOption {
  mode_id : string;
  mode_label : string;
  mode_mobs : Z
}.

Record MapOption : Type := mkMapOption {
  map_id : string;
  map_label : string;
  map_file : string
}.

Definition MODE_OPTIONS : list ModeOption :=
  [ mkModeOption "time_trial" "Time Trial" 0;
    mkModeOption "race" "Race (AI)" 2 ].

Definition MAP_OPTIONS : list MapOption :=
  [ mkMapOption "default" "Default" "map.json";
    mkMapOption "city" "City" "map_city.json";
    mkMapOption "desert" "Desert" "map_desert.json" ].

(** [MODE_OPTIONS.find((m) => m.id === value) || MODE_OPTIONS[0]] and
    the same on [MAP_OPTIONS], [value] being the value of the select
    element. *)
Definition modeFor (value : string) : ModeOption :=
  match find (fun m => String.eqb (mode_id m) value) MODE_OPTIONS with
  | Some m => m
  | None => mkModeOption "time_trial" "Time Trial" 0
  end.

Definition mapFor (value : string) : MapOption :=
  match find (fun m => String.eqb (map_id m) value) MAP_OPTIONS with
  | Some m => m
  | None => mkMapOption "default" "Default" "map.json"
  end.

(** The state the frame loop and the start button work on: the game, the
    view, the controls, the layout, the selected mode and map, and the
    clocks.  [timerStart] is [None] for [null]. *)
Record Frame : Type := mkFrame {
  game : Game;
  view : View;
  controls : Controls;
  ui : Ui;
  selectedMode : ModeOption;
  selectedMap : MapOption;
  lastTime : R;
  countdownStart : R;
  countdownLabel : string;
  timerStart : option R;
  lastElapsed : R
}.

Definition countdownDuration : R := 3500.

(** [dt] of a frame. *)
Definition frameStep (now : R) (f : Frame) : R :=
  Rmin ((now - lastTime f) / 1000) 0.033.

(** The countdown block of [loop]: the game, the label and
    [timerStart] after it. *)
Definition countdownTick (now : R) (f : Frame)
    : Game * string * option R :=
  if countdownActive (game f) then
    let t := now - countdownStart f in
    if Rlt_dec t 1000 then (game f, "3"%string, timerStart f)
    else if Rlt_dec t 2000 then (game f, "2"%string, timerStart f)
    else if Rlt_dec t 3000 then (game f, "1"%string, timerStart f)
    else if Rlt_dec t countdownDuration
    then (game f, "GO!"%string, timerStart f)
    else (set_countdownActive false (game f), ""%string, Some now)
  else (game f, ""%string, timerStart f).

(** The clock block at the end of [loop]. *)
Definition clockTick (now : R) (g : Game) (timerStart : option R)
    : option R * R :=
  if started g && negb (countdownActive g) then
    let timerStart := match timerStart with
                      | None => now
                      | Some t => t
                      end in
    (Some timerStart, now - timerStart)
  else (timerStart, 0).

(** [loop(now)].  Rendering and the request for the next frame are
    outside the model; a [TypeError] in [updateAICars] leaves the loop
    before the camera and the clock are updated. *)
Definition loop (win : Window) (now : R) (f : Frame) : Outcome Frame :=
  let dt := frameStep now f in
  let '(g, label, timer) := countdownTick now f in
  let g := updatePhysics (inputOf (controls f)) dt g in
  let v := updateAutoZoom win dt g (view f) in
  match updateAICars dt g with
  | Normal g =>
      let v := updateCamera g v in
      let clock := clockTick now g timer in
      Normal (mkFrame g v (controls f) (ui f) (selectedMode f)
                (selectedMap f) now (countdownStart f) label (fst clock)
                (snd clock))
  | TypeErrorAt g =>
      TypeErrorAt (mkFrame g v (controls f) (ui f) (selectedMode f)
                     (selectedMap f) now (countdownStart f) label timer
                     (lastElapsed f))
  | NotANumber => NotANumber
  end.

(** [isPortrait()]. *)
Definition isPortrait (win : Window) : bool :=
  Rltb (innerWidth win) (innerHeight win).

(** The click on the start button, [modeValue] and [mapValue] being the
    values of the two selects and [now] the value of
    [performance.now()] after the map has loaded.  The handler is taken
    as one step: the frames that run while it awaits the map find a game
    that has not started.  Full screen, the car images and the overlays
    are outside the model. *)
Definition startRace (env : Browser) (win : Window)
    (modeValue mapValue : string) (now : R) (f : Frame) : Frame :=
  if isPortrait win then f
  else
    let mode := modeFor modeValue in
    let map := mapFor mapValue in
    let g := loadTiledMap env (map_file map) (game f) in
    let g := buildTrackSegments g in
    let g := initAICars (mode_mobs mode) g in
    let v := resize win g (view f) in
    let uc := updateJoystickAnchors v (controls f) in
    let g := set_lap 1 g in
    let g := set_currentCheckpoint 0 g in
    let g := set_lastCheckpointIndex (-1) g in
    let g := respawnToCheckpoint (-1) g in
    let g := set_countdownActive true g in
    let g := set_car (set_car_speed 0 (car g)) g in
    let g := set_started true g in
    mkFrame g v (snd uc) (fst uc) mode map (lastTime f) now "3" None 0.


(* ================================================================== *)
(** * Further notions used to state properties *)
(* ================================================================== *)

From Stdlib Require Import Permutation Sorted.

(** The point at parameter [t] of the segment from [(x1,y1)] to
    [(x2,y2)]. *)
Definition along (a b t : R) : R := a + t * (b - a).

(** The two segments share the point at parameters [t] and [u]. *)
Definition meetAt (x1 y1 x2 y2 x3 y3 x4 y4 t u : R) : Prop :=
  0 <= t <= 1 /\ 0 <= u <= 1
  /\ along x1 x2 t = along x3 x4 u
  /\ along y1 y2 t = along y3 y4 u.

(** The determinant [segmentIntersect] divides by. *)
Definition crossDen (x1 y1 x2 y2 x3 y3 x4 y4 : R) : R :=
  (x1 - x2) * (y3 - y4) - (y1 - y2) * (x3 - x4).

(** Ascending order of the keys. *)
Definition ascending {A : Type} (key : A -> Z) (l : list A) : Prop :=
  StronglySorted (fun a b => (key a <= key b)%Z) l.

(** The tileset a global id resolves to in the published descriptors. *)
Definition tilesetOf (g : Game) (gid : Z) : option TilesetMeta :=
  findTileset (tiledTilesetMeta g) gid None.

(** A map whose tilesets are listed out of order: roads from global id
    100, grass from global id 1, 64 pixels wide. *)
Definition two_tileset_map : TiledMap :=
  {| m_properties := None;
     m_layers := None;
     m_tilesets :=
       Some [ mkTileset (Some 100%Z) (Some "Road tiles"%string) None None
                None None None None None None None;
              mkTileset (Some 1%Z) (Some "grass"%string) None None None
                (Some 64%Z) (Some 64%Z) None None None None ];
     m_tilewidth := Some 32%Z; m_tileheight := Some 32%Z;
     m_width := Some 4%Z; m_height := Some 4%Z |}.

(** The tileset entries of a document. *)
Definition tilesetsOf (map : TiledMap) : list Tileset :=
  match m_tilesets map with Some ts => ts | None => [] end.





(** The four bytes of a 32-bit word, least significant first. *)
Definition uint32_bytes (w : Z) : list Z :=
  [ (w mod 256)%Z; ((w / 256) mod 256)%Z; ((w / 65536) mod 256)%Z;
    (w / 16777216)%Z ].

Definition is_byte (b : Z) : Prop := (0 <= b < 256)%Z.
Definition is_uint32 (w : Z) : Prop := (0 <= w < 4294967296)%Z.

(** A raw global id: a tile id below 2^29 with the three flip flags. *)
Definition rawGidOf (gid : Z) (flipH flipV flipD : bool) : Z :=
  (gid + (if flipH then FLIP_H else 0) + (if flipV then FLIP_V else 0)
   + (if flipD then FLIP_D else 0))%Z.

(** A base64 tile layer compressed with zlib. *)
Definition compressed_layer : Layer :=
  mkLayer "tilelayer" (Some (NameString "road")) (DataString "AQAAAA==")
    (Some "base64"%string) (Some "zlib"%string) (Some 1%Z) (Some 1%Z)
    None None None.

(** A layer that shows nothing at a cell: hidden, or holding no tile
    there. *)
Definition showsNothingAt (tx ty : Z) (l : TileLayer) : Prop :=
  tl_visible l = false \/ rawGidAt l tx ty = 0%Z.

(** The cell of a position lies within the grid [getTileAt] tests
    against for a list of layers. *)
Definition insideGrid (g : Game) (layers : list TileLayer) (x y : R)
    : Prop :=
  (0 < tiledMapTileWidth g)%Z /\ (0 < tiledMapTileHeight g)%Z
  /\ (0 <= tileColumn g x
      < int_or (tiledMapWidth g)
          (match layers with l :: _ => tl_width l | [] => 0 end))%Z
  /\ (0 <= tileRow g y
      < int_or (tiledMapHeight g)
          (match layers with l :: _ => tl_height l | [] => 0 end))%Z.

(** Two 2x2 layers: a base layer full of tile 5 and an overlay holding
    tile 9 in its first cell only; and a game whose grid they fill. *)
Definition base_layer : TileLayer := mkTileLayer "base" [5; 5; 5; 5]%Z 2 2 1 true.
Definition overlay_layer : TileLayer :=
  mkTileLayer "overlay" [9; 0; 0; 0]%Z 2 2 1 true.
Definition hidden_layer : TileLayer :=
  mkTileLayer "hidden" [7; 7; 7; 7]%Z 2 2 1 false.
Definition grid_game : Game :=
  set_tiledMapTileWidth 32 (set_tiledMapTileHeight 32
    (set_tiledMapWidth 2 (set_tiledMapHeight 2 initial_game))).

(** A stick at rest: no pointer, no deflection, the knob on the anchor. *)
Definition atRest (s : Joystick) : Prop := Joystick_end s = s.

(** Controls nobody touches. *)
Definition untouched (c : Controls) : Prop :=
  pd_pressed (pedals_accel c) = false
  /\ pd_pressed (pedals_brake c) = false
  /\ atRest (steeringStick c).

(** The pointer is on neither pedal. *)
Definition offPedals (c : Controls) (x y : R) : Prop :=
  onPedal (pedals_accel c) x y = false
  /\ onPedal (pedals_brake c) x y = false.

(** The world abscissa and ordinate shown at a canvas position. *)
Definition shownX (v : View) (sx : R) : R :=
  px (screenToWorld sx 0 (scale v) (offsetX v) (offsetY v)).
Definition shownY (v : View) (sy : R) : R :=
  py (screenToWorld 0 sy (scale v) (offsetX v) (offsetY v)).

(** The canvas position the car is drawn at. *)
Definition carOnCanvas (g : Game) (v : View) : Pt :=
  worldToScreen (car_x (car g)) (car_y (car g)) (scale v) (offsetX v)
    (offsetY v).

(** A 640 by 360 canvas at scale 2 over the initial 1280 by 720 world. *)
Definition zoomed_view : View :=
  mkView 640 360 2 0 0 1 0 0 640 360 1 4.

(** A phone screen in landscape. *)
Definition phone_window : Window := mkWindow 800 400 2.

(** The stick keeps its place and size and its horizontal deflection is
    within [-1, 1]. *)
Definition stickWithin (s0 s : Joystick) : Prop :=
  js_anchorX s = js_anchorX s0 /\ js_anchorY s = js_anchorY s0
  /\ js_radius s = js_radius s0 /\ js_axisLock s = js_axisLock s0
  /\ -1 <= js_valueX s <= 1.

(** The angle difference [updateAICars] turns by, before the clamp to
    the turn rate: the difference brought back to (-PI, PI]. *)
Definition wrappedDiff (desiredAngle angle : R) : R :=
  Math_atan2 (sin (desiredAngle - angle)) (cos (desiredAngle - angle)).

(** A computer-driven car has a position and a heading. *)
Definition hasPose (ai : AICar) : Prop :=
  exists x y angle,
    ai_x ai = Some x /\ ai_y ai = Some y /\ ai_angle ai = Some angle.

(** What the loop of [updateAICars] needs of a car: a car steering by
    checkpoints has a pose, and the checkpoint counter is not negative. *)
Definition steerable (ai : AICar) : Prop :=
  (ai_useTrack ai = false -> hasPose ai)
  /\ (0 <= ai_checkpointIndex ai)%Z.

(** A car as [initAICars] creates it for a car of radius [radius]. *)
Definition freshAICar (radius : R) (ai : AICar) : Prop :=
  ai_lap ai = 1%Z /\ ai_checkpointIndex ai = 0%Z
  /\ ai_finished ai = false /\ ai_radius ai = radius
  /\ 160 <= ai_speed ai /\ 0 <= ai_t ai <= 1
  /\ steerable ai.

(** A game with two spawn points for the computer-driven cars, one
    checkpoint for them, and no track. *)
Definition spawn_game : Game :=
  set_trackPath []
    (set_aiCheckpoints [mkPt 500 100]
       (set_aiSpawnPoints [mkPose 100 100 0; mkPose 100 140 0]
          running_game)).

(** What [updateAICars] needs of a car, [count] being the number of
    checkpoints for the cars: the car is steerable and its checkpoint
    counter is below the number of checkpoints (below 1 when there is
    none). *)
Definition onCourse (count : Z) (ai : AICar) : Prop :=
  steerable ai /\ (ai_checkpointIndex ai < Z.max 1 count)%Z.

(** How a car may differ after [updateAICars], [laps] being [raceLaps]:
    speed, radius and mode are kept; the lap counter does not fall; a
    finished car is left as it was; a car finishes only with more laps
    than the race has; a car that follows the track keeps its pose, its
    counters and its flag. *)
Definition aiProgress (laps : Z) (ai ai' : AICar) : Prop :=
  ai_speed ai' = ai_speed ai /\ ai_radius ai' = ai_radius ai
  /\ ai_useTrack ai' = ai_useTrack ai
  /\ (ai_lap ai <= ai_lap ai')%Z
  /\ (ai_finished ai = true -> ai' = ai)
  /\ (ai_finished ai' = true ->
      ai_finished ai = true \/ (laps < ai_lap ai')%Z)
  /\ (ai_useTrack ai = true ->
      ai_x ai' = ai_x ai /\ ai_y ai' = ai_y ai
      /\ ai_angle ai' = ai_angle ai
      /\ ai_checkpointIndex ai' = ai_checkpointIndex ai
      /\ ai_lap ai' = ai_lap ai /\ ai_finished ai' = ai_finished ai).

(** A race of two computer-driven cars steering by checkpoints. *)
Definition two_car_race : Game :=
  initAICars 2 (buildTrackSegments spawn_game).

(** The surface under a car that follows the track: the surface at the
    point of the track its parameter samples, none when the track has no
    such point. *)
Definition surfaceUnderFollower (g : Game) (ai : AICar) : Surface :=
  match sampleTrack g (ai_t ai) with
  | Some p => getSurfaceAt g (pose_x p) (pose_y p)
  | None => SurfNone
  end.

(** A car following the initial track, a quarter of the way round it. *)
Definition track_follower : AICar :=
  mkAICar None None None 0.25 160 true 18 0 1 false.

(** The frame the script starts from, on a 640 by 360 canvas. *)
Definition initial_frame : Frame :=
  {| game := initial_game; view := zoomed_view;
     controls := initial_controls; ui := uiBase;
     selectedMode := mkModeOption "time_trial" "Time Trial" 0;
     selectedMap := mkMapOption "default" "Default" "map.json";
     lastTime := 0; countdownStart := 0; countdownLabel := "";
     timerStart := None; lastElapsed := 0 |}.

(** A frame of a started game in its countdown, begun at time 1000. *)
Definition countdown_frame : Frame :=
  {| game := set_countdownActive true running_game; view := zoomed_view;
     controls := initial_controls; ui := uiBase;
     selectedMode := mkModeOption "time_trial" "Time Trial" 0;
     selectedMap := mkMapOption "default" "Default" "map.json";
     lastTime := 1000; countdownStart := 1000; countdownLabel := "3";
     timerStart := None; lastElapsed := 0 |}.

(** The label the countdown shows [t] milliseconds after its start. *)
Definition labelAt (t : R) : string :=
  if Rlt_dec t 1000 then "3"
  else if Rlt_dec t 2000 then "2"
  else if Rlt_dec t 3000 then "1"
  else "GO!".

(** The cars are on course for the checkpoints of the game. *)
Definition carsOnCourse (g : Game) : Prop :=
  Forall (onCourse (length_Z (aiCheckpoints g))) (aiCars g).

(** The layer is visible and holds, at the cell, a tile of the
    surface. *)
Definition showsSurface (g : Game) (tx ty : Z) (s : Surface)
    (l : TileLayer) : bool :=
  tl_visible l && negb (rawGidAt l tx ty =? 0)%Z
  && match getSurfaceFromGid g (rawGidAt l tx ty), s with
     | SurfRoad, SurfRoad => true
     | SurfGround, SurfGround => true
     | SurfNone, SurfNone => true
     | _, _ => false
     end.

(** Road if some layer shows road at the cell, else ground if some layer
    shows ground. *)
Definition bestSurface (g : Game) (tx ty : Z) (layers : list TileLayer)
    : Surface :=
  if existsb (showsSurface g tx ty SurfRoad) layers then SurfRoad
  else if existsb (showsSurface g tx ty SurfGround) layers then SurfGround
  else SurfNone.

(** A game whose tilesets are grass from global id 1 and roads from
    global id 100. *)
Definition surfaced_game : Game :=
  set_tiledTilesetMeta
    [ mkTilesetMeta 1 "grass" None 0 0 32 32 0 0 0 0;
      mkTilesetMeta 100 "road" None 0 0 32 32 0 0 0 0 ]
    grid_game.

Definition grass_layer : TileLayer :=
  mkTileLayer "lawn" [1; 1; 1; 1]%Z 2 2 1 true.
Definition road_layer : TileLayer :=
  mkTileLayer "street" [100; 0; 0; 0]%Z 2 2 1 true.

(* ================================================================== *)
(** * Properties *)
(* ================================================================== *)

(** ** The helpers on concrete inputs *)

Example checkpoint_number_12 : checkpoint_number "checkpoint12" = Some 12%Z.
Proof. reflexivity. Qed.

Example checkpoint_number_bare : checkpoint_number "checkpoint" = None.
Proof. reflexivity. Qed.

Example checkpoint_number_suffix : checkpoint_number "checkpoint1a" = None.
Proof. reflexivity. Qed.

Example base64_two_words :
  forgiving_base64_decode "AQAAAAIAAAA="
  = Some [1; 0; 0; 0; 2; 0; 0; 0]%Z.
Proof. reflexivity. Qed.

Example base64_not_in_alphabet : forgiving_base64_decode "*" = None.
Proof. reflexivity. Qed.

Example readUint32s_drops_partial_word :
  readUint32s [1; 0; 0; 0; 2; 0; 0; 0; 9]%Z = [1; 2]%Z.
Proof. reflexivity. Qed.

Example flip_bits_masked :
  bit_and 0xE0000007 (bit_not (bit_or (bit_or FLIP_H FLIP_V) FLIP_D)) = 7%Z
  /\ bit_and 0x80000005 FLIP_H = (-2147483648)%Z.
Proof. split; reflexivity. Qed.

Example sort_by_is_stable :
  sort_by fst [(3, 1); (1, 2); (3, 3); (2, 4); (1, 5)]%Z
  = [(1, 2); (1, 5); (2, 4); (3, 1); (3, 3)]%Z.
Proof. reflexivity. Qed.

Example tileset_path_from_pack :
  resolveTilesetImagePath (Some "../kenney_racing-pack/Spritesheets/a.png"%string)
  = Some "kenney_racing-pack/Spritesheets/a.png"%string.
Proof. reflexivity. Qed.

Example compact_name : remove_spaces (toLowerCase "Track Limit Box") = "tracklimitbox"%string.
Proof. reflexivity. Qed.

(** ** Arithmetic helpers *)

Lemma Rltb_true (a b : R) : a < b -> Rltb a b = true.
Proof. intro H. unfold Rltb. destruct (Rlt_dec a b); [reflexivity | lra]. Qed.

Lemma Rltb_false (a b : R) : b <= a -> Rltb a b = false.
Proof. intro H. unfold Rltb. destruct (Rlt_dec a b); [lra | reflexivity]. Qed.

Lemma Rltb_lt (a b : R) : Rltb a b = true -> a < b.
Proof. unfold Rltb. destruct (Rlt_dec a b); [auto | discriminate]. Qed.

Lemma Rleb_true (a b : R) : a <= b -> Rleb a b = true.
Proof. intro H. unfold Rleb. destruct (Rle_dec a b); [reflexivity | lra]. Qed.

Lemma Rleb_false (a b : R) : b < a -> Rleb a b = false.
Proof. intro H. unfold Rleb. destruct (Rle_dec a b); [lra | reflexivity]. Qed.

Lemma Reqb_true (a b : R) : a = b -> Reqb a b = true.
Proof. intro H. unfold Reqb. destruct (Req_dec_T a b); [reflexivity | lra]. Qed.

Lemma Reqb_false (a b : R) : a <> b -> Reqb a b = false.
Proof.
  intro H. unfold Reqb. destruct (Req_dec_T a b); [contradiction | reflexivity].
Qed.

Lemma num_or_zero (b : R) : num_or 0 b = b.
Proof. unfold num_or. destruct (Req_dec_T 0 0); [reflexivity | lra]. Qed.

Lemma num_or_nonzero (a b : R) : a <> 0 -> num_or a b = a.
Proof.
  intro H. unfold num_or. destruct (Req_dec_T a 0); [contradiction | reflexivity].
Qed.

Lemma hypot_nonneg (x y : R) : 0 <= Math_hypot x y.
Proof. apply sqrt_pos. Qed.

Lemma hypot_sqr (x y : R) :
  Math_hypot x y * Math_hypot x y = x * x + y * y.
Proof. unfold Math_hypot. apply sqrt_sqrt. nra. Qed.

Lemma hypot_origin : Math_hypot 0 0 = 0.
Proof.
  unfold Math_hypot. replace (0 * 0 + 0 * 0) with 0 by ring. apply sqrt_0.
Qed.

Lemma hypot_zero_inv (x y : R) : Math_hypot x y <= 0 -> x = 0 /\ y = 0.
Proof.
  intro H. pose proof (hypot_nonneg x y) as Hn.
  pose proof (hypot_sqr x y) as Hs.
  assert (Hz : Math_hypot x y = 0) by lra.
  rewrite Hz in Hs. split; nra.
Qed.

Lemma hypot_of_square (x y r : R) :
  x * x + y * y = r * r -> Math_hypot x y = Rabs r.
Proof.
  intro H. unfold Math_hypot. rewrite H. apply sqrt_Rsqr_abs.
Qed.

Lemma hypot_x_axis (x : R) : 0 <= x -> Math_hypot x 0 = x.
Proof.
  intro H. rewrite (hypot_of_square x 0 x) by ring. apply Rabs_pos_eq, H.
Qed.

Lemma hypot_y_axis (y : R) : 0 <= y -> Math_hypot 0 y = y.
Proof.
  intro H. rewrite (hypot_of_square 0 y y) by ring. apply Rabs_pos_eq, H.
Qed.

Lemma clamp_bounds (v lo hi : R) : lo <= hi -> lo <= clamp v lo hi <= hi.
Proof.
  intro H. unfold clamp, Rmax, Rmin.
  destruct (Rle_dec hi v); destruct (Rle_dec lo _); lra.
Qed.

Lemma clamp_inside (v lo hi : R) : lo <= v <= hi -> clamp v lo hi = v.
Proof.
  intro H. unfold clamp, Rmax, Rmin.
  destruct (Rle_dec hi v); destruct (Rle_dec lo _); lra.
Qed.

(** Moving a point further along the direction that leads away from its
    clamped image does not change the clamped image. *)
Lemma clamp_away (c lo hi t : R) :
  0 <= t -> clamp (c + (c - clamp c lo hi) * t) lo hi = clamp c lo hi.
Proof.
  intro Ht. unfold clamp, Rmax, Rmin.
  destruct (Rle_dec hi c) as [H1 | H1].
  - destruct (Rle_dec lo hi) as [H2 | H2].
    + destruct (Rle_dec hi (c + (c - hi) * t)) as [H3 | H3].
      * destruct (Rle_dec lo hi); lra.
      * exfalso. apply H3. nra.
    + destruct (Rle_dec hi (c + (c - lo) * t)) as [H3 | H3].
      * destruct (Rle_dec lo hi); lra.
      * destruct (Rle_dec lo (c + (c - lo) * t)) as [H4 | H4]; [| lra].
        nra.
  - destruct (Rle_dec lo c) as [H2 | H2].
    + replace (c + (c - c) * t) with c by ring.
      destruct (Rle_dec hi c); [lra |]. destruct (Rle_dec lo c); lra.
    + destruct (Rle_dec hi (c + (c - lo) * t)) as [H3 | H3].
      * destruct (Rle_dec lo hi); [nra | lra].
      * destruct (Rle_dec lo (c + (c - lo) * t)) as [H4 | H4]; [nra | lra].
Qed.

(** ** The collision kernel *)

(** The translation along [(dx, dy)] scaled by the penetration depth puts
    the point at distance [|r|] from the reference point. *)
Lemma push_reaches_radius (dx dy r : R) :
  Math_hypot dx dy <> 0 ->
  let dist := Math_hypot dx dy in
  let nx := dx + dx / dist * (r - dist) in
  let ny := dy + dy / dist * (r - dist) in
  nx * nx + ny * ny = r * r.
Proof.
  intros Hd dist nx ny. subst nx ny.
  pose proof (hypot_sqr dx dy) as Hs. fold dist in Hs.
  assert (Hx : dx + dx / dist * (r - dist) = dx * r / dist)
    by (field; exact Hd).
  assert (Hy : dy + dy / dist * (r - dist) = dy * r / dist)
    by (field; exact Hd).
  rewrite Hx, Hy.
  replace (dx * r / dist * (dx * r / dist) + dy * r / dist * (dy * r / dist))
    with ((dx * dx + dy * dy) * (r * r) / (dist * dist))
    by (field; exact Hd).
  rewrite <- Hs. field. exact Hd.
Qed.

Lemma resolveCircleCollision_coincident (x y r : R) :
  resolveCircleCollision (mkPt x y) (mkPt x y) r = mkPt 0 0.
Proof.
  unfold resolveCircleCollision. cbn [px py].
  replace (x - x) with 0 by ring. replace (y - y) with 0 by ring.
  rewrite hypot_origin, num_or_zero. f_equal; field.
Qed.

Lemma resolveCircleRect_on_rect (cx cy r rx ry rw rh : R) :
  clamp cx rx (rx + rw) = cx -> clamp cy ry (ry + rh) = cy ->
  resolveCircleRect cx cy r rx ry rw rh = mkPt 0 0.
Proof.
  intros Hx Hy. unfold resolveCircleRect. rewrite Hx, Hy.
  replace (cx - cx) with 0 by ring. replace (cy - cy) with 0 by ring.
  rewrite hypot_origin, num_or_zero. f_equal; field.
Qed.

(** C2, as stated, fails: with the obstacle circle at (100,100), radius 18,
    and the vehicle circle of radius 18 at (100,100), the vehicle moved by
    the translation of [resolveCircleCollision] is not at distance 36 from
    the obstacle centre. *)
Lemma C2_coincident_not_pushed_to_36 :
  let vehicle := mkPt 100 100 in
  let obstacle := mkPt 100 100 in
  let push := resolveCircleCollision vehicle obstacle (18 + 18) in
  Math_hypot (px vehicle + px push - px obstacle)
             (py vehicle + py push - py obstacle) <> 36.
Proof.
  cbv zeta. rewrite resolveCircleCollision_coincident. cbn [px py].
  replace (100 + 0 - 100) with 0 by ring. rewrite hypot_origin. lra.
Qed.

(** C2, amended: when the two centres coincide, the zero distance is
    replaced by 1 and the translation of [resolveCircleCollision] is the
    zero vector; for the obstacle at (100,100), radius 18, and the vehicle
    of radius 18 at (100,100), the vehicle stays at (100,100), at distance 0
    from the obstacle centre, and the circles still overlap. *)
Theorem C2_coincident_centres_zero_translation :
  (forall x y r, resolveCircleCollision (mkPt x y) (mkPt x y) r = mkPt 0 0)
  /\ (let vehicle := mkPt 100 100 in
      let obstacle := mkPt 100 100 in
      let push := resolveCircleCollision vehicle obstacle (18 + 18) in
      px vehicle + px push = 100 /\ py vehicle + py push = 100
      /\ Math_hypot (px vehicle + px push - px obstacle)
                    (py vehicle + py push - py obstacle) = 0
      /\ circleCircleCollision
           (mkPt (px vehicle + px push) (py vehicle + py push))
           obstacle (18 + 18) = true).
Proof.
  split; [exact resolveCircleCollision_coincident |].
  cbv zeta. rewrite resolveCircleCollision_coincident. cbn [px py].
  replace (100 + 0) with 100 by ring.
  replace (100 - 100) with 0 by ring.
  rewrite hypot_origin. repeat split.
  unfold circleCircleCollision. cbn [px py]. apply Rltb_true. lra.
Qed.

(** C5, as stated, fails: a circle of radius 18 whose centre (50,50) lies
    inside the rectangle (0,0,100,100) is reported as overlapping, and
    after the translation of [resolveCircleRect] it still is. *)
Lemma C5_centre_inside_rectangle_not_separated :
  ~ (circleRectCollision 50 50 18 0 0 100 100 = true ->
     let push := resolveCircleRect 50 50 18 0 0 100 100 in
     circleRectCollision (50 + px push) (50 + py push) 18 0 0 100 100
     = false).
Proof.
  assert (Hc : clamp 50 0 (0 + 100) = 50) by (apply clamp_inside; lra).
  assert (Ht : circleRectCollision 50 50 18 0 0 100 100 = true).
  { unfold circleRectCollision. rewrite Hc. apply Rltb_true. lra. }
  intro H. specialize (H Ht). cbv zeta in H.
  rewrite resolveCircleRect_on_rect in H by exact Hc.
  cbn [px py] in H. replace (50 + 0) with 50 in H by ring.
  rewrite Ht in H. discriminate.
Qed.

(** C5, amended: for a circle-circle or circle-rectangle pair reported as
    overlapping, when the distance from the circle centre to the other
    centre (to the nearest point of the rectangle, with a radius that is
    not negative) is not zero, the translation of [resolveCircleCollision]
    ([resolveCircleRect]) leaves the centre at a distance from the other
    centre (from the nearest point of the rectangle) that is at least the
    radius sum: over the real numbers of this embedding it is the radius
    sum itself, which floating-point arithmetic reaches within its
    tolerance.  When that distance is zero (coincident centres, or a
    circle centre on or inside the rectangle) the translation is the zero
    vector and a pair that overlapped still overlaps. *)
Theorem C5_resolution_separates_at_nonzero_distance :
  (forall (a b : Pt) (r : R),
      circleCircleCollision a b r = true ->
      Math_hypot (px a - px b) (py a - py b) <> 0 ->
      let push := resolveCircleCollision a b r in
      let a' := mkPt (px a + px push) (py a + py push) in
      Math_hypot (px a' - px b) (py a' - py b) = Rabs r
      /\ r <= Math_hypot (px a' - px b) (py a' - py b))
  /\
  (forall (cx cy r rx ry rw rh : R),
      0 <= r ->
      circleRectCollision cx cy r rx ry rw rh = true ->
      Math_hypot (cx - clamp cx rx (rx + rw)) (cy - clamp cy ry (ry + rh))
        <> 0 ->
      let push := resolveCircleRect cx cy r rx ry rw rh in
      let cx' := cx + px push in
      let cy' := cy + py push in
      Math_hypot (cx' - clamp cx' rx (rx + rw)) (cy' - clamp cy' ry (ry + rh))
        = r
      /\ r <= Math_hypot (cx' - clamp cx' rx (rx + rw))
                (cy' - clamp cy' ry (ry + rh)))
  /\
  (forall (a b : Pt) (r : R),
      circleCircleCollision a b r = true ->
      Math_hypot (px a - px b) (py a - py b) = 0 ->
      let push := resolveCircleCollision a b r in
      let a' := mkPt (px a + px push) (py a + py push) in
      push = mkPt 0 0
      /\ Math_hypot (px a' - px b) (py a' - py b) = 0
      /\ circleCircleCollision a' b r = true)
  /\
  (forall (cx cy r rx ry rw rh : R),
      circleRectCollision cx cy r rx ry rw rh = true ->
      Math_hypot (cx - clamp cx rx (rx + rw)) (cy - clamp cy ry (ry + rh))
        = 0 ->
      let push := resolveCircleRect cx cy r rx ry rw rh in
      push = mkPt 0 0
      /\ circleRectCollision (cx + px push) (cy + py push) r rx ry rw rh
         = true).
Proof.
  split; [| split; [| split]].
  - intros a b r _ Hd push a'. subst a' push.
    unfold resolveCircleCollision. cbn [px py].
    rewrite (num_or_nonzero _ 1 Hd).
    set (dx := px a - px b) in *. set (dy := py a - py b) in *.
    pose proof (push_reaches_radius dx dy r Hd) as Hsq. cbv zeta in Hsq.
    assert (Ex : px a + dx / Math_hypot dx dy * (r - Math_hypot dx dy) - px b
                 = dx + dx / Math_hypot dx dy * (r - Math_hypot dx dy))
      by (unfold dx; ring).
    assert (Ey : py a + dy / Math_hypot dx dy * (r - Math_hypot dx dy) - py b
                 = dy + dy / Math_hypot dx dy * (r - Math_hypot dx dy))
      by (unfold dy; ring).
    rewrite Ex, Ey. rewrite (hypot_of_square _ _ r Hsq).
    split; [reflexivity | apply Rle_abs].
  - intros cx cy r rx ry rw rh Hr Hc Hd push cx' cy'. subst cx' cy' push.
    unfold resolveCircleRect. cbn [px py].
    rewrite (num_or_nonzero _ 1 Hd).
    set (nX := clamp cx rx (rx + rw)) in *.
    set (nY := clamp cy ry (ry + rh)) in *.
    set (dx := cx - nX) in *. set (dy := cy - nY) in *.
    set (h := Math_hypot dx dy) in *.
    assert (Hh : 0 < h).
    { pose proof (hypot_nonneg dx dy) as Hn. fold h in Hn. lra. }
    assert (Hlt : h < r).
    { apply Rltb_lt in Hc. fold nX nY dx dy in Hc.
      pose proof (hypot_sqr dx dy) as Hs. fold h in Hs. nra. }
    assert (Ht : 0 <= (r - h) / h).
    { apply Rmult_le_pos; [lra |]. left. apply Rinv_0_lt_compat, Hh. }
    assert (Ex : cx + dx / h * (r - h) = cx + (cx - nX) * ((r - h) / h)).
    { unfold dx. field. lra. }
    assert (Ey : cy + dy / h * (r - h) = cy + (cy - nY) * ((r - h) / h)).
    { unfold dy. field. lra. }
    assert (Cx : clamp (cx + dx / h * (r - h)) rx (rx + rw) = nX).
    { rewrite Ex. unfold nX. apply clamp_away, Ht. }
    assert (Cy : clamp (cy + dy / h * (r - h)) ry (ry + rh) = nY).
    { rewrite Ey. unfold nY. apply clamp_away, Ht. }
    assert (Hd' : Math_hypot dx dy <> 0) by (fold h; lra).
    pose proof (push_reaches_radius dx dy r Hd') as Hsq. cbv zeta in Hsq.
    fold h in Hsq.
    assert (Fx : cx + dx / h * (r - h) - nX = dx + dx / h * (r - h))
      by (unfold dx; ring).
    assert (Fy : cy + dy / h * (r - h) - nY = dy + dy / h * (r - h))
      by (unfold dy; ring).
    rewrite Cx, Cy, Fx, Fy. rewrite (hypot_of_square _ _ r Hsq).
    rewrite (Rabs_pos_eq r Hr). split; [reflexivity | lra].
  - intros a b r Hc Hd push a'. subst a' push.
    assert (Hle : Math_hypot (px a - px b) (py a - py b) <= 0) by lra.
    destruct (hypot_zero_inv _ _ Hle) as [Hx Hy].
    assert (Hpush : resolveCircleCollision a b r = mkPt 0 0).
    { unfold resolveCircleCollision. rewrite Hd, num_or_zero, Hx, Hy.
      f_equal; field. }
    rewrite Hpush. cbn [px py].
    replace (px a + 0 - px b) with (px a - px b) by ring.
    replace (py a + 0 - py b) with (py a - py b) by ring.
    split; [reflexivity |]. split; [exact Hd |].
    unfold circleCircleCollision in *. cbn [px py].
    replace (px a + 0 - px b) with (px a - px b) by ring.
    replace (py a + 0 - py b) with (py a - py b) by ring.
    exact Hc.
  - intros cx cy r rx ry rw rh Hc Hd push. subst push.
    assert (Hle : Math_hypot (cx - clamp cx rx (rx + rw))
                    (cy - clamp cy ry (ry + rh)) <= 0) by lra.
    destruct (hypot_zero_inv _ _ Hle) as [Hx Hy].
    assert (Hpush : resolveCircleRect cx cy r rx ry rw rh = mkPt 0 0).
    { apply resolveCircleRect_on_rect; lra. }
    rewrite Hpush. cbn [px py].
    replace (cx + 0) with cx by ring. replace (cy + 0) with cy by ring.
    split; [reflexivity | exact Hc].
Qed.

(** C5 at a vehicle 30 away from an obstacle centre, at a circle 10 to
    the right of a rectangle, and at a circle whose centre lies inside
    the rectangle. *)
Lemma C5_resolution_separates_witness :
  (let a := mkPt 30 0 in
   let b := mkPt 0 0 in
   let push := resolveCircleCollision a b 36 in
   let a' := mkPt (px a + px push) (py a + py push) in
   36 <= Math_hypot (px a' - px b) (py a' - py b))
  /\ (let push := resolveCircleRect 110 50 18 0 0 100 100 in
      let cx' := 110 + px push in
      let cy' := 50 + py push in
      Math_hypot (cx' - clamp cx' 0 (0 + 100)) (cy' - clamp cy' 0 (0 + 100))
      = 18)
  /\ (let push := resolveCircleRect 50 50 18 0 0 100 100 in
      push = mkPt 0 0
      /\ circleRectCollision (50 + px push) (50 + py push) 18 0 0 100 100
         = true).
Proof.
  destruct C5_resolution_separates_at_nonzero_distance
    as (Hcc & Hcr & _ & Hzr).
  assert (H30 : Math_hypot (30 - 0) (0 - 0) = 30).
  { replace (30 - 0) with 30 by ring. replace (0 - 0) with 0 by ring.
    apply hypot_x_axis. lra. }
  assert (Cx : clamp 110 0 (0 + 100) = 100).
  { unfold clamp, Rmax, Rmin.
    destruct (Rle_dec (0 + 100) 110); [| lra].
    destruct (Rle_dec 0 (0 + 100)); lra. }
  assert (Cy : clamp 50 0 (0 + 100) = 50) by (apply clamp_inside; lra).
  assert (H10 : Math_hypot (110 - 100) (50 - 50) = 10).
  { replace (110 - 100) with 10 by ring. replace (50 - 50) with 0 by ring.
    apply hypot_x_axis. lra. }
  split; [| split].
  - apply (Hcc (mkPt 30 0) (mkPt 0 0) 36).
    + unfold circleCircleCollision. cbn [px py]. apply Rltb_true. lra.
    + cbn [px py]. rewrite H30. lra.
  - apply (Hcr 110 50 18 0 0 100 100).
    + lra.
    + unfold circleRectCollision. rewrite Cx, Cy. apply Rltb_true. lra.
    + rewrite Cx, Cy, H10. lra.
  - apply (Hzr 50 50 18 0 0 100 100).
    + unfold circleRectCollision. rewrite Cy. apply Rltb_true. lra.
    + rewrite Cy. replace (50 - 50) with 0 by ring. apply hypot_origin.
Defined.

(** ** Track geometry *)

Lemma sum_len_app (xs ys : list TrackSegment) :
  sum_len (xs ++ ys) = sum_len xs + sum_len ys.
Proof.
  induction xs as [| x xs IH]; cbn [app sum_len fold_right].
  - fold (sum_len ys). lra.
  - fold (sum_len (xs ++ ys)). fold (sum_len xs). rewrite IH. lra.
Qed.

Lemma same_coordinates (a b : Pt) : px b - px a = 0 -> py b - py a = 0 -> b = a.
Proof. destruct a, b. cbn. intros. f_equal; lra. Qed.

Lemma last_nonempty_default {A : Type} (x : A) (l : list A) (d1 d2 : A) :
  List.last (x :: l) d1 = List.last (x :: l) d2.
Proof.
  revert x. induction l as [| y l IH]; intro x; [reflexivity |].
  change (List.last (y :: l) d1 = List.last (y :: l) d2). apply IH.
Qed.

Lemma buildTrackSegments_loop_step (a b : Pt) (rest : list Pt)
    (segs : list TrackSegment) (total : R) :
  buildTrackSegments_loop (a :: b :: rest) segs total
  = if Rle_dec (Math_hypot (px b - px a) (py b - py a)) 0
    then buildTrackSegments_loop (b :: rest) segs total
    else buildTrackSegments_loop (b :: rest)
           (segs ++ [mkSeg a b (Math_hypot (px b - px a) (py b - py a))
                           (px b - px a) (py b - py a)])
           (total + Math_hypot (px b - px a) (py b - py a)).
Proof. reflexivity. Qed.

Lemma buildTrackSegments_loop_extends (path : list Pt) :
  forall segs total,
    exists extra, fst (buildTrackSegments_loop path segs total) = segs ++ extra.
Proof.
  induction path as [| a rest IH]; intros segs total.
  - exists []. cbn. now rewrite app_nil_r.
  - destruct rest as [| b rest'].
    + exists []. cbn. now rewrite app_nil_r.
    + rewrite buildTrackSegments_loop_step.
      destruct (Rle_dec _ 0).
      * apply IH.
      * destruct (IH (segs ++ [mkSeg a b (Math_hypot (px b - px a) (py b - py a))
                                  (px b - px a) (py b - py a)])
                     (total + Math_hypot (px b - px a) (py b - py a)))
          as [extra He].
        eexists. rewrite He. rewrite <- app_assoc. reflexivity.
Qed.

Lemma buildTrackSegments_loop_sound (path : list Pt) :
  forall segs total,
    Forall segment_of_ends segs -> total = sum_len segs ->
    Forall segment_of_ends (fst (buildTrackSegments_loop path segs total))
    /\ snd (buildTrackSegments_loop path segs total)
       = sum_len (fst (buildTrackSegments_loop path segs total)).
Proof.
  induction path as [| a rest IH]; intros segs total Hall Hsum.
  - cbn. auto.
  - destruct rest as [| b rest'].
    + cbn. auto.
    + rewrite buildTrackSegments_loop_step.
      destruct (Rle_dec _ 0) as [Hz | Hpos].
      * apply IH; assumption.
      * apply IH.
        -- apply Forall_app. split; [assumption |].
           constructor; [| constructor].
           unfold segment_of_ends. cbn. repeat split. lra.
        -- rewrite sum_len_app, Hsum. cbn. lra.
Qed.

(** The first segment starts at the first point of the path. *)
Lemma buildTrackSegments_loop_first (path : list Pt) :
  forall total first rest s segs',
    path = first :: rest ->
    fst (buildTrackSegments_loop path [] total) = s :: segs' ->
    seg_a s = first.
Proof.
  induction path as [| a tl IH]; intros total first rest s segs' Hp Hr.
  - discriminate.
  - injection Hp as <- <-.
    destruct tl as [| b tl'].
    + cbn in Hr. discriminate.
    + rewrite buildTrackSegments_loop_step in Hr.
      destruct (Rle_dec _ 0) as [Hz | Hpos].
      * apply hypot_zero_inv in Hz. destruct Hz as [Hx Hy].
        rewrite <- (same_coordinates a b Hx Hy).
        eapply IH; [reflexivity | exact Hr].
      * destruct (buildTrackSegments_loop_extends (b :: tl')
                    ([] ++ [mkSeg a b (Math_hypot (px b - px a) (py b - py a))
                                  (px b - px a) (py b - py a)])
                    (total + Math_hypot (px b - px a) (py b - py a)))
          as [extra He].
        rewrite He in Hr. cbn in Hr. injection Hr as <- _. reflexivity.
Qed.

(** The last segment ends at the last point of the path. *)
Lemma buildTrackSegments_loop_last (path : list Pt) :
  forall segs total first rest d,
    path = first :: rest ->
    (segs <> [] -> seg_b (List.last segs d) = first) ->
    fst (buildTrackSegments_loop path segs total) <> [] ->
    seg_b (List.last (fst (buildTrackSegments_loop path segs total)) d)
    = List.last rest first.
Proof.
  induction path as [| a tl IH]; intros segs total first rest d Hp Hinv Hne.
  - discriminate.
  - injection Hp as <- <-.
    destruct tl as [| b tl'].
    + cbn in *. apply Hinv, Hne.
    + rewrite buildTrackSegments_loop_step in *.
      destruct (Rle_dec _ 0) as [Hz | Hpos].
      * apply hypot_zero_inv in Hz. destruct Hz as [Hx Hy].
        pose proof (same_coordinates a b Hx Hy) as Hab.
        rewrite (IH segs total b tl' d eq_refl); [| | exact Hne].
        -- destruct tl'; [reflexivity |].
           change (List.last (b :: p :: tl') a) with (List.last (p :: tl') a).
           apply last_nonempty_default.
        -- intro Hs. rewrite Hab. apply Hinv, Hs.
      * rewrite (IH _ _ b tl' d eq_refl); [| | exact Hne].
        -- destruct tl'; [reflexivity |].
           change (List.last (b :: p :: tl') a) with (List.last (p :: tl') a).
           apply last_nonempty_default.
        -- intros _. rewrite last_last. reflexivity.
Qed.

Lemma sum_len_positive (segs : list TrackSegment) :
  Forall segment_of_ends segs -> segs <> [] -> 0 < sum_len segs.
Proof.
  intros Hall Hne. destruct segs as [| s rest]; [contradiction |].
  inversion Hall as [| ? ? Hs Hrest]; subst. cbn. fold (sum_len rest).
  assert (0 <= sum_len rest).
  { clear -Hrest. induction Hrest as [| x l Hx _ IH]; cbn; [lra |].
    fold (sum_len l). destruct Hx as (_ & _ & _ & Hx). lra. }
  destruct Hs as (_ & _ & _ & Hs). lra.
Qed.

(** Walking the whole length stops at the end of the last segment. *)
Lemma sampleTrack_loop_total (segs : list TrackSegment) :
  forall d,
    Forall segment_of_ends segs -> segs <> [] ->
    exists p,
      sampleTrack_loop segs (sum_len segs) = Some p
      /\ pose_x p = px (seg_b (List.last segs d))
      /\ pose_y p = py (seg_b (List.last segs d)).
Proof.
  induction segs as [| s rest IH]; intros d Hall Hne; [contradiction |].
  inversion Hall as [| ? ? Hs Hrest]; subst.
  destruct Hs as (Hdx & Hdy & Hlen & Hpos).
  destruct rest as [| s2 rest'].
  - cbn [sampleTrack_loop sum_len fold_right List.last].
    destruct (Rle_dec (seg_len s + 0) (seg_len s)) as [_ | Hn]; [| lra].
    eexists. split; [reflexivity |]. cbn [pose_x pose_y].
    rewrite Hdx, Hdy. split; field; lra.
  - assert (Hne2 : s2 :: rest' <> []) by discriminate.
    pose proof (sum_len_positive _ Hrest Hne2) as Hp2.
    destruct (IH d Hrest Hne2) as (p & Hp & Hx & Hy).
    cbn [sampleTrack_loop].
    change (sum_len (s :: s2 :: rest'))
      with (seg_len s + sum_len (s2 :: rest')).
    destruct (Rle_dec (seg_len s + sum_len (s2 :: rest')) (seg_len s))
      as [Hle | _]; [lra |].
    replace (seg_len s + sum_len (s2 :: rest') - seg_len s)
      with (sum_len (s2 :: rest')) by ring.
    exists p. split; [exact Hp |].
    change (List.last (s :: s2 :: rest') d) with (List.last (s2 :: rest') d).
    auto.
Qed.

Lemma buildTrackSegments_result (g : Game) :
  trackSegments (buildTrackSegments g)
  = fst (buildTrackSegments_loop (trackPath g) [] 0)
  /\ trackLength (buildTrackSegments g)
     = snd (buildTrackSegments_loop (trackPath g) [] 0).
Proof.
  unfold buildTrackSegments.
  change (trackPath (set_trackLength 0 (set_trackSegments [] g)))
    with (trackPath g).
  destruct (length_Z (trackPath g) <? 2)%Z eqn:Hlen.
  - destruct (trackPath g) as [| a [| b rest]]; cbn; auto.
    unfold length_Z in Hlen. cbn [List.length] in Hlen.
    apply Z.ltb_lt in Hlen. lia.
  - cbn. auto.
Qed.

Lemma Math_atan2_x_axis (x : R) : 0 < x -> Math_atan2 0 x = 0.
Proof.
  intro H. unfold Math_atan2. destruct (Rlt_dec 0 x); [| lra].
  replace (0 / x) with 0 by (field; lra). apply atan_0.
Qed.

Lemma Math_atan2_y_axis (y : R) : 0 < y -> Math_atan2 y 0 = PI / 2.
Proof.
  intro H. unfold Math_atan2.
  destruct (Rlt_dec 0 0); [lra |]. destruct (Rlt_dec 0 y); [reflexivity | lra].
Qed.

(** The centerline of the scenario: (0,0)-(100,0)-(100,100). *)
Lemma buildTrackSegments_loop_corner :
  buildTrackSegments_loop [mkPt 0 0; mkPt 100 0; mkPt 100 100] [] 0
  = ([mkSeg (mkPt 0 0) (mkPt 100 0) 100 100 0;
      mkSeg (mkPt 100 0) (mkPt 100 100) 100 0 100], 200).
Proof.
  assert (H1 : Math_hypot (100 - 0) (0 - 0) = 100).
  { replace (100 - 0) with 100 by ring. replace (0 - 0) with 0 by ring.
    apply hypot_x_axis. lra. }
  assert (H2 : Math_hypot (100 - 100) (100 - 0) = 100).
  { replace (100 - 100) with 0 by ring. replace (100 - 0) with 100 by ring.
    apply hypot_y_axis. lra. }
  rewrite buildTrackSegments_loop_step. cbn [px py]. rewrite H1.
  destruct (Rle_dec 100 0); [lra |].
  rewrite buildTrackSegments_loop_step. cbn [px py]. rewrite H2.
  destruct (Rle_dec 100 0); [lra |].
  cbn [buildTrackSegments_loop app].
  replace (100 - 0) with 100 by ring. replace (0 - 0) with 0 by ring.
  replace (100 - 100) with 0 by ring.
  replace (0 + 100 + 100) with 200 by ring. reflexivity.
Qed.

(** C7: [buildTrackSegments] keeps the spans of positive length and
    [trackLength] is the sum of their lengths; on a track with at least
    one segment [sampleTrack(0)] is the first point of the centerline and
    [sampleTrack(1)] its last point; for the centerline
    (0,0)-(100,0)-(100,100) the length is 200, [sampleTrack(0.25)] is
    (50,0) with heading 0 and [sampleTrack(0.75)] is (100,50) with heading
    pi/2. *)
Theorem C7_sampleTrack_endpoints_and_scenario :
  (forall g,
      Forall segment_of_ends (trackSegments (buildTrackSegments g))
      /\ trackLength (buildTrackSegments g)
         = sum_len (trackSegments (buildTrackSegments g)))
  /\ (forall g first rest,
         trackPath g = first :: rest ->
         trackSegments (buildTrackSegments g) <> [] ->
         exists p0 p1,
           sampleTrack (buildTrackSegments g) 0 = Some p0
           /\ pose_x p0 = px first /\ pose_y p0 = py first
           /\ sampleTrack (buildTrackSegments g) 1 = Some p1
           /\ pose_x p1 = px (List.last rest first)
           /\ pose_y p1 = py (List.last rest first))
  /\ (let g := buildTrackSegments
                 (set_trackPath [mkPt 0 0; mkPt 100 0; mkPt 100 100]
                    initial_game) in
      trackLength g = 200
      /\ sampleTrack g 0.25 = Some (mkPose 50 0 0)
      /\ sampleTrack g 0.75 = Some (mkPose 100 50 (PI / 2))).
Proof.
  split; [| split].
  - intro g. destruct (buildTrackSegments_result g) as [Hs Hl].
    rewrite Hs, Hl. apply buildTrackSegments_loop_sound; [constructor | reflexivity].
  - intros g first rest Hpath Hne.
    destruct (buildTrackSegments_result g) as [Hs Hl].
    destruct (buildTrackSegments_loop_sound (trackPath g) [] 0
                (Forall_nil _) eq_refl) as [Hall Hsum].
    rewrite <- Hs in Hall. rewrite <- Hs, <- Hl in Hsum.
    pose proof (sum_len_positive _ Hall Hne) as Hpos.
    unfold sampleTrack.
    destruct (trackSegments (buildTrackSegments g)) as [| s segs'] eqn:Hsegs;
      [contradiction |].
    destruct (Req_dec_T (trackLength (buildTrackSegments g)) 0) as [Hz | _];
      [lra |].
    assert (Ha : seg_a s = first).
    { apply (buildTrackSegments_loop_first (trackPath g) 0 first rest s segs'
               Hpath). rewrite <- Hs. reflexivity. }
    assert (Hb : seg_b (List.last (s :: segs') s) = List.last rest first).
    { rewrite Hs.
      apply (buildTrackSegments_loop_last (trackPath g) [] 0 first rest s Hpath).
      - intro H. contradiction.
      - rewrite <- Hs. discriminate. }
    destruct (sampleTrack_loop_total (s :: segs') s Hall Hne)
      as (p1 & Hp1 & Hx1 & Hy1).
    eexists. exists p1. split; [| split; [| split; [| split; [| split]]]].
    + cbn [sampleTrack_loop].
      inversion Hall as [| ? ? (_ & _ & _ & Hlen) _]; subst.
      destruct (Rle_dec (0 * trackLength (buildTrackSegments g)) (seg_len s))
        as [_ | Hn]; [reflexivity | lra].
    + cbn [pose_x]. rewrite Ha.
      replace (0 * trackLength (buildTrackSegments g) / seg_len s) with 0.
      * ring.
      * unfold Rdiv. ring.
    + cbn [pose_y]. rewrite Ha.
      replace (0 * trackLength (buildTrackSegments g) / seg_len s) with 0.
      * ring.
      * unfold Rdiv. ring.
    + rewrite Rmult_1_l, Hsum, Hp1. reflexivity.
    + rewrite Hx1, Hb. reflexivity.
    + rewrite Hy1, Hb. reflexivity.
  - cbv zeta.
    destruct (buildTrackSegments_result
                (set_trackPath [mkPt 0 0; mkPt 100 0; mkPt 100 100]
                   initial_game)) as [Hs Hl].
    change (trackPath (set_trackPath [mkPt 0 0; mkPt 100 0; mkPt 100 100]
                         initial_game))
      with [mkPt 0 0; mkPt 100 0; mkPt 100 100] in Hs, Hl.
    rewrite buildTrackSegments_loop_corner in Hs, Hl. cbn [fst snd] in Hs, Hl.
    split; [exact Hl |].
    unfold sampleTrack. rewrite Hs, Hl.
    destruct (Req_dec_T 200 0) as [Hz | _]; [lra |].
    cbn [sampleTrack_loop seg_len seg_a seg_dx seg_dy px py].
    split.
    + destruct (Rle_dec (0.25 * 200) 100) as [_ | Hn]; [| lra].
      rewrite Math_atan2_x_axis by lra. f_equal. f_equal; lra.
    + destruct (Rle_dec (0.75 * 200) 100) as [Hle | _]; [lra |].
      destruct (Rle_dec (0.75 * 200 - 100) 100) as [_ | Hn]; [| lra].
      rewrite Math_atan2_y_axis by lra. f_equal. f_equal; lra.
Qed.

(** C7 at the centerline (0,0)-(100,0)-(100,100). *)
Lemma C7_sampleTrack_endpoints_witness :
  let g := set_trackPath [mkPt 0 0; mkPt 100 0; mkPt 100 100] initial_game in
  exists p0 p1,
    sampleTrack (buildTrackSegments g) 0 = Some p0
    /\ pose_x p0 = 0 /\ pose_y p0 = 0
    /\ sampleTrack (buildTrackSegments g) 1 = Some p1
    /\ pose_x p1 = 100 /\ pose_y p1 = 100.
Proof.
  cbv zeta.
  destruct C7_sampleTrack_endpoints_and_scenario as (_ & Hends & _).
  apply (Hends (set_trackPath [mkPt 0 0; mkPt 100 0; mkPt 100 100]
                  initial_game)
               (mkPt 0 0) [mkPt 100 0; mkPt 100 100]).
  - reflexivity.
  - destruct (buildTrackSegments_result
                (set_trackPath [mkPt 0 0; mkPt 100 0; mkPt 100 100]
                   initial_game)) as [Hs _].
    rewrite Hs.
    change (trackPath (set_trackPath [mkPt 0 0; mkPt 100 0; mkPt 100 100]
                         initial_game))
      with [mkPt 0 0; mkPt 100 0; mkPt 100 100].
    rewrite buildTrackSegments_loop_corner. discriminate.
Defined.

(** ** Surfaces *)

Lemma narrow_road_map_loaded :
  let g := loadTiledMap (serving narrow_road_map) "map.json" initial_game in
  tiledRoadLayers g = [mkTileLayer "road" [1%Z] 1 1 1 true]
  /\ tiledGroundLayers g = [mkTileLayer "ground" [5%Z; 5%Z] 2 1 1 true]
  /\ tiledMapWidth g = 0%Z /\ tiledMapHeight g = 0%Z
  /\ tiledMapTileWidth g = 32%Z /\ tiledMapTileHeight g = 32%Z.
Proof. cbv zeta. repeat split; reflexivity. Qed.

Lemma int_or_nonzero (a b : Z) : a <> 0%Z -> int_or a b = a.
Proof.
  intro H. unfold int_or. destruct (Z.eqb_spec a 0); [contradiction | reflexivity].
Qed.

Ltac zbool :=
  repeat match goal with
    | |- context [(?a <? ?b)%Z] => destruct (Z.ltb_spec a b)
    | |- context [(?a <=? ?b)%Z] => destruct (Z.leb_spec a b)
    | |- context [(?a >=? ?b)%Z] => rewrite (Z.geb_leb a b)
    | |- context [(?a >? ?b)%Z] => rewrite (Z.gtb_ltb a b)
    | |- context [(?a =? ?b)%Z] => destruct (Z.eqb_spec a b)
    end;
  cbn [andb orb negb]; try reflexivity; try lia.

(** Outside the declared map size no layer list yields a tile. *)
Lemma getTileAt_outside_declared (g : Game) (layers : list TileLayer)
    (x y : R) :
  tiledMapWidth g <> 0%Z -> tiledMapHeight g <> 0%Z ->
  ~ ((0 <= tileColumn g x < tiledMapWidth g)%Z
     /\ (0 <= tileRow g y < tiledMapHeight g)%Z) ->
  getTileAt g layers x y = 0%Z.
Proof.
  intros Hw Hh Hout. unfold getTileAt.
  destruct layers as [| layer0 rest]; [reflexivity |].
  rewrite (int_or_nonzero _ _ Hw), (int_or_nonzero _ _ Hh).
  fold (tileColumn g x). fold (tileRow g y).
  destruct ((tiledMapTileWidth g <=? 0) || (tiledMapTileHeight g <=? 0))%Z;
    [reflexivity |].
  zbool.
Qed.

Lemma int_or_zero_right (a : Z) : int_or a 0 = a.
Proof. unfold int_or. destruct (Z.eqb_spec a 0); congruence. Qed.

(** Outside the bounds derived from the first road layer, the road layers
    yield no tile. *)
Lemma getTileAt_outside_road (g : Game) (x y : R) :
  ~ insideMap g x y -> getTileAt g (tiledRoadLayers g) x y = 0%Z.
Proof.
  unfold insideMap, roadMapWidth, roadMapHeight, getTileAt.
  destruct (tiledRoadLayers g) as [| road0 roads]; [reflexivity |].
  rewrite !int_or_zero_right.
  fold (tileColumn g x). fold (tileRow g y). intro Hout.
  destruct ((tiledMapTileWidth g <=? 0) || (tiledMapTileHeight g <=? 0))%Z;
    [reflexivity |].
  zbool.
Qed.

(** C10, as stated, fails: after loading a map that declares no size, with
    a road layer one tile wide and a ground layer two tiles wide, the
    position (40,10) lies outside the map bounds and is classified
    "ground", not "none". *)
Lemma C10_outside_bounds_classified_ground :
  let g := loadTiledMap (serving narrow_road_map) "map.json" initial_game in
  tiledRoadLayers g <> []
  /\ ~ insideMap g 40 10
  /\ getSurfaceAt g 40 10 = SurfGround.
Proof.
  cbv zeta.
  destruct narrow_road_map_loaded as (Hr & Hg & Hw & Hh & Htw & Hth).
  cbv zeta in Hr, Hg, Hw, Hh, Htw, Hth.
  set (g := loadTiledMap (serving narrow_road_map) "map.json" initial_game)
    in *.
  assert (Hx : Math_floor (40 / IZR 32) = 1%Z)
    by (apply Zfloor_eq; lra).
  assert (Hy : Math_floor (10 / IZR 32) = 0%Z)
    by (apply Zfloor_eq; lra).
  split; [rewrite Hr; discriminate |]. split.
  - intros [Hc _]. unfold tileColumn, roadMapWidth in Hc.
    rewrite Hr, Hw, Htw, Hx in Hc. cbn [int_or tl_width Z.eqb] in Hc. lia.
  - unfold getSurfaceAt, getTileAt. rewrite Hr, Hg, Hw, Hh, Htw, Hth, Hx, Hy.
    reflexivity.
Qed.

(** C10, amended: when at least one tile layer is tagged as road, a road
    tile hit is classified "road" whatever the ground layers hold; a
    position whose tile column and row lie inside the map bounds and that
    hits no road tile and no ground tile is classified "ground"; a
    position outside the map bounds that hits no ground tile is
    classified "none"; and, when the map declares its width and height,
    every position outside the map bounds is classified "none". *)
Theorem C10_surface_with_road_layers (g : Game) (x y : R) :
  tiledRoadLayers g <> [] ->
  (getTileAt g (tiledRoadLayers g) x y <> 0%Z ->
   getSurfaceAt g x y = SurfRoad)
  /\ (insideMap g x y ->
      getTileAt g (tiledRoadLayers g) x y = 0%Z ->
      tiledGroundLayers g = []
      \/ getTileAt g (tiledGroundLayers g) x y = 0%Z ->
      getSurfaceAt g x y = SurfGround)
  /\ (~ insideMap g x y ->
      tiledGroundLayers g = []
      \/ getTileAt g (tiledGroundLayers g) x y = 0%Z ->
      getSurfaceAt g x y = SurfNone)
  /\ (tiledMapWidth g <> 0%Z -> tiledMapHeight g <> 0%Z ->
      ~ insideMap g x y ->
      getSurfaceAt g x y = SurfNone).
Proof.
  intro Hroad.
  pose proof (getTileAt_outside_road g x y) as Hout_road.
  assert (Hnone : forall hit : Z,
             tiledGroundLayers g = [] \/ hit = 0%Z ->
             negb (length_Z (tiledGroundLayers g) =? 0)%Z
             && negb (hit =? 0)%Z = false).
  { intros hit [He | Hz].
    - rewrite He. reflexivity.
    - rewrite Hz. apply andb_false_r. }
  unfold getSurfaceAt.
  destruct (tiledRoadLayers g) as [| road0 roads] eqn:Hr; [contradiction |].
  split; [| split; [| split]].
  - intro Hhit. destruct (Z.eqb_spec (getTileAt g (road0 :: roads) x y) 0);
      [contradiction | reflexivity].
  - intros Hin Hnoroad Hnoground. rewrite Hnoroad. cbn [Z.eqb negb].
    rewrite (Hnone _ Hnoground).
    unfold insideMap, roadMapWidth, roadMapHeight, tileColumn, tileRow in Hin.
    rewrite Hr in Hin. destruct Hin as [Hc Hrow].
    zbool.
  - intros Hout Hnoground.
    rewrite (Hout_road Hout). cbn [Z.eqb negb].
    rewrite (Hnone _ Hnoground).
    unfold insideMap, roadMapWidth, roadMapHeight, tileColumn, tileRow
      in Hout.
    rewrite Hr in Hout.
    zbool.
  - intros Hw Hh Hout.
    unfold insideMap, roadMapWidth, roadMapHeight in Hout.
    rewrite (int_or_nonzero _ _ Hw), (int_or_nonzero _ _ Hh) in Hout.
    rewrite (getTileAt_outside_declared g (road0 :: roads) x y Hw Hh Hout).
    rewrite (getTileAt_outside_declared g (tiledGroundLayers g) x y Hw Hh Hout).
    cbn [Z.eqb negb]. rewrite andb_false_r.
    rewrite (int_or_nonzero _ _ Hw), (int_or_nonzero _ _ Hh).
    unfold tileColumn, tileRow in Hout.
    zbool.
Qed.

Lemma small_road_map_loaded :
  let g := loadTiledMap (serving small_road_map) "map.json" initial_game in
  tiledRoadLayers g = [mkTileLayer "road" [1%Z; 0%Z] 2 1 1 true]
  /\ tiledGroundLayers g = []
  /\ tiledMapWidth g = 2%Z /\ tiledMapHeight g = 1%Z
  /\ tiledMapTileWidth g = 32%Z /\ tiledMapTileHeight g = 32%Z.
Proof. cbv zeta. repeat split; reflexivity. Qed.

(** C10 on a loaded map two tiles wide: a road cell, a cell without road,
    and a position beyond the right edge. *)
Lemma C10_surface_with_road_layers_witness :
  let g := loadTiledMap (serving small_road_map) "map.json" initial_game in
  tiledRoadLayers g <> []
  /\ getSurfaceAt g 10 10 = SurfRoad
  /\ getSurfaceAt g 40 10 = SurfGround
  /\ ~ insideMap g 100 10
  /\ getSurfaceAt g 100 10 = SurfNone.
Proof.
  cbv zeta.
  destruct small_road_map_loaded as (Hr & Hg & Hw & Hh & Htw & Hth).
  cbv zeta in Hr, Hg, Hw, Hh, Htw, Hth.
  set (g := loadTiledMap (serving small_road_map) "map.json" initial_game)
    in *.
  assert (Hroad : tiledRoadLayers g <> []) by (rewrite Hr; discriminate).
  assert (F10 : Math_floor (10 / IZR 32) = 0%Z) by (apply Zfloor_eq; lra).
  assert (F40 : Math_floor (40 / IZR 32) = 1%Z) by (apply Zfloor_eq; lra).
  assert (F100 : Math_floor (100 / IZR 32) = 3%Z) by (apply Zfloor_eq; lra).
  assert (Hout : ~ insideMap g 100 10).
  { intros [Hc _]. unfold tileColumn, roadMapWidth in Hc.
    rewrite Hw, Htw, F100 in Hc. cbn [int_or Z.eqb] in Hc. lia. }
  destruct (C10_surface_with_road_layers g 10 10 Hroad) as (Road & _).
  destruct (C10_surface_with_road_layers g 40 10 Hroad) as (_ & Ground & _).
  destruct (C10_surface_with_road_layers g 100 10 Hroad)
    as (_ & _ & _ & Outside).
  split; [exact Hroad |]. split; [| split; [| split]].
  - apply Road.
    unfold getTileAt. rewrite Hr, Hw, Hh, Htw, Hth, F10. discriminate.
  - apply Ground.
    + unfold insideMap, tileColumn, tileRow, roadMapWidth, roadMapHeight.
      rewrite Hw, Hh, Htw, Hth, F40, F10. cbn [int_or Z.eqb]. lia.
    + unfold getTileAt. rewrite Hr, Hw, Hh, Htw, Hth, F40, F10. reflexivity.
    + left. exact Hg.
  - exact Hout.
  - apply Outside.
    + rewrite Hw. discriminate.
    + rewrite Hh. discriminate.
    + exact Hout.
Defined.

(** ** Vehicle dynamics: the speed bound *)

Lemma maxSurfaceSpeed_range (surface : Surface) :
  0 < maxSurfaceSpeed surface <= maxSpeed.
Proof.
  destruct surface; unfold maxSurfaceSpeed, maxSpeed, groundMaxSpeed; lra.
Qed.

Lemma driveSpeed_within (surface : Surface) (throttle dt speed : R) :
  speedWithin (maxSurfaceSpeed surface) (driveSpeed surface throttle dt speed).
Proof.
  pose proof (maxSurfaceSpeed_range surface) as Hm.
  unfold speedWithin, driveSpeed.
  match goal with
  | |- _ <= clamp ?v ?lo ?hi <= _ =>
      pose proof (clamp_bounds v lo hi) as Hc
  end.
  lra.
Qed.

Lemma speedWithin_weaken (m m' s : R) :
  0 <= m <= m' -> speedWithin m s -> speedWithin m' s.
Proof. unfold speedWithin. lra. Qed.

Lemma speedWithin_damped (m s k : R) :
  0 <= m -> 0 <= k <= 1 -> speedWithin m s -> speedWithin m (s * k).
Proof. unfold speedWithin. intros Hm Hk Hs. nra. Qed.

Lemma speedWithin_zero (m : R) : 0 <= m -> speedWithin m 0.
Proof. unfold speedWithin. lra. Qed.

Lemma speedWithin_abs (m s : R) : 0 <= m -> speedWithin m s -> Rabs s <= m.
Proof. unfold speedWithin. intros Hm Hs. apply Rabs_le. lra. Qed.

Lemma damped_abs (s k : R) : 0 <= k <= 1 -> Rabs (s * k) <= Rabs s.
Proof.
  intro Hk. rewrite Rabs_mult, (Rabs_pos_eq k) by lra.
  pose proof (Rabs_pos s). nra.
Qed.

Lemma drive_speed (inp : Input) (dt : R) (g : Game) :
  car_speed (car (drive inp dt g))
  = driveSpeed (getSurfaceAt g (car_x (car g)) (car_y (car g)))
      (clamp (throttleInput inp) (-1) 1) dt (car_speed (car g)).
Proof. reflexivity. Qed.

(** An obstacle or an AI car either leaves the speed or damps it. *)
Lemma collideObstacle_speed (st : Car * bool) (obs : Obstacle) :
  car_speed (fst (collideObstacle st obs)) = car_speed (fst st)
  \/ car_speed (fst (collideObstacle st obs)) = car_speed (fst st) * 0.6.
Proof.
  unfold collideObstacle. destruct obs.
  - destruct (circleRectCollision _ _ _ _ _ _ _); [right | left]; reflexivity.
  - destruct (circleCircleCollision _ _ _); [right | left]; reflexivity.
Qed.

Lemma collideAICar_speed (g : Game) (st : Car * bool) (ai : AICar) :
  car_speed (fst (collideAICar g st ai)) = car_speed (fst st)
  \/ car_speed (fst (collideAICar g st ai)) = car_speed (fst st) * 0.7.
Proof.
  unfold collideAICar. destruct (getAIPosition g ai); [| left; reflexivity].
  destruct (circleCircleCollision _ _ _); [right | left]; reflexivity.
Qed.

(** A pass over a list of bodies keeps every property of the speed that
    damping by a factor in [0,1] keeps. *)
Lemma fold_damping {B : Type} (P : R -> Prop)
    (step : Car * bool -> B -> Car * bool) (k : R) :
  0 <= k <= 1 ->
  (forall s k', 0 <= k' <= 1 -> P s -> P (s * k')) ->
  (forall st b, car_speed (fst (step st b)) = car_speed (fst st)
                \/ car_speed (fst (step st b)) = car_speed (fst st) * k) ->
  forall bodies st,
    P (car_speed (fst st)) ->
    P (car_speed (fst (fold_left step bodies st))).
Proof.
  intros Hk HP Hstep bodies.
  induction bodies as [| b rest IH]; intros st Hst; [exact Hst |].
  cbn [fold_left]. apply IH.
  destruct (Hstep st b) as [-> | ->]; [exact Hst | apply HP; assumption].
Qed.

Lemma collide_keeps (P : R -> Prop) (g : Game) :
  (forall s k, 0 <= k <= 1 -> P s -> P (s * k)) ->
  P (car_speed (car g)) -> P (car_speed (car (collide g))).
Proof.
  intros HP Hg. unfold collide.
  change (car (set_car ?c g)) with c.
  apply (fold_damping P (collideAICar g) 0.7); [lra | exact HP | |].
  - apply collideAICar_speed.
  - apply (fold_damping P collideObstacle 0.6); [lra | exact HP | |].
    + apply collideObstacle_speed.
    + exact Hg.
Qed.

Lemma respawnToCheckpoint_speed (index : Z) (g : Game) :
  car_speed (car (respawnToCheckpoint index g)) = 0.
Proof. reflexivity. Qed.

Lemma applyCrossing_speed (crossed : Z) (g : Game) :
  car_speed (car (applyCrossing crossed g)) = car_speed (car g)
  \/ car_speed (car (applyCrossing crossed g)) = 0.
Proof.
  unfold applyCrossing.
  destruct (crossed =? currentCheckpoint g)%Z.
  - left. cbv zeta.
    match goal with |- context [if ?c then _ else _] => destruct c end;
      reflexivity.
  - destruct (crossed >? currentCheckpoint g)%Z; [right | left]; reflexivity.
Qed.

Lemma trackCheckpoints_speed (g : Game) :
  car_speed (car (trackCheckpoints g)) = car_speed (car g)
  \/ car_speed (car (trackCheckpoints g)) = 0.
Proof.
  unfold trackCheckpoints.
  destruct (negb (length_Z (checkpoints g) =? 0)%Z); [| left; reflexivity].
  destruct (negb (crossedIndex g =? -1)%Z); [| left; reflexivity].
  apply applyCrossing_speed.
Qed.

Lemma active_tick_within (inp : Input) (dt : R) (g : Game) :
  speedWithin
    (maxSurfaceSpeed (getSurfaceAt g (car_x (car g)) (car_y (car g))))
    (car_speed (car (trackCheckpoints (collide (drive inp dt g))))).
Proof.
  set (surface := getSurfaceAt g (car_x (car g)) (car_y (car g))).
  pose proof (maxSurfaceSpeed_range surface) as Hm.
  destruct (trackCheckpoints_speed (collide (drive inp dt g))) as [-> | ->].
  - apply (collide_keeps (speedWithin (maxSurfaceSpeed surface))).
    + intros s k Hk Hs. apply speedWithin_damped; [lra | exact Hk | exact Hs].
    + rewrite drive_speed. apply driveSpeed_within.
  - apply speedWithin_zero. lra.
Qed.

Lemma updatePhysics_keeps_bound (inp : Input) (dt : R) (g : Game) :
  speedWithin maxSpeed (car_speed (car g)) ->
  speedWithin maxSpeed (car_speed (car (updatePhysics inp dt g))).
Proof.
  intro Hg. unfold updatePhysics.
  destruct (negb (started g) || countdownActive g); [exact Hg |].
  pose proof (maxSurfaceSpeed_range
                (getSurfaceAt g (car_x (car g)) (car_y (car g)))) as Hm.
  apply (speedWithin_weaken _ _ _ (conj (Rlt_le _ _ (proj1 Hm)) (proj2 Hm))).
  apply active_tick_within.
Qed.

(** C6: an active tick leaves the speed in
    [-0.5 maxSpeed, maxSpeed], and in the same interval for
    [maxSpeed * groundMaxSpeed], with [groundMaxSpeed < 1], when the car
    was on a "ground" surface; over any run of ticks, whatever the
    controls, a speed inside the interval stays inside it, so that
    [|speed| <= maxSpeed]; and the collision pass never increases
    [|speed|]. *)
Theorem C6_speed_stays_bounded :
  (forall inp dt g,
      started g = true -> countdownActive g = false ->
      speedWithin maxSpeed (car_speed (car (updatePhysics inp dt g)))
      /\ (getSurfaceAt g (car_x (car g)) (car_y (car g)) = SurfGround ->
          speedWithin (maxSpeed * groundMaxSpeed)
            (car_speed (car (updatePhysics inp dt g)))))
  /\ 0 < groundMaxSpeed < 1
  /\ (forall ticks g,
         speedWithin maxSpeed (car_speed (car g)) ->
         speedWithin maxSpeed (car_speed (car (runTicks ticks g)))
         /\ Rabs (car_speed (car (runTicks ticks g))) <= maxSpeed)
  /\ (forall g, Rabs (car_speed (car (collide g))) <= Rabs (car_speed (car g))).
Proof.
  split; [| split; [| split]].
  - intros inp dt g Hs Hc. unfold updatePhysics. rewrite Hs, Hc.
    cbn [negb orb].
    pose proof (active_tick_within inp dt g) as H.
    pose proof (maxSurfaceSpeed_range
                  (getSurfaceAt g (car_x (car g)) (car_y (car g)))) as Hm.
    split.
    + apply (speedWithin_weaken _ _ _
               (conj (Rlt_le _ _ (proj1 Hm)) (proj2 Hm))). exact H.
    + intro Hg. rewrite Hg in H. exact H.
  - unfold groundMaxSpeed. lra.
  - intros ticks. induction ticks as [| [inp dt] rest IH]; intros g Hg.
    + cbn [runTicks]. split; [exact Hg |].
      apply speedWithin_abs; [unfold maxSpeed; lra | exact Hg].
    + cbn [runTicks]. apply IH. apply updatePhysics_keeps_bound, Hg.
  - intro g.
    apply (collide_keeps (fun s => Rabs s <= Rabs (car_speed (car g)))).
    + intros s k Hk Hs. pose proof (damped_abs s k Hk). lra.
    + lra.
Qed.

(** C6 at the declared state once the race runs, with the throttle key
    held. *)
Lemma C6_speed_stays_bounded_witness :
  let inp := mkInput true false false false false false 0 in
  started running_game = true /\ countdownActive running_game = false
  /\ speedWithin maxSpeed (car_speed (car running_game))
  /\ speedWithin maxSpeed
       (car_speed (car (updatePhysics inp (1 / 60) running_game)))
  /\ speedWithin maxSpeed
       (car_speed (car (runTicks [(inp, 1 / 60); (inp, 1 / 60)]
                          running_game))).
Proof.
  cbv zeta.
  destruct C6_speed_stays_bounded as (Htick & _ & Hrun & _).
  assert (H0 : speedWithin maxSpeed (car_speed (car running_game))).
  { change (car_speed (car running_game)) with 0.
    unfold speedWithin, maxSpeed. lra. }
  split; [reflexivity |]. split; [reflexivity |]. split; [exact H0 |].
  split.
  - apply Htick; reflexivity.
  - apply Hrun, H0.
Defined.

(** ** The checkpoint tracker *)

(** Reading a module-level variable back after assignments. *)
Ltac gsimpl :=
  cbn [worldWidth worldHeight tiledTrackTiles tiledTileLayers
       tiledRoadLayers tiledGroundLayers tiledTilesetMeta
       tiledTilesetImages tiledMapTileWidth tiledMapTileHeight
       tiledMapWidth tiledMapHeight hasMapObjects car obstacles trackWidth
       trackPath checkpoints hasMapObstacles hasMapCheckpoints startSpawn
       aiSpawnPoints aiCars aiCheckpoints raceLaps trackSegments
       trackLength currentCheckpoint lastCheckpointIndex lap lastX lastY
       countdownActive started set_worldWidth set_worldHeight
       set_tiledTrackTiles set_tiledTileLayers set_tiledRoadLayers
       set_tiledGroundLayers set_tiledTilesetMeta set_tiledTilesetImages
       set_tiledMapTileWidth set_tiledMapTileHeight set_tiledMapWidth
       set_tiledMapHeight set_hasMapObjects set_car set_obstacles
       set_trackWidth set_trackPath set_checkpoints set_hasMapObstacles
       set_hasMapCheckpoints set_startSpawn set_aiSpawnPoints set_aiCars
       set_aiCheckpoints set_raceLaps set_trackSegments set_trackLength
       set_currentCheckpoint set_lastCheckpointIndex set_lap set_lastX
       set_lastY set_countdownActive set_started car_x car_y car_angle
       car_speed car_radius set_car_x set_car_y set_car_angle
       set_car_speed fst snd].

Ltac eval_R_tests :=
  repeat match goal with
    | |- context [Reqb ?a ?b] =>
        first [rewrite (Reqb_true a b) by lra
              | rewrite (Reqb_false a b) by lra]
    | |- context [Rleb ?a ?b] =>
        first [rewrite (Rleb_true a b) by lra
              | rewrite (Rleb_false a b) by lra]
    end;
  cbn [andb orb negb].

Lemma crossedIndex_loop_range (cps : list Checkpoint) (lx ly cx cy : R) :
  forall i,
    crossedIndex_loop cps i lx ly cx cy = (-1)%Z
    \/ (i <= crossedIndex_loop cps i lx ly cx cy < i + length_Z cps)%Z.
Proof.
  induction cps as [| cp rest IH]; intro i; [left; reflexivity |].
  cbn [crossedIndex_loop].
  destruct (segmentIntersect _ _ _ _ _ _ _ _).
  - right. unfold length_Z. cbn [List.length]. lia.
  - destruct (IH (i + 1)%Z) as [H | H]; [left; exact H | right].
    unfold length_Z in *. cbn [List.length]. lia.
Qed.

Lemma crossedIndex_range (g : Game) :
  crossedIndex g <> (-1)%Z ->
  (0 <= crossedIndex g < length_Z (checkpoints g))%Z.
Proof.
  intro H. unfold crossedIndex in *.
  destruct (crossedIndex_loop_range (checkpoints g) (lastX g) (lastY g)
              (car_x (car g)) (car_y (car g)) 0) as [E | E];
    [contradiction | lia].
Qed.

Lemma crossedIndex_placeCar (m : Move) (g : Game) :
  crossedIndex (placeCar m g)
  = crossedIndex_loop (checkpoints g) 0
      (from_x m) (from_y m) (to_x m) (to_y m).
Proof. reflexivity. Qed.

(** The checkpoint block, once a crossing is found. *)
Lemma trackCheckpoints_crossing (g : Game) :
  crossedIndex g <> (-1)%Z ->
  trackCheckpoints g = applyCrossing (crossedIndex g) g.
Proof.
  intro H. pose proof (crossedIndex_range g H) as Hr.
  unfold trackCheckpoints.
  destruct (Z.eqb_spec (length_Z (checkpoints g)) 0) as [E | _]; [lia |].
  destruct (Z.eqb_spec (crossedIndex g) (-1)) as [E | _]; [contradiction |].
  reflexivity.
Qed.

Lemma trackCheckpoints_no_crossing (g : Game) :
  crossedIndex g = (-1)%Z -> trackCheckpoints g = g.
Proof.
  intro H. unfold trackCheckpoints. rewrite H.
  destruct (negb (length_Z (checkpoints g) =? 0)%Z); reflexivity.
Qed.

(** Crossing the required checkpoint. *)
Lemma applyCrossing_required (g : Game) :
  let N := length_Z (checkpoints g) in
  let g' := applyCrossing (currentCheckpoint g) g in
  lastCheckpointIndex g' = currentCheckpoint g
  /\ checkpoints g' = checkpoints g
  /\ ((currentCheckpoint g + 1 >= N)%Z ->
      currentCheckpoint g' = 0%Z /\ lap g' = (lap g + 1)%Z)
  /\ ((currentCheckpoint g + 1 < N)%Z ->
      currentCheckpoint g' = (currentCheckpoint g + 1)%Z /\ lap g' = lap g).
Proof.
  cbv zeta. unfold applyCrossing. rewrite Z.eqb_refl. gsimpl.
  destruct (Z.geb_spec (currentCheckpoint g + 1) (length_Z (checkpoints g)));
    gsimpl; repeat split; intros; try reflexivity; lia.
Qed.

(** Crossing any other checkpoint. *)
Lemma applyCrossing_other (crossed : Z) (g : Game) :
  crossed <> currentCheckpoint g ->
  let g' := applyCrossing crossed g in
  currentCheckpoint g' = currentCheckpoint g
  /\ lap g' = lap g
  /\ lastCheckpointIndex g' = lastCheckpointIndex g
  /\ checkpoints g' = checkpoints g
  /\ ((crossed > currentCheckpoint g)%Z ->
      g' = respawnToCheckpoint (lastCheckpointIndex g) g)
  /\ ((crossed < currentCheckpoint g)%Z -> g' = g).
Proof.
  intro Hne. cbv zeta. unfold applyCrossing.
  destruct (Z.eqb_spec crossed (currentCheckpoint g)) as [E | _];
    [contradiction |].
  destruct (Z.gtb_spec crossed (currentCheckpoint g)) as [Hgt | Hle].
  - repeat split; try reflexivity. intro. lia.
  - repeat split; try reflexivity. intro. lia.
Qed.

Lemma crossed_checkpoint_2 :
  crossedIndex (placeCar across_checkpoint_2 initial_game) = 2%Z.
Proof.
  rewrite crossedIndex_placeCar.
  change (checkpoints initial_game) with initial_checkpoints.
  unfold initial_checkpoints, across_checkpoint_2.
  cbn [crossedIndex_loop cp_x1 cp_y1 cp_x2 cp_y2 from_x from_y to_x to_y].
  unfold segmentIntersect. cbv zeta. eval_R_tests. reflexivity.
Qed.

(** C3: on a tick whose movement segment crosses a checkpoint,
    [currentCheckpoint] advances by exactly 1 modulo the number of
    checkpoints when the crossed index equals it, and stays unchanged
    otherwise; a crossed index greater than it (in particular two or more
    ahead) runs the respawn and one less than it changes nothing.  With the
    four declared checkpoints and [currentCheckpoint = 0], crossing
    checkpoint 2 respawns and leaves it 0.  Over a whole tick of
    [updatePhysics] it advances by 1 modulo N or stays. *)
Theorem C3_checkpoint_progress_monotonic :
  (forall g,
      crossedIndex g <> (-1)%Z ->
      let N := length_Z (checkpoints g) in
      (crossedIndex g = currentCheckpoint g ->
       currentCheckpoint (trackCheckpoints g)
       = ((currentCheckpoint g + 1) mod N)%Z
       /\ lastCheckpointIndex (trackCheckpoints g) = crossedIndex g)
      /\ (crossedIndex g <> currentCheckpoint g ->
          currentCheckpoint (trackCheckpoints g) = currentCheckpoint g)
      /\ ((crossedIndex g > currentCheckpoint g)%Z ->
          trackCheckpoints g = respawnToCheckpoint (lastCheckpointIndex g) g
          /\ currentCheckpoint (trackCheckpoints g) = currentCheckpoint g)
      /\ ((crossedIndex g < currentCheckpoint g)%Z ->
          trackCheckpoints g = g))
  /\ (let g := placeCar across_checkpoint_2 initial_game in
      length_Z (checkpoints g) = 4%Z /\ currentCheckpoint g = 0%Z
      /\ crossedIndex g = 2%Z
      /\ trackCheckpoints g = respawnToCheckpoint (lastCheckpointIndex g) g
      /\ currentCheckpoint (trackCheckpoints g) = 0%Z)
  /\ (forall inp dt g,
         let N := length_Z (checkpoints g) in
         currentCheckpoint (updatePhysics inp dt g) = currentCheckpoint g
         \/ currentCheckpoint (updatePhysics inp dt g)
            = ((currentCheckpoint g + 1) mod N)%Z).
Proof.
  assert (Hgen : forall g,
      crossedIndex g <> (-1)%Z ->
      (crossedIndex g = currentCheckpoint g ->
       currentCheckpoint (trackCheckpoints g)
       = ((currentCheckpoint g + 1) mod length_Z (checkpoints g))%Z
       /\ lastCheckpointIndex (trackCheckpoints g) = crossedIndex g)
      /\ (crossedIndex g <> currentCheckpoint g ->
          currentCheckpoint (trackCheckpoints g) = currentCheckpoint g)
      /\ ((crossedIndex g > currentCheckpoint g)%Z ->
          trackCheckpoints g = respawnToCheckpoint (lastCheckpointIndex g) g
          /\ currentCheckpoint (trackCheckpoints g) = currentCheckpoint g)
      /\ ((crossedIndex g < currentCheckpoint g)%Z ->
          trackCheckpoints g = g)).
  { intros g Hcross.
    pose proof (crossedIndex_range g Hcross) as Hr.
    rewrite (trackCheckpoints_crossing g Hcross).
    split; [| split; [| split]].
    - intro E. rewrite E in *.
      destruct (applyCrossing_required g) as (Hl & _ & Hwrap & Hnext).
      split; [| exact Hl].
      destruct (Z_lt_ge_dec (currentCheckpoint g + 1)
                  (length_Z (checkpoints g))) as [Hlt | Hge].
      + rewrite (proj1 (Hnext Hlt)). symmetry. apply Z.mod_small. lia.
      + rewrite (proj1 (Hwrap Hge)).
        replace (currentCheckpoint g + 1)%Z with (length_Z (checkpoints g))
          by lia.
        symmetry. apply Z_mod_same_full.
    - intro Hne. apply (applyCrossing_other _ g Hne).
    - intro Hgt.
      assert (Hne : crossedIndex g <> currentCheckpoint g) by lia.
      destruct (applyCrossing_other _ g Hne) as (Hc & _ & _ & _ & Hre & _).
      split; [apply Hre, Hgt | exact Hc].
    - intro Hlt.
      assert (Hne : crossedIndex g <> currentCheckpoint g) by lia.
      apply (applyCrossing_other _ g Hne), Hlt. }
  split; [exact Hgen |]. split.
  - cbv zeta. pose proof crossed_checkpoint_2 as H2.
    assert (Hc : crossedIndex (placeCar across_checkpoint_2 initial_game)
                 <> (-1)%Z) by (rewrite H2; discriminate).
    destruct (Hgen _ Hc) as (_ & _ & Hskip & _).
    split; [reflexivity |]. split; [reflexivity |]. split; [exact H2 |].
    apply Hskip. rewrite H2. reflexivity.
  - intros inp dt g N. subst N. unfold updatePhysics.
    destruct (negb (started g) || countdownActive g); [left; reflexivity |].
    set (mid := collide (drive inp dt g)).
    assert (Hcur : currentCheckpoint mid = currentCheckpoint g)
      by reflexivity.
    assert (Hcps : checkpoints mid = checkpoints g) by reflexivity.
    destruct (Z.eq_dec (crossedIndex mid) (-1)) as [Hno | Hcross].
    + left. rewrite (trackCheckpoints_no_crossing mid Hno). exact Hcur.
    + destruct (Hgen mid Hcross) as (Heq & Hneq & _ & _).
      destruct (Z.eq_dec (crossedIndex mid) (currentCheckpoint mid))
        as [E | E].
      * right. rewrite (proj1 (Heq E)), Hcur, Hcps. reflexivity.
      * left. rewrite (Hneq E). exact Hcur.
Qed.

(** C3 at the declared checkpoints, moving across checkpoint 2 while
    checkpoint 0 is required. *)
Lemma C3_checkpoint_progress_witness :
  let g := placeCar across_checkpoint_2 initial_game in
  crossedIndex g <> (-1)%Z
  /\ (crossedIndex g > currentCheckpoint g)%Z
  /\ currentCheckpoint (trackCheckpoints g) = currentCheckpoint g.
Proof.
  cbv zeta. destruct C3_checkpoint_progress_monotonic as (Hgen & _ & _).
  pose proof crossed_checkpoint_2 as H2.
  assert (Hc : crossedIndex (placeCar across_checkpoint_2 initial_game)
               <> (-1)%Z) by (rewrite H2; discriminate).
  assert (Hgt : (crossedIndex (placeCar across_checkpoint_2 initial_game)
                 > currentCheckpoint
                     (placeCar across_checkpoint_2 initial_game))%Z)
    by (rewrite H2; reflexivity).
  split; [exact Hc |]. split; [exact Hgt |].
  destruct (Hgen _ Hc) as (_ & _ & Hskip & _).
  apply (Hskip Hgt).
Defined.

Lemma crossingTick_checkpoints (g : Game) (m : Move) :
  checkpoints (crossingTick g m) = checkpoints g.
Proof.
  unfold crossingTick.
  destruct (Z.eq_dec (crossedIndex (placeCar m g)) (-1)) as [Hno | Hcross].
  - rewrite (trackCheckpoints_no_crossing _ Hno). reflexivity.
  - rewrite (trackCheckpoints_crossing _ Hcross).
    destruct (Z.eq_dec (crossedIndex (placeCar m g))
                (currentCheckpoint (placeCar m g))) as [E | E].
    + rewrite E.
      destruct (applyCrossing_required (placeCar m g)) as (_ & Hc & _).
      rewrite Hc. reflexivity.
    + destruct (applyCrossing_other _ (placeCar m g) E)
        as (_ & _ & _ & Hc & _).
      rewrite Hc. reflexivity.
Qed.

(** A tick that crosses the required checkpoint. *)
Lemma crossingTick_required (g : Game) (m : Move) :
  crossedIndex (placeCar m g) = currentCheckpoint g ->
  (0 <= currentCheckpoint g)%Z ->
  let N := length_Z (checkpoints g) in
  ((currentCheckpoint g + 1 >= N)%Z ->
   currentCheckpoint (crossingTick g m) = 0%Z
   /\ lap (crossingTick g m) = (lap g + 1)%Z)
  /\ ((currentCheckpoint g + 1 < N)%Z ->
      currentCheckpoint (crossingTick g m) = (currentCheckpoint g + 1)%Z
      /\ lap (crossingTick g m) = lap g).
Proof.
  intros Hc H0. cbv zeta. unfold crossingTick.
  assert (Hcross : crossedIndex (placeCar m g) <> (-1)%Z) by lia.
  rewrite (trackCheckpoints_crossing _ Hcross), Hc.
  change (currentCheckpoint g) with (currentCheckpoint (placeCar m g)).
  destruct (applyCrossing_required (placeCar m g)) as (_ & _ & Hwrap & Hnext).
  split; assumption.
Qed.

(** Checkpoints crossed in index order, starting from the required one. *)
Lemma crossing_in_order (moves : list Move) :
  forall g,
    moves <> [] ->
    (0 <= currentCheckpoint g)%Z ->
    (currentCheckpoint g + length_Z moves <= length_Z (checkpoints g))%Z ->
    (forall k m, nth_error moves k = Some m ->
                 crossedIndex (placeCar m g)
                 = (currentCheckpoint g + Z.of_nat k)%Z) ->
    let g' := fold_left crossingTick moves g in
    let reached := (currentCheckpoint g + length_Z moves)%Z in
    (reached = length_Z (checkpoints g) ->
     currentCheckpoint g' = 0%Z /\ lap g' = (lap g + 1)%Z)
    /\ ((reached < length_Z (checkpoints g))%Z ->
        currentCheckpoint g' = reached /\ lap g' = lap g).
Proof.
  induction moves as [| m rest IH]; intros g Hne H0 Hlen Hord;
    [contradiction |].
  cbv zeta. cbn [fold_left].
  assert (Hm : crossedIndex (placeCar m g) = currentCheckpoint g).
  { rewrite (Hord 0%nat m eq_refl). cbn. lia. }
  destruct (crossingTick_required g m Hm H0) as [Hwrap Hnext].
  unfold length_Z in Hlen |- *. cbn [List.length] in Hlen |- *.
  destruct rest as [| m2 rest'].
  - cbn [fold_left List.length]. split; intro H.
    + apply Hwrap. unfold length_Z. lia.
    + replace (currentCheckpoint g + Z.of_nat 1)%Z
        with (currentCheckpoint g + 1)%Z by lia.
      apply Hnext. unfold length_Z. lia.
  - assert (Hlt : (currentCheckpoint g + 1 < length_Z (checkpoints g))%Z).
    { unfold length_Z. cbn [List.length] in Hlen. lia. }
    destruct (Hnext Hlt) as [Hcur Hlap].
    assert (Hrest : forall k m', nth_error (m2 :: rest') k = Some m' ->
              crossedIndex (placeCar m' (crossingTick g m))
              = (currentCheckpoint (crossingTick g m) + Z.of_nat k)%Z).
    { intros k m' Hk. rewrite crossedIndex_placeCar, crossingTick_checkpoints.
      rewrite <- crossedIndex_placeCar, (Hord (S k) m' Hk), Hcur. lia. }
    destruct (IH (crossingTick g m)) as [Hw Hn].
    + discriminate.
    + lia.
    + rewrite crossingTick_checkpoints, Hcur. unfold length_Z.
      cbn [List.length] in Hlen |- *. lia.
    + exact Hrest.
    + cbv zeta in Hw, Hn.
      rewrite crossingTick_checkpoints, Hcur, Hlap in Hw, Hn.
      unfold length_Z in Hw, Hn. cbn [List.length] in Hw, Hn.
      split; intro H; cbn [List.length] in *.
      * apply Hw. lia.
      * destruct Hn as [Hn1 Hn2]; [lia |]. split; [| exact Hn2].
        rewrite Hn1. lia.
Qed.

Lemma crossed_checkpoint_0 :
  crossedIndex (placeCar across_checkpoint_0 initial_game) = 0%Z.
Proof.
  rewrite crossedIndex_placeCar.
  change (checkpoints initial_game) with initial_checkpoints.
  unfold initial_checkpoints, across_checkpoint_0.
  cbn [crossedIndex_loop cp_x1 cp_y1 cp_x2 cp_y2 from_x from_y to_x to_y].
  unfold segmentIntersect. cbv zeta. eval_R_tests. reflexivity.
Qed.

Lemma crossed_checkpoint_1 :
  crossedIndex (placeCar across_checkpoint_1 initial_game) = 1%Z.
Proof.
  rewrite crossedIndex_placeCar.
  change (checkpoints initial_game) with initial_checkpoints.
  unfold initial_checkpoints, across_checkpoint_1.
  cbn [crossedIndex_loop cp_x1 cp_y1 cp_x2 cp_y2 from_x from_y to_x to_y].
  unfold segmentIntersect. cbv zeta. eval_R_tests. reflexivity.
Qed.

Lemma crossed_checkpoint_3 :
  crossedIndex (placeCar across_checkpoint_3 initial_game) = 3%Z.
Proof.
  rewrite crossedIndex_placeCar.
  change (checkpoints initial_game) with initial_checkpoints.
  unfold initial_checkpoints, across_checkpoint_3.
  cbn [crossedIndex_loop cp_x1 cp_y1 cp_x2 cp_y2 from_x from_y to_x to_y].
  unfold segmentIntersect. cbv zeta. eval_R_tests. reflexivity.
Qed.

(** C4: starting from [currentCheckpoint = 0], ticks that cross the
    checkpoints 0, 1, ... in index order leave [lap] unchanged until all N
    have been crossed, when [lap] has grown by exactly 1 and
    [currentCheckpoint] is 0 again; a tick whose crossed index is not the
    required one (a skip that respawns, or an ignored crossing) never
    changes [lap]; and a tick of [updatePhysics] changes [lap] only by
    adding 1 when it crosses the required checkpoint and that one is the
    last, N - 1. *)
Theorem C4_lap_counts_full_cycles :
  (forall g moves,
      currentCheckpoint g = 0%Z ->
      moves <> [] ->
      (length_Z moves <= length_Z (checkpoints g))%Z ->
      (forall k m, nth_error moves k = Some m ->
                   crossedIndex (placeCar m g) = Z.of_nat k) ->
      let g' := fold_left crossingTick moves g in
      (length_Z moves = length_Z (checkpoints g) ->
       lap g' = (lap g + 1)%Z /\ currentCheckpoint g' = 0%Z)
      /\ ((length_Z moves < length_Z (checkpoints g))%Z ->
          lap g' = lap g /\ currentCheckpoint g' = length_Z moves))
  /\ (forall g,
         crossedIndex g <> currentCheckpoint g ->
         lap (trackCheckpoints g) = lap g)
  /\ (forall inp dt g,
         let reached := collide (drive inp dt g) in
         let g' := updatePhysics inp dt g in
         lap g' = lap g
         \/ (lap g' = (lap g + 1)%Z
             /\ crossedIndex reached = currentCheckpoint g
             /\ (currentCheckpoint g + 1)%Z = length_Z (checkpoints g)
             /\ currentCheckpoint g' = 0%Z)).
Proof.
  split; [| split].
  - intros g moves Hcur Hne Hlen Hord. cbv zeta.
    destruct (crossing_in_order moves g Hne) as [Hw Hn].
    + lia.
    + lia.
    + intros k m Hk. rewrite (Hord k m Hk), Hcur. lia.
    + cbv zeta in Hw, Hn. rewrite Hcur in Hw, Hn. cbn [Z.add] in Hw, Hn.
      split; intro H.
      * destruct (Hw H). auto.
      * destruct (Hn H). auto.
  - intros g Hne.
    destruct (Z.eq_dec (crossedIndex g) (-1)) as [Hno | Hcross].
    + rewrite (trackCheckpoints_no_crossing g Hno). reflexivity.
    + rewrite (trackCheckpoints_crossing g Hcross).
      apply (applyCrossing_other _ g Hne).
  - intros inp dt g. cbv zeta. unfold updatePhysics.
    destruct (negb (started g) || countdownActive g); [left; reflexivity |].
    set (mid := collide (drive inp dt g)).
    assert (Hcur : currentCheckpoint mid = currentCheckpoint g)
      by reflexivity.
    assert (Hcps : checkpoints mid = checkpoints g) by reflexivity.
    assert (Hlap : lap mid = lap g) by reflexivity.
    destruct (Z.eq_dec (crossedIndex mid) (-1)) as [Hno | Hcross].
    + left. rewrite (trackCheckpoints_no_crossing mid Hno). exact Hlap.
    + pose proof (crossedIndex_range mid Hcross) as Hr.
      rewrite (trackCheckpoints_crossing mid Hcross).
      destruct (Z.eq_dec (crossedIndex mid) (currentCheckpoint mid))
        as [E | E].
      * rewrite E.
        destruct (applyCrossing_required mid) as (_ & _ & Hwrap & Hnext).
        destruct (Z_lt_ge_dec (currentCheckpoint mid + 1)
                    (length_Z (checkpoints mid))) as [Hlt | Hge].
        -- left. rewrite (proj2 (Hnext Hlt)). exact Hlap.
        -- right. destruct (Hwrap Hge) as [Hc Hl].
           rewrite Hl, Hc, Hlap, <- Hcur, <- Hcps.
           repeat split; lia.
      * left. destruct (applyCrossing_other _ mid E) as (_ & Hl & _).
        rewrite Hl. exact Hlap.
Qed.

(** C4 at the declared checkpoints, crossed 0, 1, 2, 3. *)
Lemma C4_lap_counts_full_cycles_witness :
  let moves := [across_checkpoint_0; across_checkpoint_1;
                across_checkpoint_2; across_checkpoint_3] in
  let g' := fold_left crossingTick moves initial_game in
  currentCheckpoint initial_game = 0%Z
  /\ length_Z moves = length_Z (checkpoints initial_game)
  /\ lap g' = (lap initial_game + 1)%Z
  /\ currentCheckpoint g' = 0%Z.
Proof.
  cbv zeta. destruct C4_lap_counts_full_cycles as (Hcycle & _ & _).
  split; [reflexivity |]. split; [reflexivity |].
  apply (Hcycle initial_game
           [across_checkpoint_0; across_checkpoint_1;
            across_checkpoint_2; across_checkpoint_3]).
  - reflexivity.
  - discriminate.
  - unfold length_Z. cbn. lia.
  - intros k m Hk.
    destruct k as [| [| [| [| k]]]]; cbn in Hk.
    + injection Hk as <-. exact crossed_checkpoint_0.
    + injection Hk as <-. exact crossed_checkpoint_1.
    + injection Hk as <-. exact crossed_checkpoint_2.
    + injection Hk as <-. exact crossed_checkpoint_3.
    + destruct k; discriminate.
  - reflexivity.
Defined.

(** C9: a respawn run while [lastCheckpointIndex] is -1 puts the car at
    the start spawn pose, position and heading, zeroes its speed and sets
    [lastX], [lastY] to the new position; this is what a tick does when
    the crossed index is greater than [currentCheckpoint] and no
    checkpoint has been passed. *)
Theorem C9_respawn_before_first_checkpoint (g : Game) :
  lastCheckpointIndex g = (-1)%Z ->
  (let g' := respawnToCheckpoint (lastCheckpointIndex g) g in
   car_x (car g') = pose_x (startSpawn g)
   /\ car_y (car g') = pose_y (startSpawn g)
   /\ car_angle (car g') = pose_angle (startSpawn g)
   /\ car_speed (car g') = 0
   /\ lastX g' = car_x (car g') /\ lastY g' = car_y (car g'))
  /\ (crossedIndex g <> (-1)%Z ->
      (crossedIndex g > currentCheckpoint g)%Z ->
      let g' := trackCheckpoints g in
      car_x (car g') = pose_x (startSpawn g)
      /\ car_y (car g') = pose_y (startSpawn g)
      /\ car_angle (car g') = pose_angle (startSpawn g)
      /\ car_speed (car g') = 0
      /\ lastX g' = car_x (car g') /\ lastY g' = car_y (car g')).
Proof.
  intro Hlast.
  assert (Hre : let g' := respawnToCheckpoint (lastCheckpointIndex g) g in
                car_x (car g') = pose_x (startSpawn g)
                /\ car_y (car g') = pose_y (startSpawn g)
                /\ car_angle (car g') = pose_angle (startSpawn g)
                /\ car_speed (car g') = 0
                /\ lastX g' = car_x (car g') /\ lastY g' = car_y (car g')).
  { cbv zeta. rewrite Hlast. repeat split; reflexivity. }
  split; [exact Hre |].
  intros Hcross Hgt. cbv zeta.
  rewrite (trackCheckpoints_crossing g Hcross).
  assert (Hne : crossedIndex g <> currentCheckpoint g) by lia.
  destruct (applyCrossing_other _ g Hne) as (_ & _ & _ & _ & Hskip & _).
  rewrite (Hskip Hgt). exact Hre.
Qed.

(** C9 at the declared state, moving across checkpoint 2 before any
    checkpoint was passed: the car is back at (320,360). *)
Lemma C9_respawn_before_first_checkpoint_witness :
  let g := placeCar across_checkpoint_2 initial_game in
  let g' := trackCheckpoints g in
  lastCheckpointIndex g = (-1)%Z
  /\ (crossedIndex g > currentCheckpoint g)%Z
  /\ car_x (car g') = 320 /\ car_y (car g') = 360
  /\ car_speed (car g') = 0
  /\ lastX g' = car_x (car g') /\ lastY g' = car_y (car g').
Proof.
  cbv zeta. pose proof crossed_checkpoint_2 as H2.
  assert (Hlast : lastCheckpointIndex
                    (placeCar across_checkpoint_2 initial_game) = (-1)%Z)
    by reflexivity.
  assert (Hgt : (crossedIndex (placeCar across_checkpoint_2 initial_game)
                 > currentCheckpoint
                     (placeCar across_checkpoint_2 initial_game))%Z)
    by (rewrite H2; reflexivity).
  assert (Hc : crossedIndex (placeCar across_checkpoint_2 initial_game)
               <> (-1)%Z) by (rewrite H2; discriminate).
  destruct (C9_respawn_before_first_checkpoint
              (placeCar across_checkpoint_2 initial_game) Hlast)
    as [_ Htick].
  destruct (Htick Hc Hgt) as (Hx & Hy & _ & Hs & Hlx & Hly).
  split; [exact Hlast |]. split; [exact Hgt |].
  split; [rewrite Hx; reflexivity |]. split; [rewrite Hy; reflexivity |].
  split; [exact Hs |]. split; assumption.
Defined.

(** ** The map loader *)

Ltac break_match :=
  match goal with
  | |- context [match ?x with _ => _ end] => destruct x
  end.

Lemma sameUnpublished_refl (g : Game) : sameUnpublished g g.
Proof. unfold sameUnpublished. repeat split. Qed.

Lemma sameUnpublished_trans (g1 g2 g3 : Game) :
  sameUnpublished g1 g2 -> sameUnpublished g2 g3 -> sameUnpublished g1 g3.
Proof.
  unfold sameUnpublished.
  intros (A1 & A2 & A3 & A4 & A5 & A6 & A7) (B1 & B2 & B3 & B4 & B5 & B6 & B7).
  repeat split; congruence.
Qed.

(** The loop over the layers leaves alone what is published after it. *)
Section LayerLoop.

Variable env : Browser.
Variable meta : list TilesetMeta.
Variable images : list (Z * Img).

Lemma scanObject_unpublished (st : ObjectScan) (obj : MapObject) :
  sameUnpublished (scan_game st) (scan_game (scanObject meta images st obj)).
Proof.
  unfold scanObject, scanTileObject, markFound. cbv zeta.
  repeat break_match; unfold sameUnpublished; repeat split; reflexivity.
Qed.

Lemma scanObjects_unpublished (objects : list MapObject) :
  forall st,
    sameUnpublished (scan_game st)
      (scan_game (fold_left (scanObject meta images) objects st)).
Proof.
  induction objects as [| obj rest IH]; intro st.
  - apply sameUnpublished_refl.
  - cbn [fold_left].
    eapply sameUnpublished_trans; [apply scanObject_unpublished | apply IH].
Qed.

Lemma applyTrackObject_unpublished (layerName : string)
    (objects : list MapObject) (g : Game) :
  sameUnpublished g (applyTrackObject layerName objects g).
Proof.
  unfold applyTrackObject. cbv zeta.
  repeat break_match; unfold sameUnpublished; repeat split; reflexivity.
Qed.

Lemma replaceLayerLists_unpublished (st : ObjectScan) :
  sameUnpublished (scan_game st) (fst (replaceLayerLists st)).
Proof.
  unfold replaceLayerLists. cbv zeta.
  repeat break_match; unfold sameUnpublished; repeat split; reflexivity.
Qed.

Lemma scanObjectLayer_unpublished (layer : Layer) (g : Game) (p : Pending) :
  sameUnpublished g (fst (scanObjectLayer meta images layer g p)).
Proof.
  unfold scanObjectLayer. cbv zeta.
  destruct (lowerCaseName (name_or_empty (l_name layer))) as [layerName |];
    [| apply sameUnpublished_refl].
  cbn [fst].
  eapply sameUnpublished_trans; [apply applyTrackObject_unpublished |].
  eapply sameUnpublished_trans; [| apply replaceLayerLists_unpublished].
  apply (scanObjects_unpublished _ (mkObjectScan _ p [] false)).
Qed.

Lemma loadLayers_unpublished (layers : list Layer) :
  forall g p,
    sameUnpublished g (fst (loadLayers env meta images layers g p)).
Proof.
  induction layers as [| layer rest IH]; intros g p.
  - apply sameUnpublished_refl.
  - cbn [loadLayers].
    destruct (String.eqb (l_type layer) "tilelayer").
    + destruct (decodeLayerData env layer) as [[[| id ids] |] |].
      * apply IH.
      * apply IH.
      * apply IH.
      * apply sameUnpublished_refl.
    + destruct (negb (String.eqb (l_type layer) "objectgroup")).
      * apply IH.
      * pose proof (scanObjectLayer_unpublished layer g p) as Hs.
        destruct (scanObjectLayer meta images layer g p) as [g1 [p1 |]];
          cbn [fst] in Hs.
        -- eapply sameUnpublished_trans; [exact Hs | apply IH].
        -- exact Hs.
Qed.

End LayerLoop.

Lemma widenTileSize_unpublished (meta : list TilesetMeta) :
  forall g, sameUnpublished g (fold_left widenTileSize meta g).
Proof.
  induction meta as [| ts rest IH]; intro g.
  - apply sameUnpublished_refl.
  - cbn [fold_left].
    eapply sameUnpublished_trans; [| apply IH].
    unfold widenTileSize. cbv zeta.
    repeat break_match; unfold sameUnpublished; repeat split; reflexivity.
Qed.

Lemma applyTilesets_unpublished (map : TiledMap) (meta : list TilesetMeta)
    (images : list (Z * Img)) (g : Game) :
  sameUnpublished g (applyTilesets map meta images g).
Proof.
  unfold applyTilesets. cbv zeta.
  match goal with
  | |- context [fold_left widenTileSize meta ?g0] =>
      pose proof (widenTileSize_unpublished meta g0) as Hw;
      set (widened := fold_left widenTileSize meta g0) in *
  end.
  assert (Hg : sameUnpublished g widened).
  { eapply sameUnpublished_trans; [| exact Hw].
    unfold sameUnpublished. repeat split; reflexivity. }
  destruct (_ && _); [| exact Hg].
  eapply sameUnpublished_trans; [exact Hg |].
  unfold sameUnpublished. repeat split; reflexivity.
Qed.

Lemma applyLaps_fields (map : TiledMap) (g : Game) :
  raceLaps (applyLaps map g) = lapsOverride map (raceLaps g)
  /\ tiledTrackTiles (applyLaps map g) = tiledTrackTiles g
  /\ tiledTileLayers (applyLaps map g) = tiledTileLayers g
  /\ tiledRoadLayers (applyLaps map g) = tiledRoadLayers g
  /\ tiledGroundLayers (applyLaps map g) = tiledGroundLayers g
  /\ aiSpawnPoints (applyLaps map g) = aiSpawnPoints g
  /\ aiCheckpoints (applyLaps map g) = aiCheckpoints g.
Proof.
  unfold applyLaps, lapsOverride.
  destruct (lapProp map) as [prop |]; [| repeat split].
  destruct (prop_value prop); repeat split.
Qed.

Lemma filter_named_thrown (word : string) (layers : list TileLayer) :
  filter_named word layers = Thrown -> Exists nameThrows layers.
Proof.
  induction layers as [| l rest IH]; cbn [filter_named]; [discriminate |].
  unfold layer_named.
  destruct (lowerCaseName (name_or_empty (Some (tl_name l)))) as [name |]
    eqn:E.
  - destruct (filter_named word rest); [discriminate |].
    intros _. apply Exists_cons_tl. apply IH. reflexivity.
  - intros _. apply Exists_cons_hd. exact E.
Qed.

Lemma filter_named_again (word word' : string) (layers : list TileLayer) :
  forall kept,
    filter_named word layers = Ok kept ->
    exists kept', filter_named word' layers = Ok kept'.
Proof.
  induction layers as [| l rest IH]; intros kept; cbn [filter_named].
  - intros _. eexists. reflexivity.
  - unfold layer_named.
    destruct (lowerCaseName (name_or_empty (Some (tl_name l))));
      [| discriminate].
    destruct (filter_named word rest) as [kept0 |]; [| discriminate].
    intros _. destruct (IH kept0 eq_refl) as [kept' ->].
    eexists. reflexivity.
Qed.

Lemma publishPending_raceLaps (p : Pending) (g : Game) :
  raceLaps (snd (publishPending p g)) = raceLaps g.
Proof.
  unfold publishPending. cbv zeta. repeat break_match; reflexivity.
Qed.

(** A publishing step that does not run to its end stopped in the filter
    on the names, after the tile sprites and the tile layers were
    assigned and before anything else was. *)
Lemma publishPending_failure (p : Pending) (g : Game) :
  fst (publishPending p g) <> Finished ->
  let g' := snd (publishPending p g) in
  fst (publishPending p g) = Caught
  /\ tiledRoadLayers g' = tiledRoadLayers g
  /\ tiledGroundLayers g' = tiledGroundLayers g
  /\ aiSpawnPoints g' = aiSpawnPoints g
  /\ aiCheckpoints g' = aiCheckpoints g
  /\ Exists nameThrows (tiledTileLayers g').
Proof.
  unfold publishPending. cbv zeta.
  destruct (newTiles p) as [| t ts]; destruct (newTileLayers p) as [| l ls];
    gsimpl;
    match goal with
    | |- context [filter_named "road" ?x] =>
        destruct (filter_named "road" x) as [road |] eqn:Er
    end;
    try (destruct (filter_named_again "road" "ground" _ _ Er)
           as [ground Eg];
         gsimpl; rewrite Eg; destruct (_ && _); cbn [fst]; intro Hf;
         contradiction);
    cbn [fst snd]; intros _; gsimpl;
    (split; [reflexivity |]); (split; [reflexivity |]);
    (split; [reflexivity |]); (split; [reflexivity |]);
    (split; [reflexivity |]);
    apply (filter_named_thrown "road"); exact Er.
Qed.

(** The state the layers are read in, and the one they leave. *)
Lemma loadParsedMap_stages (env : Browser) (map : TiledMap) (g : Game) :
  exists g1 r,
    sameUnpublished (applyLaps map g) g1
    /\ sameUnpublished g1 (fst r)
    /\ loadParsedMap env map g
       = match r with
         | (g2, Thrown) => (Caught, g2)
         | (g2, Ok p) => publishPending p g2
         end.
Proof.
  unfold loadParsedMap. cbv zeta.
  eexists. eexists. split; [| split; [| reflexivity]].
  - apply applyTilesets_unpublished.
  - apply loadLayers_unpublished.
Qed.

Lemma loadParsedMap_raceLaps (env : Browser) (map : TiledMap) (g : Game) :
  raceLaps (snd (loadParsedMap env map g)) = lapsOverride map (raceLaps g).
Proof.
  destruct (loadParsedMap_stages env map g) as (g1 & [g2 res] & H1 & H2 & ->).
  destruct (applyLaps_fields map g) as (Hl & _).
  destruct H1 as (_ & _ & _ & _ & _ & _ & L1).
  destruct H2 as (_ & _ & _ & _ & _ & _ & L2). cbn [fst] in L2.
  destruct res as [p |]; cbn [snd].
  - rewrite publishPending_raceLaps. congruence.
  - congruence.
Qed.

Lemma loadParsedMap_failure (env : Browser) (map : TiledMap) (g : Game) :
  fst (loadParsedMap env map g) <> Finished ->
  let g' := snd (loadParsedMap env map g) in
  fst (loadParsedMap env map g) = Caught
  /\ tiledRoadLayers g' = tiledRoadLayers g
  /\ tiledGroundLayers g' = tiledGroundLayers g
  /\ aiSpawnPoints g' = aiSpawnPoints g
  /\ aiCheckpoints g' = aiCheckpoints g
  /\ ((tiledTrackTiles g' = tiledTrackTiles g
       /\ tiledTileLayers g' = tiledTileLayers g)
      \/ Exists nameThrows (tiledTileLayers g')).
Proof.
  cbv zeta.
  destruct (loadParsedMap_stages env map g) as (g1 & [g2 res] & H1 & H2 & ->).
  destruct (applyLaps_fields map g) as (_ & F1 & F2 & F3 & F4 & F5 & F6).
  destruct H1 as (A1 & A2 & A3 & A4 & A5 & A6 & _).
  destruct H2 as (B1 & B2 & B3 & B4 & B5 & B6 & _). cbn [fst] in *.
  destruct res as [p |].
  - intro Hf.
    destruct (publishPending_failure p g2 Hf) as (Hc & P3 & P4 & P5 & P6 & Hn).
    split; [exact Hc |].
    split; [congruence |]. split; [congruence |].
    split; [congruence |]. split; [congruence |].
    right. exact Hn.
  - cbn [fst snd]. intros _.
    split; [reflexivity |].
    split; [congruence |]. split; [congruence |].
    split; [congruence |]. split; [congruence |].
    left. split; congruence.
Qed.

Lemma broken_payload_map_run :
  let r := loadTiledMap_run (serving broken_payload_map) "map.json"
             initial_game in
  fst r = Caught
  /\ raceLaps (snd r) = Z.max 1 (Math_floor 5)
  /\ List.length (obstacles (snd r)) = 1%nat
  /\ tiledMapWidth (snd r) = 10%Z
  /\ tiledTileLayers (snd r) = [].
Proof. cbv zeta. repeat split; reflexivity. Qed.

(** A tile layer named by the number 7 passes the loop over the layers;
    the call then replaces the tile layers and fails in the filter on
    their names: it does not run to its end and has changed the tile
    layers. *)
Lemma numeric_name_map_run :
  let r := loadTiledMap_run (serving numeric_name_map) "map.json"
             initial_game in
  fst r = Caught
  /\ tiledTileLayers (snd r)
     = [mkTileLayer (NameNumber 7) [1%Z] 1 1 1 true]
  /\ tiledTileLayers (snd r) <> tiledTileLayers initial_game
  /\ tiledRoadLayers (snd r) = tiledRoadLayers initial_game.
Proof.
  cbv zeta.
  assert (E : loadTiledMap_run (serving numeric_name_map) "map.json"
                initial_game
              = publishPending
                  (push_tileLayer
                     (mkTileLayer (NameNumber 7) [1%Z] 1 1 1 true)
                     no_pending)
                  (applyTilesets numeric_name_map [] []
                     (applyLaps numeric_name_map initial_game))).
  { unfold loadTiledMap_run, loadParsedMap.
    change (fetch (serving numeric_name_map) "map.json")
      with (ResponseJson numeric_name_map).
    cbv zeta.
    change (tilesetMetaList numeric_name_map) with (@nil TilesetMeta).
    cbn [loadTilesetImages m_layers numeric_name_map loadLayers l_type
         String.eqb Ascii.eqb Bool.eqb decodeLayerData l_data].
    unfold tileLayerOf, name_or_empty.
    cbn [l_name l_width l_height l_opacity l_visible ifield_or].
    rewrite (Reqb_false 7 0) by lra. reflexivity. }
  rewrite E. unfold publishPending. cbv zeta.
  cbn [newTiles newTileLayers push_tileLayer no_pending app].
  set (g0 := applyTilesets numeric_name_map [] []
               (applyLaps numeric_name_map initial_game)).
  change (tiledTileLayers
            (set_tiledTileLayers
               [mkTileLayer (NameNumber 7) [1%Z] 1 1 1 true] g0))
    with [mkTileLayer (NameNumber 7) [1%Z] 1 1 1 true].
  assert (Et : filter_named "road"
                 [mkTileLayer (NameNumber 7) [1%Z] 1 1 1 true] = Thrown).
  { cbn [filter_named]. unfold layer_named, name_or_empty.
    cbn [tl_name]. rewrite (Reqb_false 7 0) by lra. reflexivity. }
  rewrite Et. cbn [fst snd].
  split; [reflexivity |]. split; [reflexivity |].
  split; [discriminate | reflexivity].
Qed.

(** C1, as stated, fails: a map with five laps, an obstacle layer and a
    tile layer whose payload is not base64 makes [loadTiledMap] fail in its
    [catch], and the lap count, the obstacles and the map size it had
    already assigned stay changed. *)
Lemma C1_failed_load_keeps_partial_assignments :
  let r := loadTiledMap_run (serving broken_payload_map) "map.json"
             initial_game in
  fst r = Caught
  /\ raceLaps (snd r) <> raceLaps initial_game
  /\ obstacles (snd r) <> obstacles initial_game
  /\ tiledMapWidth (snd r) <> tiledMapWidth initial_game.
Proof.
  cbv zeta.
  destruct broken_payload_map_run as (Hf & Hl & Ho & Hw & _).
  cbv zeta in Hf, Hl, Ho, Hw.
  split; [exact Hf |]. split; [| split].
  - rewrite Hl. unfold Math_floor. rewrite (ZfloorZ 5).
    change (raceLaps initial_game) with 3%Z. lia.
  - intro E. rewrite E in Ho. discriminate Ho.
  - rewrite Hw. discriminate.
Qed.

(** C1, amended: [loadTiledMap] always returns; when the file cannot be
    fetched or its body is not a JSON document, the whole state is exactly
    as before the call; and on every call that does not run to its end,
    the road and ground layers, the AI spawn points and the AI
    checkpoints are exactly as before the call, and so are the tile
    sprites and the tile layers unless the call failed in the publishing
    step itself, on a tile layer whose name is not a string, which the
    tile layers then hold. *)
Theorem C1_load_failure_keeps_published_layers
    (env : Browser) (mapFile : string) (g : Game) :
  ((forall map, fetch env mapFile <> ResponseJson map) ->
   loadTiledMap env mapFile g = g
   /\ fst (loadTiledMap_run env mapFile g) <> Finished)
  /\ (fst (loadTiledMap_run env mapFile g) <> Finished ->
      let g' := loadTiledMap env mapFile g in
      tiledRoadLayers g' = tiledRoadLayers g
      /\ tiledGroundLayers g' = tiledGroundLayers g
      /\ aiSpawnPoints g' = aiSpawnPoints g
      /\ aiCheckpoints g' = aiCheckpoints g
      /\ ((tiledTrackTiles g' = tiledTrackTiles g
           /\ tiledTileLayers g' = tiledTileLayers g)
          \/ Exists nameThrows (tiledTileLayers g'))).
Proof.
  unfold loadTiledMap, loadTiledMap_run. split.
  - intro Hno. destruct (fetch env mapFile) as [| | | map];
      try (split; [reflexivity | discriminate]).
    exfalso. apply (Hno map). reflexivity.
  - cbv zeta. destruct (fetch env mapFile) as [| | | map];
      try (intros _; repeat split; try reflexivity; left; split;
           reflexivity).
    intro Hf.
    destruct (loadParsedMap_failure env map g Hf) as (_ & H). exact H.
Qed.

(** C1 for a file that cannot be fetched, for the map with the broken
    payload and for the map whose tile layer is named by a number. *)
Lemma C1_load_failure_witness :
  (loadTiledMap offline "map.json" initial_game = initial_game)
  /\ (let g' := loadTiledMap (serving broken_payload_map) "map.json"
                  initial_game in
      tiledTileLayers g' = tiledTileLayers initial_game
      /\ aiCheckpoints g' = aiCheckpoints initial_game)
  /\ (let g' := loadTiledMap (serving numeric_name_map) "map.json"
                  initial_game in
      tiledRoadLayers g' = tiledRoadLayers initial_game
      /\ Exists nameThrows (tiledTileLayers g')).
Proof.
  split; [| split].
  - apply (C1_load_failure_keeps_published_layers offline "map.json"
             initial_game).
    intros map. discriminate.
  - destruct (C1_load_failure_keeps_published_layers
                (serving broken_payload_map) "map.json" initial_game)
      as [_ Hfail].
    assert (Hf : fst (loadTiledMap_run (serving broken_payload_map)
                        "map.json" initial_game) <> Finished).
    { destruct broken_payload_map_run as (Hc & _). cbv zeta in Hc.
      rewrite Hc. discriminate. }
    destruct (Hfail Hf) as (_ & _ & _ & H6 & _).
    split; [| exact H6].
    destruct broken_payload_map_run as (_ & _ & _ & _ & Ht).
    cbv zeta in Ht. exact Ht.
  - destruct (C1_load_failure_keeps_published_layers
                (serving numeric_name_map) "map.json" initial_game)
      as [_ Hfail].
    assert (Hf : fst (loadTiledMap_run (serving numeric_name_map)
                        "map.json" initial_game) <> Finished).
    { destruct numeric_name_map_run as (Hc & _). cbv zeta in Hc.
      rewrite Hc. discriminate. }
    destruct (Hfail Hf) as (H3 & _ & _ & _ & [[_ Hsame] | Hthrows]).
    + exfalso. destruct numeric_name_map_run as (_ & _ & Hne & _).
      cbv zeta in Hne. apply Hne. exact Hsame.
    + split; [exact H3 | exact Hthrows].
Defined.

(** C8, as stated, fails: a map whose "laps" property is -5, not
    positive, does not keep the previous lap count 3: it sets the lap
    count to 1. *)
Lemma C8_negative_laps_overrides :
  let g := loadTiledMap (serving negative_laps_map) "map.json"
             initial_game in
  raceLaps initial_game = 3%Z /\ raceLaps g = 1%Z.
Proof.
  cbv zeta. split; [reflexivity |].
  change (raceLaps (snd (loadParsedMap (serving negative_laps_map)
                           negative_laps_map initial_game)) = 1%Z).
  rewrite loadParsedMap_raceLaps.
  change (lapsOverride negative_laps_map (raceLaps initial_game))
    with (Z.max 1 (Math_floor (-5))).
  unfold Math_floor. rewrite (ZfloorZ (-5)). reflexivity.
Qed.

(** C8, amended: the first map-level property named "laps" overrides the
    lap count whenever its value is a number, positive or not, and the lap
    count is then the floor of the value with a minimum of 1; when there
    is no such property, or its value is not a number, the lap count keeps
    its previous value. *)
Theorem C8_laps_property_overrides_when_numeric
    (env : Browser) (mapFile : string) (g : Game) (map : TiledMap) :
  fetch env mapFile = ResponseJson map ->
  let g' := loadTiledMap env mapFile g in
  (forall prop v,
      lapProp map = Some prop -> prop_value prop = PNum v ->
      raceLaps g' = Z.max 1 (Math_floor v) /\ (1 <= raceLaps g')%Z)
  /\ (forall prop,
         lapProp map = Some prop ->
         (forall v, prop_value prop <> PNum v) ->
         raceLaps g' = raceLaps g)
  /\ (lapProp map = None -> raceLaps g' = raceLaps g).
Proof.
  intro Hfetch. cbv zeta. unfold loadTiledMap, loadTiledMap_run.
  rewrite Hfetch, loadParsedMap_raceLaps. unfold lapsOverride.
  split; [| split].
  - intros prop v Hp Hv. rewrite Hp, Hv. split; [reflexivity | lia].
  - intros prop Hp Hv. rewrite Hp.
    destruct (prop_value prop) as [v | s | b]; try reflexivity.
    exfalso. apply (Hv v). reflexivity.
  - intros Hp. rewrite Hp. reflexivity.
Qed.

(** C8 on the map with five laps. *)
Lemma C8_laps_property_witness :
  let g' := loadTiledMap (serving broken_payload_map) "map.json"
              initial_game in
  fetch (serving broken_payload_map) "map.json"
  = ResponseJson broken_payload_map
  /\ lapProp broken_payload_map = Some (mkProperty "laps" (PNum 5))
  /\ raceLaps g' = Z.max 1 (Math_floor 5).
Proof.
  cbv zeta. split; [reflexivity |]. split; [reflexivity |].
  destruct (C8_laps_property_overrides_when_numeric
              (serving broken_payload_map) "map.json" initial_game
              broken_payload_map eq_refl) as [Hnum _].
  apply (Hnum (mkProperty "laps" (PNum 5)) 5); reflexivity.
Defined.

(* ================================================================== *)
(** * Further properties of the code *)
(* ================================================================== *)

(** ** [segmentIntersect] *)

Lemma Rleb_le (a b : R) : Rleb a b = true -> a <= b.
Proof. unfold Rleb. destruct (Rle_dec a b); [auto | discriminate]. Qed.

(** X1: [segmentIntersect] answers true exactly when the determinant of
    the two directions is not zero and the segments share a point; parallel
    or collinear segments, whose determinant is zero, are reported as not
    intersecting even when they overlap. *)
Theorem X1_segmentIntersect_characterised
    (x1 y1 x2 y2 x3 y3 x4 y4 : R) :
  (segmentIntersect x1 y1 x2 y2 x3 y3 x4 y4 = true <->
   crossDen x1 y1 x2 y2 x3 y3 x4 y4 <> 0
   /\ exists t u, meetAt x1 y1 x2 y2 x3 y3 x4 y4 t u)
  /\ (crossDen x1 y1 x2 y2 x3 y3 x4 y4 = 0 ->
      segmentIntersect x1 y1 x2 y2 x3 y3 x4 y4 = false).
Proof.
  unfold segmentIntersect, crossDen, meetAt, along. cbv zeta.
  set (den := (x1 - x2) * (y3 - y4) - (y1 - y2) * (x3 - x4)).
  set (nt := (x1 - x3) * (y3 - y4) - (y1 - y3) * (x3 - x4)).
  set (nu := (x1 - x2) * (y1 - y3) - (y1 - y2) * (x1 - x3)).
  split; [| intro Hz; rewrite (Reqb_true _ _ Hz); reflexivity].
  split.
  - intro H. unfold Reqb in H.
    destruct (Req_dec_T den 0) as [Hz | Hnz]; [discriminate |].
    apply andb_prop in H. destruct H as [H Hu1].
    apply andb_prop in H. destruct H as [H Hu0].
    apply andb_prop in H. destruct H as [Ht0 Ht1].
    apply Rleb_le in Ht0, Ht1, Hu0, Hu1.
    split; [exact Hnz |].
    exists (nt / den), (- nu / den).
    repeat split; try assumption.
    + unfold nt, nu, den. field. exact Hnz.
    + unfold nt, nu, den. field. exact Hnz.
  - intros [Hnz (t & u & [Ht0 Ht1] & [Hu0 Hu1] & Hx & Hy)].
    rewrite (Reqb_false _ _ Hnz).
    assert (Ex : x1 - x3 = t * (x1 - x2) - u * (x3 - x4)) by lra.
    assert (Ey : y1 - y3 = t * (y1 - y2) - u * (y3 - y4)) by lra.
    assert (Et : nt = t * den) by (unfold nt, den; rewrite Ex, Ey; ring).
    assert (Eu : - nu = u * den) by (unfold nu, den; rewrite Ex, Ey; ring).
    assert (Qt : nt / den = t) by (rewrite Et; field; exact Hnz).
    assert (Qu : - nu / den = u) by (rewrite Eu; field; exact Hnz).
    rewrite Qt, Qu.
    rewrite !Rleb_true by assumption. reflexivity.
Qed.

(** X1 on a vertical move across a horizontal segment. *)
Lemma X1_segmentIntersect_witness :
  crossDen 500 190 500 210 360 200 700 200 <> 0
  /\ meetAt 500 190 500 210 360 200 700 200 (1 / 2) (7 / 17)
  /\ segmentIntersect 500 190 500 210 360 200 700 200 = true
  /\ crossDen 0 0 10 0 5 0 15 0 = 0
  /\ segmentIntersect 0 0 10 0 5 0 15 0 = false.
Proof.
  assert (Hd : crossDen 500 190 500 210 360 200 700 200 <> 0)
    by (unfold crossDen; lra).
  assert (Hm : meetAt 500 190 500 210 360 200 700 200 (1 / 2) (7 / 17))
    by (unfold meetAt, along; lra).
  assert (Hz : crossDen 0 0 10 0 5 0 15 0 = 0) by (unfold crossDen; lra).
  split; [exact Hd |]. split; [exact Hm |]. split; [| split].
  - apply (X1_segmentIntersect_characterised 500 190 500 210 360 200 700 200).
    split; [exact Hd |]. exists (1 / 2), (7 / 17). exact Hm.
  - exact Hz.
  - apply (X1_segmentIntersect_characterised 0 0 10 0 5 0 15 0). exact Hz.
Defined.

(** ** Sorting, and the tileset of a global id *)

Lemma insert_by_perm {A : Type} (key : A -> Z) (x : A) (l : list A) :
  Permutation (insert_by key x l) (x :: l).
Proof.
  induction l as [| y r IH]; cbn [insert_by]; [apply Permutation_refl |].
  destruct (key x <=? key y)%Z; [apply Permutation_refl |].
  eapply Permutation_trans; [apply perm_skip, IH | apply perm_swap].
Qed.

Lemma sort_by_perm {A : Type} (key : A -> Z) (l : list A) :
  Permutation (sort_by key l) l.
Proof.
  induction l as [| x r IH]; cbn [sort_by]; [apply Permutation_refl |].
  eapply Permutation_trans; [apply insert_by_perm | apply perm_skip, IH].
Qed.

Lemma insert_by_ascending {A : Type} (key : A -> Z) (x : A) (l : list A) :
  ascending key l -> ascending key (insert_by key x l).
Proof.
  unfold ascending. induction l as [| y r IH]; intro Hs; cbn [insert_by].
  - constructor; constructor.
  - inversion Hs as [| ? ? Hr Hy]; subst.
    destruct (Z.leb_spec (key x) (key y)) as [Hle | Hgt].
    + constructor; [exact Hs |]. constructor; [exact Hle |].
      eapply Forall_impl; [| exact Hy]. cbn. intros. lia.
    + constructor; [apply IH, Hr |].
      apply (Permutation_Forall (Permutation_sym (insert_by_perm key x r))).
      constructor; [lia | exact Hy].
Qed.

Lemma sort_by_ascending {A : Type} (key : A -> Z) (l : list A) :
  ascending key (sort_by key l).
Proof.
  induction l as [| x r IH]; cbn [sort_by]; [constructor |].
  apply insert_by_ascending, IH.
Qed.



Lemma findTileset_ascending (gid : Z) (meta : list TilesetMeta) :
  forall chosen,
    ascending ts_firstgid meta ->
    (forall c, chosen = Some c ->
               (ts_firstgid c <= gid)%Z
               /\ Forall (fun ts => (ts_firstgid c <= ts_firstgid ts)%Z) meta) ->
    match findTileset meta gid chosen with
    | None =>
        chosen = None
        /\ Forall (fun ts => (gid < ts_firstgid ts)%Z) meta
    | Some ts =>
        (chosen = Some ts \/ In ts meta)
        /\ (ts_firstgid ts <= gid)%Z
        /\ Forall (fun ts' => (ts_firstgid ts' <= gid)%Z ->
                              (ts_firstgid ts' <= ts_firstgid ts)%Z) meta
    end.
Proof.
  unfold ascending.
  induction meta as [| ts rest IH]; intros chosen Hs Hc; cbn [findTileset].
  - destruct chosen as [c |]; [| split; constructor].
    destruct (Hc c eq_refl) as [Hle _].
    split; [left; reflexivity |]. split; [exact Hle | constructor].
  - inversion Hs as [| ? ? Hrest Hhd]; subst.
    destruct (Z.geb_spec gid (ts_firstgid ts)) as [Hge | Hlt].
    + specialize (IH (Some ts) Hrest).
      assert (Hinv : forall c, Some ts = Some c ->
                (ts_firstgid c <= gid)%Z
                /\ Forall (fun t => (ts_firstgid c <= ts_firstgid t)%Z) rest).
      { intros c E. injection E as <-. split; [lia | exact Hhd]. }
      specialize (IH Hinv).
      destruct (findTileset rest gid (Some ts)) as [r |].
      * destruct IH as (Hin & Hle & Hall).
        split; [right; destruct Hin as [E | Hin];
                [injection E as <-; left; reflexivity | right; exact Hin] |].
        split; [exact Hle |].
        constructor; [| exact Hall].
        intros _. destruct Hin as [E | Hin].
        -- injection E as <-. lia.
        -- rewrite Forall_forall in Hhd. apply Hhd, Hin.
      * destruct IH as [E _]. discriminate.
    + destruct chosen as [c |].
      * destruct (Hc c eq_refl) as [Hle Hall].
        split; [left; reflexivity |]. split; [exact Hle |].
        constructor; [intro; lia |].
        eapply Forall_impl; [| exact Hhd]. cbn. intros. lia.
      * split; [reflexivity |].
        constructor; [exact Hlt |].
        eapply Forall_impl; [| exact Hhd]. cbn. intros. lia.
Qed.

(** What the layer loop leaves alone: any reading of the state that the
    assignments of the loop do not change. *)
Section LayerLoopFrame.

Context {A : Type}.
Variable f : Game -> A.
Hypothesis f_hasMapObjects : forall v g, f (set_hasMapObjects v g) = f g.
Hypothesis f_car : forall v g, f (set_car v g) = f g.
Hypothesis f_startSpawn : forall v g, f (set_startSpawn v g) = f g.
Hypothesis f_trackPath : forall v g, f (set_trackPath v g) = f g.
Hypothesis f_trackWidth : forall v g, f (set_trackWidth v g) = f g.
Hypothesis f_obstacles : forall v g, f (set_obstacles v g) = f g.
Hypothesis f_hasMapObstacles : forall v g, f (set_hasMapObstacles v g) = f g.
Hypothesis f_checkpoints : forall v g, f (set_checkpoints v g) = f g.
Hypothesis f_hasMapCheckpoints :
  forall v g, f (set_hasMapCheckpoints v g) = f g.
Hypothesis f_currentCheckpoint :
  forall v g, f (set_currentCheckpoint v g) = f g.
Hypothesis f_lastCheckpointIndex :
  forall v g, f (set_lastCheckpointIndex v g) = f g.

Ltac frame :=
  repeat first
    [ rewrite f_hasMapObjects | rewrite f_car | rewrite f_startSpawn
    | rewrite f_trackPath | rewrite f_trackWidth | rewrite f_obstacles
    | rewrite f_hasMapObstacles | rewrite f_checkpoints
    | rewrite f_hasMapCheckpoints | rewrite f_currentCheckpoint
    | rewrite f_lastCheckpointIndex ];
  try reflexivity.

Variable env : Browser.
Variable meta : list TilesetMeta.
Variable images : list (Z * Img).

Lemma scanObject_keeps (st : ObjectScan) (obj : MapObject) :
  f (scan_game (scanObject meta images st obj)) = f (scan_game st).
Proof.
  unfold scanObject, scanTileObject, markFound. cbv zeta.
  repeat break_match; cbn [scan_game]; frame.
Qed.

Lemma scanObjects_keeps (objects : list MapObject) :
  forall st,
    f (scan_game (fold_left (scanObject meta images) objects st))
    = f (scan_game st).
Proof.
  induction objects as [| obj rest IH]; intro st; [reflexivity |].
  cbn [fold_left]. rewrite IH. apply scanObject_keeps.
Qed.

Lemma applyTrackObject_keeps (layerName : string)
    (objects : list MapObject) (g : Game) :
  f (applyTrackObject layerName objects g) = f g.
Proof.
  unfold applyTrackObject. cbv zeta. repeat break_match; frame.
Qed.

Lemma replaceLayerLists_keeps (st : ObjectScan) :
  f (fst (replaceLayerLists st)) = f (scan_game st).
Proof.
  unfold replaceLayerLists. cbv zeta.
  repeat break_match; cbn [fst]; frame.
Qed.

Lemma scanObjectLayer_keeps (layer : Layer) (g : Game) (p : Pending) :
  f (fst (scanObjectLayer meta images layer g p)) = f g.
Proof.
  unfold scanObjectLayer. cbv zeta.
  destruct (lowerCaseName (name_or_empty (l_name layer))) as [layerName |];
    [| reflexivity].
  cbn [fst].
  rewrite replaceLayerLists_keeps, scanObjects_keeps. cbn [scan_game].
  apply applyTrackObject_keeps.
Qed.

Lemma loadLayers_keeps (layers : list Layer) :
  forall g p, f (fst (loadLayers env meta images layers g p)) = f g.
Proof.
  induction layers as [| layer rest IH]; intros g p; [reflexivity |].
  cbn [loadLayers].
  destruct (String.eqb (l_type layer) "tilelayer").
  - destruct (decodeLayerData env layer) as [[[| id ids] |] |];
      try apply IH. reflexivity.
  - destruct (negb (String.eqb (l_type layer) "objectgroup"));
      [apply IH |].
    pose proof (scanObjectLayer_keeps layer g p) as Hs.
    destruct (scanObjectLayer meta images layer g p) as [g1 [p1 |]];
      cbn [fst] in Hs.
    + rewrite IH. exact Hs.
    + exact Hs.
Qed.

End LayerLoopFrame.

(** What a whole load leaves alone after the tileset part: any reading of
    the state unchanged by the assignments of the layer loop and of the
    publication. *)
Section AfterTilesetsFrame.

Context {A : Type}.
Variable f : Game -> A.
Hypothesis f_hasMapObjects : forall v g, f (set_hasMapObjects v g) = f g.
Hypothesis f_car : forall v g, f (set_car v g) = f g.
Hypothesis f_startSpawn : forall v g, f (set_startSpawn v g) = f g.
Hypothesis f_trackPath : forall v g, f (set_trackPath v g) = f g.
Hypothesis f_trackWidth : forall v g, f (set_trackWidth v g) = f g.
Hypothesis f_obstacles : forall v g, f (set_obstacles v g) = f g.
Hypothesis f_hasMapObstacles : forall v g, f (set_hasMapObstacles v g) = f g.
Hypothesis f_checkpoints : forall v g, f (set_checkpoints v g) = f g.
Hypothesis f_hasMapCheckpoints :
  forall v g, f (set_hasMapCheckpoints v g) = f g.
Hypothesis f_currentCheckpoint :
  forall v g, f (set_currentCheckpoint v g) = f g.
Hypothesis f_lastCheckpointIndex :
  forall v g, f (set_lastCheckpointIndex v g) = f g.
Hypothesis f_tiledTrackTiles : forall v g, f (set_tiledTrackTiles v g) = f g.
Hypothesis f_tiledTileLayers : forall v g, f (set_tiledTileLayers v g) = f g.
Hypothesis f_tiledRoadLayers : forall v g, f (set_tiledRoadLayers v g) = f g.
Hypothesis f_tiledGroundLayers :
  forall v g, f (set_tiledGroundLayers v g) = f g.
Hypothesis f_aiSpawnPoints : forall v g, f (set_aiSpawnPoints v g) = f g.
Hypothesis f_aiCheckpoints : forall v g, f (set_aiCheckpoints v g) = f g.

Lemma publishPending_keeps (p : Pending) (g : Game) :
  f (snd (publishPending p g)) = f g.
Proof.
  unfold publishPending. cbv zeta.
  repeat break_match; cbn [snd];
    repeat first
      [ rewrite f_obstacles | rewrite f_hasMapObstacles
      | rewrite f_checkpoints | rewrite f_hasMapCheckpoints
      | rewrite f_currentCheckpoint | rewrite f_lastCheckpointIndex
      | rewrite f_tiledTrackTiles | rewrite f_tiledTileLayers
      | rewrite f_tiledRoadLayers | rewrite f_tiledGroundLayers
      | rewrite f_aiSpawnPoints | rewrite f_aiCheckpoints ];
    reflexivity.
Qed.

Lemma loadParsedMap_keeps (env : Browser) (map : TiledMap) (g : Game) :
  f (snd (loadParsedMap env map g))
  = f (applyTilesets map (tilesetMetaList map)
         (loadTilesetImages env (tilesetMetaList map) [])
         (applyLaps map g)).
Proof.
  unfold loadParsedMap. cbv zeta.
  match goal with
  | |- context [loadLayers ?e ?m ?i ?ls ?g0 ?p0] =>
      pose proof (loadLayers_keeps f f_hasMapObjects f_car f_startSpawn
                    f_trackPath f_trackWidth f_obstacles f_hasMapObstacles
                    f_checkpoints f_hasMapCheckpoints f_currentCheckpoint
                    f_lastCheckpointIndex e m i ls g0 p0) as Hl;
      destruct (loadLayers e m i ls g0 p0) as [g2 [p |]]
  end; cbn [fst snd] in *.
  - rewrite publishPending_keeps. exact Hl.
  - exact Hl.
Qed.

End AfterTilesetsFrame.

Lemma ifield_or_nonzero (o : option Z) (b : Z) :
  b <> 0%Z -> ifield_or o b <> 0%Z.
Proof.
  intro Hb. destruct o as [v |]; cbn [ifield_or]; [| exact Hb].
  unfold int_or. destruct (Z.eqb_spec v 0); assumption.
Qed.

(** The widening loop ends on the largest of the map tile size and the
    tileset tile sizes. *)
Lemma widenTileSize_result (meta : list TilesetMeta) :
  forall g,
    let g' := fold_left widenTileSize meta g in
    ((tiledMapTileWidth g <= tiledMapTileWidth g')%Z
     /\ Forall (fun ts => (ts_tilewidth ts <= tiledMapTileWidth g')%Z) meta
     /\ (tiledMapTileWidth g' = tiledMapTileWidth g
         \/ Exists (fun ts => ts_tilewidth ts = tiledMapTileWidth g') meta))
    /\ ((tiledMapTileHeight g <= tiledMapTileHeight g')%Z
        /\ Forall (fun ts => (ts_tileheight ts <= tiledMapTileHeight g')%Z)
             meta
        /\ (tiledMapTileHeight g' = tiledMapTileHeight g
            \/ Exists (fun ts => ts_tileheight ts = tiledMapTileHeight g')
                 meta)).
Proof.
  induction meta as [| ts rest IH]; intro g; cbv zeta.
  - cbn [fold_left]. repeat split; try constructor; try lia;
      left; reflexivity.
  - cbn [fold_left]. specialize (IH (widenTileSize g ts)). cbv zeta in IH.
    set (g1 := widenTileSize g ts) in *.
    set (g' := fold_left widenTileSize rest g1) in *.
    assert (Hw : tiledMapTileWidth g1
                 = Z.max (tiledMapTileWidth g) (ts_tilewidth ts)).
    { unfold g1, widenTileSize. cbv zeta.
      destruct (Z.gtb_spec (ts_tilewidth ts) (tiledMapTileWidth g));
        gsimpl;
        match goal with
        | |- context [if ?c then _ else _] => destruct c
        end; gsimpl; lia. }
    assert (Hh : tiledMapTileHeight g1
                 = Z.max (tiledMapTileHeight g) (ts_tileheight ts)).
    { unfold g1, widenTileSize. cbv zeta.
      destruct (ts_tilewidth ts >? tiledMapTileWidth g)%Z;
        gsimpl;
        destruct (Z.gtb_spec (ts_tileheight ts) (tiledMapTileHeight g));
        gsimpl; lia. }
    destruct IH as [(W1 & W2 & W3) (H1 & H2 & H3)].
    split; (split; [lia | split]).
    + constructor; [lia | exact W2].
    + destruct W3 as [E | E]; [| right; apply Exists_cons_tl, E].
      destruct (Z.max_spec (tiledMapTileWidth g) (ts_tilewidth ts))
        as [[_ M] | [_ M]].
      * right. apply Exists_cons_hd. rewrite E, Hw, M. reflexivity.
      * left. rewrite E, Hw, M. reflexivity.
    + constructor; [lia | exact H2].
    + destruct H3 as [E | E]; [| right; apply Exists_cons_tl, E].
      destruct (Z.max_spec (tiledMapTileHeight g) (ts_tileheight ts))
        as [[_ M] | [_ M]].
      * right. apply Exists_cons_hd. rewrite E, Hh, M. reflexivity.
      * left. rewrite E, Hh, M. reflexivity.
Qed.

Section WidenFrame.

Context {A : Type}.
Variable f : Game -> A.
Hypothesis f_tileWidth : forall v g, f (set_tiledMapTileWidth v g) = f g.
Hypothesis f_tileHeight : forall v g, f (set_tiledMapTileHeight v g) = f g.

Lemma widenTileSize_keeps (meta : list TilesetMeta) :
  forall g, f (fold_left widenTileSize meta g) = f g.
Proof.
  induction meta as [| ts rest IH]; intro g; [reflexivity |].
  cbn [fold_left]. rewrite IH. unfold widenTileSize. cbv zeta.
  repeat break_match; rewrite ?f_tileHeight, ?f_tileWidth; reflexivity.
Qed.

End WidenFrame.

Lemma applyTilesets_grid (map : TiledMap) (meta : list TilesetMeta)
    (images : list (Z * Img)) (g : Game) :
  let g' := applyTilesets map meta images g in
  tiledTilesetMeta g' = meta
  /\ exists start,
       tiledMapTileWidth start = ifield_or (m_tilewidth map) 32
       /\ tiledMapTileHeight start = ifield_or (m_tileheight map) 32
       /\ tiledMapTileWidth g'
          = tiledMapTileWidth (fold_left widenTileSize meta start)
       /\ tiledMapTileHeight g'
          = tiledMapTileHeight (fold_left widenTileSize meta start).
Proof.
  cbv zeta. unfold applyTilesets. cbv zeta.
  match goal with
  | |- context [fold_left widenTileSize meta ?g0] =>
      set (start := g0);
      set (widened := fold_left widenTileSize meta start)
  end.
  assert (Hm : tiledTilesetMeta widened = meta).
  { unfold widened.
    rewrite (widenTileSize_keeps tiledTilesetMeta) by reflexivity.
    reflexivity. }
  split.
  - destruct (_ && _); gsimpl; exact Hm.
  - exists start. split; [reflexivity |]. split; [reflexivity |].
    destruct (_ && _); gsimpl; auto.
Qed.

(** X2: after a load that parsed its document, the published tileset
    descriptors are those of the document in ascending order of first gid,
    and a global id resolves to the descriptor with the greatest first gid
    that does not exceed it, or to none when it is below all of them. *)
Theorem X2_tilesets_sorted_and_resolved
    (env : Browser) (mapFile : string) (g : Game) (map : TiledMap)
    (gid : Z) :
  fetch env mapFile = ResponseJson map ->
  let g' := loadTiledMap env mapFile g in
  let described := List.map (tilesetMetaOf map) (tilesetsOf map) in
  Permutation (tiledTilesetMeta g') described
  /\ ascending ts_firstgid (tiledTilesetMeta g')
  /\ match tilesetOf g' gid with
     | None => Forall (fun ts => (gid < ts_firstgid ts)%Z) described
     | Some ts =>
         In ts described
         /\ (ts_firstgid ts <= gid)%Z
         /\ Forall (fun ts' => (ts_firstgid ts' <= gid)%Z ->
                               (ts_firstgid ts' <= ts_firstgid ts)%Z)
              described
     end.
Proof.
  intro Hfetch. cbv zeta. unfold tilesetOf, loadTiledMap, loadTiledMap_run.
  rewrite Hfetch.
  rewrite (loadParsedMap_keeps tiledTilesetMeta) by reflexivity.
  destruct (applyTilesets_grid map (tilesetMetaList map)
              (loadTilesetImages env (tilesetMetaList map) [])
              (applyLaps map g)) as (Hm & _).
  cbv zeta in Hm. rewrite Hm.
  assert (Hperm : Permutation (tilesetMetaList map)
                    (List.map (tilesetMetaOf map) (tilesetsOf map)))
    by apply sort_by_perm.
  assert (Hasc : ascending ts_firstgid (tilesetMetaList map))
    by apply sort_by_ascending.
  split; [exact Hperm |]. split; [exact Hasc |].
  assert (Hnone : forall c : TilesetMeta,
             None = Some c ->
             (ts_firstgid c <= gid)%Z
             /\ Forall (fun ts => (ts_firstgid c <= ts_firstgid ts)%Z)
                  (tilesetMetaList map))
    by (intros c E; discriminate).
  pose proof (findTileset_ascending gid (tilesetMetaList map) None Hasc
                Hnone) as Hfind.
  destruct (findTileset (tilesetMetaList map) gid None) as [ts |].
  - destruct Hfind as ([E | Hin] & Hle & Hall); [discriminate |].
    split; [apply (Permutation_in _ Hperm), Hin |].
    split; [exact Hle |].
    apply (Permutation_Forall Hperm), Hall.
  - destruct Hfind as [_ Hall].
    apply (Permutation_Forall Hperm), Hall.
Qed.

(** X2 on a document that lists its road tileset (first gid 100) before
    its grass tileset (first gid 1). *)
Lemma X2_tilesets_witness :
  let g' := loadTiledMap (serving two_tileset_map) "map.json"
              initial_game in
  fetch (serving two_tileset_map) "map.json" = ResponseJson two_tileset_map
  /\ List.map ts_firstgid (tiledTilesetMeta g') = [1; 100]%Z
  /\ ascending ts_firstgid (tiledTilesetMeta g')
  /\ option_map ts_name (tilesetOf g' 150) = Some "Road tiles"%string
  /\ option_map ts_name (tilesetOf g' 99) = Some "grass"%string
  /\ tilesetOf g' 0 = None.
Proof.
  cbv zeta. split; [reflexivity |]. split; [reflexivity |].
  split; [| repeat split; reflexivity].
  apply (X2_tilesets_sorted_and_resolved (serving two_tileset_map)
           "map.json" initial_game two_tileset_map 0 eq_refl).
Defined.

(** X3: after a load that parsed its document the map tile size is never
    zero, so the tile lookups never divide by zero; it is at least the
    tile size the document declares (32 when it declares none) and at
    least the tile size of every tileset. *)
Theorem X3_tile_size_after_load
    (env : Browser) (mapFile : string) (g : Game) (map : TiledMap) :
  fetch env mapFile = ResponseJson map ->
  let g' := loadTiledMap env mapFile g in
  tiledMapTileWidth g' <> 0%Z /\ tiledMapTileHeight g' <> 0%Z
  /\ (ifield_or (m_tilewidth map) 32 <= tiledMapTileWidth g')%Z
  /\ (ifield_or (m_tileheight map) 32 <= tiledMapTileHeight g')%Z
  /\ Forall (fun ts => (ts_tilewidth ts <= tiledMapTileWidth g')%Z
                       /\ (ts_tileheight ts <= tiledMapTileHeight g')%Z)
       (tiledTilesetMeta g').
Proof.
  intro Hfetch. cbv zeta. unfold loadTiledMap, loadTiledMap_run.
  rewrite Hfetch.
  rewrite (loadParsedMap_keeps tiledTilesetMeta) by reflexivity.
  rewrite (loadParsedMap_keeps tiledMapTileWidth) by reflexivity.
  rewrite (loadParsedMap_keeps tiledMapTileHeight) by reflexivity.
  set (meta := tilesetMetaList map).
  destruct (applyTilesets_grid map meta (loadTilesetImages env meta [])
              (applyLaps map g)) as (Hm & start & Sw & Sh & Ew & Eh).
  cbv zeta in Hm, Ew, Eh. rewrite Hm, Ew, Eh.
  destruct (widenTileSize_result meta start)
    as [(W1 & W2 & W3) (H1 & H2 & H3)].
  cbv zeta in W1, W2, W3, H1, H2, H3.
  rewrite Sw in W1, W3. rewrite Sh in H1, H3.
  assert (Bw : ifield_or (m_tilewidth map) 32 <> 0%Z)
    by (apply ifield_or_nonzero; discriminate).
  assert (Bh : ifield_or (m_tileheight map) 32 <> 0%Z)
    by (apply ifield_or_nonzero; discriminate).
  assert (Hts : Forall (fun ts => ts_tilewidth ts <> 0%Z
                                  /\ ts_tileheight ts <> 0%Z) meta).
  { unfold meta, tilesetMetaList.
    apply (Permutation_Forall
             (Permutation_sym (sort_by_perm ts_firstgid _))).
    apply Forall_forall. intros ts Hin. apply in_map_iff in Hin.
    destruct Hin as (tj & <- & _). cbn [tilesetMetaOf ts_tilewidth
                                           ts_tileheight].
    split; apply ifield_or_nonzero; assumption. }
  split; [| split; [| split; [exact W1 | split; [exact H1 |]]]].
  - destruct W3 as [E | E]; [rewrite E; exact Bw |].
    apply Exists_exists in E. destruct E as (ts & Hin & E).
    rewrite Forall_forall in Hts. rewrite <- E. apply (Hts ts Hin).
  - destruct H3 as [E | E]; [rewrite E; exact Bh |].
    apply Exists_exists in E. destruct E as (ts & Hin & E).
    rewrite Forall_forall in Hts. rewrite <- E. apply (Hts ts Hin).
  - rewrite Forall_forall in *. intros ts Hin. split; auto.
Qed.

(** X3 on the document with a 32-pixel map grid and a 64-pixel tileset. *)
Lemma X3_tile_size_witness :
  let g' := loadTiledMap (serving two_tileset_map) "map.json"
              initial_game in
  tiledMapTileWidth g' = 64%Z /\ tiledMapTileWidth g' <> 0%Z
  /\ worldWidth g' = 256%Z.
Proof.
  cbv zeta. split; [reflexivity |]. split; [| reflexivity].
  apply (X3_tile_size_after_load (serving two_tileset_map) "map.json"
           initial_game two_tileset_map eq_refl).
Defined.

(** X4: [loadTiledMap] never touches the race in progress: the lap, the
    last position, the AI cars, the start and countdown flags, and the
    track segments with their total length are as before the call, however
    the call ends.  In particular the segments are not rebuilt from the new
    track path: [sampleTrack] answers as before until
    [buildTrackSegments] runs. *)
Theorem X4_load_leaves_the_race_alone
    (env : Browser) (mapFile : string) (g : Game) :
  let g' := loadTiledMap env mapFile g in
  lap g' = lap g /\ lastX g' = lastX g /\ lastY g' = lastY g
  /\ aiCars g' = aiCars g
  /\ started g' = started g /\ countdownActive g' = countdownActive g
  /\ trackSegments g' = trackSegments g /\ trackLength g' = trackLength g
  /\ (forall t, sampleTrack g' t = sampleTrack g t).
Proof.
  cbv zeta.
  assert (H : forall {A : Type} (f : Game -> A),
             (forall map,
                 f (applyTilesets map (tilesetMetaList map)
                      (loadTilesetImages env (tilesetMetaList map) [])
                      (applyLaps map g)) = f g) ->
             (forall map, f (snd (loadParsedMap env map g))
                          = f (applyTilesets map (tilesetMetaList map)
                                 (loadTilesetImages env (tilesetMetaList map)
                                    [])
                                 (applyLaps map g))) ->
             f (loadTiledMap env mapFile g) = f g).
  { intros A f H1 H2. unfold loadTiledMap, loadTiledMap_run.
    destruct (fetch env mapFile) as [| | | map]; try reflexivity.
    rewrite H2. apply H1. }
  assert (T : forall {A : Type} (f : Game -> A),
             (forall v g0, f (set_raceLaps v g0) = f g0) ->
             (forall v g0, f (set_tiledTilesetMeta v g0) = f g0) ->
             (forall v g0, f (set_tiledTilesetImages v g0) = f g0) ->
             (forall v g0, f (set_tiledMapTileWidth v g0) = f g0) ->
             (forall v g0, f (set_tiledMapTileHeight v g0) = f g0) ->
             (forall v g0, f (set_tiledMapWidth v g0) = f g0) ->
             (forall v g0, f (set_tiledMapHeight v g0) = f g0) ->
             (forall v g0, f (set_worldWidth v g0) = f g0) ->
             (forall v g0, f (set_worldHeight v g0) = f g0) ->
             forall map meta images,
               f (applyTilesets map meta images (applyLaps map g)) = f g).
  { intros A f L M I TW TH MW MH WW WH map meta images.
    unfold applyTilesets. cbv zeta.
    destruct (_ && _); rewrite ?WH, ?WW;
      rewrite (widenTileSize_keeps f TW TH);
      rewrite MH, MW, TH, TW, I, M;
      unfold applyLaps; repeat break_match; rewrite ?L; reflexivity. }
  assert (Hsegs : trackSegments (loadTiledMap env mapFile g)
                  = trackSegments g).
  { apply H; [intro map; apply T; reflexivity |].
    intro map. apply loadParsedMap_keeps; reflexivity. }
  assert (Hlen : trackLength (loadTiledMap env mapFile g) = trackLength g).
  { apply H; [intro map; apply T; reflexivity |].
    intro map. apply loadParsedMap_keeps; reflexivity. }
  repeat split;
    try (apply H; [intro map; apply T; reflexivity |];
         intro map; apply loadParsedMap_keeps; reflexivity).
  intro t. unfold sampleTrack. rewrite Hsegs, Hlen. reflexivity.
Qed.

(** ** The lists an object layer replaces *)





(** ** One tick of the player's car *)

Lemma sin_cos_square (a k : R) :
  cos a * k * (cos a * k) + sin a * k * (sin a * k) = k * k.
Proof.
  pose proof (sin2_cos2 a) as H. unfold Rsqr in H.
  replace (cos a * k * (cos a * k) + sin a * k * (sin a * k))
    with ((sin a * sin a + cos a * cos a) * (k * k)) by ring.
  rewrite H. ring.
Qed.

Lemma drive_displacement (inp : Input) (dt : R) (g : Game) :
  Math_hypot (car_x (car (drive inp dt g)) - car_x (car g))
    (car_y (car (drive inp dt g)) - car_y (car g))
  = Rabs (car_speed (car (drive inp dt g))) * Rabs dt
  /\ Rabs (car_speed (car (drive inp dt g))) <= maxSpeed.
Proof.
  split.
  - rewrite drive_speed.
    set (v := driveSpeed _ _ _ _).
    change (car_x (car (drive inp dt g)))
      with (car_x (car g)
            + cos (driveAngle (steeringInput inp) dt v (car_angle (car g)))
              * v * dt).
    change (car_y (car (drive inp dt g)))
      with (car_y (car g)
            + sin (driveAngle (steeringInput inp) dt v (car_angle (car g)))
              * v * dt).
    set (a := driveAngle _ _ _ _).
    rewrite (hypot_of_square _ _ (v * dt)).
    + apply Rabs_mult.
    + replace (car_x (car g) + cos a * v * dt - car_x (car g))
        with (cos a * (v * dt)) by ring.
      replace (car_y (car g) + sin a * v * dt - car_y (car g))
        with (sin a * (v * dt)) by ring.
      apply sin_cos_square.
  - rewrite drive_speed.
    pose proof (driveSpeed_within
                  (getSurfaceAt g (car_x (car g)) (car_y (car g)))
                  (clamp (throttleInput inp) (-1) 1) dt (car_speed (car g)))
      as Hw.
    pose proof (maxSurfaceSpeed_range
                  (getSurfaceAt g (car_x (car g)) (car_y (car g)))) as Hm.
    apply Rabs_le. unfold speedWithin in Hw. lra.
Qed.

(** X6: the move of a tick starts from the position the car had, which is
    remembered in [lastX], [lastY], and its length is exactly
    [|speed| * |dt|] for the speed the tick settled on: at most
    [maxSpeed * |dt|]. *)
Theorem X6_drive_moves_by_speed_times_dt
    (inp : Input) (dt : R) (g : Game) :
  let g' := drive inp dt g in
  lastX g' = car_x (car g) /\ lastY g' = car_y (car g)
  /\ Math_hypot (car_x (car g') - lastX g') (car_y (car g') - lastY g')
     = Rabs (car_speed (car g')) * Rabs dt
  /\ Math_hypot (car_x (car g') - lastX g') (car_y (car g') - lastY g')
     <= maxSpeed * Rabs dt.
Proof.
  cbv zeta.
  destruct (drive_displacement inp dt g) as [Hlen Hmax].
  change (lastX (drive inp dt g)) with (car_x (car g)).
  change (lastY (drive inp dt g)) with (car_y (car g)).
  split; [reflexivity |]. split; [reflexivity |]. split; [exact Hlen |].
  rewrite Hlen. apply Rmult_le_compat_r; [apply Rabs_pos | exact Hmax].
Qed.

(** X7: steering turns the car only above the dead zone [|speed| > 5];
    above it the heading changes by [steering * dt] times a turn rate
    between 1.6 and 3.2 that grows with [|speed| / maxSpeed], in the
    opposite direction when the car reverses. *)
Theorem X7_steering_dead_zone_and_rate (steering dt speed angle : R) :
  (Rabs speed <= 5 -> driveAngle steering dt speed angle = angle)
  /\ (5 < Rabs speed ->
      exists rate,
        1.6 <= rate <= 3.2
        /\ rate = lerp 1.6 3.2 (clamp (Rabs speed / maxSpeed) 0 1)
        /\ (0 <= speed ->
            driveAngle steering dt speed angle
            = angle + steering * rate * dt)
        /\ (speed < 0 ->
            driveAngle steering dt speed angle
            = angle - steering * rate * dt))
  /\ Rabs (driveAngle steering dt speed angle - angle)
     <= 3.2 * Rabs steering * Rabs dt.
Proof.
  unfold driveAngle, Math_abs. cbv zeta.
  pose proof (clamp_bounds (Rabs speed / maxSpeed) 0 1) as Hc.
  assert (Hrate : 1.6 <= lerp 1.6 3.2 (clamp (Rabs speed / maxSpeed) 0 1)
                  <= 3.2) by (unfold lerp; lra).
  set (rate := lerp 1.6 3.2 (clamp (Rabs speed / maxSpeed) 0 1)) in *.
  split; [| split].
  - intro Hs. destruct (Rlt_dec 5 (Rabs speed)); [lra | reflexivity].
  - intro Hs. exists rate. split; [exact Hrate |]. split; [reflexivity |].
    destruct (Rlt_dec 5 (Rabs speed)); [| lra].
    split; intro Hv; destruct (Rle_dec 0 speed); try lra; ring.
  - destruct (Rlt_dec 5 (Rabs speed)).
    + replace (angle + steering * rate * dt
               * (if Rle_dec 0 speed then 1 else -1) - angle)
        with (steering * rate * dt * (if Rle_dec 0 speed then 1 else -1))
        by ring.
      rewrite !Rabs_mult.
      assert (Hsign : Rabs (if Rle_dec 0 speed then 1 else -1) = 1).
      { destruct (Rle_dec 0 speed);
          [apply Rabs_pos_eq; lra
          | rewrite Rabs_left by lra; lra]. }
      rewrite Hsign, (Rabs_pos_eq rate) by lra.
      pose proof (Rabs_pos steering). pose proof (Rabs_pos dt).
      assert (0 <= Rabs steering * Rabs dt) by nra. nra.
    + replace (angle - angle) with 0 by ring. rewrite Rabs_R0.
      pose proof (Rabs_pos steering). pose proof (Rabs_pos dt). nra.
Qed.

(** X7 at 100 units per second forward and at 2 units per second. *)
Lemma X7_steering_witness :
  driveAngle 1 (1 / 60) 2 0 = 0
  /\ 5 < Rabs 100
  /\ Rabs (driveAngle 1 (1 / 60) 100 0 - 0) <= 3.2 * Rabs 1 * Rabs (1 / 60).
Proof.
  destruct (X7_steering_dead_zone_and_rate 1 (1 / 60) 2 0) as (Hdead & _).
  destruct (X7_steering_dead_zone_and_rate 1 (1 / 60) 100 0)
    as (_ & _ & Hbound).
  split; [apply Hdead; rewrite Rabs_pos_eq; lra |].
  split; [rewrite Rabs_pos_eq; lra | exact Hbound].
Defined.

(** ** Angles *)

Lemma sqrt_one_plus_ratio (x y : R) :
  x <> 0 -> sqrt (1 + (y / x)²) = Math_hypot x y / Rabs x.
Proof.
  intro Hx.
  assert (Hax : 0 < Rabs x) by (apply Rabs_pos_lt, Hx).
  apply sqrt_lem_1.
  - unfold Rsqr. assert (0 <= y / x * (y / x)) by nra. lra.
  - apply Rmult_le_pos; [apply hypot_nonneg |].
    left. apply Rinv_0_lt_compat, Hax.
  - unfold Rdiv.
    replace (Math_hypot x y * / Rabs x * (Math_hypot x y * / Rabs x))
      with (Math_hypot x y * Math_hypot x y * / (Rabs x * Rabs x))
      by (field; lra).
    rewrite hypot_sqr.
    replace (Rabs x * Rabs x) with (x * x)
      by (rewrite <- Rabs_mult; symmetry; apply Rabs_pos_eq; nra).
    unfold Rsqr. field. exact Hx.
Qed.

Lemma hypot_positive (x y : R) : x <> 0 \/ y <> 0 -> 0 < Math_hypot x y.
Proof.
  intro H. pose proof (hypot_nonneg x y) as Hn.
  destruct (Req_dec_T (Math_hypot x y) 0) as [Hz | Hnz]; [| lra].
  assert (Hle : Math_hypot x y <= 0) by lra.
  apply hypot_zero_inv in Hle. destruct Hle, H; contradiction.
Qed.

(** [Math.atan2] gives the direction of [(x, y)]. *)
Lemma Math_atan2_direction (y x : R) :
  x <> 0 \/ y <> 0 ->
  cos (Math_atan2 y x) = x / Math_hypot x y
  /\ sin (Math_atan2 y x) = y / Math_hypot x y.
Proof.
  intro Hne. pose proof (hypot_positive x y Hne) as Hh.
  unfold Math_atan2.
  destruct (Rlt_dec 0 x) as [Hpos | Hnpos].
  - assert (Hx : x <> 0) by lra.
    rewrite cos_atan, sin_atan, (sqrt_one_plus_ratio x y Hx).
    rewrite (Rabs_pos_eq x) by lra. split; field; lra.
  - destruct (Rlt_dec x 0) as [Hneg | Hnneg].
    + assert (Hx : x <> 0) by lra.
      assert (Hc : cos (atan (y / x)) = - x / Math_hypot x y).
      { rewrite cos_atan, (sqrt_one_plus_ratio x y Hx).
        rewrite (Rabs_left x) by lra. field. lra. }
      assert (Hs : sin (atan (y / x)) = - y / Math_hypot x y).
      { rewrite sin_atan, (sqrt_one_plus_ratio x y Hx).
        rewrite (Rabs_left x) by lra. field. lra. }
      destruct (Rle_dec 0 y).
      * rewrite neg_cos, neg_sin, Hc, Hs. split; field; lra.
      * rewrite cos_minus, sin_minus, cos_PI, sin_PI, Hc, Hs.
        split; field; lra.
    + assert (Hx : x = 0) by lra. subst x.
      destruct Hne as [Hne | Hne]; [lra |].
      destruct (Rlt_dec 0 y) as [Hy | Hny].
      * rewrite cos_PI2, sin_PI2, (hypot_y_axis y) by lra.
        split; field; lra.
      * destruct (Rlt_dec y 0) as [Hy | Hy]; [| lra].
        rewrite cos_neg, sin_neg, cos_PI2, sin_PI2.
        assert (Hh' : Math_hypot 0 y = - y).
        { rewrite (hypot_of_square 0 y y) by ring. apply Rabs_left, Hy. }
        rewrite Hh'. split; field; lra.
Qed.

Lemma Math_atan2_range (y x : R) : - PI < Math_atan2 y x <= PI.
Proof.
  pose proof PI_RGT_0 as Hpi. unfold Math_atan2.
  pose proof (atan_bound (y / x)) as Hb.
  destruct (Rlt_dec 0 x); [lra |].
  destruct (Rlt_dec x 0) as [Hx |].
  - destruct (Rle_dec 0 y) as [Hy | Hy].
    + assert (Hq : y / x <= 0).
      { unfold Rdiv. assert (/ x < 0) by (apply Rinv_lt_0_compat, Hx). nra. }
      assert (atan (y / x) <= 0).
      { destruct Hq as [Hq | Hq].
        - left. rewrite <- atan_0. apply atan_increasing, Hq.
        - rewrite Hq, atan_0. lra. }
      lra.
    + assert (Hq : 0 < y / x).
      { unfold Rdiv. assert (/ x < 0) by (apply Rinv_lt_0_compat, Hx). nra. }
      assert (0 < atan (y / x))
        by (rewrite <- atan_0; apply atan_increasing, Hq).
      lra.
  - destruct (Rlt_dec 0 y); [lra |]. destruct (Rlt_dec y 0); lra.
Qed.

(** ** Respawn at a passed checkpoint *)

Lemma at_index_in_range {A : Type} (l : list A) (i : Z) :
  (0 <= i < length_Z l)%Z -> exists a, at_index l i = Some a.
Proof.
  intros [H0 Hlt]. unfold at_index, length_Z in *.
  destruct (Z.ltb_spec i 0); [lia |].
  destruct (nth_error l (Z.to_nat i)) as [a |] eqn:E; [eauto |].
  apply nth_error_None in E. lia.
Qed.

Lemma at_index_some_range {A : Type} (l : list A) (i : Z) (a : A) :
  at_index l i = Some a -> (0 <= i < length_Z l)%Z.
Proof.
  unfold at_index, length_Z. destruct (Z.ltb_spec i 0); [discriminate |].
  intro E. assert (Hs : nth_error l (Z.to_nat i) <> None) by congruence.
  apply nth_error_Some in Hs. lia.
Qed.

(** X8: a respawn at a checkpoint the list holds puts the car 30 units
    from the midpoint of that checkpoint, on the normal [(dy, -dx)] of its
    segment, stopped, with [lastX], [lastY] at the new position, and turns
    it towards the midpoint of the checkpoint that follows in the list
    (the first one after the last). *)
Theorem X8_respawn_behind_passed_checkpoint
    (g : Game) (index : Z) (cp : Checkpoint) :
  at_index (checkpoints g) index = Some cp ->
  let g' := respawnToCheckpoint index g in
  let mx := (cp_x1 cp + cp_x2 cp) / 2 in
  let my := (cp_y1 cp + cp_y2 cp) / 2 in
  let dx := cp_x2 cp - cp_x1 cp in
  let dy := cp_y2 cp - cp_y1 cp in
  Math_hypot (car_x (car g') - mx) (car_y (car g') - my) = 30
  /\ car_speed (car g') = 0
  /\ lastX g' = car_x (car g') /\ lastY g' = car_y (car g')
  /\ (dx <> 0 \/ dy <> 0 ->
      car_x (car g') = mx + 30 * dy / Math_hypot dx dy
      /\ car_y (car g') = my - 30 * dx / Math_hypot dx dy)
  /\ exists next,
       at_index (checkpoints g)
         (Z.rem (index + 1) (length_Z (checkpoints g))) = Some next
       /\ let nx := (cp_x1 next + cp_x2 next) / 2 - car_x (car g') in
          let ny := (cp_y1 next + cp_y2 next) / 2 - car_y (car g') in
          (nx <> 0 \/ ny <> 0 ->
           cos (car_angle (car g')) = nx / Math_hypot nx ny
           /\ sin (car_angle (car g')) = ny / Math_hypot nx ny).
Proof.
  intro Hat. cbv zeta.
  pose proof (at_index_some_range _ _ _ Hat) as Hrange.
  assert (Hrem : (0 <= Z.rem (index + 1) (length_Z (checkpoints g))
                  < length_Z (checkpoints g))%Z).
  { rewrite Z.rem_mod_nonneg by lia. apply Z.mod_pos_bound. lia. }
  destruct (at_index_in_range _ _ Hrem) as [next Hnext].
  set (a := Math_atan2 (cp_y2 cp - cp_y1 cp) (cp_x2 cp - cp_x1 cp) + PI / 2).
  assert (Hx : car_x (car (respawnToCheckpoint index g))
               = (cp_x1 cp + cp_x2 cp) / 2 - cos a * 30).
  { unfold respawnToCheckpoint, getCheckpointSpawn.
    destruct (Z.geb_spec index 0); [| lia]. rewrite Hat. cbv zeta.
    repeat break_match; reflexivity. }
  assert (Hy : car_y (car (respawnToCheckpoint index g))
               = (cp_y1 cp + cp_y2 cp) / 2 - sin a * 30).
  { unfold respawnToCheckpoint, getCheckpointSpawn.
    destruct (Z.geb_spec index 0); [| lia]. rewrite Hat. cbv zeta.
    repeat break_match; reflexivity. }
  assert (Ha : car_angle (car (respawnToCheckpoint index g))
               = Math_atan2
                   ((cp_y1 next + cp_y2 next) / 2
                    - car_y (car (respawnToCheckpoint index g)))
                   ((cp_x1 next + cp_x2 next) / 2
                    - car_x (car (respawnToCheckpoint index g)))).
  { rewrite Hx, Hy. unfold respawnToCheckpoint, getCheckpointSpawn.
    destruct (Z.geb_spec index 0); [| lia]. rewrite Hat. cbv zeta.
    destruct (Z.eqb_spec (length_Z (checkpoints g)) 0); [lia |].
    cbn [andb negb]. rewrite Hnext. reflexivity. }
  split; [| split; [reflexivity | split; [reflexivity
                                         | split; [reflexivity | split]]]].
  - rewrite Hx, Hy.
    replace ((cp_x1 cp + cp_x2 cp) / 2 - cos a * 30
             - (cp_x1 cp + cp_x2 cp) / 2) with (cos a * (- 30)) by lra.
    replace ((cp_y1 cp + cp_y2 cp) / 2 - sin a * 30
             - (cp_y1 cp + cp_y2 cp) / 2) with (sin a * (- 30)) by lra.
    rewrite (hypot_of_square _ _ (- 30) (sin_cos_square a (- 30))).
    rewrite Rabs_left by lra. ring.
  - intro Hne. rewrite Hx, Hy.
    destruct (Math_atan2_direction _ _ Hne) as [Hc Hs].
    pose proof (hypot_positive _ _ Hne) as Hh.
    unfold a. rewrite cos_plus, sin_plus, cos_PI2, sin_PI2, Hc, Hs.
    split; field; lra.
  - exists next. split; [exact Hnext |]. cbv zeta. intro Hne.
    rewrite Ha. apply Math_atan2_direction, Hne.
Qed.

(** X8 at the first declared checkpoint, the vertical segment
    (260,260)-(260,500): the car lands at (290,380). *)
Lemma X8_respawn_witness :
  let g' := respawnToCheckpoint 0 initial_game in
  at_index (checkpoints initial_game) 0
  = Some (mkCheckpoint 260 260 260 500)
  /\ car_x (car g') = 290 /\ car_y (car g') = 380
  /\ car_speed (car g') = 0.
Proof.
  cbv zeta.
  destruct (X8_respawn_behind_passed_checkpoint initial_game 0
              (mkCheckpoint 260 260 260 500) eq_refl)
    as (_ & Hs & _ & _ & Hpos & _).
  cbn [cp_x1 cp_x2 cp_y1 cp_y2] in Hpos.
  assert (Hh : Math_hypot (260 - 260) (500 - 260) = 240).
  { replace (260 - 260) with 0 by ring. replace (500 - 260) with 240 by ring.
    apply hypot_y_axis. lra. }
  destruct Hpos as [Hx Hy]; [right; lra |].
  rewrite Hh in Hx, Hy.
  split; [reflexivity |]. split; [rewrite Hx; lra |].
  split; [rewrite Hy; lra | exact Hs].
Defined.

(** ** What a tick of [updatePhysics] leaves alone *)

Section PhysicsFrame.

Context {A : Type}.
Variable f : Game -> A.
Hypothesis f_car : forall v g, f (set_car v g) = f g.
Hypothesis f_lastX : forall v g, f (set_lastX v g) = f g.
Hypothesis f_lastY : forall v g, f (set_lastY v g) = f g.
Hypothesis f_currentCheckpoint :
  forall v g, f (set_currentCheckpoint v g) = f g.
Hypothesis f_lastCheckpointIndex :
  forall v g, f (set_lastCheckpointIndex v g) = f g.
Hypothesis f_lap : forall v g, f (set_lap v g) = f g.

Lemma drive_keeps (inp : Input) (dt : R) (g : Game) :
  f (drive inp dt g) = f g.
Proof. unfold drive. cbv zeta. rewrite f_car, f_lastY, f_lastX. reflexivity. Qed.

Lemma collide_keeps_reading (g : Game) : f (collide g) = f g.
Proof. unfold collide. cbv zeta. apply f_car. Qed.

Lemma respawnToCheckpoint_keeps (index : Z) (g : Game) :
  f (respawnToCheckpoint index g) = f g.
Proof.
  unfold respawnToCheckpoint. cbv zeta.
  rewrite f_lastY, f_lastX, f_car. reflexivity.
Qed.

Lemma trackCheckpoints_keeps (g : Game) : f (trackCheckpoints g) = f g.
Proof.
  unfold trackCheckpoints, applyCrossing. cbv zeta.
  repeat break_match;
    rewrite ?respawnToCheckpoint_keeps, ?f_lap, ?f_currentCheckpoint,
      ?f_lastCheckpointIndex;
    reflexivity.
Qed.

Lemma updatePhysics_keeps (inp : Input) (dt : R) (g : Game) :
  f (updatePhysics inp dt g) = f g.
Proof.
  unfold updatePhysics. destruct (_ || _); [reflexivity |].
  rewrite trackCheckpoints_keeps, collide_keeps_reading. apply drive_keeps.
Qed.

End PhysicsFrame.

Lemma pushCar_radius (push : Pt) (k : R) (c : Car) :
  car_radius (pushCar push k c) = car_radius c
  /\ car_angle (pushCar push k c) = car_angle c.
Proof. split; reflexivity. Qed.

Lemma collide_radius_heading (g : Game) :
  car_radius (car (collide g)) = car_radius (car g)
  /\ car_angle (car (collide g)) = car_angle (car g).
Proof.
  unfold collide. cbv zeta. change (car (set_car ?c g)) with c.
  assert (Hobs : forall bodies st,
             car_radius (fst (fold_left collideObstacle bodies st))
             = car_radius (fst st)
             /\ car_angle (fst (fold_left collideObstacle bodies st))
                = car_angle (fst st)).
  { induction bodies as [| o r IH]; intro st; [split; reflexivity |].
    cbn [fold_left]. destruct (IH (collideObstacle st o)) as [-> ->].
    unfold collideObstacle. destruct o; break_match; split; reflexivity. }
  assert (Hai : forall cars st,
             car_radius (fst (fold_left (collideAICar g) cars st))
             = car_radius (fst st)
             /\ car_angle (fst (fold_left (collideAICar g) cars st))
                = car_angle (fst st)).
  { induction cars as [| o r IH]; intro st; [split; reflexivity |].
    cbn [fold_left]. destruct (IH (collideAICar g st o)) as [-> ->].
    unfold collideAICar. repeat break_match; split; reflexivity. }
  destruct (Hai (aiCars g)
              (fold_left collideObstacle (obstacles g) (car g, false)))
    as [-> ->].
  apply Hobs.
Qed.

(** X9: a tick of [updatePhysics] changes nothing but the car, the last
    position, the checkpoint progress and the lap: obstacles, checkpoints,
    track path and segments, tile layers and tilesets, AI cars, lap target,
    start pose and the start and countdown flags are as before, and so is
    the radius of the car. *)
Theorem X9_tick_leaves_the_track_alone
    (inp : Input) (dt : R) (g : Game) :
  let g' := updatePhysics inp dt g in
  obstacles g' = obstacles g /\ checkpoints g' = checkpoints g
  /\ trackPath g' = trackPath g /\ trackWidth g' = trackWidth g
  /\ trackSegments g' = trackSegments g /\ trackLength g' = trackLength g
  /\ tiledTileLayers g' = tiledTileLayers g
  /\ tiledRoadLayers g' = tiledRoadLayers g
  /\ tiledGroundLayers g' = tiledGroundLayers g
  /\ tiledTilesetMeta g' = tiledTilesetMeta g
  /\ tiledMapTileWidth g' = tiledMapTileWidth g
  /\ tiledMapTileHeight g' = tiledMapTileHeight g
  /\ tiledMapWidth g' = tiledMapWidth g
  /\ tiledMapHeight g' = tiledMapHeight g
  /\ aiCars g' = aiCars g /\ aiCheckpoints g' = aiCheckpoints g
  /\ raceLaps g' = raceLaps g /\ startSpawn g' = startSpawn g
  /\ started g' = started g /\ countdownActive g' = countdownActive g
  /\ car_radius (car g') = car_radius (car g).
Proof.
  cbv zeta.
  repeat (split; [apply updatePhysics_keeps; reflexivity |]).
  unfold updatePhysics. destruct (_ || _); [reflexivity |].
  assert (Ht : car_radius (car (trackCheckpoints
                                  (collide (drive inp dt g))))
               = car_radius (car (collide (drive inp dt g)))).
  { unfold trackCheckpoints, applyCrossing, respawnToCheckpoint. cbv zeta.
    repeat break_match; reflexivity. }
  rewrite Ht. destruct (collide_radius_heading (drive inp dt g)) as [-> _].
  reflexivity.
Qed.

(** ** Layer payloads *)

Lemma list_ind4 {A : Type} (P : list A -> Prop) :
  P [] -> (forall a, P [a]) -> (forall a b, P [a; b]) ->
  (forall a b c, P [a; b; c]) ->
  (forall a b c d rest, P rest -> P (a :: b :: c :: d :: rest)) ->
  forall l, P l.
Proof.
  intros H0 H1 H2 H3 H4.
  refine (fix F (l : list A) : P l :=
            match l with
            | a :: b :: c :: d :: rest => H4 a b c d rest (F rest)
            | [a; b; c] => H3 a b c
            | [a; b] => H2 a b
            | [a] => H1 a
            | [] => H0
            end).
Qed.

(** X10: the [DataView] loop of [decodeLayerData] yields one word for
    every four bytes and drops up to three trailing bytes; the words of
    bytes are 32-bit unsigned; and it reads the words back from their
    little-endian bytes. *)
Theorem X10_readUint32s_little_endian :
  (forall bytes,
      List.length (readUint32s bytes) = (List.length bytes / 4)%nat)
  /\ (forall bytes,
         Forall is_byte bytes -> Forall is_uint32 (readUint32s bytes))
  /\ (forall words tail,
         Forall is_uint32 words -> (List.length tail < 4)%nat ->
         readUint32s (flat_map uint32_bytes words ++ tail) = words).
Proof.
  split; [| split].
  - intro bytes. induction bytes as [| a | a b | a b c | a b c d rest IH]
      using list_ind4; try reflexivity.
    cbn [readUint32s List.length]. rewrite IH.
    change (S (S (S (S (List.length rest)))))
      with (4 + List.length rest)%nat.
    replace (4 + List.length rest)%nat
      with (List.length rest + 1 * 4)%nat by lia.
    rewrite Nat.div_add by lia. lia.
  - intro bytes. induction bytes as [| a | a b | a b c | a b c d rest IH]
      using list_ind4; intro Hb; try constructor.
    + inversion Hb as [| ? ? Ha Hb1]; subst.
      inversion Hb1 as [| ? ? Hb' Hb2]; subst.
      inversion Hb2 as [| ? ? Hc Hb3]; subst.
      inversion Hb3 as [| ? ? Hd Hb4]; subst.
      unfold is_byte, is_uint32 in *. lia.
    + apply IH.
      inversion Hb as [| ? ? _ Hb1]; subst.
      inversion Hb1 as [| ? ? _ Hb2]; subst.
      inversion Hb2 as [| ? ? _ Hb3]; subst.
      inversion Hb3 as [| ? ? _ Hb4]; subst. exact Hb4.
  - intros words tail Hw Ht. induction Hw as [| w ws Hw _ IH].
    + cbn [flat_map app].
      destruct tail as [| a [| b [| c [| d r]]]]; try reflexivity.
      cbn [List.length] in Ht. lia.
    + cbn [flat_map uint32_bytes app readUint32s]. rewrite IH. f_equal.
      unfold is_uint32 in Hw.
      Z.div_mod_to_equations. lia.
Qed.

(** X10 on the eight bytes of the words 1 and 258, followed by one stray
    byte. *)
Lemma X10_readUint32s_witness :
  Forall is_uint32 [1; 258]%Z
  /\ flat_map uint32_bytes [1; 258]%Z = [1; 0; 0; 0; 2; 1; 0; 0]%Z
  /\ readUint32s ([1; 0; 0; 0; 2; 1; 0; 0] ++ [7])%Z = [1; 258]%Z.
Proof.
  assert (Hw : Forall is_uint32 [1; 258]%Z)
    by (repeat constructor; unfold is_uint32; lia).
  split; [exact Hw |]. split; [reflexivity |].
  destruct X10_readUint32s_little_endian as (_ & _ & Hround).
  apply (Hround [1; 258]%Z [7%Z] Hw). cbn. lia.
Defined.

(** X11: a tile layer whose payload cannot be used is skipped, not fatal:
    when [decodeLayerData] answers null or an empty array the rest of the
    layers load as if the layer were absent.  That is the case of a
    missing payload, of an encoding other than base64, and of a compressed
    base64 payload in a browser without [DecompressionStream]. *)
Theorem X11_unusable_tile_layer_is_skipped
    (env : Browser) (meta : list TilesetMeta) (images : list (Z * Img))
    (layer : Layer) (rest : list Layer) (g : Game) (p : Pending) :
  l_type layer = "tilelayer"%string ->
  (decodeLayerData env layer = Ok None
   \/ decodeLayerData env layer = Ok (Some []) ->
   loadLayers env meta images (layer :: rest) g p
   = loadLayers env meta images rest g p)
  /\ (l_data layer = DataAbsent -> decodeLayerData env layer = Ok None)
  /\ (forall data,
         l_data layer = DataString data ->
         l_encoding layer <> Some "base64"%string ->
         decodeLayerData env layer = Ok None)
  /\ (forall data compression bytes,
         l_data layer = DataString data ->
         l_encoding layer = Some "base64"%string ->
         l_compression layer = Some compression ->
         compression <> ""%string ->
         atob env data = Some bytes ->
         hasDecompressionStream env = false ->
         decodeLayerData env layer = Ok None).
Proof.
  intro Htype. split; [| split; [| split]].
  - intro Hd. cbn [loadLayers]. rewrite Htype. cbn [String.eqb Ascii.eqb].
    change (String.eqb "tilelayer" "tilelayer") with true. cbv iota.
    destruct Hd as [-> | ->]; reflexivity.
  - intro Hd. unfold decodeLayerData. rewrite Hd. reflexivity.
  - intros data Hd He. unfold decodeLayerData. rewrite Hd.
    destruct (is_empty data); [reflexivity |]. cbn [orb].
    destruct (l_encoding layer) as [e |]; [| reflexivity].
    destruct (String.eqb_spec e "base64"); [| reflexivity].
    subst e. contradiction.
  - intros data compression bytes Hd He Hc Hne Ha Hs.
    unfold decodeLayerData, base64ToBytes. rewrite Hd, He, Hc, Ha, Hs.
    destruct (is_empty data); [reflexivity |].
    cbn [orb negb String.eqb].
    change (String.eqb "base64" "base64") with true. cbn [negb].
    destruct compression; [contradiction | reflexivity].
Qed.

(** X11 on a zlib-compressed layer in a browser without
    [DecompressionStream]. *)
Lemma X11_unusable_tile_layer_witness :
  l_type compressed_layer = "tilelayer"%string
  /\ decodeLayerData offline compressed_layer = Ok None
  /\ loadLayers offline [] [] [compressed_layer] initial_game no_pending
     = (initial_game, Ok no_pending).
Proof.
  destruct (X11_unusable_tile_layer_is_skipped offline [] []
              compressed_layer [] initial_game no_pending eq_refl)
    as (Hskip & _ & _ & Hzip).
  assert (Hd : decodeLayerData offline compressed_layer = Ok None).
  { apply (Hzip "AQAAAA=="%string "zlib"%string [1; 0; 0; 0]%Z);
      try reflexivity. discriminate. }
  split; [reflexivity |]. split; [exact Hd |].
  rewrite (Hskip (or_introl Hd)). reflexivity.
Defined.

(** ** Global ids and flip flags *)

Lemma land_high_mask (x : Z) :
  Z.land x (-2147483648) = (x / 2147483648 * 2147483648)%Z.
Proof.
  change (-2147483648)%Z with (Z.lnot (Z.ones 31)).
  rewrite <- Z.ldiff_land, Z.ldiff_ones_r by lia.
  rewrite Z.shiftl_mul_pow2, Z.shiftr_div_pow2 by lia. reflexivity.
Qed.

Lemma land_bit_mask (x hi lo : Z) :
  (0 <= lo)%Z -> (0 <= hi)%Z ->
  Z.land x (Z.land (Z.ones hi) (Z.lnot (Z.ones lo)))
  = ((x mod 2 ^ hi) / 2 ^ lo * 2 ^ lo)%Z.
Proof.
  intros Hlo Hhi.
  rewrite Z.land_assoc, Z.land_ones by lia.
  rewrite <- Z.ldiff_land, Z.ldiff_ones_r by lia.
  rewrite Z.shiftl_mul_pow2, Z.shiftr_div_pow2 by lia. reflexivity.
Qed.

Lemma gid_mask (raw : Z) :
  bit_and raw (bit_not (bit_or (bit_or FLIP_H FLIP_V) FLIP_D))
  = (raw mod 536870912)%Z.
Proof.
  change (bit_not (bit_or (bit_or FLIP_H FLIP_V) FLIP_D))
    with 536870911%Z.
  unfold bit_and.
  change (toInt32 536870911) with (Z.ones 29).
  rewrite Z.land_ones by lia. unfold toInt32.
  change (2 ^ 29)%Z with 536870912%Z.
  Z.div_mod_to_equations. lia.
Qed.

Lemma flip_bits (gid : Z) (flipH flipV flipD : bool) :
  (0 <= gid < 536870912)%Z ->
  let raw := rawGidOf gid flipH flipV flipD in
  negb (bit_and raw FLIP_H =? 0)%Z = flipH
  /\ negb (bit_and raw FLIP_V =? 0)%Z = flipV
  /\ negb (bit_and raw FLIP_D =? 0)%Z = flipD
  /\ bit_and raw (bit_not (bit_or (bit_or FLIP_H FLIP_V) FLIP_D)) = gid.
Proof.
  intros Hg raw. subst raw. rewrite gid_mask. unfold bit_and.
  change (toInt32 FLIP_H) with (-2147483648)%Z.
  change (toInt32 FLIP_V)
    with (Z.land (Z.ones 31) (Z.lnot (Z.ones 30))).
  change (toInt32 FLIP_D)
    with (Z.land (Z.ones 30) (Z.lnot (Z.ones 29))).
  rewrite land_high_mask, !land_bit_mask by lia.
  change (2 ^ 31)%Z with 2147483648%Z.
  change (2 ^ 30)%Z with 1073741824%Z.
  change (2 ^ 29)%Z with 536870912%Z.
  unfold toInt32, rawGidOf, FLIP_H, FLIP_V, FLIP_D.
  repeat split; destruct flipH, flipV, flipD;
    match goal with
    | |- negb (?a =? 0)%Z = true =>
        destruct (Z.eqb_spec a 0) as [E | E]; [exfalso | reflexivity]
    | |- negb (?a =? 0)%Z = false =>
        destruct (Z.eqb_spec a 0) as [E | E]; [reflexivity | exfalso]
    | |- _ => idtac
    end;
    Z.div_mod_to_equations; lia.
Qed.

(** X12: a raw global id is a tile id below 2^29 plus the three flip
    flags in its top bits.  The tile-object scan reads the flags back
    and [getSurfaceFromGid] classifies a flipped tile as the unflipped
    one; in general the surface depends on the raw id modulo 2^29
    only. *)
Theorem X12_flip_flags_do_not_change_the_surface
    (g : Game) (gid : Z) (flipH flipV flipD : bool)
    (Hgid : (0 <= gid < 536870912)%Z) :
  getSurfaceFromGid g (rawGidOf gid flipH flipV flipD)
  = getSurfaceFromGid g gid
  /\ (forall raw,
         getSurfaceFromGid g raw = getSurfaceFromGid g (raw mod 536870912))
  /\ (forall meta images obj st ts img,
         findTileset meta gid None = Some ts ->
         map_get (ts_firstgid ts) images = Some img ->
         exists tile,
           newTiles (scan_pending
                       (scanTileObject meta images obj
                          (rawGidOf gid flipH flipV flipD) st))
           = newTiles (scan_pending st) ++ [tile]
           /\ spr_flipH tile = flipH /\ spr_flipV tile = flipV
           /\ spr_flipD tile = flipD /\ spr_img tile = img).
Proof.
  assert (Hmod : forall raw,
             getSurfaceFromGid g raw
             = getSurfaceFromGid g (raw mod 536870912)).
  { intro raw. unfold getSurfaceFromGid. rewrite !gid_mask.
    rewrite Z.mod_mod by lia. reflexivity. }
  destruct (flip_bits gid flipH flipV flipD Hgid) as (FH & FV & FD & FG).
  split; [| split].
  - rewrite Hmod. rewrite (Hmod gid). f_equal.
    rewrite <- !gid_mask. rewrite FG. rewrite gid_mask.
    symmetry. apply Z.mod_small. exact Hgid.
  - exact Hmod.
  - intros meta images obj st ts img Hts Himg.
    unfold scanTileObject. rewrite FH, FV, FD, FG, Hts, Himg.
    eexists. cbn [scan_pending newTiles]. split; [reflexivity |].
    cbn [spr_flipH spr_flipV spr_flipD spr_img]. repeat split.
Qed.

(** X12 on tile 5 flipped horizontally and diagonally. *)
Lemma X12_flip_flags_witness :
  rawGidOf 5 true false true = 2684354565%Z
  /\ getSurfaceFromGid initial_game 2684354565
     = getSurfaceFromGid initial_game 5.
Proof.
  split; [reflexivity |].
  change 2684354565%Z with (rawGidOf 5 true false true).
  apply (X12_flip_flags_do_not_change_the_surface initial_game 5
           true false true). lia.
Defined.

(** ** Stacked tile layers *)

Lemma getTileAt_loop_nothing (tx ty : Z) (ls rest : list TileLayer) :
  Forall (showsNothingAt tx ty) ls ->
  getTileAt_loop (ls ++ rest) tx ty = getTileAt_loop rest tx ty.
Proof.
  induction 1 as [| l ls Hl _ IH]; [reflexivity |].
  cbn [app getTileAt_loop].
  destruct Hl as [Hv | Hz].
  - rewrite Hv. exact IH.
  - rewrite Hz. destruct (tl_visible l); exact IH.
Qed.

Lemma getTileAt_inside (g : Game) (layers : list TileLayer) (x y : R) :
  insideGrid g layers x y ->
  getTileAt g layers x y
  = getTileAt_loop (rev layers) (tileColumn g x) (tileRow g y).
Proof.
  intros (Hw & Hh & Hx & Hy). unfold getTileAt.
  destruct layers as [| l0 rest]; [reflexivity |].
  fold (tileColumn g x). fold (tileRow g y).
  cbv zeta.
  destruct (Z.leb_spec (tiledMapTileWidth g) 0); [lia |].
  destruct (Z.leb_spec (tiledMapTileHeight g) 0); [lia |].
  destruct (Z.ltb_spec (tileColumn g x) 0); [lia |].
  destruct (Z.ltb_spec (tileRow g y) 0); [lia |].
  cbn [orb].
  destruct (Z.geb_spec (tileColumn g x)
              (int_or (tiledMapWidth g) (tl_width l0))); [lia |].
  destruct (Z.geb_spec (tileRow g y)
              (int_or (tiledMapHeight g) (tl_height l0))); [lia |].
  reflexivity.
Qed.

(** X13: [getTileAt] answers the tile of the topmost layer (the last in
    the list) that is visible and holds a tile at the cell: the layers
    drawn above it that are hidden or empty there do not matter, nor does
    anything below it.  It answers 0, at any position, when no layer shows
    a tile at the cell. *)
Theorem X13_getTileAt_topmost_visible_tile
    (g : Game) (below above : list TileLayer) (top : TileLayer) (x y : R) :
  (insideGrid g (below ++ top :: above) x y ->
   tl_visible top = true ->
   rawGidAt top (tileColumn g x) (tileRow g y) <> 0%Z ->
   Forall (showsNothingAt (tileColumn g x) (tileRow g y)) above ->
   getTileAt g (below ++ top :: above) x y
   = rawGidAt top (tileColumn g x) (tileRow g y))
  /\ (Forall (showsNothingAt (tileColumn g x) (tileRow g y)) above ->
      getTileAt g above x y = 0%Z).
Proof.
  split.
  - intros Hin Hv Hnz Habove.
    rewrite (getTileAt_inside _ _ _ _ Hin).
    rewrite rev_app_distr. cbn [rev]. rewrite <- !app_assoc.
    rewrite getTileAt_loop_nothing
      by (apply Forall_rev; exact Habove).
    cbn [app getTileAt_loop]. rewrite Hv. cbn [negb].
    destruct (Z.eqb_spec (rawGidAt top (tileColumn g x) (tileRow g y)) 0);
      [contradiction | reflexivity].
  - intro Habove. unfold getTileAt.
    destruct above as [| l0 rest]; [reflexivity |].
    fold (tileColumn g x). fold (tileRow g y). cbv zeta.
    repeat match goal with
           | |- (if ?c then 0%Z else _) = 0%Z =>
               destruct c; [reflexivity |]
           end.
    rewrite <- (app_nil_r (rev (l0 :: rest))).
    rewrite getTileAt_loop_nothing by (apply Forall_rev; exact Habove).
    reflexivity.
Qed.

(** X13 on a base layer under an overlay under a hidden layer: the
    overlay's tile shows in the first cell. *)
Lemma X13_getTileAt_witness :
  insideGrid grid_game ([base_layer] ++ overlay_layer :: [hidden_layer]) 10 10
  /\ getTileAt grid_game [base_layer; overlay_layer; hidden_layer] 10 10
     = 9%Z.
Proof.
  assert (Hc : tileColumn grid_game 10 = 0%Z).
  { unfold tileColumn, Math_floor. apply Zfloor_eq.
    change (tiledMapTileWidth grid_game) with 32%Z. split; simpl; lra. }
  assert (Hr : tileRow grid_game 10 = 0%Z).
  { unfold tileRow, Math_floor. apply Zfloor_eq.
    change (tiledMapTileHeight grid_game) with 32%Z. split; simpl; lra. }
  assert (Hin : insideGrid grid_game
                  ([base_layer] ++ overlay_layer :: [hidden_layer]) 10 10).
  { unfold insideGrid. rewrite Hc, Hr.
    change (tiledMapTileWidth grid_game) with 32%Z.
    change (tiledMapTileHeight grid_game) with 32%Z.
    cbn. lia. }
  split; [exact Hin |].
  destruct (X13_getTileAt_topmost_visible_tile grid_game [base_layer]
              [hidden_layer] overlay_layer 10 10) as [Htop _].
  change [base_layer; overlay_layer; hidden_layer]
    with ([base_layer] ++ overlay_layer :: [hidden_layer]).
  rewrite Htop.
  - rewrite Hc, Hr. reflexivity.
  - exact Hin.
  - reflexivity.
  - rewrite Hc, Hr. cbv. discriminate.
  - constructor; [| constructor]. left. reflexivity.
Defined.

(** ** The steering stick and the pointer handlers *)

Lemma clamped_vector (dx dy r : R) :
  0 < r ->
  let c := if Rlt_dec r (Math_hypot dx dy) then r / Math_hypot dx dy
           else 1 in
  (dx * c) * (dx * c) + (dy * c) * (dy * c) <= r * r
  /\ (r < Math_hypot dx dy ->
      (dx * c) * (dx * c) + (dy * c) * (dy * c) = r * r)
  /\ (Math_hypot dx dy <= r -> c = 1).
Proof.
  intros Hr c. subst c.
  pose proof (hypot_sqr dx dy) as Hs.
  pose proof (hypot_nonneg dx dy) as Hn.
  destruct (Rlt_dec r (Math_hypot dx dy)) as [Hlt | Hge].
  - assert (E : (dx * (r / Math_hypot dx dy)) * (dx * (r / Math_hypot dx dy))
                + (dy * (r / Math_hypot dx dy))
                  * (dy * (r / Math_hypot dx dy)) = r * r).
    { replace ((dx * (r / Math_hypot dx dy)) * (dx * (r / Math_hypot dx dy))
               + (dy * (r / Math_hypot dx dy))
                 * (dy * (r / Math_hypot dx dy)))
        with ((dx * dx + dy * dy)
              * ((r / Math_hypot dx dy) * (r / Math_hypot dx dy)))
        by ring.
      rewrite <- Hs. field. lra. }
    split; [lra |]. split; [intros _; exact E | intro; lra].
  - split; [nra |]. split; [intro; lra | reflexivity].
Qed.

Lemma hypot_le (x y r : R) :
  0 <= r -> x * x + y * y <= r * r -> Math_hypot x y <= r.
Proof.
  intros Hr H. unfold Math_hypot.
  rewrite <- (sqrt_square r Hr). apply sqrt_le_1_alt. exact H.
Qed.

Lemma unit_quotients (vx vy r : R) :
  0 < r -> vx * vx + vy * vy <= r * r ->
  (vx / r) * (vx / r) + (vy / r) * (vy / r) <= 1.
Proof.
  intros Hr H.
  replace ((vx / r) * (vx / r) + (vy / r) * (vy / r))
    with ((vx * vx + vy * vy) / (r * r)) by (field; lra).
  apply Rmult_le_reg_r with (r * r); [nra |].
  unfold Rdiv. rewrite Rmult_assoc, Rinv_l by nra. lra.
Qed.

Lemma Joystick_update_bound (s : Joystick) (x y : R) :
  0 < js_radius s ->
  exists vx vy,
    vx * vx + vy * vy <= js_radius s * js_radius s
    /\ Joystick_update x y s
       = mkJoystick (js_anchorX s) (js_anchorY s) (js_radius s)
           (js_axisLock s) (js_pointerId s) (vx / js_radius s)
           (vy / js_radius s) (js_anchorX s + vx) (js_anchorY s + vy)
    /\ (js_axisLock s = "x"%string -> vy = 0).
Proof.
  intro Hr. unfold Joystick_update.
  destruct (clamped_vector (x - js_anchorX s) (y - js_anchorY s)
              (js_radius s) Hr) as (Hle & _ & _).
  cbv zeta in Hle.
  set (c := if Rlt_dec (js_radius s)
                 (Math_hypot (x - js_anchorX s) (y - js_anchorY s))
            then js_radius s
                 / Math_hypot (x - js_anchorX s) (y - js_anchorY s)
            else 1) in *.
  cbv zeta.
  eexists; eexists. split; [| split; [reflexivity |]].
  - clearbody c.
    pose proof (Rle_0_sqr ((x - js_anchorX s) * c)) as Hx2.
    pose proof (Rle_0_sqr ((y - js_anchorY s) * c)) as Hy2.
    unfold Rsqr in Hx2, Hy2.
    destruct (String.eqb (js_axisLock s) "x");
      destruct (String.eqb (js_axisLock s) "y"); lra.
  - intro Hx. rewrite Hx. reflexivity.
Qed.

(** X14: [Joystick.update] keeps the deflection in the unit disc and the
    knob within the radius of the anchor, whatever the pointer position;
    the knob is the anchor displaced by the deflection times the radius.
    A stick locked to the x axis has no vertical deflection.  Without a
    lock the knob follows a pointer inside the circle exactly and stops
    on the rim for a pointer outside it. *)
Theorem X14_joystick_deflection_in_unit_disc
    (s : Joystick) (x y : R) (Hr : 0 < js_radius s) :
  let s' := Joystick_update x y s in
  js_valueX s' * js_valueX s' + js_valueY s' * js_valueY s' <= 1
  /\ Math_hypot (js_activeX s' - js_anchorX s') (js_activeY s' - js_anchorY s')
     <= js_radius s'
  /\ js_activeX s' = js_anchorX s + js_valueX s' * js_radius s
  /\ js_activeY s' = js_anchorY s + js_valueY s' * js_radius s
  /\ (js_axisLock s = "x"%string ->
      js_valueY s' = 0 /\ js_activeY s' = js_anchorY s
      /\ -1 <= js_valueX s' <= 1)
  /\ (js_axisLock s <> "x"%string -> js_axisLock s <> "y"%string ->
      (Math_hypot (x - js_anchorX s) (y - js_anchorY s) <= js_radius s ->
       js_activeX s' = x /\ js_activeY s' = y)
      /\ (js_radius s < Math_hypot (x - js_anchorX s) (y - js_anchorY s) ->
          Math_hypot (js_activeX s' - js_anchorX s)
            (js_activeY s' - js_anchorY s) = js_radius s)).
Proof.
  intro s'.
  destruct (Joystick_update_bound s x y Hr) as (vx & vy & Hle & E & Hlock).
  assert (Hunit := unit_quotients vx vy (js_radius s) Hr Hle).
  split; [| split; [| split; [| split; [| split]]]].
  - subst s'. rewrite E. cbn [js_valueX js_valueY]. exact Hunit.
  - subst s'. rewrite E.
    cbn [js_activeX js_activeY js_anchorX js_anchorY js_radius].
    apply hypot_le; [lra |].
    replace (js_anchorX s + vx - js_anchorX s) with vx by ring.
    replace (js_anchorY s + vy - js_anchorY s) with vy by ring.
    exact Hle.
  - subst s'. rewrite E. cbn [js_activeX js_valueX]. field. lra.
  - subst s'. rewrite E. cbn [js_activeY js_valueY]. field. lra.
  - intro Hx. specialize (Hlock Hx). subst s'. rewrite E.
    cbn [js_activeY js_valueX js_valueY]. subst vy.
    split; [unfold Rdiv; ring |]. split; [ring |].
    assert (Hq : (vx / js_radius s) * (vx / js_radius s) <= 1).
    { replace (0 / js_radius s) with 0 in Hunit by (unfold Rdiv; ring).
      lra. }
    nra.
  - intros Hnx Hny. subst s'. unfold Joystick_update.
    apply String.eqb_neq in Hnx. apply String.eqb_neq in Hny.
    rewrite Hnx, Hny. cbn [js_activeX js_activeY].
    destruct (clamped_vector (x - js_anchorX s) (y - js_anchorY s)
                (js_radius s) Hr) as (_ & Hrim & Hin).
    cbv zeta in Hrim, Hin.
    split.
    + intro Hd. rewrite (Hin Hd). split; ring.
    + intro Hd. specialize (Hrim Hd).
      match goal with
      | |- Math_hypot ?a ?b = _ =>
          rewrite (hypot_of_square a b (js_radius s))
      end.
      * apply Rabs_pos_eq. lra.
      * rewrite <- Hrim. ring.
Qed.

(** X14 on the steering stick with the pointer far to the right of it:
    full right deflection. *)
Lemma X14_joystick_witness :
  0 < js_radius (steeringStick initial_controls)
  /\ -1 <= js_valueX (Joystick_update 400 600
                        (steeringStick initial_controls)) <= 1.
Proof.
  assert (Hr : 0 < js_radius (steeringStick initial_controls))
    by (cbn; lra).
  split; [exact Hr |].
  destruct (X14_joystick_deflection_in_unit_disc
              (steeringStick initial_controls) 400 600 Hr)
    as (_ & _ & _ & _ & Hlock & _).
  apply Hlock. reflexivity.
Defined.

Lemma Map_delete_set {V : Type} (key : Z) (v : V) (m : list (Z * V)) :
  Map_get key m = None -> Map_delete key (Map_set key v m) = m.
Proof.
  induction m as [| [k w] m IH]; cbn [Map_get Map_set Map_delete].
  - intros _. rewrite Z.eqb_refl. reflexivity.
  - destruct (Z.eqb_spec k key) as [E | E]; [discriminate |].
    intro H. cbn [Map_delete].
    destruct (Z.eqb_spec k key); [contradiction |].
    rewrite (IH H). reflexivity.
Qed.

Lemma Map_delete_absent {V : Type} (key : Z) (m : list (Z * V)) :
  Map_get key m = None -> Map_delete key m = m.
Proof.
  induction m as [| [k w] m IH]; cbn [Map_get Map_delete]; [reflexivity |].
  destruct (Z.eqb_spec k key); [discriminate |].
  intro H. rewrite (IH H). reflexivity.
Qed.

Lemma Map_get_set {V : Type} (key : Z) (v : V) (m : list (Z * V)) :
  Map_get key (Map_set key v m) = Some v.
Proof.
  induction m as [| [k w] m IH]; cbn [Map_get Map_set].
  - rewrite Z.eqb_refl. reflexivity.
  - destruct (Z.eqb_spec k key) as [E | E]; cbn [Map_get].
    + subst k. rewrite Z.eqb_refl. reflexivity.
    + destruct (Z.eqb_spec k key); [contradiction | exact IH].
Qed.

Lemma released_pedal (p : Pedal) :
  pd_pressed p = false -> set_pd_pressed false (set_pd_pressed true p) = p.
Proof. destruct p. cbn. intros ->. reflexivity. Qed.

Lemma Joystick_end_start (id : Z) (x y : R) (s : Joystick) :
  Joystick_end (Joystick_start id x y s) = Joystick_end s.
Proof. reflexivity. Qed.

(** X15: a press followed by the release of the same pointer leaves
    controls nobody touches exactly as they were, wherever the press
    lands: on a pedal, on the steering stick or beside them. *)
Theorem X15_press_then_release_restores_controls
    (c : Controls) (pointerId : Z) (x y : R) :
  untouched c ->
  Map_get pointerId (pointerMap c) = None ->
  handlePointerUp pointerId (handlePointerDown pointerId x y c) = c.
Proof.
  intros (Ha & Hb & Hs) Hfree. unfold atRest in Hs.
  unfold handlePointerDown.
  destruct c as [k pa pb st pm]. cbn [pedals_accel pedals_brake
    steeringStick pointerMap keys] in *.
  destruct (onPedal pa x y).
  { unfold handlePointerUp, set_pointerMap, set_pedals_accel.
    cbn [pointerMap pedals_accel pedals_brake steeringStick keys].
    rewrite Map_get_set.
    cbn [pointerMap pedals_accel pedals_brake steeringStick keys].
    rewrite Map_delete_set by exact Hfree.
    rewrite released_pedal by exact Ha. reflexivity. }
  destruct (onPedal pb x y).
  { unfold handlePointerUp, set_pointerMap, set_pedals_brake.
    cbn [pointerMap pedals_accel pedals_brake steeringStick keys].
    rewrite Map_get_set.
    cbn [pointerMap pedals_accel pedals_brake steeringStick keys].
    rewrite Map_delete_set by exact Hfree.
    rewrite released_pedal by exact Hb. reflexivity. }
  destruct (noPointerId st && Joystick_inZone st x y).
  { unfold handlePointerUp, set_pointerMap, set_steeringStick.
    cbn [pointerMap pedals_accel pedals_brake steeringStick keys].
    rewrite Map_get_set.
    cbn [pointerMap pedals_accel pedals_brake steeringStick keys].
    rewrite Map_delete_set by exact Hfree.
    rewrite Joystick_end_start, Hs. reflexivity. }
  unfold handlePointerUp.
  cbn [pointerMap]. rewrite Hfree. unfold set_pointerMap.
  cbn [pointerMap pedals_accel pedals_brake steeringStick keys].
  rewrite Map_delete_absent by exact Hfree. reflexivity.
Qed.

(** X15 on a tap on the steering stick of the initial controls. *)
Lemma X15_press_then_release_witness :
  untouched initial_controls
  /\ handlePointerUp 1 (handlePointerDown 1 130 610 initial_controls)
     = initial_controls.
Proof.
  assert (Hu : untouched initial_controls)
    by (repeat split; reflexivity).
  split; [exact Hu |].
  apply (X15_press_then_release_restores_controls initial_controls 1
           130 610 Hu).
  reflexivity.
Defined.

(** ** The view *)

Lemma cameraAxis_window (view world carPos : R) :
  view < world ->
  view / 2 <= cameraAxis view world carPos <= world - view / 2
  /\ (view / 2 <= carPos <= world - view / 2 ->
      cameraAxis view world carPos = carPos).
Proof.
  intro H. unfold cameraAxis, Rmax, Rmin.
  destruct (Rle_dec world view); [lra |].
  destruct (Rle_dec (world - view / 2) carPos);
    destruct (Rle_dec (view / 2) _); split; try lra; intro; lra.
Qed.

(** X16: [worldToScreen] and [screenToWorld] are inverse to each other at
    a non-zero scale.  After [updateCamera], on an axis where the world is
    larger than the view, the canvas shows nothing beyond the edges of the
    world, and a car at least half a view away from both edges is drawn at
    the middle of the canvas; on an axis where the view covers the world,
    the middle of the world is at the middle of the canvas. *)
Theorem X16_camera_stays_inside_the_world
    (g : Game) (v : View) (Hscale : 0 < scale v) :
  let v' := updateCamera g v in
  let W := IZR (worldWidth g) in
  let H := IZR (worldHeight g) in
  let cw := IZR (canvas_width v) in
  let ch := IZR (canvas_height v) in
  (forall x y,
      screenToWorld (px (worldToScreen x y (scale v') (offsetX v') (offsetY v')))
        (py (worldToScreen x y (scale v') (offsetX v') (offsetY v')))
        (scale v') (offsetX v') (offsetY v') = mkPt x y
      /\ worldToScreen
           (px (screenToWorld x y (scale v') (offsetX v') (offsetY v')))
           (py (screenToWorld x y (scale v') (offsetX v') (offsetY v')))
           (scale v') (offsetX v') (offsetY v') = mkPt x y)
  /\ (cw / scale v < W ->
      0 <= shownX v' 0 /\ shownX v' cw <= W
      /\ (cw / scale v / 2 <= car_x (car g) <= W - cw / scale v / 2 ->
          px (carOnCanvas g v') = cw / 2))
  /\ (ch / scale v < H ->
      0 <= shownY v' 0 /\ shownY v' ch <= H
      /\ (ch / scale v / 2 <= car_y (car g) <= H - ch / scale v / 2 ->
          py (carOnCanvas g v') = ch / 2))
  /\ (W <= cw / scale v ->
      px (worldToScreen (W / 2) (H / 2) (scale v') (offsetX v') (offsetY v'))
      = cw / 2)
  /\ (H <= ch / scale v ->
      py (worldToScreen (W / 2) (H / 2) (scale v') (offsetX v') (offsetY v'))
      = ch / 2).
Proof.
  intros v' W H cw ch.
  assert (Es : scale v' = scale v) by reflexivity.
  assert (Ex : offsetX v'
               = cw / 2 - cameraAxis (cw / scale v) W (car_x (car g))
                          * scale v) by reflexivity.
  assert (Ey : offsetY v'
               = ch / 2 - cameraAxis (ch / scale v) H (car_y (car g))
                          * scale v) by reflexivity.
  unfold shownX, shownY, carOnCanvas, worldToScreen, screenToWorld.
  cbn [px py]. rewrite Es.
  split; [| split; [| split; [| split]]].
  - intros x y. split; f_equal; field; lra.
  - intro Hv. rewrite Ex.
    destruct (cameraAxis_window (cw / scale v) W (car_x (car g)) Hv)
      as [Hc Hcar].
    set (cam := cameraAxis (cw / scale v) W (car_x (car g))) in *.
    replace ((0 - (cw / 2 - cam * scale v)) / scale v)
      with (cam - cw / scale v / 2) by (field; lra).
    replace ((cw - (cw / 2 - cam * scale v)) / scale v)
      with (cam + cw / scale v / 2) by (field; lra).
    split; [lra |]. split; [lra |].
    intro Hin. rewrite (Hcar Hin). ring.
  - intro Hv. rewrite Ey.
    destruct (cameraAxis_window (ch / scale v) H (car_y (car g)) Hv)
      as [Hc Hcar].
    set (cam := cameraAxis (ch / scale v) H (car_y (car g))) in *.
    replace ((0 - (ch / 2 - cam * scale v)) / scale v)
      with (cam - ch / scale v / 2) by (field; lra).
    replace ((ch - (ch / 2 - cam * scale v)) / scale v)
      with (cam + ch / scale v / 2) by (field; lra).
    split; [lra |]. split; [lra |].
    intro Hin. rewrite (Hcar Hin). ring.
  - intro Hv. rewrite Ex. unfold cameraAxis.
    destruct (Rle_dec W (cw / scale v)); [ring | contradiction].
  - intro Hv. rewrite Ey. unfold cameraAxis.
    destruct (Rle_dec H (ch / scale v)); [ring | contradiction].
Qed.

(** X16 on a 640 by 360 canvas at scale 2: the initial car at (320, 360)
    is drawn at the middle of the canvas. *)
Lemma X16_camera_witness :
  0 < scale zoomed_view
  /\ px (carOnCanvas initial_game (updateCamera initial_game zoomed_view))
     = 640 / 2.
Proof.
  assert (Hs : 0 < scale zoomed_view) by (cbn; lra).
  split; [exact Hs |].
  destruct (X16_camera_stays_inside_the_world initial_game zoomed_view Hs)
    as (_ & Hx & _).
  cbv zeta in Hx.
  change (IZR (canvas_width zoomed_view)) with 640 in Hx.
  change (scale zoomed_view) with 2 in Hx.
  change (IZR (worldWidth initial_game)) with 1280 in Hx.
  change (car_x (car initial_game)) with 320 in Hx.
  apply Hx; lra.
Defined.

Lemma autoZoom_target (speed : R) :
  let speed01 := clamp (Math_abs speed / 440) 0 1 in
  clamp (startZoom - speed01 * 1.8) minZoom maxZoom
  = startZoom - speed01 * 1.8
  /\ 2.2 <= startZoom - speed01 * 1.8 <= 4.
Proof.
  intro speed01.
  assert (Hs : 0 <= speed01 <= 1) by (apply clamp_bounds; lra).
  unfold startZoom, minZoom, maxZoom, startZoom.
  split; [apply clamp_inside |]; lra.
Qed.

(** X17: once the game has started, [updateAutoZoom] moves the camera zoom
    towards a target between 2.2 and 4, so a zoom in that range stays in
    it for every non-negative time step, and the zoom of a car at rest
    does not fall; before the start the view is left alone.  The scale
    the following [resize] computes is positive on a canvas and a world
    with positive sides.  [setZoom] clamps to [minZoom, maxZoom]. *)
Theorem X17_auto_zoom_stays_in_range
    (win : Window) (dt : R) (g : Game) (v : View)
    (Hdt : 0 <= dt) (Hzoom : 2.2 <= cameraZoom v <= 4) :
  let v' := updateAutoZoom win dt g v in
  2.2 <= cameraZoom v' <= 4
  /\ (started g = false -> v' = v)
  /\ (started g = true -> car_speed (car g) = 0 ->
      cameraZoom v <= cameraZoom v')
  /\ (started g = true ->
      (0 < canvas_width v')%Z -> (0 < canvas_height v')%Z ->
      (0 < worldWidth g)%Z -> (0 < worldHeight g)%Z ->
      0 < scale v')
  /\ (forall z, minZoom <= cameraZoom (setZoom z v) <= maxZoom)
  /\ (forall z, minZoom <= z <= maxZoom -> cameraZoom (setZoom z v) = z).
Proof.
  intro v'. subst v'. unfold updateAutoZoom.
  destruct (autoZoom_target (car_speed (car g))) as [Et Ht].
  cbv zeta in Et, Ht.
  assert (Hk : 0 <= Rmin 1 (dt * zoomLerpSpeed) <= 1).
  { unfold Rmin, zoomLerpSpeed.
    destruct (Rle_dec 1 (dt * 5)); lra. }
  assert (Hz : forall win0 g0 v0, cameraZoom (resize win0 g0 v0)
                                  = cameraZoom v0) by reflexivity.
  split; [| split; [| split; [| split; [| split]]]].
  - destruct (started g); cbn [negb]; [| exact Hzoom].
    rewrite Hz. cbn [set_cameraZoom cameraZoom]. cbv zeta. rewrite Et.
    set (k := Rmin 1 (dt * zoomLerpSpeed)) in *.
    set (t := startZoom - clamp (Math_abs (car_speed (car g)) / 440) 0 1
                          * 1.8) in *.
    nra.
  - intros ->. reflexivity.
  - intros -> Hspeed. cbn [negb]. rewrite Hz.
    cbn [set_cameraZoom cameraZoom]. cbv zeta. rewrite Et, Hspeed.
    unfold Math_abs. rewrite Rabs_R0.
    replace (0 / 440) with 0 by (unfold Rdiv; ring).
    rewrite (clamp_inside 0 0 1) by lra. unfold startZoom.
    set (k := Rmin 1 (dt * zoomLerpSpeed)) in *. nra.
  - intros -> Hcw Hch HW HH. cbn [negb] in *.
    revert Hcw Hch. unfold resize, updateCamera.
    cbn [set_offsets set_cameraZoom scale canvas_width canvas_height
         cameraZoom].
    cbv zeta. rewrite Et.
    set (z := cameraZoom v
              + (startZoom
                 - clamp (Math_abs (car_speed (car g)) / 440) 0 1 * 1.8
                 - cameraZoom v) * Rmin 1 (dt * zoomLerpSpeed)).
    assert (Hzpos : 0 < z).
    { subst z. set (k := Rmin 1 (dt * zoomLerpSpeed)) in *.
      set (t := startZoom
                - clamp (Math_abs (car_speed (car g)) / 440) 0 1 * 1.8)
        in *.
      nra. }
    intros Hcw Hch.
    apply IZR_lt in Hcw, Hch, HW, HH.
    apply Rmult_lt_0_compat; [| exact Hzpos].
    apply Rmin_glb_lt; apply Rdiv_lt_0_compat; assumption.
  - intro z. cbn [setZoom set_cameraZoom cameraZoom].
    unfold minZoom, maxZoom, startZoom, Rmax, Rmin.
    destruct (Rle_dec 4 z); destruct (Rle_dec 0.4 _); lra.
  - intros z Hzr. cbn [setZoom set_cameraZoom cameraZoom].
    revert Hzr. unfold minZoom, maxZoom, startZoom, Rmax, Rmin.
    destruct (Rle_dec 4 z); destruct (Rle_dec 0.4 _); lra.
Qed.

(** X17 on the initial zoom of 4 after one frame of a started game. *)
Lemma X17_auto_zoom_witness :
  2.2 <= cameraZoom
           (updateAutoZoom phone_window 0.016 running_game zoomed_view)
      <= 4.
Proof.
  assert (Hdt : 0 <= 0.016) by lra.
  assert (Hz : 2.2 <= cameraZoom zoomed_view <= 4) by (cbn; lra).
  destruct (X17_auto_zoom_stays_in_range phone_window 0.016 running_game
              zoomed_view Hdt Hz) as [H _].
  exact H.
Defined.

Lemma Joystick_update_within (s0 s : Joystick) (x y : R) :
  0 < js_radius s0 -> stickWithin s0 s ->
  stickWithin s0 (Joystick_update x y s).
Proof.
  intros Hr (Hax & Hay & Hrad & Hlock & _).
  assert (Hr' : 0 < js_radius s) by (rewrite Hrad; exact Hr).
  destruct (Joystick_update_bound s x y Hr') as (vx & vy & Hle & E & _).
  rewrite E. unfold stickWithin.
  cbn [js_anchorX js_anchorY js_radius js_axisLock js_valueX].
  repeat split; try assumption.
  - pose proof (unit_quotients vx vy (js_radius s) Hr' Hle) as Hu.
    pose proof (Rle_0_sqr (vy / js_radius s)) as Hy. unfold Rsqr in Hy.
    nra.
  - pose proof (unit_quotients vx vy (js_radius s) Hr' Hle) as Hu.
    pose proof (Rle_0_sqr (vy / js_radius s)) as Hy. unfold Rsqr in Hy.
    nra.
Qed.

Lemma handleEvent_within (s0 : Joystick) (c : Controls) (e : ControlEvent) :
  0 < js_radius s0 -> stickWithin s0 (steeringStick c) ->
  stickWithin s0 (steeringStick (handleEvent c e)).
Proof.
  intros Hr Hw. destruct e as [id x y | id x y | id | code | code];
    cbn [handleEvent].
  - unfold handlePointerDown.
    destruct (onPedal (pedals_accel c) x y); [exact Hw |].
    destruct (onPedal (pedals_brake c) x y); [exact Hw |].
    destruct (noPointerId (steeringStick c)
              && Joystick_inZone (steeringStick c) x y); [| exact Hw].
    cbn [set_pointerMap set_steeringStick steeringStick].
    unfold Joystick_start. apply Joystick_update_within; [exact Hr |].
    destruct Hw as (Hax & Hay & Hrad & Hlock & Hv).
    unfold stickWithin.
    cbn [js_anchorX js_anchorY js_radius js_axisLock js_valueX].
    repeat split; assumption || apply Hv.
  - unfold handlePointerMove.
    destruct (Map_get id (pointerMap c)) as [[name |] |]; try exact Hw.
    cbn [set_steeringStick steeringStick].
    apply Joystick_update_within; assumption.
  - unfold handlePointerUp.
    destruct (Map_get id (pointerMap c)) as [[[|] |] |];
      cbn [set_pointerMap set_pedals_accel set_pedals_brake
           set_steeringStick steeringStick]; try exact Hw.
    destruct Hw as (Hax & Hay & Hrad & Hlock & Hv).
    unfold stickWithin, Joystick_end.
    cbn [js_anchorX js_anchorY js_radius js_axisLock js_valueX].
    repeat split; try assumption; lra.
  - exact Hw.
  - exact Hw.
Qed.

(** X18: whatever pointer and key events arrive, in any order, the stick
    keeps its anchor and radius, and the steering input that
    [updatePhysics] reads stays within [-1, 1]. *)
Theorem X18_steering_input_stays_in_range
    (events : list ControlEvent) (c : Controls)
    (Hr : 0 < js_radius (steeringStick c))
    (Hv : -1 <= js_valueX (steeringStick c) <= 1) :
  let c' := handleEvents events c in
  -1 <= steeringInput (inputOf c') <= 1
  /\ js_radius (steeringStick c') = js_radius (steeringStick c)
  /\ js_anchorX (steeringStick c') = js_anchorX (steeringStick c)
  /\ js_anchorY (steeringStick c') = js_anchorY (steeringStick c).
Proof.
  intro c'.
  assert (Hw : stickWithin (steeringStick c) (steeringStick c')).
  { subst c'. unfold handleEvents.
    assert (Hgen : forall c1,
               stickWithin (steeringStick c) (steeringStick c1) ->
               stickWithin (steeringStick c)
                 (steeringStick (fold_left handleEvent events c1))).
    { induction events as [| e es IH]; intros c1 H1; [exact H1 |].
      cbn [fold_left]. apply IH. apply handleEvent_within; assumption. }
    apply Hgen. unfold stickWithin. repeat split; apply Hv. }
  destruct Hw as (Hax & Hay & Hrad & _ & Hval).
  split; [| repeat split; assumption].
  unfold steeringInput, inputOf.
  cbn [key_left key_right stick_valueX].
  destruct (keys_left (keys c')); cbn [orb]; [lra |].
  destruct (keys_right (keys c')); [lra | exact Hval].
Qed.

(** X18 on a press on the stick, a drag far to the left and a key
    press. *)
Lemma X18_steering_input_witness :
  -1 <= steeringInput
          (inputOf (handleEvents
                      [PointerDown 1 130 610; PointerMove 1 (-500) 610;
                       KeyDown "KeyW"] initial_controls)) <= 1.
Proof.
  assert (Hr : 0 < js_radius (steeringStick initial_controls))
    by (cbn; lra).
  assert (Hv : -1 <= js_valueX (steeringStick initial_controls) <= 1)
    by (cbn; lra).
  destruct (X18_steering_input_stays_in_range
              [PointerDown 1 130 610; PointerMove 1 (-500) 610;
               KeyDown "KeyW"] initial_controls Hr Hv) as [H _].
  exact H.
Defined.

Lemma onPedal_below (p : Pedal) (x y : R) :
  pd_y p + pd_h p < y -> onPedal p x y = false.
Proof.
  intro H. unfold onPedal. rewrite (Rleb_false y (pd_y p + pd_h p) H).
  apply andb_false_r.
Qed.

(** X19: a press in the zone of the stick, off the pedals, takes the
    stick when nobody holds it, and is ignored when a pointer with a
    non-zero id holds it.  A holder whose id is 0 does not keep it: the
    test [!steeringStick.pointerId] lets the next press take the stick
    over. *)
Theorem X19_stick_holder_with_id_zero_is_replaced
    (c : Controls) (pointerId : Z) (x y : R)
    (Hoff : offPedals c x y)
    (Hzone : Joystick_inZone (steeringStick c) x y = true) :
  let c' := handlePointerDown pointerId x y c in
  (forall holder,
      js_pointerId (steeringStick c) = Some holder -> holder <> 0%Z ->
      c' = c)
  /\ (js_pointerId (steeringStick c) = None
      \/ js_pointerId (steeringStick c) = Some 0%Z ->
      js_pointerId (steeringStick c') = Some pointerId
      /\ Map_get pointerId (pointerMap c') = Some HeldStick).
Proof.
  intro c'. subst c'. destruct Hoff as [Ha Hb].
  unfold handlePointerDown. rewrite Ha, Hb, Hzone.
  split.
  - intros holder Hh Hne. unfold noPointerId. rewrite Hh.
    destruct (Z.eqb_spec holder 0); [contradiction | reflexivity].
  - intro Hfree.
    assert (Hn : noPointerId (steeringStick c) = true).
    { unfold noPointerId. destruct Hfree as [-> | ->]; reflexivity. }
    rewrite Hn. cbn [andb set_pointerMap set_steeringStick steeringStick
                     pointerMap].
    split; [reflexivity | apply Map_get_set].
Qed.

(** X19 on a stick held by the touch with identifier 0: the touch with
    identifier 1 takes it over. *)
Lemma X19_stick_holder_witness :
  js_pointerId
    (steeringStick (handlePointerDown 0 130 610 initial_controls))
  = Some 0%Z
  /\ js_pointerId
       (steeringStick
          (handlePointerDown 1 100 600
             (handlePointerDown 0 130 610 initial_controls)))
     = Some 1%Z.
Proof.
  set (c := handlePointerDown 0 130 610 initial_controls).
  assert (Hoff0 : offPedals initial_controls 130 610).
  { split; apply onPedal_below; cbn; lra. }
  assert (Hzone0 : Joystick_inZone (steeringStick initial_controls)
                     130 610 = true).
  { unfold Joystick_inZone. apply Rleb_true. cbn. lra. }
  destruct (X19_stick_holder_with_id_zero_is_replaced initial_controls 0
              130 610 Hoff0 Hzone0) as [_ Htake0].
  destruct (Htake0 (or_introl eq_refl)) as [Hid0 _].
  fold c in Hid0.
  assert (Hped : pedals_accel c = pedals_accel initial_controls
                 /\ pedals_brake c = pedals_brake initial_controls
                 /\ js_anchorX (steeringStick c) = 120
                 /\ js_anchorY (steeringStick c) = 600
                 /\ js_radius (steeringStick c) = 70).
  { subst c. unfold handlePointerDown.
    destruct Hoff0 as [Ha Hb]. rewrite Ha, Hb, Hzone0.
    cbn. repeat split; lra. }
  destruct Hped as (Epa & Epb & Eax & Eay & Er).
  assert (Hoff1 : offPedals c 100 600).
  { split; rewrite ?Epa, ?Epb; apply onPedal_below; cbn; lra. }
  assert (Hzone1 : Joystick_inZone (steeringStick c) 100 600 = true).
  { unfold Joystick_inZone. rewrite Eax, Eay, Er. apply Rleb_true. lra. }
  destruct (X19_stick_holder_with_id_zero_is_replaced c 1 100 600
              Hoff1 Hzone1) as [_ Htake1].
  split; [exact Hid0 |].
  apply Htake1. right. exact Hid0.
Defined.

(** ** Computer-driven cars *)

Lemma unit_circle_hypot (a : R) : Math_hypot (cos a) (sin a) = 1.
Proof.
  rewrite (hypot_of_square (cos a) (sin a) 1).
  - apply Rabs_pos_eq. lra.
  - pose proof (sin2_cos2 a) as H. unfold Rsqr in H. lra.
Qed.

Lemma wrappedDiff_same_direction (d a : R) :
  cos (wrappedDiff d a) = cos (d - a)
  /\ sin (wrappedDiff d a) = sin (d - a).
Proof.
  unfold wrappedDiff.
  assert (Hne : cos (d - a) <> 0 \/ sin (d - a) <> 0).
  { pose proof (sin2_cos2 (d - a)) as H. unfold Rsqr in H.
    destruct (Req_dec_T (cos (d - a)) 0) as [Hc |]; [| left; assumption].
    right. intro Hs. rewrite Hc, Hs in H. lra. }
  destruct (Math_atan2_direction (sin (d - a)) (cos (d - a)) Hne)
    as [Hc Hs].
  rewrite unit_circle_hypot in Hc, Hs. rewrite Hc, Hs. split; field.
Qed.

(** X20: a computer-driven car turns by the angle difference wrapped to
    (-PI, PI], clamped to 2.4 radians per second: the heading changes by
    at most 2.4 |dt|, and when the wrapped difference is within reach of
    the step the new heading has the direction of the desired one. *)
Theorem X20_ai_turn_is_wrapped_and_rate_limited (desiredAngle dt angle : R) :
  Rabs (turnTowards desiredAngle dt angle - angle) <= 2.4 * Rabs dt
  /\ - PI < wrappedDiff desiredAngle angle <= PI
  /\ (Rabs (wrappedDiff desiredAngle angle) <= 2.4 * dt ->
      turnTowards desiredAngle dt angle
      = angle + wrappedDiff desiredAngle angle
      /\ cos (turnTowards desiredAngle dt angle) = cos desiredAngle
      /\ sin (turnTowards desiredAngle dt angle) = sin desiredAngle).
Proof.
  assert (E : turnTowards desiredAngle dt angle
              = angle + clamp (wrappedDiff desiredAngle angle)
                          (- (2.4) * dt) (2.4 * dt)) by reflexivity.
  rewrite !E. clear E.
  set (w := wrappedDiff desiredAngle angle).
  split; [| split].
  - replace (angle + clamp w (- (2.4) * dt) (2.4 * dt) - angle)
      with (clamp w (- (2.4) * dt) (2.4 * dt)) by ring.
    unfold clamp, Rmax, Rmin.
    repeat match goal with
           | |- context [Rle_dec ?a ?b] => destruct (Rle_dec a b)
           end;
      unfold Rabs;
      repeat match goal with
             | |- context [Rcase_abs ?a] => destruct (Rcase_abs a)
             end; lra.
  - apply Math_atan2_range.
  - intro Hreach.
    assert (Hin : - (2.4) * dt <= w <= 2.4 * dt).
    { revert Hreach. unfold Rabs. destruct (Rcase_abs w); lra. }
    rewrite (clamp_inside w (- (2.4) * dt) (2.4 * dt) Hin).
    split; [reflexivity |].
    destruct (wrappedDiff_same_direction desiredAngle angle) as [Hc Hs].
    fold w in Hc, Hs.
    split.
    + rewrite cos_plus, Hc, Hs, <- cos_plus. f_equal. ring.
    + rewrite sin_plus, Hc, Hs, <- sin_plus. f_equal. ring.
Qed.

(** X20 on a car that already heads the desired way, over a step of one
    second. *)
Lemma X20_ai_turn_witness :
  Rabs (turnTowards 0 1 0 - 0) <= 2.4 * Rabs 1
  /\ turnTowards 0 1 0 = 0 + wrappedDiff 0 0.
Proof.
  destruct (X20_ai_turn_is_wrapped_and_rate_limited 0 1 0)
    as (Hrate & _ & Hreach).
  split; [exact Hrate |].
  apply Hreach.
  unfold wrappedDiff. replace (0 - 0) with 0 by ring.
  rewrite sin_0, cos_0, Math_atan2_x_axis by lra.
  rewrite Rabs_R0. lra.
Defined.

(** X21: [normalize] returns the zero vector for a vector of length zero
    and otherwise the unit vector of the same direction. *)
Theorem X21_normalize_unit_or_zero (x y : R) :
  (Math_hypot x y = 0 -> normalize x y = mkPt 0 0)
  /\ (Math_hypot x y <> 0 ->
      Math_hypot (px (normalize x y)) (py (normalize x y)) = 1
      /\ x = px (normalize x y) * Math_hypot x y
      /\ y = py (normalize x y) * Math_hypot x y)
  /\ (normalize x y = mkPt 0 0 <-> x = 0 /\ y = 0).
Proof.
  unfold normalize.
  pose proof (hypot_nonneg x y) as Hn.
  pose proof (hypot_sqr x y) as Hs.
  destruct (Req_dec_T (Math_hypot x y) 0) as [Hz | Hnz].
  - split; [reflexivity |]. split; [contradiction |].
    split; [intros _ | reflexivity].
    apply hypot_zero_inv. lra.
  - split; [contradiction |]. cbn [px py]. split.
    + intros _. split; [| split; field; assumption].
      rewrite (hypot_of_square _ _ 1); [apply Rabs_pos_eq; lra |].
      replace (x / Math_hypot x y * (x / Math_hypot x y)
               + y / Math_hypot x y * (y / Math_hypot x y))
        with ((x * x + y * y) / (Math_hypot x y * Math_hypot x y))
        by (field; assumption).
      rewrite <- Hs. field. assumption.
    + split.
      * intro E. injection E as Ex Ey.
        assert (Hx : x = 0).
        { apply Rmult_eq_compat_r with (r := Math_hypot x y) in Ex.
          unfold Rdiv in Ex. rewrite Rmult_assoc, Rinv_l in Ex by assumption.
          lra. }
        assert (Hy : y = 0).
        { apply Rmult_eq_compat_r with (r := Math_hypot x y) in Ey.
          unfold Rdiv in Ey. rewrite Rmult_assoc, Rinv_l in Ey by assumption.
          lra. }
        split; assumption.
      * intros [-> ->]. exfalso. apply Hnz. apply hypot_origin.
Qed.

(** X21 on the vector (3, 4), of length 5. *)
Lemma X21_normalize_witness :
  Math_hypot 3 4 <> 0
  /\ 3 = px (normalize 3 4) * Math_hypot 3 4.
Proof.
  assert (H5 : Math_hypot 3 4 = 5).
  { rewrite (hypot_of_square 3 4 5) by ring. apply Rabs_pos_eq. lra. }
  assert (Hne : Math_hypot 3 4 <> 0) by (rewrite H5; lra).
  split; [exact Hne |].
  destruct (X21_normalize_unit_or_zero 3 4) as (_ & Hunit & _).
  destruct (Hunit Hne) as (_ & Hx & _). exact Hx.
Defined.

Lemma nearestTrackT_loop_range (total x y : R) (segs : list TrackSegment) :
  forall bestDist bestT accLen,
    0 < total ->
    Forall (fun s => 0 <= seg_len s) segs ->
    0 <= accLen -> accLen + sum_len segs <= total ->
    0 <= bestT <= 1 ->
    0 <= nearestTrackT_loop total x y segs bestDist bestT accLen <= 1.
Proof.
  induction segs as [| s rest IH];
    intros bestDist bestT accLen Ht Hall Hacc Hsum Hbest;
    [exact Hbest |].
  inversion Hall as [| ? ? Hs Hrest]; subst.
  cbn [nearestTrackT_loop]. cbv zeta.
  change (sum_len (s :: rest)) with (seg_len s + sum_len rest) in Hsum.
  assert (Hrest0 : 0 <= sum_len rest).
  { clear -Hrest. induction Hrest as [| a l Ha _ IHl]; cbn; [lra |].
    fold (sum_len l). lra. }
  set (tSeg := clamp _ 0 1).
  assert (HtSeg : 0 <= tSeg <= 1) by (apply clamp_bounds; lra).
  apply IH; try assumption; try lra.
  match goal with |- context [if ?c then _ else _] => destruct c end;
    [| exact Hbest].
  split.
  - unfold Rdiv. apply Rmult_le_pos; [nra |].
    left. apply Rinv_0_lt_compat. lra.
  - apply Rmult_le_reg_r with total; [lra |].
    unfold Rdiv. rewrite Rmult_assoc, Rinv_l by lra. nra.
Qed.

Lemma nearestTrackT_loop_settled (total x y : R) (segs : list TrackSegment) :
  forall bestT accLen,
    nearestTrackT_loop total x y segs (Some 0) bestT accLen = bestT.
Proof.
  induction segs as [| s rest IH]; intros bestT accLen; [reflexivity |].
  cbn [nearestTrackT_loop]. cbv zeta.
  match goal with
  | |- context [Rltb ?d 0] =>
      rewrite (Rltb_false d 0)
        by (apply Rplus_le_le_0_compat; apply Rle_0_sqr)
  end.
  apply IH.
Qed.

Lemma built_segments (g : Game) :
  Forall segment_of_ends (trackSegments (buildTrackSegments g))
  /\ trackLength (buildTrackSegments g)
     = sum_len (trackSegments (buildTrackSegments g)).
Proof.
  destruct (buildTrackSegments_result g) as [-> ->].
  apply buildTrackSegments_loop_sound; [constructor | reflexivity].
Qed.

Lemma nearestTrackT_built_range (g : Game) (x y : R) :
  0 <= nearestTrackT (buildTrackSegments g) x y <= 1.
Proof.
  destruct (built_segments g) as [Hall Hlen].
  unfold nearestTrackT.
  destruct ((length_Z (trackSegments (buildTrackSegments g)) =? 0)%Z
            || Rleb (trackLength (buildTrackSegments g)) 0) eqn:E;
    [lra |].
  apply orb_false_elim in E. destruct E as [_ Epos].
  assert (Hpos : 0 < trackLength (buildTrackSegments g)).
  { unfold Rleb in Epos.
    destruct (Rle_dec (trackLength (buildTrackSegments g)) 0);
      [discriminate | lra]. }
  apply nearestTrackT_loop_range; try lra.
  eapply Forall_impl; [| exact Hall].
  intros s (_ & _ & _ & Hs). lra.
Qed.

(** X22: on the segments [buildTrackSegments] makes, [nearestTrackT]
    answers a track parameter between 0 and 1, and the first point of
    the path gets the parameter 0, also on a closed path that comes back
    to it. *)
Theorem X22_nearestTrackT_in_unit_interval
    (g : Game) (x y : R) (first : Pt) (rest : list Pt)
    (Hpath : trackPath g = first :: rest) :
  0 <= nearestTrackT (buildTrackSegments g) x y <= 1
  /\ nearestTrackT (buildTrackSegments g) (px first) (py first) = 0.
Proof.
  split; [apply nearestTrackT_built_range |].
  unfold nearestTrackT.
  destruct ((length_Z (trackSegments (buildTrackSegments g)) =? 0)%Z
            || Rleb (trackLength (buildTrackSegments g)) 0) eqn:E;
    [reflexivity |].
  destruct (buildTrackSegments_result g) as [Esegs _].
  destruct (trackSegments (buildTrackSegments g)) as [| s segs'] eqn:Es.
  { cbn in E. discriminate. }
  assert (Ha : seg_a s = first).
  { eapply (buildTrackSegments_loop_first (trackPath g) 0 first rest);
      [exact Hpath | symmetry; exact Esegs]. }
  cbn [nearestTrackT_loop]. cbv zeta. rewrite Ha.
  replace ((px first - px first) * (px (seg_b s) - px first)
           + (py first - py first) * (py (seg_b s) - py first))
    with 0 by ring.
  replace (0 / num_or ((px (seg_b s) - px first) * (px (seg_b s) - px first)
                       + (py (seg_b s) - py first)
                         * (py (seg_b s) - py first)) 1)
    with 0 by (unfold Rdiv; ring).
  rewrite (clamp_inside 0 0 1) by lra.
  replace ((px first - (px first + (px (seg_b s) - px first) * 0))
           * (px first - (px first + (px (seg_b s) - px first) * 0))
           + (py first - (py first + (py (seg_b s) - py first) * 0))
             * (py first - (py first + (py (seg_b s) - py first) * 0)))
    with 0 by ring.
  rewrite nearestTrackT_loop_settled. unfold Rdiv. ring.
Qed.

(** X22 on the initial track, which starts and ends at (180, 200). *)
Lemma X22_nearestTrackT_witness :
  nearestTrackT (buildTrackSegments initial_game) 180 200 = 0.
Proof.
  destruct (X22_nearestTrackT_in_unit_interval initial_game 180 200
              (mkPt 180 200) (List.tl initial_trackPath) eq_refl)
    as [_ H].
  exact H.
Defined.

Lemma newAICar_fresh (g : Game) (mobCount i : Z) (ai : AICar) :
  (0 <= i < mobCount)%Z ->
  newAICar (buildTrackSegments g) mobCount i = Some ai ->
  freshAICar (car_radius (car g)) ai
  /\ ai_speed ai = 160 + IZR i * 20
  /\ (ai_useTrack ai = true -> 0 < trackLength (buildTrackSegments g)).
Proof.
  intros Hi. unfold newAICar.
  assert (Hspeed : 160 <= 160 + IZR i * 20).
  { assert (0 <= IZR i) by (apply IZR_le; lia). lra. }
  assert (Hrad : car_radius (car (buildTrackSegments g))
                 = car_radius (car g)).
  { unfold buildTrackSegments.
    destruct (length_Z _ <? 2)%Z; reflexivity. }
  assert (Hfrac : 0 <= IZR i / IZR mobCount <= 1).
  { assert (Hm : 0 < IZR mobCount) by (apply IZR_lt; lia).
    assert (Hi0 : 0 <= IZR i) by (apply IZR_le; lia).
    assert (Hi1 : IZR i <= IZR mobCount) by (apply IZR_le; lia).
    split.
    - unfold Rdiv. apply Rmult_le_pos; [exact Hi0 |].
      left. apply Rinv_0_lt_compat. exact Hm.
    - apply Rmult_le_reg_r with (IZR mobCount); [exact Hm |].
      unfold Rdiv. rewrite Rmult_assoc, Rinv_l by lra. lra. }
  rewrite Hrad.
  destruct (at_index (aiSpawnPoints (buildTrackSegments g)) i)
    as [spawn |].
  - intro E. injection E as <-. unfold freshAICar, steerable, hasPose.
    cbn [ai_lap ai_checkpointIndex ai_finished ai_radius ai_speed ai_t
         ai_useTrack ai_x ai_y ai_angle].
    assert (Ht : 0 <= (if Rltb 0 (trackLength (buildTrackSegments g))
                          && negb (length_Z
                                     (aiCheckpoints (buildTrackSegments g))
                                   >? 0)%Z
                       then nearestTrackT (buildTrackSegments g)
                              (pose_x spawn) (pose_y spawn)
                       else 0) <= 1).
    { destruct (_ && _); [apply nearestTrackT_built_range | lra]. }
    split; [| split].
    + split; [reflexivity |]. split; [reflexivity |].
      split; [reflexivity |]. split; [reflexivity |].
      split; [exact Hspeed |]. split; [exact Ht |].
      split; [| lia].
      intros _. eexists; eexists; eexists. repeat split.
    + reflexivity.
    + intro Hu. apply andb_prop in Hu. destruct Hu as [Hu _].
      apply Rltb_lt. exact Hu.
  - destruct (Rltb 0 (trackLength (buildTrackSegments g))) eqn:Et.
    + intro E. injection E as <-. unfold freshAICar, steerable, hasPose.
      cbn [ai_lap ai_checkpointIndex ai_finished ai_radius ai_speed ai_t
           ai_useTrack ai_x ai_y ai_angle].
      split; [| split].
      * split; [reflexivity |]. split; [reflexivity |].
        split; [reflexivity |]. split; [reflexivity |].
        split; [exact Hspeed |]. split; [exact Hfrac |].
        split; [| lia].
        intro Hf. discriminate.
      * reflexivity.
      * intros _. apply Rltb_lt. exact Et.
    + destruct (aiCheckpoints (buildTrackSegments g)) as [| first rest];
        [discriminate |].
      intro E. injection E as <-. unfold freshAICar, steerable, hasPose.
      cbn [ai_lap ai_checkpointIndex ai_finished ai_radius ai_speed ai_t
           ai_useTrack ai_x ai_y ai_angle].
      split; [| split].
      * split; [reflexivity |]. split; [reflexivity |].
        split; [reflexivity |]. split; [reflexivity |].
        split; [exact Hspeed |]. split; [lra |].
        split; [| lia].
        intros _. eexists; eexists; eexists. repeat split.
      * reflexivity.
      * intro Hf. discriminate.
Qed.

Lemma initAICars_loop_fresh (g : Game) (mobCount : Z) (P : AICar -> Prop) :
  (forall i ai, (0 <= i < mobCount)%Z ->
                newAICar g mobCount i = Some ai -> P ai) ->
  forall n i cars,
    (0 <= i)%Z -> (i + Z.of_nat n <= mobCount)%Z ->
    Forall P cars ->
    Forall P (initAICars_loop g mobCount n i cars).
Proof.
  intros HP. induction n as [| n IH]; intros i cars Hi Hn Hcars;
    [exact Hcars |].
  cbn [initAICars_loop]. apply IH; try lia.
  destruct (newAICar g mobCount i) as [ai |] eqn:E; [| exact Hcars].
  apply Forall_app. split; [exact Hcars |].
  constructor; [| constructor]. apply (HP i ai); [lia | exact E].
Qed.

Lemma initAICars_loop_all (g : Game) (mobCount : Z) :
  (forall i, (0 <= i < mobCount)%Z -> newAICar g mobCount i <> None) ->
  forall n i cars,
    (0 <= i)%Z -> (i + Z.of_nat n <= mobCount)%Z ->
    length_Z cars = i ->
    length_Z (initAICars_loop g mobCount n i cars) = (i + Z.of_nat n)%Z
    /\ (forall k, (0 <= k < i)%Z ->
                  at_index (initAICars_loop g mobCount n i cars) k
                  = at_index cars k)
    /\ (forall k, (i <= k < i + Z.of_nat n)%Z ->
                  at_index (initAICars_loop g mobCount n i cars) k
                  = newAICar g mobCount k).
Proof.
  intros Hall. induction n as [| n IH]; intros i cars Hi Hn Hlen.
  - cbn [initAICars_loop]. split; [lia |]. split; [auto | intros; lia].
  - cbn [initAICars_loop].
    destruct (newAICar g mobCount i) as [ai |] eqn:E;
      [| exfalso; apply (Hall i); [lia | exact E]].
    assert (Hlen' : length_Z (cars ++ [ai]) = (i + 1)%Z).
    { unfold length_Z in *. rewrite length_app. cbn [List.length]. lia. }
    destruct (IH (i + 1)%Z (cars ++ [ai])) as (Hl & Hold & Hnew);
      try lia.
    split; [lia |]. split.
    + intros k Hk. rewrite Hold by lia.
      unfold at_index. destruct (Z.ltb_spec k 0); [reflexivity |].
      apply nth_error_app1. unfold length_Z in Hlen. lia.
    + intros k Hk. destruct (Z.eq_dec k i) as [-> | Hne].
      * rewrite Hold by lia. rewrite E.
        unfold at_index. destruct (Z.ltb_spec i 0); [lia |].
        rewrite nth_error_app2 by (unfold length_Z in Hlen; lia).
        replace (Z.to_nat i - List.length cars)%nat with 0%nat
          by (unfold length_Z in Hlen; lia).
        reflexivity.
      * apply Hnew. lia.
Qed.

Lemma initAICars_fresh (mobCount : Z) (g : Game) :
  Forall (freshAICar (car_radius (car g)))
    (aiCars (initAICars mobCount (buildTrackSegments g))).
Proof.
  unfold initAICars.
  destruct (Z.leb_spec mobCount 0) as [Hle | Hpos]; [constructor |].
  cbn [set_aiCars aiCars].
  apply initAICars_loop_fresh; try lia; [| constructor].
  intros i ai Hi E.
  change (newAICar (set_aiCars [] (buildTrackSegments g)) mobCount i)
    with (newAICar (buildTrackSegments g) mobCount i) in E.
  apply (newAICar_fresh g mobCount i ai Hi E).
Qed.

(** X23: after [buildTrackSegments], [initAICars] creates no car for a
    mode without opponents; every car it creates starts on lap 1 at
    checkpoint 0, unfinished, with the radius of the player's car, a
    track parameter between 0 and 1, and a pose unless it follows the
    track; and when the track has a length, or a checkpoint for the cars
    exists, it creates exactly [mobCount] cars, the car of index [i]
    driving at 160 + 20 i. *)
Theorem X23_initAICars_creates_steerable_cars (mobCount : Z) (g : Game) :
  let g0 := buildTrackSegments g in
  let g' := initAICars mobCount g0 in
  ((mobCount <= 0)%Z -> aiCars g' = [])
  /\ Forall (freshAICar (car_radius (car g))) (aiCars g')
  /\ Forall (fun ai => ai_useTrack ai = true -> 0 < trackLength g')
       (aiCars g')
  /\ ((0 < mobCount)%Z ->
      0 < trackLength g0 \/ aiCheckpoints g <> [] ->
      length_Z (aiCars g') = mobCount
      /\ forall i, (0 <= i < mobCount)%Z ->
           exists ai, at_index (aiCars g') i = Some ai
                      /\ ai_speed ai = 160 + IZR i * 20).
Proof.
  intros g0 g'. subst g' g0. unfold initAICars.
  set (g0 := set_aiCars [] (buildTrackSegments g)).
  assert (Hnew : forall i, newAICar g0 mobCount i
                           = newAICar (buildTrackSegments g) mobCount i)
    by reflexivity.
  destruct (Z.leb_spec mobCount 0) as [Hle | Hpos].
  { split; [reflexivity |]. split; [constructor |].
    split; [constructor | intro; lia]. }
  cbn [set_aiCars aiCars].
  change (trackLength (set_aiCars _ g0)) with
    (trackLength (buildTrackSegments g)).
  split; [intro; lia |]. split; [| split].
  - pose proof (initAICars_fresh mobCount g) as Hf.
    unfold initAICars in Hf.
    destruct (Z.leb_spec mobCount 0); [lia | exact Hf].
  - apply initAICars_loop_fresh; try lia; [| constructor].
    intros i ai Hi E. rewrite Hnew in E.
    apply (newAICar_fresh g mobCount i ai Hi E).
  - intros _ Hsome.
    assert (Hall : forall i, (0 <= i < mobCount)%Z ->
                             newAICar g0 mobCount i <> None).
    { intros i Hi. rewrite Hnew. unfold newAICar.
      destruct (at_index _ i); [discriminate |].
      destruct Hsome as [Ht | Hc].
      - rewrite (Rltb_true _ _ Ht). discriminate.
      - destruct (Rltb 0 _); [discriminate |].
        assert (Hcp : aiCheckpoints (buildTrackSegments g)
                      = aiCheckpoints g).
        { unfold buildTrackSegments.
          destruct (length_Z _ <? 2)%Z; reflexivity. }
        rewrite Hcp.
        destruct (aiCheckpoints g); [contradiction | discriminate]. }
    destruct (initAICars_loop_all g0 mobCount Hall (Z.to_nat mobCount) 0 [])
      as (Hlen & _ & Hat); try lia; [reflexivity |].
    split; [lia |].
    intros i Hi.
    destruct (newAICar g0 mobCount i) as [ai |] eqn:E;
      [| exfalso; apply (Hall i Hi E)].
    exists ai. split; [rewrite Hat by lia; exact E |].
    rewrite Hnew in E.
    apply (newAICar_fresh g mobCount i ai Hi E).
Qed.

(** X23 on two opponents in a game without a track and with one
    checkpoint for them. *)
Lemma X23_initAICars_witness :
  length_Z (aiCars (initAICars 2 (buildTrackSegments spawn_game))) = 2%Z.
Proof.
  destruct (X23_initAICars_creates_steerable_cars 2 spawn_game)
    as (_ & _ & _ & Hcount).
  cbv zeta in Hcount.
  apply Hcount; [lia |]. right. discriminate.
Defined.

Lemma aiProgress_refl (laps : Z) (ai : AICar) : aiProgress laps ai ai.
Proof.
  unfold aiProgress. repeat split; try reflexivity; try lia.
  intro H. left. exact H.
Qed.

Lemma aiProgress_trans (laps : Z) (a b c : AICar) :
  aiProgress laps a b -> aiProgress laps b c -> aiProgress laps a c.
Proof.
  intros (S1 & R1 & U1 & L1 & F1 & G1 & T1) (S2 & R2 & U2 & L2 & F2 & G2 & T2).
  unfold aiProgress.
  split; [congruence |]. split; [congruence |]. split; [congruence |].
  split; [lia |]. split; [| split].
  - intro Hf. specialize (F1 Hf). subst b. apply F2. exact Hf.
  - intro Hf. destruct (G2 Hf) as [Hb | Hl]; [| right; exact Hl].
    destruct (G1 Hb) as [Ha | Hl]; [left; exact Ha | right; lia].
  - intro Hu. destruct (T1 Hu) as (X1 & Y1 & A1 & C1 & P1 & D1).
    assert (Hu' : ai_useTrack b = true) by congruence.
    destruct (T2 Hu') as (X2 & Y2 & A2 & C2 & P2 & D2).
    repeat split; congruence.
Qed.

Lemma Forall2_refl_on {A : Type} (R : A -> A -> Prop) (l : list A) :
  (forall a, R a a) -> Forall2 R l l.
Proof. intro H. induction l; constructor; auto. Qed.

Lemma Forall2_trans_on {A : Type} (R : A -> A -> Prop) :
  (forall a b c, R a b -> R b c -> R a c) ->
  forall l1 l2 l3, Forall2 R l1 l2 -> Forall2 R l2 l3 -> Forall2 R l1 l3.
Proof.
  intros Ht l1 l2 l3 H12. revert l3.
  induction H12 as [| a b l1 l2 Hab _ IH]; intros l3 H23;
    inversion H23; subst; constructor; eauto.
Qed.

Lemma Forall2_replace_nth {A : Type} (R : A -> A -> Prop) (l : list A) :
  (forall a, R a a) ->
  forall i a a', nth_error l i = Some a -> R a a' ->
                 Forall2 R l (replace_nth i a' l).
Proof.
  intro Hr. induction l as [| b l IH]; intros i a a' Hn Ha.
  - destruct i; discriminate.
  - destruct i as [| i]; cbn [replace_nth nth_error] in *.
    + injection Hn as ->. constructor; [exact Ha |].
      apply Forall2_refl_on, Hr.
    + constructor; [apply Hr | eapply IH; eassumption].
Qed.

Lemma Forall_replace_nth {A : Type} (P : A -> Prop) (l : list A) :
  forall i a', Forall P l -> P a' -> Forall P (replace_nth i a' l).
Proof.
  induction l as [| b l IH]; intros i a' Hl Ha; [destruct i; constructor |].
  inversion Hl; subst.
  destruct i; cbn [replace_nth]; constructor; auto.
Qed.

Lemma advanceAICheckpoint_progress (g : Game) (targetDist : R)
    (ai : AICar) (x y angle : R) :
  ai_finished ai = false -> ai_useTrack ai = false ->
  onCourse (length_Z (aiCheckpoints g)) ai ->
  let moved := mkAICar (Some x) (Some y) (Some angle) (ai_t ai)
                 (ai_speed ai) false (ai_radius ai)
                 (ai_checkpointIndex ai) (ai_lap ai) false in
  aiProgress (raceLaps g) ai (advanceAICheckpoint g targetDist moved)
  /\ onCourse (length_Z (aiCheckpoints g))
       (advanceAICheckpoint g targetDist moved).
Proof.
  intros Hfin Htrack ((Hpose & Hidx) & Hlt) moved.
  assert (Hposed : forall t s u r c l f,
             hasPose (mkAICar (Some x) (Some y) (Some angle) t s u r c l f)).
  { intros. exists x, y, angle. repeat split. }
  unfold advanceAICheckpoint, moved.
  cbn [ai_x ai_y ai_angle ai_t ai_speed ai_useTrack ai_radius
       ai_checkpointIndex ai_lap ai_finished].
  destruct (Rltb targetDist 26);
    [destruct (Z.geb_spec (ai_checkpointIndex ai + 1)
                 (length_Z (aiCheckpoints g))) as [Hge | Hlt'] |];
    (split;
     [ unfold aiProgress;
       cbn [ai_x ai_y ai_angle ai_t ai_speed ai_useTrack ai_radius
            ai_checkpointIndex ai_lap ai_finished];
       split; [reflexivity |]; split; [reflexivity |];
       split; [congruence |]; split; [lia |];
       split; [intro; congruence |];
       split; [| intro; congruence]
     | unfold onCourse, steerable;
       cbn [ai_x ai_y ai_angle ai_t ai_speed ai_useTrack ai_radius
            ai_checkpointIndex ai_lap ai_finished];
       split; [split; [intros _; apply Hposed | lia] | lia] ]).
  - destruct (Z.gtb_spec (ai_lap ai + 1) (raceLaps g)) as [Hg | Hg].
    + intros _. right. lia.
    + intro Hf. discriminate.
  - intro Hf. discriminate.
  - intro Hf. discriminate.
Qed.

Lemma updateAICar_progress (g : Game) (dt : R) (i : nat) (ai : AICar) :
  onCourse (length_Z (aiCheckpoints g)) ai ->
  exists ai',
    updateAICar g dt i ai = Normal ai'
    /\ aiProgress (raceLaps g) ai ai'
    /\ onCourse (length_Z (aiCheckpoints g)) ai'.
Proof.
  intro Hc. unfold updateAICar.
  destruct (ai_finished ai) eqn:Hfin.
  { exists ai. split; [reflexivity |].
    split; [apply aiProgress_refl | exact Hc]. }
  destruct (ai_useTrack ai) eqn:Htrack.
  { eexists. split; [reflexivity |].
    destruct Hc as ((Hpose & Hidx) & Hlt). split.
    - unfold aiProgress.
      cbn [ai_x ai_y ai_angle ai_t ai_speed ai_useTrack ai_radius
           ai_checkpointIndex ai_lap ai_finished].
      rewrite Hfin, Htrack.
      split; [reflexivity |]. split; [reflexivity |].
      split; [reflexivity |]. split; [lia |].
      split; [intro Hf; discriminate |]. split.
      + intro Hf. discriminate.
      + intros _. repeat split.
    - unfold onCourse, steerable.
      cbn [ai_x ai_y ai_angle ai_t ai_speed ai_useTrack ai_radius
           ai_checkpointIndex ai_lap ai_finished].
      split; [split; [intro Hf; discriminate | exact Hidx] | exact Hlt]. }
  destruct (Z.eqb_spec (length_Z (aiCheckpoints g)) 0) as [Hz | Hnz].
  { exists ai. split; [reflexivity |].
    split; [apply aiProgress_refl | exact Hc]. }
  assert (Hlen : (0 < length_Z (aiCheckpoints g))%Z).
  { unfold length_Z in *. lia. }
  pose proof Hc as ((Hpose & Hidx) & Hlt).
  destruct (at_index_in_range (aiCheckpoints g)
              (Z.rem (ai_checkpointIndex ai) (length_Z (aiCheckpoints g))))
    as [target Htarget].
  { rewrite Z.rem_mod_nonneg by lia. apply Z.mod_pos_bound. exact Hlen. }
  rewrite Htarget.
  destruct (Hpose Htrack) as (x & y & angle & Hx & Hy & Ha).
  rewrite Hx, Hy, Ha. cbv zeta.
  eexists. split; [reflexivity |].
  apply advanceAICheckpoint_progress; assumption.
Qed.

Lemma updateAICars_loop_progress (dt : R) :
  forall n i g,
    Forall (onCourse (length_Z (aiCheckpoints g))) (aiCars g) ->
    exists g',
      updateAICars_loop dt n i g = Normal g'
      /\ g' = set_aiCars (aiCars g') g
      /\ Forall2 (aiProgress (raceLaps g)) (aiCars g) (aiCars g')
      /\ Forall (onCourse (length_Z (aiCheckpoints g))) (aiCars g').
Proof.
  induction n as [| n IH]; intros i g Hall.
  - exists g. split; [reflexivity |]. split; [destruct g; reflexivity |].
    split; [apply Forall2_refl_on, aiProgress_refl | exact Hall].
  - cbn [updateAICars_loop].
    destruct (nth_error (aiCars g) i) as [ai |] eqn:Hn.
    + assert (Hai : onCourse (length_Z (aiCheckpoints g)) ai).
      { rewrite Forall_forall in Hall. apply Hall.
        eapply nth_error_In. exact Hn. }
      destruct (updateAICar_progress g dt i ai Hai) as (ai' & E & Hp & Hc).
      rewrite E.
      set (g1 := set_aiCars (replace_nth i ai' (aiCars g)) g).
      destruct (IH (S i) g1) as (g' & E' & Hset & H2 & Hall').
      { apply Forall_replace_nth; assumption. }
      exists g'. split; [exact E' |]. split; [| split].
      * rewrite Hset at 1. reflexivity.
      * eapply Forall2_trans_on; [apply aiProgress_trans | | exact H2].
        eapply Forall2_replace_nth;
          [apply aiProgress_refl | exact Hn | exact Hp].
      * exact Hall'.
    + exists g. split; [reflexivity |]. split; [destruct g; reflexivity |].
      split; [apply Forall2_refl_on, aiProgress_refl | exact Hall].
Qed.

Lemma updateAICars_progress (dt : R) (g : Game) :
  Forall (onCourse (length_Z (aiCheckpoints g))) (aiCars g) ->
  exists g',
    updateAICars dt g = Normal g'
    /\ g' = set_aiCars (aiCars g') g
    /\ Forall2 (aiProgress (raceLaps g)) (aiCars g) (aiCars g')
    /\ Forall (onCourse (length_Z (aiCheckpoints g))) (aiCars g')
    /\ (countdownActive g = true -> g' = g).
Proof.
  intro Hcourse. unfold updateAICars.
  assert (Hsame : exists g',
             Normal g = Normal g'
             /\ g' = set_aiCars (aiCars g') g
             /\ Forall2 (aiProgress (raceLaps g)) (aiCars g) (aiCars g')
             /\ Forall (onCourse (length_Z (aiCheckpoints g))) (aiCars g')
             /\ (countdownActive g = true -> g' = g)).
  { exists g. split; [reflexivity |]. split; [destruct g; reflexivity |].
    split; [apply Forall2_refl_on, aiProgress_refl |].
    split; [exact Hcourse | reflexivity]. }
  destruct (length_Z (aiCars g) =? 0)%Z; [exact Hsame |].
  destruct (countdownActive g) eqn:Hcd; [exact Hsame |].
  destruct (updateAICars_loop_progress dt (List.length (aiCars g)) 0 g
              Hcourse) as (g' & E & Hset & H2 & Hall).
  exists g'. repeat split; try assumption. intro Hf. discriminate.
Qed.

(** X24: on cars that are on course (as [initAICars] creates them),
    [updateAICars] completes without a [TypeError] and changes nothing but
    [aiCars]; every car keeps its speed, radius and mode, its lap counter
    does not fall, a finished car is left as it was, a car finishes only
    with more laps than the race has, a car that follows the track never
    advances a checkpoint or a lap, and the cars are on course again.
    During the countdown nothing changes. *)
Theorem X24_updateAICars_keeps_cars_on_course (dt : R) (g : Game)
    (Hcourse : Forall (onCourse (length_Z (aiCheckpoints g))) (aiCars g)) :
  exists g',
    updateAICars dt g = Normal g'
    /\ g' = set_aiCars (aiCars g') g
    /\ Forall2 (aiProgress (raceLaps g)) (aiCars g) (aiCars g')
    /\ Forall (onCourse (length_Z (aiCheckpoints g))) (aiCars g')
    /\ (countdownActive g = true -> g' = g).
Proof. apply updateAICars_progress. exact Hcourse. Qed.

Lemma fresh_onCourse (radius : R) (count : Z) (ai : AICar) :
  freshAICar radius ai -> onCourse count ai.
Proof.
  intros (_ & Hidx & _ & _ & _ & _ & Hs). split; [exact Hs | lia].
Qed.

(** X24 on the two cars [initAICars] creates at the spawn points. *)
Lemma X24_updateAICars_witness :
  exists g',
    updateAICars 0.016 two_car_race = Normal g'
    /\ Forall2 (aiProgress (raceLaps two_car_race))
         (aiCars two_car_race) (aiCars g').
Proof.
  assert (Hcourse : Forall (onCourse
                              (length_Z (aiCheckpoints two_car_race)))
                      (aiCars two_car_race)).
  { eapply Forall_impl; [| exact (initAICars_fresh 2 spawn_game)].
    intros ai. apply fresh_onCourse. }
  destruct (X24_updateAICars_keeps_cars_on_course 0.016 two_car_race
              Hcourse) as (g' & E & _ & H2 & _).
  exists g'. split; assumption.
Defined.

Lemma mod_one_range (x : R) :
  -1 < mod_one x < 1
  /\ (0 <= x -> 0 <= mod_one x)
  /\ (x <= 0 -> mod_one x <= 0)
  /\ (0 <= x < 1 -> mod_one x = x).
Proof.
  unfold mod_one, Math_trunc.
  pose proof (Zfloor_bound x) as Hf. pose proof (Zceil_bound x) as Hc.
  destruct (Rle_dec 0 x) as [Hx | Hx].
  - split; [lra |]. split; [lra |]. split.
    + intro Hle. assert (E : x = 0) by lra. subst x.
      rewrite (Zfloor_eq 0 0) by lra. lra.
    + intro Hin. rewrite (Zfloor_eq 0 x) by lra. lra.
  - split; [lra |]. split; [lra |]. split; [lra | intro; lra].
Qed.

(** X25: a step of an unfinished car that follows the track moves its
    track parameter by speed * dt / max(trackLength, 1), times 0.55 when
    the surface at the point of the track it samples is ground and times
    1 otherwise, less its whole part (none while the sum stays below 1
    off the ground): the parameter stays within (-1, 1), and
    within [0, 1) when it was not negative and the car does not move
    backwards.  The pose, the counters and the flag of the car
    are not touched, so a car that follows the track never finishes the
    race. *)
Theorem X25_track_follower_wraps_its_parameter
    (g : Game) (dt : R) (i : nat) (ai : AICar)
    (Htrack : ai_useTrack ai = true) (Hfin : ai_finished ai = false) :
  exists ai',
    updateAICar g dt i ai = Normal ai'
    /\ -1 < ai_t ai' < 1
    /\ (0 <= ai_t ai -> 0 <= ai_speed ai * dt -> 0 <= ai_t ai' < 1)
    /\ (surfaceUnderFollower g ai = SurfGround ->
        ai_t ai'
        = mod_one (ai_t ai
                   + ai_speed ai * 0.55 * dt / Rmax (trackLength g) 1))
    /\ (surfaceUnderFollower g ai <> SurfGround ->
        ai_t ai'
        = mod_one (ai_t ai
                   + ai_speed ai * 1 * dt / Rmax (trackLength g) 1))
    /\ (0 <= ai_t ai -> 0 <= ai_speed ai * dt ->
        surfaceUnderFollower g ai <> SurfGround ->
        ai_t ai + ai_speed ai * dt / Rmax (trackLength g) 1 < 1 ->
        ai_t ai' = ai_t ai + ai_speed ai * dt / Rmax (trackLength g) 1)
    /\ ai_x ai' = ai_x ai /\ ai_y ai' = ai_y ai
    /\ ai_angle ai' = ai_angle ai
    /\ ai_checkpointIndex ai' = ai_checkpointIndex ai
    /\ ai_lap ai' = ai_lap ai /\ ai_finished ai' = false.
Proof.
  unfold updateAICar. rewrite Hfin, Htrack.
  eexists. split; [reflexivity |].
  cbn [ai_x ai_y ai_angle ai_t ai_checkpointIndex ai_lap ai_finished].
  assert (Esurf : match match sampleTrack g (ai_t ai) with
                        | Some p => Some (mkPt (pose_x p) (pose_y p))
                        | None => None
                        end with
                  | Some p => getSurfaceAt g (px p) (py p)
                  | None => SurfNone
                  end = surfaceUnderFollower g ai).
  { unfold surfaceUnderFollower.
    destruct (sampleTrack g (ai_t ai)); reflexivity. }
  rewrite Esurf.
  set (factor := match surfaceUnderFollower g ai with
                 | SurfGround => 0.55
                 | _ => 1
                 end).
  assert (Hfactor : factor = 0.55 \/ factor = 1).
  { subst factor. destruct (surfaceUnderFollower g ai); auto. }
  set (next := ai_t ai
               + ai_speed ai * factor * dt / Rmax (trackLength g) 1).
  destruct (mod_one_range next) as (Hr & Hpos & _ & Hid).
  assert (Hm : 0 < Rmax (trackLength g) 1).
  { pose proof (Rmax_r (trackLength g) 1). lra. }
  split; [exact Hr |]. split; [| split; [| split; [| split]]].
  - intros Ht Hsd. split; [| lra]. apply Hpos. subst next.
    assert (Hstep : 0 <= ai_speed ai * factor * dt
                         / Rmax (trackLength g) 1).
    { unfold Rdiv. apply Rmult_le_pos.
      - destruct Hfactor as [-> | ->]; nra.
      - left. apply Rinv_0_lt_compat. exact Hm. }
    lra.
  - intro Hg. subst next factor. rewrite Hg. reflexivity.
  - intro Hg. subst next factor.
    destruct (surfaceUnderFollower g ai); try reflexivity.
    contradiction.
  - intros Ht Hsd Hg Hlt.
    assert (Ef : factor = 1).
    { subst factor. destruct (surfaceUnderFollower g ai); try reflexivity.
      contradiction. }
    assert (En : next = ai_t ai
                        + ai_speed ai * dt / Rmax (trackLength g) 1).
    { subst next. rewrite Ef. unfold Rdiv. ring. }
    rewrite <- En. apply Hid. rewrite En. split; [| exact Hlt].
    assert (0 <= ai_speed ai * dt / Rmax (trackLength g) 1).
    { unfold Rdiv. apply Rmult_le_pos; [exact Hsd |].
      left. apply Rinv_0_lt_compat. exact Hm. }
    lra.
  - repeat split.
Qed.

(** X25 on a car a quarter of the way round the initial track, over a
    sixtieth of a second. *)
Lemma X25_track_follower_witness :
  exists ai',
    updateAICar (buildTrackSegments running_game) (1 / 60) 0 track_follower
    = Normal ai'
    /\ -1 < ai_t ai' < 1 /\ ai_lap ai' = 1%Z.
Proof.
  destruct (X25_track_follower_wraps_its_parameter
              (buildTrackSegments running_game) (1 / 60) 0 track_follower
              eq_refl eq_refl)
    as (ai' & E & Hr & _ & _ & _ & _ & _ & _ & _ & _ & Hlap & _).
  exists ai'. split; [exact E |]. split; [exact Hr | exact Hlap].
Defined.

(** ** The frame loop *)

Lemma updatePhysics_cars (inp : Input) (dt : R) (g : Game) :
  aiCars (updatePhysics inp dt g) = aiCars g
  /\ aiCheckpoints (updatePhysics inp dt g) = aiCheckpoints g
  /\ started (updatePhysics inp dt g) = started g
  /\ countdownActive (updatePhysics inp dt g) = countdownActive g.
Proof.
  repeat split; apply updatePhysics_keeps; reflexivity.
Qed.

Lemma updatePhysics_inert (inp : Input) (dt : R) (g : Game) :
  started g = false \/ countdownActive g = true ->
  updatePhysics inp dt g = g.
Proof.
  unfold updatePhysics. intros [-> | ->]; [reflexivity |].
  rewrite orb_true_r. reflexivity.
Qed.

Lemma updateAICars_flags (g g' : Game) :
  g' = set_aiCars (aiCars g') g ->
  started g' = started g /\ countdownActive g' = countdownActive g.
Proof. intros ->. split; reflexivity. Qed.

Lemma loop_completes (win : Window) (now : R) (f : Frame) :
  carsOnCourse (game f) ->
  exists g',
    let g0 := fst (fst (countdownTick now f)) in
    let g1 := updatePhysics (inputOf (controls f)) (frameStep now f) g0 in
    updateAICars (frameStep now f) g1 = Normal g'
    /\ g' = set_aiCars (aiCars g') g1
    /\ (countdownActive g1 = true -> g' = g1)
    /\ loop win now f
       = Normal
           (mkFrame g'
              (updateCamera g'
                 (updateAutoZoom win (frameStep now f) g1 (view f)))
              (controls f) (ui f) (selectedMode f) (selectedMap f) now
              (countdownStart f) (snd (fst (countdownTick now f)))
              (fst (clockTick now g' (snd (countdownTick now f))))
              (snd (clockTick now g' (snd (countdownTick now f))))).
Proof.
  intro Hcourse. cbv zeta.
  set (g0 := fst (fst (countdownTick now f))).
  set (g1 := updatePhysics (inputOf (controls f)) (frameStep now f) g0).
  assert (H0 : aiCars g0 = aiCars (game f)
               /\ aiCheckpoints g0 = aiCheckpoints (game f)).
  { subst g0. unfold countdownTick.
    repeat match goal with
           | |- context [if ?c then _ else _] => destruct c
           end; split; reflexivity. }
  destruct H0 as [Hcars0 Hcps0].
  destruct (updatePhysics_cars (inputOf (controls f)) (frameStep now f) g0)
    as (Hcars1 & Hcps1 & _ & _).
  fold g1 in Hcars1, Hcps1.
  assert (Hc1 : carsOnCourse g1).
  { unfold carsOnCourse. rewrite Hcars1, Hcps1, Hcars0, Hcps0.
    exact Hcourse. }
  destruct (updateAICars_progress (frameStep now f) g1 Hc1)
    as (g' & E & Hset & _ & _ & Hcd).
  exists g'. split; [exact E |]. split; [exact Hset |].
  split; [exact Hcd |].
  unfold loop.
  destruct (countdownTick now f) as [[g0' label] timer] eqn:Ect.
  cbn [fst snd] in *. subst g0. fold g1. rewrite E. reflexivity.
Qed.

(** X26: a frame of [loop] on cars that are on course completes and
    records [now] in [lastTime].  While the countdown runs, for the first
    3500 ms after its start, the frame leaves the game as it is, shows
    "3", "2", "1" and "GO!" by the second, and keeps the elapsed time at
    0.  The first frame at or after 3500 ms ends the countdown, starts
    the timer at [now] and already runs the physics.  In a started game
    out of the countdown the elapsed time is [now] less [timerStart], and
    a timer not yet started starts at [now]. *)
Theorem X26_loop_countdown_and_timer
    (win : Window) (now : R) (f : Frame)
    (Hcourse : carsOnCourse (game f)) :
  exists f',
    loop win now f = Normal f'
    /\ lastTime f' = now /\ controls f' = controls f
    /\ (countdownActive (game f) = true ->
        now - countdownStart f < countdownDuration ->
        game f' = game f
        /\ countdownLabel f' = labelAt (now - countdownStart f)
        /\ timerStart f' = timerStart f /\ lastElapsed f' = 0)
    /\ (countdownActive (game f) = true ->
        countdownDuration <= now - countdownStart f ->
        started (game f) = true ->
        countdownActive (game f') = false
        /\ countdownLabel f' = ""%string
        /\ timerStart f' = Some now /\ lastElapsed f' = 0
        /\ exists g1,
             g1 = updatePhysics (inputOf (controls f)) (frameStep now f)
                    (set_countdownActive false (game f))
             /\ updateAICars (frameStep now f) g1 = Normal (game f'))
    /\ (countdownActive (game f) = false -> started (game f) = true ->
        countdownLabel f' = ""%string
        /\ (forall t0, timerStart f = Some t0 ->
                       timerStart f' = Some t0
                       /\ lastElapsed f' = now - t0)
        /\ (timerStart f = None ->
            timerStart f' = Some now /\ lastElapsed f' = 0)).
Proof.
  destruct (loop_completes win now f Hcourse)
    as (g' & E & Hset & Hcd & Eloop).
  cbv zeta in E, Hset, Hcd, Eloop.
  eexists. split; [exact Eloop |].
  cbn [lastTime controls game countdownLabel timerStart lastElapsed].
  split; [reflexivity |]. split; [reflexivity |].
  destruct (updateAICars_flags _ _ Hset) as [Hst' Hcd'].
  destruct (updatePhysics_cars (inputOf (controls f)) (frameStep now f)
              (fst (fst (countdownTick now f))))
    as (_ & _ & Hst1 & Hcd1).
  split; [| split].
  - intros Hactive Hbefore.
    assert (Ect : countdownTick now f
                  = (game f, labelAt (now - countdownStart f),
                     timerStart f)).
    { unfold countdownTick, labelAt, countdownDuration in *.
      rewrite Hactive.
      repeat match goal with
             | |- context [Rlt_dec ?a ?b] => destruct (Rlt_dec a b)
             end; try reflexivity; lra. }
    rewrite Ect in *. cbn [fst snd] in *.
    rewrite (updatePhysics_inert _ _ (game f) (or_intror Hactive)) in *.
    rewrite (Hcd Hactive). split; [reflexivity |]. split; [reflexivity |].
    unfold clockTick. rewrite Hactive, andb_false_r.
    split; reflexivity.
  - intros Hactive Hafter Hstarted.
    assert (Ect : countdownTick now f
                  = (set_countdownActive false (game f), ""%string,
                     Some now)).
    { unfold countdownTick, countdownDuration in *. rewrite Hactive.
      repeat match goal with
             | |- context [Rlt_dec ?a ?b] => destruct (Rlt_dec a b)
             end; try reflexivity; lra. }
    rewrite Ect in *. cbn [fst snd] in *.
    assert (Hoff : countdownActive g' = false).
    { rewrite Hcd', Hcd1. reflexivity. }
    assert (Hon : started g' = true).
    { rewrite Hst', Hst1. exact Hstarted. }
    split; [exact Hoff |]. split; [reflexivity |].
    unfold clockTick. rewrite Hoff, Hon. cbn [andb negb fst snd].
    split; [reflexivity |]. split; [ring |].
    eexists. split; [reflexivity | exact E].
  - intros Hidle Hstarted.
    assert (Ect : countdownTick now f
                  = (game f, ""%string, timerStart f)).
    { unfold countdownTick. rewrite Hidle. reflexivity. }
    rewrite Ect in *. cbn [fst snd] in *.
    assert (Hoff : countdownActive g' = false).
    { rewrite Hcd', Hcd1. exact Hidle. }
    assert (Hon : started g' = true).
    { rewrite Hst', Hst1. exact Hstarted. }
    split; [reflexivity |].
    unfold clockTick. rewrite Hoff, Hon. cbn [andb negb].
    split.
    + intros t0 ->. split; reflexivity.
    + intros ->. cbn [fst snd]. split; [reflexivity | ring].
Qed.

(** X26 on a countdown begun at time 1000 and looked at 1500 ms later:
    the label is "2" and nothing has moved. *)
Lemma X26_loop_countdown_witness :
  exists f',
    loop phone_window 2500 countdown_frame = Normal f'
    /\ game f' = game countdown_frame
    /\ countdownLabel f' = "2"%string.
Proof.
  assert (Hcourse : carsOnCourse (game countdown_frame)) by constructor.
  destruct (X26_loop_countdown_and_timer phone_window 2500 countdown_frame
              Hcourse) as (f' & E & _ & _ & Hrun & _).
  exists f'. split; [exact E |].
  assert (Hbefore : 2500 - countdownStart countdown_frame
                    < countdownDuration).
  { unfold countdownDuration. cbn. lra. }
  destruct (Hrun eq_refl Hbefore) as (Hg & Hl & _).
  split; [exact Hg |]. rewrite Hl.
  unfold labelAt. cbn [countdownStart countdown_frame].
  destruct (Rlt_dec (2500 - 1000) 1000); [lra |].
  destruct (Rlt_dec (2500 - 1000) 2000); [reflexivity | lra].
Defined.

(** X27: the time step of a frame is at most 0.033 s, and not negative
    when the clock has not gone back, so a frame drives the car no
    further than 14.52 units: less than the radius of the initial car. *)
Theorem X27_frame_step_bounds_the_move
    (now : R) (f : Frame) (Hnow : lastTime f <= now) :
  0 <= frameStep now f <= 0.033
  /\ (forall inp g,
         Math_hypot
           (car_x (car (drive inp (frameStep now f) g)) - car_x (car g))
           (car_y (car (drive inp (frameStep now f) g)) - car_y (car g))
         <= 14.52)
  /\ 14.52 < car_radius initial_car.
Proof.
  assert (Hstep : 0 <= frameStep now f <= 0.033).
  { unfold frameStep, Rmin.
    destruct (Rle_dec ((now - lastTime f) / 1000) 0.033); lra. }
  split; [exact Hstep |]. split; [| cbn; lra].
  intros inp g.
  destruct (drive_displacement inp (frameStep now f) g) as [-> Hmax].
  rewrite (Rabs_pos_eq (frameStep now f)) by lra.
  unfold maxSpeed in Hmax.
  pose proof (Rabs_pos (car_speed (car (drive inp (frameStep now f) g))))
    as Hp.
  nra.
Qed.

(** X27 on a frame 16 ms after the first. *)
Lemma X27_frame_step_witness :
  0 <= frameStep 16 initial_frame <= 0.033.
Proof.
  assert (Hnow : lastTime initial_frame <= 16) by (cbn; lra).
  destruct (X27_frame_step_bounds_the_move 16 initial_frame Hnow)
    as [H _].
  exact H.
Defined.

(** ** The layout of the touch controls *)

Lemma updateUiLayout_sizes (v : View) :
  (10 <= ui_pedalGap (updateUiLayout v))%Z
  /\ (50 <= ui_pedalW (updateUiLayout v) <= 90)%Z
  /\ (77 <= ui_pedalH (updateUiLayout v) <= 140)%Z
  /\ (66 <= ui_margin (updateUiLayout v) <= 120)%Z.
Proof.
  unfold updateUiLayout. cbv zeta.
  cbn [ui_pedalGap ui_pedalW ui_pedalH ui_margin uiBase].
  set (k := clamp _ 0.55 1).
  assert (Hk : 0.55 <= k <= 1) by (apply clamp_bounds; lra).
  unfold Math_round.
  assert (Hround : forall (a : R) (lo hi : Z),
             IZR lo <= a * k + 0.5 -> a * k + 0.5 < IZR hi + 1 ->
             (lo <= Zfloor (a * k + 0.5) <= hi)%Z).
  { intros a lo hi Hlo Hhi. split; [apply Zfloor_lub; exact Hlo |].
    pose proof (Zfloor_bound (a * k + 0.5)) as Hb.
    assert (Hlt : IZR (Zfloor (a * k + 0.5)) < IZR (hi + 1)).
    { rewrite plus_IZR. lra. }
    apply lt_IZR in Hlt. lia. }
  split; [apply (Hround 18 10%Z 18%Z); lra |].
  split; [apply (Hround 90 50%Z 90%Z); lra |].
  split; [apply (Hround 140 77%Z 140%Z); lra |].
  apply (Hround 120 66%Z 120%Z); lra.
Qed.

Lemma updateJoystickAnchors_layout (v : View) (c : Controls) :
  let ui' := fst (updateJoystickAnchors v c) in
  let c' := snd (updateJoystickAnchors v c) in
  untouched c'
  /\ js_radius (steeringStick c') = js_radius (steeringStick c)
  /\ keys c' = keys c /\ pointerMap c' = pointerMap c
  /\ pd_w (pedals_accel c') = pd_w (pedals_brake c')
  /\ pd_h (pedals_accel c') = pd_h (pedals_brake c')
  /\ 50 <= pd_w (pedals_brake c') /\ 77 <= pd_h (pedals_brake c')
  /\ pd_y (pedals_brake c') + pd_h (pedals_brake c')
     = uiViewportHeight v - IZR (ui_margin ui')
  /\ (forall x y,
         onPedal (pedals_accel c') x y && onPedal (pedals_brake c') x y
         = false).
Proof.
  intros ui' c'.
  destruct (updateUiLayout_sizes v) as (Hgap & Hw & Hh & Hm).
  assert (HgapR : 10 <= IZR (ui_pedalGap (updateUiLayout v)))
    by (apply IZR_le in Hgap; exact Hgap).
  assert (HwR : 50 <= IZR (ui_pedalW (updateUiLayout v)))
    by (destruct Hw as [Hw _]; apply IZR_le in Hw; exact Hw).
  assert (HhR : 77 <= IZR (ui_pedalH (updateUiLayout v)))
    by (destruct Hh as [Hh _]; apply IZR_le in Hh; exact Hh).
  subst ui' c'. unfold updateJoystickAnchors. cbv zeta.
  cbn [fst snd pedals_accel pedals_brake steeringStick keys pointerMap
       pd_x pd_y pd_w pd_h pd_pressed].
  split; [repeat split |].
  split; [reflexivity |]. split; [reflexivity |]. split; [reflexivity |].
  split; [reflexivity |]. split; [reflexivity |].
  split; [exact HwR |]. split; [exact HhR |].
  set (margin := IZR (ui_margin (updateUiLayout v))) in *.
  set (pedalW := IZR (ui_pedalW (updateUiLayout v))) in *.
  set (pedalH := IZR (ui_pedalH (updateUiLayout v))) in *.
  set (pedalGap := IZR (ui_pedalGap (updateUiLayout v))) in *.
  split.
  - destruct (Rlt_dec _ margin); cbn [fst snd px py]; ring.
  - intros x y. unfold onPedal. cbn [pd_x pd_y pd_w pd_h].
    destruct (Rlt_dec _ margin); cbn [fst snd px py].
    + set (leftX := uiViewportWidth v - margin - (pedalW * 2 + pedalGap)).
      destruct (Rle_dec (leftX + pedalW + pedalGap) x) as [Hx | Hx].
      * rewrite (Rleb_false x (leftX + pedalW)) by lra.
        rewrite !andb_false_r. reflexivity.
      * rewrite (Rleb_false (leftX + pedalW + pedalGap) x) by lra.
        reflexivity.
    + set (baseY := uiViewportHeight v - margin - pedalH).
      destruct (Rle_dec baseY y) as [Hy | Hy].
      * rewrite (Rleb_false y (baseY - pedalH - pedalGap + pedalH)) by lra.
        rewrite !andb_false_r. reflexivity.
      * rewrite (Rleb_false baseY y) by lra.
        rewrite !andb_false_r. reflexivity.
Qed.


(** X28: [updateJoystickAnchors] leaves the controls untouched: both
    pedals released and the stick at rest on its new anchor; it keeps the
    radius of the stick, the keys and [pointerMap].  The two pedals get
    the same size, at least 50 by 77, and never overlap, whatever the
    viewport: no position is on both.  The bottom edge of the brake pedal
    is one margin above the bottom of the viewport. *)
Theorem X28_pedals_never_overlap (v : View) (c : Controls) :
  let ui' := fst (updateJoystickAnchors v c) in
  let c' := snd (updateJoystickAnchors v c) in
  untouched c'
  /\ js_radius (steeringStick c') = js_radius (steeringStick c)
  /\ keys c' = keys c /\ pointerMap c' = pointerMap c
  /\ pd_w (pedals_accel c') = pd_w (pedals_brake c')
  /\ pd_h (pedals_accel c') = pd_h (pedals_brake c')
  /\ 50 <= pd_w (pedals_brake c') /\ 77 <= pd_h (pedals_brake c')
  /\ pd_y (pedals_brake c') + pd_h (pedals_brake c')
     = uiViewportHeight v - IZR (ui_margin ui')
  /\ (forall x y,
         onPedal (pedals_accel c') x y && onPedal (pedals_brake c') x y
         = false).
Proof. apply updateJoystickAnchors_layout. Qed.

(** ** The start of a race *)

Lemma modeFor_mobs (value : string) :
  mode_mobs (modeFor value) = 0%Z \/ mode_mobs (modeFor value) = 2%Z.
Proof.
  unfold modeFor, MODE_OPTIONS. cbn [find mode_id].
  destruct (String.eqb "time_trial" value); [left; reflexivity |].
  destruct (String.eqb "race" value); [right | left]; reflexivity.
Qed.

Lemma initAICars_count (g : Game) (mobCount : Z) :
  forall n i cars,
    (List.length (initAICars_loop g mobCount n i cars)
     <= List.length cars + n)%nat.
Proof.
  induction n as [| n IH]; intros i cars; cbn [initAICars_loop]; [lia |].
  destruct (newAICar g mobCount i).
  - specialize (IH (i + 1)%Z (cars ++ [a])).
    rewrite length_app in IH. cbn [List.length] in IH. lia.
  - specialize (IH (i + 1)%Z cars). lia.
Qed.

(** X29: the click on the start button does nothing in portrait
    orientation.  In landscape, whatever the browser answers for the map,
    the race starts: lap 1, no checkpoint passed, the car stopped on the
    start pose with [lastX], [lastY] on it, the countdown running from
    [now] with the label "3", the timer cleared, the controls untouched.
    The mode has 0 or 2 opponents, and the cars created are at most that
    many, each fresh and so on course for [updateAICars]. *)
Theorem X29_start_button_starts_the_race
    (env : Browser) (win : Window) (modeValue mapValue : string)
    (now : R) (f : Frame) :
  let f' := startRace env win modeValue mapValue now f in
  let g' := game f' in
  (isPortrait win = true -> f' = f)
  /\ (isPortrait win = false ->
      lap g' = 1%Z /\ currentCheckpoint g' = 0%Z
      /\ lastCheckpointIndex g' = (-1)%Z
      /\ started g' = true /\ countdownActive g' = true
      /\ car_speed (car g') = 0
      /\ car_x (car g') = pose_x (startSpawn g')
      /\ car_y (car g') = pose_y (startSpawn g')
      /\ car_angle (car g') = pose_angle (startSpawn g')
      /\ lastX g' = car_x (car g') /\ lastY g' = car_y (car g')
      /\ countdownStart f' = now /\ countdownLabel f' = "3"%string
      /\ timerStart f' = None /\ lastElapsed f' = 0
      /\ untouched (controls f')
      /\ (mode_mobs (selectedMode f') = 0%Z
          \/ mode_mobs (selectedMode f') = 2%Z)
      /\ (length_Z (aiCars g') <= Z.max 0 (mode_mobs (selectedMode f')))%Z
      /\ Forall (freshAICar (car_radius (car g'))) (aiCars g')
      /\ carsOnCourse g').
Proof.
  intros f' g'. subst g' f'. unfold startRace.
  destruct (isPortrait win); [split; [reflexivity | discriminate] |].
  split; [discriminate |]. intros _.
  set (g0 := loadTiledMap env (map_file (mapFor mapValue)) (game f)).
  set (mobs := mode_mobs (modeFor modeValue)).
  pose proof (initAICars_fresh mobs g0) as Hfresh.
  set (g2 := initAICars mobs (buildTrackSegments g0)) in *.
  cbv zeta. cbn [game countdownStart countdownLabel timerStart lastElapsed
                 controls selectedMode].
  assert (Hrad : car_radius (car g2) = car_radius (car g0)).
  { subst g2. unfold initAICars, buildTrackSegments.
    repeat match goal with
           | |- context [if ?c then _ else _] => destruct c
           end; reflexivity. }
  set (g' := set_started true _).
  assert (Hcars : aiCars g' = aiCars g2) by reflexivity.
  assert (Hcps : aiCheckpoints g' = aiCheckpoints g2) by reflexivity.
  assert (Hr' : car_radius (car g') = car_radius (car g2)).
  { subst g'. unfold respawnToCheckpoint. reflexivity. }
  assert (Hf' : Forall (freshAICar (car_radius (car g'))) (aiCars g')).
  { rewrite Hcars, Hr', Hrad. exact Hfresh. }
  split; [reflexivity |]. split; [reflexivity |]. split; [reflexivity |].
  split; [reflexivity |]. split; [reflexivity |]. split; [reflexivity |].
  split; [reflexivity |]. split; [reflexivity |]. split; [reflexivity |].
  split; [reflexivity |]. split; [reflexivity |]. split; [reflexivity |].
  split; [reflexivity |]. split; [reflexivity |]. split; [reflexivity |].
  split.
  { destruct (updateJoystickAnchors_layout
                (resize win g2 (view f)) (controls f)) as [H _]. exact H. }
  split; [apply modeFor_mobs |]. split.
  { rewrite Hcars. subst g2. unfold initAICars.
    destruct (Z.leb_spec mobs 0) as [Hle | Hpos];
      cbn [set_aiCars aiCars]; unfold length_Z; [cbn; lia |].
    pose proof (initAICars_count
                  (set_aiCars [] (buildTrackSegments g0)) mobs
                  (Z.to_nat mobs) 0 []) as Hc.
    cbn [List.length] in Hc. lia. }
  split; [exact Hf' |].
  unfold carsOnCourse. eapply Forall_impl; [| exact Hf'].
  intro ai. apply fresh_onCourse.
Qed.

(** X29 on a landscape phone, the race mode and a browser that cannot
    fetch the map. *)
Lemma X29_start_button_witness :
  isPortrait phone_window = false
  /\ started (game (startRace offline phone_window "race" "city" 5000
                      initial_frame)) = true
  /\ mode_mobs (selectedMode (startRace offline phone_window "race" "city"
                                5000 initial_frame)) = 2%Z.
Proof.
  assert (Hland : isPortrait phone_window = false).
  { unfold isPortrait. apply Rltb_false. cbn. lra. }
  split; [exact Hland |].
  destruct (X29_start_button_starts_the_race offline phone_window
              "race" "city" 5000 initial_frame) as [_ Hstart].
  destruct (Hstart Hland) as (_ & _ & _ & Hs & _).
  split; [exact Hs |].
  unfold startRace. rewrite Hland. reflexivity.
Defined.

(** ** Surfaces of stacked layers *)

Lemma getSurfaceAtAnyLayer_loop_best (g : Game) (tx ty : Z)
    (layers : list TileLayer) :
  forall found,
    getSurfaceAtAnyLayer_loop g layers tx ty found
    = if existsb (showsSurface g tx ty SurfRoad) layers then SurfRoad
      else if found || existsb (showsSurface g tx ty SurfGround) layers
           then SurfGround
           else SurfNone.
Proof.
  induction layers as [| l rest IH]; intro found.
  - cbn. destruct found; reflexivity.
  - cbn [getSurfaceAtAnyLayer_loop existsb]. unfold showsSurface at 1 3.
    destruct (tl_visible l); cbn [negb andb orb]; [| apply IH].
    cbv zeta.
    destruct (rawGidAt l tx ty =? 0)%Z; cbn [negb andb orb]; [apply IH |].
    destruct (getSurfaceFromGid g (rawGidAt l tx ty)); cbn [orb].
    + reflexivity.
    + rewrite IH. rewrite !orb_true_r. reflexivity.
    + apply IH.
Qed.

Lemma existsb_permutation {A : Type} (p : A -> bool) (l l' : list A) :
  Permutation l l' -> existsb p l = existsb p l'.
Proof.
  intro H. induction H as [| x l l' _ IH | x y l | l l' l'' _ IH1 _ IH2].
  - reflexivity.
  - cbn. rewrite IH. reflexivity.
  - cbn. destruct (p x), (p y); reflexivity.
  - congruence.
Qed.

(** X30: the scan of [getSurfaceAtAnyLayer] over the layers answers road
    when some visible layer holds a road tile at the cell, else ground
    when some visible layer holds a ground tile there, else none, so,
    unlike [getTileAt], it does not depend on the order of the layers. *)
Theorem X30_surface_scan_is_order_independent
    (g : Game) (tx ty : Z) (layers layers' : list TileLayer)
    (Hperm : Permutation layers layers') :
  getSurfaceAtAnyLayer_loop g (rev layers) tx ty false
  = bestSurface g tx ty layers
  /\ getSurfaceAtAnyLayer_loop g (rev layers') tx ty false
     = getSurfaceAtAnyLayer_loop g (rev layers) tx ty false.
Proof.
  assert (Hbest : forall ls,
             getSurfaceAtAnyLayer_loop g (rev ls) tx ty false
             = bestSurface g tx ty ls).
  { intro ls. rewrite getSurfaceAtAnyLayer_loop_best. unfold bestSurface.
    cbn [orb].
    rewrite !(existsb_permutation _ (rev ls) ls)
      by (apply Permutation_sym, Permutation_rev).
    reflexivity. }
  split; [apply Hbest |].
  rewrite !Hbest. unfold bestSurface.
  rewrite !(existsb_permutation _ layers layers' Hperm). reflexivity.
Qed.

(** X30 on a road layer over a grass layer, and under it. *)
Lemma X30_surface_scan_witness :
  Permutation [grass_layer; road_layer] [road_layer; grass_layer]
  /\ getSurfaceAtAnyLayer_loop surfaced_game
       (rev [road_layer; grass_layer]) 0 0 false
     = getSurfaceAtAnyLayer_loop surfaced_game
         (rev [grass_layer; road_layer]) 0 0 false.
Proof.
  assert (Hperm : Permutation [grass_layer; road_layer]
                    [road_layer; grass_layer]) by apply perm_swap.
  split; [exact Hperm |].
  destruct (X30_surface_scan_is_order_independent surfaced_game 0 0
              [grass_layer; road_layer] [road_layer; grass_layer] Hperm)
    as [_ H].
  exact H.
Defined.
